(** * A shallow embedding of the ts-json-parser recursive-descent parser

    Source: [src/jsonParser.ts] (class [JSONParser], function [parseJSON]).

    A JavaScript string is a sequence of UTF-16 code units; the parser reads
    it one code unit at a time through [this.input[this.pos]], which is
    [undefined] outside the string.  The cursor [this.pos] is threaded
    explicitly: every routine takes the cursor on entry and, when it returns
    normally, gives back the cursor it leaves behind.  A thrown
    [JSONParseError] is the [Throw] outcome. *)

From Stdlib Require Import List ZArith Lia Bool Arith String Ascii.
From Stdlib Require Import Sorting.Sorted Sorting.Permutation.
Import ListNotations.

Set Warnings "-register-all".

(** ** Strings and characters *)

(** A code unit is a number in [0, 65535]; a string is a list of them. *)
Definition jsstring : Type := list Z.

Definition chr (a : ascii) : Z := Z.of_N (N_of_ascii a).

Definition QUOTE     : Z := 34.                        (* the double quote *)
Definition BACKSLASH : Z := Eval cbv in chr "\".
Definition SLASH     : Z := Eval cbv in chr "/".
Definition LBRACE    : Z := Eval cbv in chr "{".
Definition RBRACE    : Z := Eval cbv in chr "}".
Definition LBRACKET  : Z := Eval cbv in chr "[".
Definition RBRACKET  : Z := Eval cbv in chr "]".
Definition COMMA     : Z := Eval cbv in chr ",".
Definition COLON     : Z := Eval cbv in chr ":".
Definition MINUS     : Z := Eval cbv in chr "-".
Definition PLUS      : Z := Eval cbv in chr "+".
Definition DOT       : Z := Eval cbv in chr ".".
Definition ZERO      : Z := Eval cbv in chr "0".
Definition NINE      : Z := Eval cbv in chr "9".
Definition SPACE     : Z := Eval cbv in chr " ".
Definition TAB       : Z := 9.
Definition NEWLINE   : Z := 10.
Definition RETURN    : Z := 13.
Definition BACKSPACE : Z := 8.
Definition FORMFEED  : Z := 12.

(** [txt s] is the JavaScript string written [s], where an apostrophe in [s]
    stands for the double quote character (so that JSON texts can be written
    down as literals): [txt "{'a':1}"] is the text [{"a":1}]. *)
Definition txt (s : string) : jsstring :=
  map (fun a => let c := chr a in if Z.eqb c 39 then QUOTE else c)
      (list_ascii_of_string s).

Definition jsstring_eqb (s t : jsstring) : bool :=
  if list_eq_dec Z.eq_dec s t then true else false.

(** [c === k] for a character [c] that may be [undefined]. *)
Definition charIs (c : option Z) (k : Z) : bool :=
  match c with
  | Some x => Z.eqb x k
  | None => false
  end.

(** [isWhitespace]: [char === ' ' || char === '\t' || char === '\n' || char === '\r']. *)
Definition isWhitespace (char : option Z) : bool :=
  charIs char SPACE || charIs char TAB || charIs char NEWLINE || charIs char RETURN.

(** [isDigit]: [char >= '0' && char <= '9'], a comparison of one-unit
    strings, false when [char] is [undefined]. *)
Definition isDigit (char : option Z) : bool :=
  match char with
  | Some x => Z.leb ZERO x && Z.leb x NINE
  | None => false
  end.

(** One character of the class [[0-9a-fA-F]]. *)
Definition isHexDigit (c : Z) : bool :=
  (Z.leb 48 c && Z.leb c 57) || (Z.leb 97 c && Z.leb c 102) || (Z.leb 65 c && Z.leb c 70).

(** [/^[0-9a-fA-F]{4}$/.test(hexCode)]. *)
Definition isHex4 (hexCode : jsstring) : bool :=
  Nat.eqb (List.length hexCode) 4 && forallb isHexDigit hexCode.

Definition hexDigitValue (c : Z) : Z :=
  if Z.leb 48 c && Z.leb c 57 then (c - 48)%Z
  else if Z.leb 97 c && Z.leb c 102 then (c - 87)%Z
  else (c - 55)%Z.

(** [parseInt(hexCode, 16)] on a string of hexadecimal digits. *)
Definition parseInt16 (hexCode : jsstring) : Z :=
  fold_left (fun acc c => (16 * acc + hexDigitValue c)%Z) hexCode 0%Z.

(** [String.fromCharCode(n)]: the one-unit string of code unit [n mod 2^16]. *)
Definition fromCharCode (n : Z) : jsstring := [(n mod 65536)%Z].

(** ** Values *)

(** A parsed object is an ordinary JavaScript object created by [{}]: it has
    a prototype slot (initially [Object.prototype]) and own data properties,
    kept here in creation order.  A number is kept as the validated text
    [numberStr]; [JNumber s] stands for the double [Number(s)]. *)
Inductive JSONValue : Type :=
| JNull
| JBoolean (b : bool)
| JNumber (numberStr : jsstring)
| JString (s : jsstring)
| JArray (items : list JSONValue)
| JObject (proto : Prototype) (props : list (jsstring * JSONValue))
with Prototype : Type :=
| ObjectPrototype
| NullPrototype
| ValuePrototype (v : JSONValue).

(** ** Errors *)

(** The first argument of [new JSONParseError(message, position)], one
    constructor per message of the source. *)
Inductive Message : Type :=
| UnexpectedEnd                               (* 'Unexpected end of JSON input' *)
| UnexpectedToken (char : option Z)           (* `Unexpected token '${char}'` *)
| ExpectedStringKey                           (* 'Expected string key' *)
| ExpectedColon                               (* `Expected ':' after key` *)
| ExpectedCommaOrBrace (char : option Z)      (* `Expected ',' or '}' but got '${char}'` *)
| UnterminatedObject                          (* 'Unterminated object' *)
| ExpectedCommaOrBracket (char : option Z)    (* `Expected ',' or ']' but got '${char}'` *)
| UnterminatedArray                           (* 'Unterminated array' *)
| UnterminatedEscape                          (* 'Unterminated string escape sequence' *)
| IncompleteUnicodeEscape                     (* 'Incomplete unicode escape sequence' *)
| InvalidUnicodeEscape (hexCode : jsstring)   (* `Invalid unicode escape sequence \\u${hexCode}` *)
| InvalidEscapeSequence (escapeChar : option Z) (* `Invalid escape sequence \\${escapeChar}` *)
| UnescapedControlCharacter (code : Z)        (* `Unescaped control character (code ${code})` *)
| UnterminatedString                          (* 'Unterminated string' *)
| InvalidNumberFormat                         (* 'Invalid number format' *)
| LeadingZero                                 (* 'Invalid number: leading zeros not allowed' *)
| MissingFractionDigits                       (* 'Invalid number: decimal point must be followed by digits' *)
| MissingExponentDigits                       (* 'Invalid number: exponent must contain digits' *)
| NumberOverflow (numberStr : jsstring)       (* `Invalid number: ${numberStr}` *)
| ExpectedTrue                                (* `Expected 'true'` *)
| ExpectedFalse                               (* `Expected 'false'` *)
| ExpectedNull.                               (* `Expected 'null'` *)

Record JSONParseError : Type := mkError { message : Message; position : nat }.

(** The outcome of a routine: a normal return, a thrown error, or the
    recursion bound of the embedding being reached (shown below never to
    happen with the bounds [parse] uses). *)
Inductive Result (A : Type) : Type :=
| Ok (a : A)
| Throw (e : JSONParseError)
| OutOfFuel.

Arguments Ok {A} a.
Arguments Throw {A} e.
Arguments OutOfFuel {A}.

Definition bind {A B : Type} (r : Result A) (k : A -> Result B) : Result B :=
  match r with
  | Ok a => k a
  | Throw e => Throw e
  | OutOfFuel => OutOfFuel
  end.

Notation "' p <- r ;; k" := (bind r (fun p => k))
  (at level 61, p pattern, r at next level, right associativity).

Definition throw {A : Type} (m : Message) (pos : nat) : Result A :=
  Throw (mkError m pos).

(** ** Objects: [obj[key] = value] and key enumeration *)

Definition JSObject : Type := (Prototype * list (jsstring * JSONValue))%type.

Definition objectValue (obj : JSObject) : JSONValue := JObject (fst obj) (snd obj).

(** [const obj: JSONObject = {}]. *)
Definition emptyObject : JSObject := (ObjectPrototype, []).

Definition PROTO : jsstring := txt "__proto__".

Definition hasOwnProperty (props : list (jsstring * JSONValue)) (key : jsstring) : bool :=
  existsb (fun kv => jsstring_eqb (fst kv) key) props.

(** The value of the own property [key], if there is one. *)
Fixpoint getOwnProperty (props : list (jsstring * JSONValue)) (key : jsstring)
  : option JSONValue :=
  match props with
  | [] => None
  | (k, v) :: rest => if jsstring_eqb k key then Some v else getOwnProperty rest key
  end.

(** Writing an own data property: an existing one keeps its place and takes
    the new value, a new one is created after all the others. *)
Fixpoint defineProperty (props : list (jsstring * JSONValue)) (key : jsstring)
         (value : JSONValue) : list (jsstring * JSONValue) :=
  match props with
  | [] => [(key, value)]
  | (k, v) :: rest =>
      if jsstring_eqb k key then (k, value) :: rest
      else (k, v) :: defineProperty rest key value
  end.

(** Whether looking [__proto__] up from the object [v] along its prototype
    chain ends at the accessor of [Object.prototype]: no object on the way
    has an own property of that name, and the chain does not end in [null]
    first.  An array inherits from [Array.prototype], then
    [Object.prototype]. *)
Fixpoint reachesProtoSetter (v : JSONValue) : bool :=
  match v with
  | JArray _ => true
  | JObject proto props =>
      negb (hasOwnProperty props PROTO) &&
      match proto with
      | ObjectPrototype => true
      | NullPrototype => false
      | ValuePrototype parent => reachesProtoSetter parent
      end
  | _ => false
  end.

(** [obj[key] = value] on an object built by the parser (the [[Set]] of an
    ordinary object).  Every name but [__proto__] is absent from the chain or
    is a writable data property there, so the assignment writes an own data
    property of [obj].  For [__proto__] the chain normally ends at the
    accessor of [Object.prototype], whose setter replaces the prototype of
    [obj] when [value] is an object or [null] and does nothing otherwise; no
    own property is written. *)
Definition obj_set (obj : JSObject) (key : jsstring) (value : JSONValue) : JSObject :=
  if jsstring_eqb key PROTO && reachesProtoSetter (objectValue obj) then
    match value with
    | JNull => (NullPrototype, snd obj)
    | JArray _ | JObject _ _ => (ValuePrototype value, snd obj)
    | _ => obj
    end
  else (fst obj, defineProperty (snd obj) key value).

Definition decimalValue (digits : jsstring) : Z :=
  fold_left (fun acc c => (10 * acc + (c - ZERO))%Z) digits 0%Z.

(** A property name is an array index when it is the canonical decimal
    form of an integer in [0, 2^32 - 2]. *)
Definition arrayIndex (key : jsstring) : option Z :=
  match key with
  | [] => None
  | c :: rest =>
      if forallb (fun d => isDigit (Some d)) key
         && (negb (Z.eqb c ZERO) || Nat.eqb (List.length rest) 0)
         && Z.leb (decimalValue key) 4294967294
      then Some (decimalValue key)
      else None
  end.

Definition isArrayIndex (key : jsstring) : bool :=
  match arrayIndex key with Some _ => true | None => false end.

Fixpoint insertIndex (i : Z) (key : jsstring) (l : list (Z * jsstring)) : list (Z * jsstring) :=
  match l with
  | [] => [(i, key)]
  | (j, k) :: rest =>
      if Z.leb i j then (i, key) :: l else (j, k) :: insertIndex i key rest
  end.

Definition sortedIndexKeys (keys : list jsstring) : list (Z * jsstring) :=
  fold_right (fun k acc => match arrayIndex k with
                           | Some i => insertIndex i k acc
                           | None => acc
                           end) [] keys.

(** The order in which the own keys of an object are enumerated
    ([Object.keys], [JSON.stringify], [for-in]): array indices in ascending
    numeric order, then the other names in order of creation. *)
Definition ownKeys (props : list (jsstring * JSONValue)) : list jsstring :=
  map snd (sortedIndexKeys (map fst props))
  ++ filter (fun k => negb (isArrayIndex k)) (map fst props).

(** ** [Number.isFinite(Number(numberStr))] *)

(** The longest prefix of decimal digits, and what follows it. *)
Fixpoint takeDigits (s : jsstring) : jsstring * jsstring :=
  match s with
  | c :: rest =>
      if isDigit (Some c)
      then let '(ds, tl) := takeDigits rest in (c :: ds, tl)
      else ([], s)
  | [] => ([], [])
  end.

(** Doubles round to nearest, ties to even: a decimal rounds to a finite
    double exactly when its magnitude is below [2^1024 - 2^970]. *)
Definition overflowThreshold : Z := (2 ^ 1024 - 2 ^ 970)%Z.

(** Whether the double nearest to the number written [numberStr] (a text of
    the JSON number grammar) is finite, by exact integer arithmetic on
    mantissa and decimal exponent. *)
Definition numberIsFinite (numberStr : jsstring) : bool :=
  let unsigned := match numberStr with
                  | c :: rest => if Z.eqb c MINUS then rest else numberStr
                  | [] => []
                  end in
  let '(int, s1) := takeDigits unsigned in
  let '(frac, s2) := match s1 with
                     | c :: rest => if Z.eqb c DOT then takeDigits rest else ([], s1)
                     | [] => ([], [])
                     end in
  let exponent := match s2 with
                  | _ :: d :: rest =>
                      if Z.eqb d MINUS then (- decimalValue rest)%Z
                      else if Z.eqb d PLUS then decimalValue rest
                      else decimalValue (d :: rest)
                  | _ => 0%Z
                  end in
  let mantissa := decimalValue (int ++ frac) in
  let e := (exponent - Z.of_nat (List.length frac))%Z in
  if Z.leb 0 e then Z.ltb (mantissa * 10 ^ e) overflowThreshold
  else Z.ltb mantissa (overflowThreshold * 10 ^ (- e)).

(** ** The parser *)

Definition undefinedText : jsstring := txt "undefined".

(** A character spliced into a string ([result += char]). *)
Definition strOf (char : option Z) : jsstring :=
  match char with
  | Some c => [c]
  | None => undefinedText
  end.

(** [char < ' '] on a one-unit string; false for [undefined]. *)
Definition charLt (char : option Z) (k : Z) : bool :=
  match char with
  | Some c => Z.ltb c k
  | None => false
  end.

(** The escapes of the [switch] in [parseString] that append one fixed
    character and [break]. *)
Definition simpleEscape (escapeChar : option Z) : option Z :=
  if charIs escapeChar QUOTE then Some QUOTE
  else if charIs escapeChar BACKSLASH then Some BACKSLASH
  else if charIs escapeChar SLASH then Some SLASH
  else if charIs escapeChar (chr "b") then Some BACKSPACE
  else if charIs escapeChar (chr "f") then Some FORMFEED
  else if charIs escapeChar (chr "n") then Some NEWLINE
  else if charIs escapeChar (chr "r") then Some RETURN
  else if charIs escapeChar (chr "t") then Some TAB
  else None.

Section Parser.

(** [finite numberStr] stands for [Number.isFinite(Number(numberStr))];
    [parseJSON] below instantiates it with [numberIsFinite]. *)
Variable finite : jsstring -> bool.

(** [this.input]; [this.length] is [List.length input]. *)
Variable input : jsstring.

Local Abbreviation length := (List.length input).

(** [this.input[pos]]. *)
Definition charAt (pos : nat) : option Z := nth_error input pos.

(** [this.input.slice(from, to)] for [from <= to]. *)
Definition slice (from to : nat) : jsstring := firstn (to - from) (skipn from input).

(** [skipWhitespace]: the loop runs at most [length - pos] times. *)
Fixpoint skipWhitespace_loop (fuel pos : nat) : nat :=
  match fuel with
  | O => pos
  | S fuel' =>
      if (pos <? length) && isWhitespace (charAt pos)
      then skipWhitespace_loop fuel' (S pos)
      else pos
  end.

Definition skipWhitespace (pos : nat) : nat := skipWhitespace_loop (length - pos) pos.

(** [while (this.pos < this.length && this.isDigit(this.input[this.pos])) this.pos++]. *)
Fixpoint skipDigits_loop (fuel pos : nat) : nat :=
  match fuel with
  | O => pos
  | S fuel' =>
      if (pos <? length) && isDigit (charAt pos)
      then skipDigits_loop fuel' (S pos)
      else pos
  end.

Definition skipDigits (pos : nat) : nat := skipDigits_loop (length - pos) pos.

(** The [while] loop of [parseString]; [pos] is the cursor on entry of an
    iteration. *)
Fixpoint parseString_loop (fuel : nat) (result : jsstring) (pos : nat)
  : Result (jsstring * nat) :=
  match fuel with
  | O => OutOfFuel
  | S fuel' =>
      if pos <? length then
        let char := charAt pos in
        if charIs char QUOTE then Ok (result, S pos)
        else if charIs char BACKSLASH then
          let pos := S pos in
          if length <=? pos then throw UnterminatedEscape pos
          else
            let escapeChar := charAt pos in
            match simpleEscape escapeChar with
            | Some c => parseString_loop fuel' (result ++ [c]) (S pos)
            | None =>
                if charIs escapeChar (chr "u") then
                  if length <=? pos + 4 then throw IncompleteUnicodeEscape pos
                  else
                    let hexCode := slice (pos + 1) (pos + 5) in
                    if negb (isHex4 hexCode)
                    then throw (InvalidUnicodeEscape hexCode) pos
                    else parseString_loop fuel'
                           (result ++ fromCharCode (parseInt16 hexCode))
                           (S (pos + 4))
                else throw (InvalidEscapeSequence escapeChar) pos
            end
        else if charLt char SPACE && negb (charIs char TAB) then
          throw (UnescapedControlCharacter (match char with Some c => c | None => 0%Z end)) pos
        else parseString_loop fuel' (result ++ strOf char) (S pos)
      else throw UnterminatedString pos
  end.

Definition parseString (pos : nat) : Result (jsstring * nat) :=
  parseString_loop (S (length - pos)) [] (S pos).

Definition parseNumber (pos : nat) : Result (JSONValue * nat) :=
  let start := pos in
  (* optional negative sign *)
  ' pos <- (if charIs (charAt pos) MINUS then
              let pos := S pos in
              if (length <=? pos) || negb (isDigit (charAt pos))
              then throw InvalidNumberFormat pos
              else Ok pos
            else Ok pos) ;;
  (* integer part *)
  ' pos <- (if charIs (charAt pos) ZERO then
              let pos := S pos in
              if (pos <? length) && isDigit (charAt pos)
              then throw LeadingZero pos
              else Ok pos
            else if isDigit (charAt pos) then Ok (skipDigits pos)
            else throw InvalidNumberFormat pos) ;;
  (* decimal part *)
  ' pos <- (if (pos <? length) && charIs (charAt pos) DOT then
              let pos := S pos in
              if (length <=? pos) || negb (isDigit (charAt pos))
              then throw MissingFractionDigits pos
              else Ok (skipDigits pos)
            else Ok pos) ;;
  (* exponent part *)
  ' pos <- (if (pos <? length)
               && (charIs (charAt pos) (chr "e") || charIs (charAt pos) (chr "E")) then
              let pos := S pos in
              let pos := if (pos <? length)
                            && (charIs (charAt pos) PLUS || charIs (charAt pos) MINUS)
                         then S pos else pos in
              if (length <=? pos) || negb (isDigit (charAt pos))
              then throw MissingExponentDigits pos
              else Ok (skipDigits pos)
            else Ok pos) ;;
  let numberStr := slice start pos in
  if negb (finite numberStr) then throw (NumberOverflow numberStr) start
  else Ok (JNumber numberStr, pos).

Definition parseTrue (pos : nat) : Result (JSONValue * nat) :=
  if jsstring_eqb (slice pos (pos + 4)) (txt "true") then Ok (JBoolean true, pos + 4)
  else throw ExpectedTrue pos.

Definition parseFalse (pos : nat) : Result (JSONValue * nat) :=
  if jsstring_eqb (slice pos (pos + 5)) (txt "false") then Ok (JBoolean false, pos + 5)
  else throw ExpectedFalse pos.

Definition parseNull (pos : nat) : Result (JSONValue * nat) :=
  if jsstring_eqb (slice pos (pos + 4)) (txt "null") then Ok (JNull, pos + 4)
  else throw ExpectedNull pos.

Section Containers.

(** The recursive re-entry point [this.parseValue()], as seen from the
    object and array loops. *)
Variable parseValue : nat -> Result (JSONValue * nat).

(** The part of the body of the [while] loop of [parseObject] that follows
    the [if (!first)] block: the key, the colon and the value of an entry;
    [again key value pos] is what the loop does with them next. *)
Definition parseObject_entry {R : Type} (again : jsstring -> JSONValue -> nat -> Result (R * nat))
           (pos : nat) : Result (R * nat) :=
  let pos := skipWhitespace pos in
  (* key *)
  if (length <=? pos) || negb (charIs (charAt pos) QUOTE)
  then throw ExpectedStringKey pos
  else
    ' (key, pos) <- parseString pos ;;
    let pos := skipWhitespace pos in
    (* colon *)
    if (length <=? pos) || negb (charIs (charAt pos) COLON)
    then throw ExpectedColon pos
    else
      let pos := S pos in
      ' (value, pos) <- parseValue pos ;;
      again key value pos.

(** The [while] loop of [parseObject], entered with [obj], [first] and
    the cursor [pos]; an entry is stored by [obj[key] = value] and the loop
    goes round again. *)
Fixpoint parseObject_loop (fuel : nat) (obj : JSObject) (first : bool) (pos : nat)
  : Result (JSONValue * nat) :=
  match fuel with
  | O => OutOfFuel
  | S fuel' =>
      let again (key : jsstring) (value : JSONValue) (pos : nat) :=
        parseObject_loop fuel' (obj_set obj key value) false pos in
      if pos <? length then
        if first then parseObject_entry again pos
        else
          let pos := skipWhitespace pos in
          if length <=? pos then throw UnexpectedEnd pos
          else if charIs (charAt pos) RBRACE then Ok (objectValue obj, S pos)
          else if negb (charIs (charAt pos) COMMA)
               then throw (ExpectedCommaOrBrace (charAt pos)) pos
               else parseObject_entry again (S pos)
      else throw UnterminatedObject pos
  end.

Definition parseObject (pos : nat) : Result (JSONValue * nat) :=
  let obj := emptyObject in
  let pos := S pos in
  let pos := skipWhitespace pos in
  if (pos <? length) && charIs (charAt pos) RBRACE then Ok (objectValue obj, S pos)
  else parseObject_loop (S (S (length - pos))) obj true pos.

(** The entries of an object in the order in which its text has them: the
    loop of [parseObject] again, with each entry appended to a list where
    [parseObject] stores it into [obj]. *)
Fixpoint objectEntries_loop (fuel : nat) (entries : list (jsstring * JSONValue))
         (first : bool) (pos : nat) : Result (list (jsstring * JSONValue) * nat) :=
  match fuel with
  | O => OutOfFuel
  | S fuel' =>
      let again (key : jsstring) (value : JSONValue) (pos : nat) :=
        objectEntries_loop fuel' (entries ++ [(key, value)]) false pos in
      if pos <? length then
        if first then parseObject_entry again pos
        else
          let pos := skipWhitespace pos in
          if length <=? pos then throw UnexpectedEnd pos
          else if charIs (charAt pos) RBRACE then Ok (entries, S pos)
          else if negb (charIs (charAt pos) COMMA)
               then throw (ExpectedCommaOrBrace (charAt pos)) pos
               else parseObject_entry again (S pos)
      else throw UnterminatedObject pos
  end.

Definition objectEntries (pos : nat) : Result (list (jsstring * JSONValue) * nat) :=
  let pos := S pos in
  let pos := skipWhitespace pos in
  if (pos <? length) && charIs (charAt pos) RBRACE then Ok ([], S pos)
  else objectEntries_loop (S (S (length - pos))) [] true pos.

(** The part of the body of the [while] loop of [parseArray] that follows
    the [if (!first)] block: value, [arr.push(value)]. *)
Definition parseArray_element (again : list JSONValue -> nat -> Result (JSONValue * nat))
           (arr : list JSONValue) (pos : nat) : Result (JSONValue * nat) :=
  ' (value, pos) <- parseValue pos ;;
  again (arr ++ [value]) pos.

(** The [while] loop of [parseArray]. *)
Fixpoint parseArray_loop (fuel : nat) (arr : list JSONValue) (first : bool) (pos : nat)
  : Result (JSONValue * nat) :=
  match fuel with
  | O => OutOfFuel
  | S fuel' =>
      let again (arr : list JSONValue) (pos : nat) := parseArray_loop fuel' arr false pos in
      if pos <? length then
        if first then parseArray_element again arr pos
        else
          let pos := skipWhitespace pos in
          if length <=? pos then throw UnexpectedEnd pos
          else if charIs (charAt pos) RBRACKET then Ok (JArray arr, S pos)
          else if negb (charIs (charAt pos) COMMA)
               then throw (ExpectedCommaOrBracket (charAt pos)) pos
               else parseArray_element again arr (S pos)
      else throw UnterminatedArray pos
  end.

Definition parseArray (pos : nat) : Result (JSONValue * nat) :=
  let arr := [] in
  let pos := S pos in
  let pos := skipWhitespace pos in
  if (pos <? length) && charIs (charAt pos) RBRACKET then Ok (JArray arr, S pos)
  else parseArray_loop (S (S (length - pos))) arr true pos.

End Containers.

(** [parseValue]; [fuel] bounds the depth of the recursion through
    [parseObject] and [parseArray]. *)
Fixpoint parseValue (fuel : nat) (pos : nat) : Result (JSONValue * nat) :=
  match fuel with
  | O => OutOfFuel
  | S fuel' =>
      let pos := skipWhitespace pos in
      if length <=? pos then throw UnexpectedEnd pos
      else
        let char := charAt pos in
        if charIs char LBRACE then parseObject (parseValue fuel') pos
        else if charIs char LBRACKET then parseArray (parseValue fuel') pos
        else if charIs char QUOTE then
          ' (s, pos) <- parseString pos ;; Ok (JString s, pos)
        else if charIs char (chr "t") then parseTrue pos
        else if charIs char (chr "f") then parseFalse pos
        else if charIs char (chr "n") then parseNull pos
        else if charIs char MINUS || isDigit char then parseNumber pos
        else throw (UnexpectedToken char) pos
  end.

(** [parse]: the cursor is reset to 0; a value nested [d] deep starts at
    index [d] at least, so [length + 1] levels of recursion are enough. *)
Definition parse : Result JSONValue :=
  let pos := 0 in
  let pos := skipWhitespace pos in
  if length <=? pos then throw UnexpectedEnd pos
  else
    ' (value, pos) <- parseValue (S length) pos ;;
    let pos := skipWhitespace pos in
    if pos <? length then throw (UnexpectedToken (charAt pos)) pos
    else Ok value.

End Parser.

(** [parseJSON(input)]: [new JSONParser(input).parse()]. *)
Definition parseJSON (input : jsstring) : Result JSONValue := parse numberIsFinite input.


(** The entries of the object that is the top-level value of [input]. *)
Definition topLevelEntries (finite : jsstring -> bool) (input : jsstring)
  : Result (list (jsstring * JSONValue) * nat) :=
  objectEntries input (parseValue finite input (List.length input)) (skipWhitespace input 0).

(** Storing a list of entries one after the other, as the loop of
    [parseObject] does. *)
Definition storeAll (obj : JSObject) (entries : list (jsstring * JSONValue)) : JSObject :=
  fold_left (fun o kv => obj_set o (fst kv) (snd kv)) entries obj.

Definition addKey (seen : list jsstring) (key : jsstring) : list jsstring :=
  if existsb (fun k => jsstring_eqb k key) seen then seen else seen ++ [key].

(** The distinct keys of a list, each at the place of its first occurrence. *)
Definition firstOccurrences (keys : list jsstring) : list jsstring :=
  fold_left addKey keys [].

(** The value of the last entry of [entries] under [key]. *)
Fixpoint lastValue (entries : list (jsstring * JSONValue)) (key : jsstring)
  : option JSONValue :=
  match entries with
  | [] => None
  | (k, v) :: rest =>
      match lastValue rest key with
      | Some v' => Some v'
      | None => if jsstring_eqb k key then Some v else None
      end
  end.

(** A character that [parseString] appends as it stands: not the closing
    quote, not a backslash, and not a control character other than tab. *)
Definition plainChar (c : Z) : bool :=
  negb (Z.eqb c QUOTE) && negb (Z.eqb c BACKSLASH) && (negb (Z.ltb c SPACE) || Z.eqb c TAB).

(** ** The grammar, and what it means for a character to violate it *)

(** [parse anyNumber] is the parser without the range check on numbers: it
    accepts exactly the texts of the grammar the parser implements. *)
Definition anyNumber (numberStr : jsstring) : bool := true.

Definition grammatical (text : jsstring) : Prop :=
  exists value, parse anyNumber text = Ok value.

(** The messages of the errors that are positioned where a token or an
    escape begins, not where it goes wrong: the three literals, the unicode
    escape (positioned at its [u]) and the number that overflows. *)
Definition anchored (m : Message) : bool :=
  match m with
  | ExpectedTrue | ExpectedFalse | ExpectedNull
  | IncompleteUnicodeEscape | InvalidUnicodeEscape _
  | NumberOverflow _ => true
  | _ => false
  end.

(** A character, or the end of the input, at which a number stops. *)
Definition numberStop (c : option Z) : bool :=
  negb (isDigit c) && negb (charIs c DOT)
  && negb (charIs c (chr "e")) && negb (charIs c (chr "E")).

(** Two inputs that have the same first [n] characters. *)
Definition agree (s s' : jsstring) (n : nat) : Prop :=
  forall i, i < n -> charAt s' i = charAt s i.

(** The same, and at index [n] the second input has the character of the
    first or one at which a number stops. *)
Definition soft (s s' : jsstring) (n : nat) : Prop :=
  agree s s' n /\ (charAt s' n = charAt s n \/ numberStop (charAt s' n) = true).

(** The outcome [r] of a routine on [s] is also its outcome [r'] on [s'],
    when the two inputs are the same as far as the routine has read: up to
    the cursor it returns, or up to and including the position of the error
    it throws (errors that are anchored apart). *)
Definition transfers (s s' : jsstring) (hi : nat) {A : Type} (r r' : Result (A * nat)) : Prop :=
  match r with
  | Ok (_, p) => soft s s' p -> p <= hi -> r' = r
  | Throw e =>
      anchored (message e) = false -> agree s s' (S (position e)) -> position e <= hi -> r' = r
  | OutOfFuel => True
  end.

(** A routine that has read the character at [x]: it returns past [x], or
    throws at [x] or later, or throws an anchored error. *)
Definition beyond (x : nat) {A : Type} (r : Result (A * nat)) : Prop :=
  match r with
  | Ok (_, p) => x < p
  | Throw e => x <= position e \/ anchored (message e) = true
  | OutOfFuel => True
  end.

(** Markers that the proof scripts put on hypotheses: a test whose
    arithmetic content has been drawn, and a fact kept out of rewriting. *)
Definition learned {A : Type} (x : A) : Prop := True.
Definition kept (P : Prop) : Prop := P.

(** The messages that report that the input ran out. *)
Definition reportsExhaustion (m : Message) : bool :=
  match m with
  | UnexpectedEnd | UnterminatedObject | UnterminatedArray
  | UnterminatedString | UnterminatedEscape => true
  | _ => false
  end.

(** A routine entered with the cursor at [pos] leaves it, on return, between
    [pos] and the end of the input; an error it throws is positioned there
    too. *)
Definition within (input : jsstring) (pos : nat) {A : Type} (r : Result (A * nat)) : Prop :=
  match r with
  | Ok (_, pos') => pos <= pos' <= List.length input
  | Throw e => pos <= position e <= List.length input
  | OutOfFuel => True
  end.

(** An error that reports exhaustion is positioned at the end of the input. *)
Definition atEnd (input : jsstring) {A : Type} (r : Result A) : Prop :=
  match r with
  | Throw e => reportsExhaustion (message e) = true -> position e = List.length input
  | _ => True
  end.

(** The order of the array indices among the keys. *)
Definition indexLe (a b : Z * jsstring) : Prop := (fst a <= fst b)%Z.

(** ** Completing an input that stops at an error *)

(** What closes a string literal after an error in it. *)
Definition closeString (m : Message) : jsstring :=
  match m with
  | UnterminatedEscape | InvalidEscapeSequence _ => [chr "n"; QUOTE]
  | _ => [QUOTE]
  end.

(** What closes a number after an error in it. *)
Definition closeNumber (m : Message) : jsstring :=
  match m with
  | LeadingZero => []
  | _ => [ZERO]
  end.

(** A text at whose first character, or end, a number stops. *)
Definition stops (u : jsstring) : Prop := numberStop (nth_error u 0) = true.

(** What it is for the errors of [parseValue] at depth [f] to be
    completable. *)
Definition valueCompletes (g : jsstring -> bool) (s : jsstring) (f : nat) : Prop :=
  forall (pos : nat) (m : Message) (p : nat),
    pos <= List.length s ->
    parseValue g s f pos = throw m p ->
    anchored m = false ->
    exists t,
      (p <= skipWhitespace s pos -> nth_error t 0 = Some ZERO)
      /\ forall u, stops u ->
         forall df, p + List.length t < df + pos ->
           exists v,
             parseValue anyNumber (firstn p s ++ t ++ u) df pos = Ok (v, p + List.length t).

(** Where the anchored errors are thrown: at the first character of the
    literal that does not match, at the [u] of the escape, at the first
    character of the number. *)
Definition site (finite : jsstring -> bool) (s : jsstring) (m : Message) (p : nat) : Prop :=
  match m with
  | ExpectedTrue =>
      charIs (charAt s p) (chr "t") = true
      /\ jsstring_eqb (slice s p (p + 4)) (txt "true") = false
  | ExpectedFalse =>
      charIs (charAt s p) (chr "f") = true
      /\ jsstring_eqb (slice s p (p + 5)) (txt "false") = false
  | ExpectedNull =>
      charIs (charAt s p) (chr "n") = true
      /\ jsstring_eqb (slice s p (p + 4)) (txt "null") = false
  | IncompleteUnicodeEscape =>
      charIs (charAt s p) (chr "u") = true
      /\ (exists q, p = S q /\ charIs (charAt s q) BACKSLASH = true)
      /\ List.length s <= p + 4
  | InvalidUnicodeEscape hexCode =>
      charIs (charAt s p) (chr "u") = true
      /\ (exists q, p = S q /\ charIs (charAt s q) BACKSLASH = true)
      /\ hexCode = slice s (p + 1) (p + 5) /\ isHex4 hexCode = false
  | NumberOverflow numberStr =>
      charIs (charAt s p) MINUS || isDigit (charAt s p) = true
      /\ (exists q, numberStr = slice s p q) /\ finite numberStr = false
  | _ => True
  end.

Definition sited (finite : jsstring -> bool) (s : jsstring) {A : Type} (r : Result A) : Prop :=
  match r with
  | Throw e => site finite s (message e) (position e)
  | _ => True
  end.


(** * More of the parser, and the page: definitions *)

Definition refines {A : Type} (r r' : Result A) : Prop := r <> OutOfFuel -> r' = r.

(** The result of a routine, seen from [n] characters further left. *)
Definition behind (n : nat) {A : Type} (r : Result (A * nat)) : Result (A * nat) :=
  match r with
  | Ok (a, p) => Ok (a, n + p)
  | Throw e => throw (message e) (n + position e)
  | OutOfFuel => OutOfFuel
  end.

Definition behindCursor (n : nat) (r : Result nat) : Result nat :=
  match r with
  | Ok p => Ok (n + p)
  | Throw e => throw (message e) (n + position e)
  | OutOfFuel => OutOfFuel
  end.

(** A text made of whitespace. *)
Definition blank (ws : jsstring) : Prop := Forall (fun c => isWhitespace (Some c) = true) ws.

(** The [switch] of [parseValue], read from the value it returns: the
    character under the cursor and the routine that made the value. *)
Definition madeBy (g : jsstring -> bool) (s : jsstring) (f : nat) (q : nat)
           (v : JSONValue) (p : nat) : Prop :=
  match v with
  | JObject _ _ =>
      charIs (charAt s q) LBRACE = true /\ parseObject s (parseValue g s f) q = Ok (v, p)
  | JArray _ =>
      charIs (charAt s q) LBRACKET = true /\ parseArray s (parseValue g s f) q = Ok (v, p)
  | JString k => charIs (charAt s q) QUOTE = true /\ parseString s q = Ok (k, p)
  | JBoolean true =>
      charIs (charAt s q) (chr "t") = true /\ slice s q (q + 4) = txt "true" /\ p = q + 4
  | JBoolean false =>
      charIs (charAt s q) (chr "f") = true /\ slice s q (q + 5) = txt "false" /\ p = q + 5
  | JNull =>
      charIs (charAt s q) (chr "n") = true /\ slice s q (q + 4) = txt "null" /\ p = q + 4
  | JNumber _ =>
      charIs (charAt s q) MINUS || isDigit (charAt s q) = true
      /\ parseNumber g s q = Ok (v, p)
  end.

(** What starts a value starts no other thing that the loops look for. *)
Definition startsValue (c : option Z) : bool :=
  charIs c LBRACE || charIs c LBRACKET || charIs c QUOTE
  || charIs c (chr "t") || charIs c (chr "f") || charIs c (chr "n")
  || charIs c MINUS || isDigit c.

(** What a string literal is made of between its quotes: a character that
    stands for itself, a backslash and one of the eight characters of the
    [switch], or [\u] and four hexadecimal digits. *)
Inductive StringItem : Type :=
| Plain (c : Z)
| Escape (escapeChar : Z)
| Unicode (hexCode : jsstring).

Definition itemText (i : StringItem) : jsstring :=
  match i with
  | Plain c => [c]
  | Escape escapeChar => [BACKSLASH; escapeChar]
  | Unicode hexCode => BACKSLASH :: chr "u" :: hexCode
  end.

(** What the loop of [parseString] appends for the item. *)
Definition itemValue (i : StringItem) : jsstring :=
  match i with
  | Plain c => [c]
  | Escape escapeChar =>
      match simpleEscape (Some escapeChar) with
      | Some c => [c]
      | None => []
      end
  | Unicode hexCode => fromCharCode (parseInt16 hexCode)
  end.

Definition itemOk (i : StringItem) : bool :=
  match i with
  | Plain c => plainChar c
  | Escape escapeChar =>
      match simpleEscape (Some escapeChar) with
      | Some _ => true
      | None => false
      end
  | Unicode hexCode => isHex4 hexCode
  end.

Definition itemsText (items : list StringItem) : jsstring := flat_map itemText items.
Definition itemsValue (items : list StringItem) : jsstring := flat_map itemValue items.

Definition digits (ds : jsstring) : bool := forallb (fun c => isDigit (Some c)) ds.

(** The parts of a number literal: the sign, the digits of the integer
    part, the digits behind the point, and the letter, the sign and the
    digits of the exponent. *)
Record NumberParts : Type := mkNumberParts {
  negative : bool;
  integer : jsstring;
  fraction : option jsstring;
  exponent : option (Z * option Z * jsstring)
}.

Definition signText (negative : bool) : jsstring := if negative then [MINUS] else [].

Definition fractionText (fraction : option jsstring) : jsstring :=
  match fraction with
  | Some ds => DOT :: ds
  | None => []
  end.

Definition exponentText (exponent : option (Z * option Z * jsstring)) : jsstring :=
  match exponent with
  | Some (letter, sign, ds) =>
      letter :: match sign with Some c => [c] | None => [] end ++ ds
  | None => []
  end.

Definition numberText (n : NumberParts) : jsstring :=
  signText (negative n) ++ integer n ++ fractionText (fraction n) ++ exponentText (exponent n).

(** One digit, or digits of which the first is not [0]. *)
Definition integerOk (ds : jsstring) : bool :=
  match ds with
  | [] => false
  | [c] => isDigit (Some c)
  | c :: _ => negb (Z.eqb c ZERO) && digits ds
  end.

Definition fractionOk (fraction : option jsstring) : bool :=
  match fraction with
  | Some ds => negb (Nat.eqb (List.length ds) 0) && digits ds
  | None => true
  end.

Definition exponentOk (exponent : option (Z * option Z * jsstring)) : bool :=
  match exponent with
  | Some (letter, sign, ds) =>
      (Z.eqb letter (chr "e") || Z.eqb letter (chr "E"))
      && match sign with Some c => Z.eqb c PLUS || Z.eqb c MINUS | None => true end
      && negb (Nat.eqb (List.length ds) 0) && digits ds
  | None => true
  end.

Definition partsOk (n : NumberParts) : bool :=
  integerOk (integer n) && fractionOk (fraction n) && exponentOk (exponent n).

(** The four steps of [parseNumber] before the conversion. *)
Section NumberSteps.

Variable input : jsstring.

Definition signStep (pos : nat) : Result nat :=
  if charIs (charAt input pos) MINUS then
    let pos := S pos in
    if (List.length input <=? pos) || negb (isDigit (charAt input pos))
    then throw InvalidNumberFormat pos
    else Ok pos
  else Ok pos.

Definition integerStep (pos : nat) : Result nat :=
  if charIs (charAt input pos) ZERO then
    let pos := S pos in
    if (pos <? List.length input) && isDigit (charAt input pos)
    then throw LeadingZero pos
    else Ok pos
  else if isDigit (charAt input pos) then Ok (skipDigits input pos)
  else throw InvalidNumberFormat pos.

Definition fractionStep (pos : nat) : Result nat :=
  if (pos <? List.length input) && charIs (charAt input pos) DOT then
    let pos := S pos in
    if (List.length input <=? pos) || negb (isDigit (charAt input pos))
    then throw MissingFractionDigits pos
    else Ok (skipDigits input pos)
  else Ok pos.

Definition exponentStep (pos : nat) : Result nat :=
  if (pos <? List.length input)
     && (charIs (charAt input pos) (chr "e") || charIs (charAt input pos) (chr "E")) then
    let pos := S pos in
    let pos := if (pos <? List.length input)
                  && (charIs (charAt input pos) PLUS || charIs (charAt input pos) MINUS)
               then S pos else pos in
    if (List.length input <=? pos) || negb (isDigit (charAt input pos))
    then throw MissingExponentDigits pos
    else Ok (skipDigits input pos)
  else Ok pos.

End NumberSteps.

(** The last character that the routine of each kind of value consumes. *)
Definition endOf (v : JSONValue) (c : option Z) : bool :=
  match v with
  | JObject _ _ => charIs c RBRACE
  | JArray _ => charIs c RBRACKET
  | JString _ => charIs c QUOTE
  | JBoolean _ => charIs c (chr "e")
  | JNull => charIs c (chr "l")
  | JNumber _ => isDigit c
  end.

(** A cursor behind a character that is not whitespace. *)
Definition solid (s : jsstring) (p : nat) : Prop :=
  exists k, p = S k /\ isWhitespace (charAt s k) = false.

(** The texts of the elements that follow the first, each behind its comma. *)
Definition moreElements (ts : list jsstring) : jsstring := flat_map (cons COMMA) ts.

(** The text of an array from the texts of its elements. *)
Definition arrayText (ts : list jsstring) : jsstring :=
  match ts with
  | [] => [LBRACKET; RBRACKET]
  | t :: rest => LBRACKET :: t ++ moreElements rest ++ [RBRACKET]
  end.

(** A text and the value [parse] gives it. *)
Definition valued (g : jsstring -> bool) (t : jsstring) (v : JSONValue) : Prop :=
  parse g t = Ok v.

(** The text of an entry: the text of the key, a colon, the text of the
    value. *)
Definition entryText (e : jsstring * jsstring) : jsstring := fst e ++ COLON :: snd e.

Definition moreEntries (es : list (jsstring * jsstring)) : jsstring :=
  flat_map (fun e => COMMA :: entryText e) es.

(** The text of an object from the texts of its entries. *)
Definition objectText (es : list (jsstring * jsstring)) : jsstring :=
  match es with
  | [] => [LBRACE; RBRACE]
  | e :: rest => LBRACE :: entryText e ++ moreEntries rest ++ [RBRACE]
  end.

(** The texts of an entry, the key it names and the value it has. *)
Definition entryValued (g : jsstring -> bool) (e : jsstring * jsstring)
           (kv : jsstring * JSONValue) : Prop :=
  valued g (fst e) (JString (fst kv)) /\ valued g (snd e) (snd kv).

(** The character that the [switch] of [parseValue] requires for a value
    of each kind. *)
Definition startOf (v : JSONValue) (c : option Z) : bool :=
  match v with
  | JObject _ _ => charIs c LBRACE
  | JArray _ => charIs c LBRACKET
  | JString _ => charIs c QUOTE
  | JBoolean true => charIs c (chr "t")
  | JBoolean false => charIs c (chr "f")
  | JNull => charIs c (chr "n")
  | JNumber _ => charIs c MINUS || isDigit c
  end.

(** [s] as a JavaScript string, character by character. *)
Definition plain (s : string) : jsstring := map chr (list_ascii_of_string s).

(** The digits of a number in base ten: [`${position}`]. *)
Fixpoint uintText (u : Decimal.uint) : jsstring :=
  match u with
  | Decimal.Nil => []
  | Decimal.D0 u => 48%Z :: uintText u
  | Decimal.D1 u => 49%Z :: uintText u
  | Decimal.D2 u => 50%Z :: uintText u
  | Decimal.D3 u => 51%Z :: uintText u
  | Decimal.D4 u => 52%Z :: uintText u
  | Decimal.D5 u => 53%Z :: uintText u
  | Decimal.D6 u => 54%Z :: uintText u
  | Decimal.D7 u => 55%Z :: uintText u
  | Decimal.D8 u => 56%Z :: uintText u
  | Decimal.D9 u => 57%Z :: uintText u
  end.

Definition decimal (n : nat) : jsstring := uintText (Nat.to_uint n).

(** The first argument of [new JSONParseError(message, position)], as the
    string that the source builds. *)
Definition messageText (m : Message) : jsstring :=
  match m with
  | UnexpectedEnd => plain "Unexpected end of JSON input"
  | UnexpectedToken char => plain "Unexpected token '" ++ strOf char ++ plain "'"
  | ExpectedStringKey => plain "Expected string key"
  | ExpectedColon => plain "Expected ':' after key"
  | ExpectedCommaOrBrace char =>
      plain "Expected ',' or '}' but got '" ++ strOf char ++ plain "'"
  | UnterminatedObject => plain "Unterminated object"
  | ExpectedCommaOrBracket char =>
      plain "Expected ',' or ']' but got '" ++ strOf char ++ plain "'"
  | UnterminatedArray => plain "Unterminated array"
  | UnterminatedEscape => plain "Unterminated string escape sequence"
  | IncompleteUnicodeEscape => plain "Incomplete unicode escape sequence"
  | InvalidUnicodeEscape hexCode =>
      plain "Invalid unicode escape sequence " ++ BACKSLASH :: chr "u" :: hexCode
  | InvalidEscapeSequence escapeChar =>
      plain "Invalid escape sequence " ++ BACKSLASH :: strOf escapeChar
  | UnescapedControlCharacter code =>
      plain "Unescaped control character (code " ++ decimal (Z.to_nat code) ++ plain ")"
  | UnterminatedString => plain "Unterminated string"
  | InvalidNumberFormat => plain "Invalid number format"
  | LeadingZero => plain "Invalid number: leading zeros not allowed"
  | MissingFractionDigits => plain "Invalid number: decimal point must be followed by digits"
  | MissingExponentDigits => plain "Invalid number: exponent must contain digits"
  | NumberOverflow numberStr => plain "Invalid number: " ++ numberStr
  | ExpectedTrue => plain "Expected 'true'"
  | ExpectedFalse => plain "Expected 'false'"
  | ExpectedNull => plain "Expected 'null'"
  end.

(** [err.message]: the constructor of [JSONParseError] passes
    [`${message} at position ${position}`] to [Error]. *)
Definition errorMessage (err : JSONParseError) : jsstring :=
  messageText (message err) ++ plain " at position " ++ decimal (position err).

(** The characters that [String.prototype.trim] removes: the white space
    and the line terminators of ECMAScript (tab, line feed, vertical tab,
    form feed, carriage return, space, no-break space, U+1680, U+2000 to
    U+200A, U+2028, U+2029, U+202F, U+205F, U+3000 and U+FEFF). *)
Definition isTrimmed (c : Z) : bool :=
  (Z.leb 9 c && Z.leb c 13) || Z.eqb c 32 || Z.eqb c 160 || Z.eqb c 5760
  || (Z.leb 8192 c && Z.leb c 8202) || Z.eqb c 8232 || Z.eqb c 8233
  || Z.eqb c 8239 || Z.eqb c 8287 || Z.eqb c 12288 || Z.eqb c 65279.

Fixpoint trimStart (s : jsstring) : jsstring :=
  match s with
  | c :: rest => if isTrimmed c then trimStart rest else s
  | [] => []
  end.

Definition trimEnd (s : jsstring) : jsstring := rev (trimStart (rev s)).

(** [s.trim()]. *)
Definition trim (s : jsstring) : jsstring := trimEnd (trimStart s).

(** What the handlers read and write: [inputEl.value] and
    [outputEl.textContent]. *)
Record Page : Type := mkPage {
  inputEl_value : jsstring;
  outputEl_textContent : jsstring
}.

(** The heavy cross that starts the line of an error. *)
Definition CROSS : Z := 10060.

Section Handlers.

(** [JSON.stringify(result, null, 2)]. *)
Variable stringify : JSONValue -> jsstring.

(** The listener of the Parse button.  [parse] always comes to an end, so
    the last case of the [match] never arises. *)
Definition parseBtn_click (page : Page) : Result Page :=
  let text := trim (inputEl_value page) in
  match text with
  | [] => Ok (mkPage (inputEl_value page) (plain "Please enter JSON input."))
  | _ =>
      match parseJSON text with
      | Ok result => Ok (mkPage (inputEl_value page) (stringify result))
      | Throw err =>
          Ok (mkPage (inputEl_value page) (CROSS :: plain " Error: " ++ errorMessage err))
      | OutOfFuel => OutOfFuel
      end
  end.

(** The listener of the Clear button. *)
Definition clearBtn_click (page : Page) : Page := mkPage [] [].

End Handlers.


Arguments charAt : simpl never.
Arguments slice : simpl never.
Arguments skipWhitespace : simpl never.
Arguments skipDigits : simpl never.
Arguments parseString : simpl never.
Arguments parseNumber : simpl never.
Arguments simpleEscape : simpl never.
Arguments charIs : simpl never.
Arguments isDigit : simpl never.
Arguments isWhitespace : simpl never.

(** * Properties *)

(** ** Reading characters and skipping runs *)

Section Scanning.

Variable input : jsstring.

Local Abbreviation length := (List.length input).

Lemma charAt_Some_lt (pos : nat) (c : Z) : charAt input pos = Some c -> pos < length.
Proof.
  unfold charAt. intros H. apply nth_error_Some. congruence.
Qed.

Lemma charAt_lt_Some (pos : nat) : pos < length -> exists c, charAt input pos = Some c.
Proof.
  unfold charAt. intros H. destruct (nth_error input pos) eqn:E; eauto.
  apply nth_error_None in E. lia.
Qed.

Lemma charAt_ge_None (pos : nat) : length <= pos -> charAt input pos = None.
Proof. unfold charAt. apply nth_error_None. Qed.

Lemma charIs_lt (pos : nat) (k : Z) : charIs (charAt input pos) k = true -> pos < length.
Proof.
  destruct (charAt input pos) eqn:E; simpl; [intros _; eauto using charAt_Some_lt | discriminate].
Qed.

Lemma isDigit_lt (pos : nat) : isDigit (charAt input pos) = true -> pos < length.
Proof.
  destruct (charAt input pos) eqn:E; simpl; [intros _; eauto using charAt_Some_lt | discriminate].
Qed.

Lemma isWhitespace_lt (pos : nat) : isWhitespace (charAt input pos) = true -> pos < length.
Proof.
  destruct (charAt input pos) eqn:E; [intros _; eauto using charAt_Some_lt | discriminate].
Qed.

(** The loop of [skipWhitespace] unfolds as the source reads: one test, one
    step, and again. *)
Lemma skipWhitespace_eq (pos : nat) :
  skipWhitespace input pos =
  if (pos <? length) && isWhitespace (charAt input pos)
  then skipWhitespace input (S pos) else pos.
Proof.
  unfold skipWhitespace.
  destruct (pos <? length) eqn:E.
  - apply Nat.ltb_lt in E.
    replace (length - pos) with (S (length - S pos)) by lia.
    simpl. apply Nat.ltb_lt in E. rewrite E. reflexivity.
  - apply Nat.ltb_ge in E. replace (length - pos) with 0 by lia. reflexivity.
Qed.

Lemma skipDigits_eq (pos : nat) :
  skipDigits input pos =
  if (pos <? length) && isDigit (charAt input pos)
  then skipDigits input (S pos) else pos.
Proof.
  unfold skipDigits.
  destruct (pos <? length) eqn:E.
  - apply Nat.ltb_lt in E.
    replace (length - pos) with (S (length - S pos)) by lia.
    simpl. apply Nat.ltb_lt in E. rewrite E. reflexivity.
  - apply Nat.ltb_ge in E. replace (length - pos) with 0 by lia. reflexivity.
Qed.

(** A run-skipping loop, whatever the class of characters: where it stops,
    what it passed over, and that it only moves forward. *)
Section Runs.

Variable skip : nat -> nat.
Variable class : option Z -> bool.
Hypothesis skip_eq : forall pos,
  skip pos = if (pos <? length) && class (charAt input pos) then skip (S pos) else pos.

Lemma run_spec_measure (n pos : nat) :
  length - pos <= n ->
  pos <= skip pos /\
  (pos <= length -> skip pos <= length) /\
  (skip pos <? length) && class (charAt input (skip pos)) = false /\
  (forall i, pos <= i < skip pos -> class (charAt input i) = true).
Proof.
  revert pos. induction n as [|n IH]; intros pos Hn.
  - assert (E : (pos <? length) = false) by (apply Nat.ltb_ge; lia).
    assert (S0 : skip pos = pos) by (rewrite skip_eq, E; reflexivity).
    rewrite S0, E. repeat split; try lia.
  - destruct ((pos <? length) && class (charAt input pos)) eqn:E.
    + assert (S0 : skip pos = skip (S pos)) by (rewrite skip_eq, E; reflexivity).
      apply andb_true_iff in E. destruct E as [E1 E2]. apply Nat.ltb_lt in E1.
      destruct (IH (S pos)) as (A & B & C & D); [lia|].
      rewrite S0. repeat split; try lia; auto.
      intros i Hi. destruct (Nat.eq_dec i pos) as [->|]; auto. apply D. lia.
    + assert (S0 : skip pos = pos) by (rewrite skip_eq, E; reflexivity).
      rewrite S0. repeat split; try lia; auto.
Qed.

Lemma run_ge (pos : nat) : pos <= skip pos.
Proof. apply (run_spec_measure (length - pos)). lia. Qed.

Lemma run_le (pos : nat) : pos <= length -> skip pos <= length.
Proof. apply (run_spec_measure (length - pos)). lia. Qed.

Lemma run_stop (pos : nat) :
  (skip pos <? length) && class (charAt input (skip pos)) = false.
Proof. apply (run_spec_measure (length - pos)). lia. Qed.

Lemma run_between (pos i : nat) :
  pos <= i < skip pos -> class (charAt input i) = true.
Proof. apply (run_spec_measure (length - pos)). lia. Qed.

Lemma run_stay (pos : nat) :
  (pos <? length) && class (charAt input pos) = false -> skip pos = pos.
Proof. intros H. rewrite skip_eq, H. reflexivity. Qed.

(** The loop is determined by the run it passes and the place it stops. *)
Lemma run_unique (pos r : nat) :
  pos <= r ->
  (forall i, pos <= i < r -> (i <? length) && class (charAt input i) = true) ->
  (r <? length) && class (charAt input r) = false ->
  skip pos = r.
Proof.
  intros Hle. remember (r - pos) as n eqn:Hn. revert pos Hle Hn.
  induction n as [|n IH]; intros pos Hle Hn Hrun Hstop.
  - assert (pos = r) by lia. subst. apply run_stay. assumption.
  - rewrite skip_eq, (Hrun pos) by lia. apply IH; try lia.
    + intros i Hi. apply Hrun. lia.
    + assumption.
Qed.

End Runs.

Lemma skipWhitespace_ge (pos : nat) : pos <= skipWhitespace input pos.
Proof. exact (run_ge (skipWhitespace input) isWhitespace skipWhitespace_eq pos). Qed.

Lemma skipWhitespace_le (pos : nat) : pos <= length -> skipWhitespace input pos <= length.
Proof. exact (run_le (skipWhitespace input) isWhitespace skipWhitespace_eq pos). Qed.

Lemma skipWhitespace_stop (pos : nat) :
  (skipWhitespace input pos <? length) && isWhitespace (charAt input (skipWhitespace input pos)) = false.
Proof. exact (run_stop (skipWhitespace input) isWhitespace skipWhitespace_eq pos). Qed.

Lemma skipWhitespace_between (pos i : nat) :
  pos <= i < skipWhitespace input pos -> isWhitespace (charAt input i) = true.
Proof. exact (run_between (skipWhitespace input) isWhitespace skipWhitespace_eq pos i). Qed.

Lemma skipWhitespace_stay (pos : nat) :
  (pos <? length) && isWhitespace (charAt input pos) = false -> skipWhitespace input pos = pos.
Proof. exact (run_stay (skipWhitespace input) isWhitespace skipWhitespace_eq pos). Qed.

Lemma skipWhitespace_unique (pos r : nat) :
  pos <= r ->
  (forall i, pos <= i < r -> (i <? length) && isWhitespace (charAt input i) = true) ->
  (r <? length) && isWhitespace (charAt input r) = false ->
  skipWhitespace input pos = r.
Proof. exact (run_unique (skipWhitespace input) isWhitespace skipWhitespace_eq pos r). Qed.

Lemma skipDigits_ge (pos : nat) : pos <= skipDigits input pos.
Proof. exact (run_ge (skipDigits input) isDigit skipDigits_eq pos). Qed.

Lemma skipDigits_le (pos : nat) : pos <= length -> skipDigits input pos <= length.
Proof. exact (run_le (skipDigits input) isDigit skipDigits_eq pos). Qed.

Lemma skipDigits_stop (pos : nat) :
  (skipDigits input pos <? length) && isDigit (charAt input (skipDigits input pos)) = false.
Proof. exact (run_stop (skipDigits input) isDigit skipDigits_eq pos). Qed.

Lemma skipDigits_between (pos i : nat) :
  pos <= i < skipDigits input pos -> isDigit (charAt input i) = true.
Proof. exact (run_between (skipDigits input) isDigit skipDigits_eq pos i). Qed.

Lemma skipDigits_stay (pos : nat) :
  (pos <? length) && isDigit (charAt input pos) = false -> skipDigits input pos = pos.
Proof. exact (run_stay (skipDigits input) isDigit skipDigits_eq pos). Qed.

Lemma skipDigits_unique (pos r : nat) :
  pos <= r ->
  (forall i, pos <= i < r -> (i <? length) && isDigit (charAt input i) = true) ->
  (r <? length) && isDigit (charAt input r) = false ->
  skipDigits input pos = r.
Proof. exact (run_unique (skipDigits input) isDigit skipDigits_eq pos r). Qed.

End Scanning.

(** ** The cursor stays inside the input and moves forward *)


Lemma within_weaken (input : jsstring) (pos pos' : nat) (A : Type) (r : Result (A * nat)) :
  pos <= pos' -> within input pos' r -> within input pos r.
Proof.
  destruct r as [[a q]|e|]; simpl; lia.
Qed.

Lemma within_bind (input : jsstring) (pos : nat) (A B : Type)
      (r : Result (A * nat)) (k : A * nat -> Result (B * nat)) :
  within input pos r ->
  (forall a pos', pos <= pos' <= List.length input -> within input pos' (k (a, pos'))) ->
  within input pos (bind r k).
Proof.
  destruct r as [[a q]|e|]; simpl; auto.
  intros H Hk. apply (within_weaken input pos q); [lia | apply Hk; lia].
Qed.

Ltac split_if :=
  match goal with
  | |- context [if ?b then _ else _] => destruct b eqn:?
  | |- context [match simpleEscape ?c with _ => _ end] => destruct (simpleEscape c) eqn:?
  end.

Ltac bool_facts :=
  repeat match goal with
  | H : (_ && _) = true |- _ => apply andb_true_iff in H; destruct H
  | H : (_ || _) = false |- _ => apply orb_false_iff in H; destruct H
  | H : negb _ = true |- _ => apply negb_true_iff in H
  | H : negb _ = false |- _ => apply negb_false_iff in H
  | H : (_ <? _) = true |- _ => apply Nat.ltb_lt in H
  | H : (_ <? _) = false |- _ => apply Nat.ltb_ge in H
  | H : (_ <=? _) = true |- _ => apply Nat.leb_le in H
  | H : (_ <=? _) = false |- _ => apply Nat.leb_gt in H
  end.

Section Cursor.

Variable finite : jsstring -> bool.
Variable input : jsstring.

Local Abbreviation length := (List.length input).

Lemma slice_length (from to : nat) :
  List.length (slice input from to) = Nat.min (to - from) (length - from).
Proof.
  unfold slice. rewrite length_firstn, length_skipn. reflexivity.
Qed.

Lemma parseString_loop_within (fuel : nat) (result : jsstring) (pos : nat) :
  pos <= length -> within input pos (parseString_loop input fuel result pos).
Proof.
  revert result pos. induction fuel as [|fuel IH]; intros result pos Hpos; simpl; [exact I|].
  repeat split_if; bool_facts; simpl; try lia;
    try (eapply within_weaken; [|apply IH]; lia).
Qed.

Lemma parseString_within (pos : nat) :
  pos < length -> within input pos (parseString input pos).
Proof.
  intros H. unfold parseString.
  eapply within_weaken; [|apply parseString_loop_within]; lia.
Qed.

Lemma parseNumber_within (pos : nat) :
  pos <= length -> within input pos (parseNumber finite input pos).
Proof.
  intros Hpos. unfold parseNumber.
  repeat (split_if; bool_facts; simpl; try lia);
    repeat match goal with
    | H : charIs (charAt input ?p) _ = true |- _ => apply charIs_lt in H
    | H : isDigit (charAt input ?p) = true |- _ => apply isDigit_lt in H
    | |- context [skipDigits input ?p] =>
        lazymatch goal with
        | _ : p <= skipDigits input p |- _ => fail
        | _ => pose proof (skipDigits_ge input p);
               try (assert (skipDigits input p <= length) by (apply skipDigits_le; lia))
        end
    end; try lia.
Qed.

Lemma jsstring_eqb_eq (s t : jsstring) : jsstring_eqb s t = true <-> s = t.
Proof.
  unfold jsstring_eqb. destruct (list_eq_dec Z.eq_dec s t); split; congruence.
Qed.

Lemma literal_fits (pos n : nat) (word : jsstring) :
  jsstring_eqb (slice input pos (pos + n)) word = true ->
  List.length word = n -> 0 < n -> pos + n <= length.
Proof.
  intros E Hn Hpos. apply jsstring_eqb_eq in E.
  pose proof (slice_length pos (pos + n)) as L. rewrite E, Hn in L. lia.
Qed.

Lemma parseTrue_within (pos : nat) : pos <= length -> within input pos (parseTrue input pos).
Proof.
  intros H. unfold parseTrue. split_if; simpl; [|lia].
  apply literal_fits in Heqb; [lia | reflexivity | lia].
Qed.

Lemma parseFalse_within (pos : nat) : pos <= length -> within input pos (parseFalse input pos).
Proof.
  intros H. unfold parseFalse. split_if; simpl; [|lia].
  apply literal_fits in Heqb; [lia | reflexivity | lia].
Qed.

Lemma parseNull_within (pos : nat) : pos <= length -> within input pos (parseNull input pos).
Proof.
  intros H. unfold parseNull. split_if; simpl; [|lia].
  apply literal_fits in Heqb; [lia | reflexivity | lia].
Qed.

Section ContainersCursor.

Variable pv : nat -> Result (JSONValue * nat).
Hypothesis pv_within : forall pos, pos <= length -> within input pos (pv pos).

Lemma parseObject_entry_within (again : jsstring -> JSONValue -> nat -> Result (JSONValue * nat))
      (pos : nat) :
  (forall k v p, pos <= p <= length -> within input p (again k v p)) ->
  pos <= length -> within input pos (parseObject_entry input pv again pos).
Proof.
  intros Hagain Hpos. unfold parseObject_entry. cbv zeta.
  pose proof (skipWhitespace_ge input pos). pose proof (skipWhitespace_le input pos).
  split_if; bool_facts; [simpl; lia|].
  eapply within_weaken; [|apply within_bind; [apply parseString_within; lia|]]; [lia|].
  intros key p1 Hp1.
  pose proof (skipWhitespace_ge input p1). pose proof (skipWhitespace_le input p1).
  split_if; bool_facts; [simpl; lia|].
  eapply within_weaken; [|apply within_bind; [apply pv_within; lia|]]; [lia|].
  intros value p3 Hp3. apply Hagain. lia.
Qed.

Lemma parseObject_loop_within (fuel : nat) (obj : JSObject) (first : bool) (pos : nat) :
  pos <= length -> within input pos (parseObject_loop input pv fuel obj first pos).
Proof.
  revert obj first pos. induction fuel as [|fuel IH]; intros obj first pos Hpos; [exact I|].
  cbn [parseObject_loop]. cbv zeta.
  split_if; bool_facts; [|simpl; lia].
  destruct first; [apply parseObject_entry_within; auto; intros; apply IH; lia|].
  pose proof (skipWhitespace_ge input pos). pose proof (skipWhitespace_le input pos).
  do 3 (split_if; bool_facts; [simpl; lia|]).
  eapply within_weaken; [|apply parseObject_entry_within]; try lia.
  intros; apply IH; lia.
Qed.

Lemma parseObject_within (pos : nat) :
  pos < length -> within input pos (parseObject input pv pos).
Proof.
  intros Hpos. unfold parseObject. cbv zeta.
  pose proof (skipWhitespace_ge input (S pos)). pose proof (skipWhitespace_le input (S pos)).
  split_if; bool_facts; [simpl; lia|].
  eapply within_weaken; [|apply parseObject_loop_within]; lia.
Qed.

Lemma parseArray_element_within (again : list JSONValue -> nat -> Result (JSONValue * nat))
      (arr : list JSONValue) (pos : nat) :
  (forall a p, pos <= p <= length -> within input p (again a p)) ->
  pos <= length -> within input pos (parseArray_element pv again arr pos).
Proof.
  intros Hagain Hpos. unfold parseArray_element.
  apply within_bind; [apply pv_within; lia|].
  intros value p1 Hp1. apply Hagain. lia.
Qed.

Lemma parseArray_loop_within (fuel : nat) (arr : list JSONValue) (first : bool) (pos : nat) :
  pos <= length -> within input pos (parseArray_loop input pv fuel arr first pos).
Proof.
  revert arr first pos. induction fuel as [|fuel IH]; intros arr first pos Hpos; [exact I|].
  cbn [parseArray_loop]. cbv zeta.
  split_if; bool_facts; [|simpl; lia].
  destruct first; [apply parseArray_element_within; auto; intros; apply IH; lia|].
  pose proof (skipWhitespace_ge input pos). pose proof (skipWhitespace_le input pos).
  do 3 (split_if; bool_facts; [simpl; lia|]).
  eapply within_weaken; [|apply parseArray_element_within]; try lia.
  intros; apply IH; lia.
Qed.

Lemma parseArray_within (pos : nat) :
  pos < length -> within input pos (parseArray input pv pos).
Proof.
  intros Hpos. unfold parseArray. cbv zeta.
  pose proof (skipWhitespace_ge input (S pos)). pose proof (skipWhitespace_le input (S pos)).
  split_if; bool_facts; [simpl; lia|].
  eapply within_weaken; [|apply parseArray_loop_within]; lia.
Qed.

Lemma parseObject_within_S (pos : nat) :
  pos < length -> within input (S pos) (parseObject input pv pos).
Proof.
  intros Hpos. unfold parseObject. cbv zeta.
  pose proof (skipWhitespace_ge input (S pos)). pose proof (skipWhitespace_le input (S pos)).
  split_if; bool_facts; [simpl; lia|].
  eapply within_weaken; [|apply parseObject_loop_within]; lia.
Qed.

Lemma parseArray_within_S (pos : nat) :
  pos < length -> within input (S pos) (parseArray input pv pos).
Proof.
  intros Hpos. unfold parseArray. cbv zeta.
  pose proof (skipWhitespace_ge input (S pos)). pose proof (skipWhitespace_le input (S pos)).
  split_if; bool_facts; [simpl; lia|].
  eapply within_weaken; [|apply parseArray_loop_within]; lia.
Qed.

End ContainersCursor.

Lemma parseValue_within (fuel pos : nat) :
  pos <= length -> within input pos (parseValue finite input fuel pos).
Proof.
  revert pos. induction fuel as [|fuel IH]; intros pos Hpos; [exact I|].
  cbn [parseValue].
  pose proof (skipWhitespace_ge input pos). pose proof (skipWhitespace_le input pos).
  set (q := skipWhitespace input pos) in *.
  apply (within_weaken input pos q); [lia|].
  repeat (split_if; bool_facts; try (simpl; lia)).
  - apply parseObject_within; auto.
  - apply parseArray_within; auto.
  - apply within_bind; [apply parseString_within; lia|].
    intros s p Hp. simpl. lia.
  - apply parseTrue_within; lia.
  - apply parseFalse_within; lia.
  - apply parseNull_within; lia.
  - apply parseNumber_within; lia.
Qed.

End Cursor.

(** ** The recursion bounds are never reached *)

Lemma finishes_bind (input : jsstring) (pos : nat) (A B : Type)
      (r : Result (A * nat)) (k : A * nat -> Result (B * nat)) :
  r <> OutOfFuel -> within input pos r ->
  (forall a pos', pos <= pos' <= List.length input -> k (a, pos') <> OutOfFuel) ->
  bind r k <> OutOfFuel.
Proof.
  destruct r as [[a q]|e|]; simpl; intros H W Hk; auto. discriminate.
Qed.

Section Termination.

Variable finite : jsstring -> bool.
Variable input : jsstring.

Local Abbreviation length := (List.length input).

Lemma parseString_loop_finishes (fuel : nat) (result : jsstring) (pos : nat) :
  0 < fuel -> length < fuel + pos -> parseString_loop input fuel result pos <> OutOfFuel.
Proof.
  revert result pos. induction fuel as [|fuel IH]; intros result pos H0 Hf; simpl; [lia|].
  repeat split_if; bool_facts; try discriminate; apply IH; lia.
Qed.

Lemma parseString_finishes (pos : nat) : parseString input pos <> OutOfFuel.
Proof. unfold parseString. apply parseString_loop_finishes; lia. Qed.

Lemma parseNumber_finishes (pos : nat) : parseNumber finite input pos <> OutOfFuel.
Proof.
  unfold parseNumber. repeat (split_if; simpl); discriminate.
Qed.

Section ContainersTermination.

Variable pv : nat -> Result (JSONValue * nat).
Variable lo : nat.
Hypothesis pv_within : forall pos, pos <= length -> within input pos (pv pos).
Hypothesis pv_finishes : forall pos, lo <= pos <= length -> pv pos <> OutOfFuel.

Lemma parseObject_entry_finishes (again : jsstring -> JSONValue -> nat -> Result (JSONValue * nat))
      (pos : nat) :
  (forall k v p, pos < p <= length -> again k v p <> OutOfFuel) ->
  lo <= S pos -> pos <= length ->
  parseObject_entry input pv again pos <> OutOfFuel.
Proof.
  intros Hagain Hlo Hpos. unfold parseObject_entry. cbv zeta.
  pose proof (skipWhitespace_ge input pos). pose proof (skipWhitespace_le input pos).
  split_if; bool_facts; [discriminate|].
  apply (finishes_bind input (skipWhitespace input pos));
    [apply parseString_finishes | apply (within_weaken input _ (S (skipWhitespace input pos)));
       [lia | unfold parseString; apply parseString_loop_within; lia] |].
  intros key p1 Hp1.
  pose proof (skipWhitespace_ge input p1). pose proof (skipWhitespace_le input p1).
  cbv zeta. split_if; bool_facts; [discriminate|].
  apply (finishes_bind input (S (skipWhitespace input p1)));
    [apply pv_finishes; lia | apply pv_within; lia |].
  intros value p3 Hp3. apply Hagain. lia.
Qed.

Lemma parseObject_loop_finishes (fuel : nat) (obj : JSObject) (first : bool) (pos : nat) :
  lo <= S pos -> pos <= length -> length < fuel + pos ->
  parseObject_loop input pv fuel obj first pos <> OutOfFuel.
Proof.
  revert obj first pos. induction fuel as [|fuel IH]; intros obj first pos Hlo Hpos Hf; [lia|].
  cbn [parseObject_loop]. cbv zeta.
  split_if; bool_facts; [|discriminate].
  destruct first; [apply parseObject_entry_finishes; auto; intros; apply IH; lia|].
  pose proof (skipWhitespace_ge input pos). pose proof (skipWhitespace_le input pos).
  do 3 (split_if; bool_facts; [discriminate|]).
  apply parseObject_entry_finishes; try lia.
  intros; apply IH; lia.
Qed.

Lemma parseObject_finishes (pos : nat) :
  lo <= S pos -> pos < length -> parseObject input pv pos <> OutOfFuel.
Proof.
  intros Hlo Hpos. unfold parseObject. cbv zeta.
  pose proof (skipWhitespace_ge input (S pos)). pose proof (skipWhitespace_le input (S pos)).
  split_if; bool_facts; [discriminate|].
  apply parseObject_loop_finishes; lia.
Qed.

Lemma parseArray_element_finishes (again : list JSONValue -> nat -> Result (JSONValue * nat))
      (arr : list JSONValue) (pos : nat) :
  (forall a p, pos <= p <= length -> again a p <> OutOfFuel) ->
  lo <= pos <= length ->
  parseArray_element pv again arr pos <> OutOfFuel.
Proof.
  intros Hagain Hpos. unfold parseArray_element.
  apply (finishes_bind input pos); [apply pv_finishes; lia | apply pv_within; lia |].
  intros value p1 Hp1. apply Hagain. lia.
Qed.

Lemma parseArray_loop_finishes (fuel : nat) (arr : list JSONValue) (first : bool) (pos : nat) :
  lo <= pos <= length -> length + (if first then 1 else 0) < fuel + pos ->
  parseArray_loop input pv fuel arr first pos <> OutOfFuel.
Proof.
  revert arr first pos. induction fuel as [|fuel IH]; intros arr first pos Hpos Hf;
    [destruct first; lia|].
  cbn [parseArray_loop]. cbv zeta.
  split_if; bool_facts; [|discriminate].
  destruct first; [apply parseArray_element_finishes; auto; intros; apply IH; lia|].
  pose proof (skipWhitespace_ge input pos). pose proof (skipWhitespace_le input pos).
  do 3 (split_if; bool_facts; [discriminate|]).
  apply parseArray_element_finishes; try lia.
  intros; apply IH; lia.
Qed.

Lemma parseArray_finishes (pos : nat) :
  lo <= S pos -> pos < length -> parseArray input pv pos <> OutOfFuel.
Proof.
  intros Hlo Hpos. unfold parseArray. cbv zeta.
  pose proof (skipWhitespace_ge input (S pos)). pose proof (skipWhitespace_le input (S pos)).
  split_if; bool_facts; [discriminate|].
  apply parseArray_loop_finishes; lia.
Qed.

End ContainersTermination.

Lemma parseValue_finishes (fuel pos : nat) :
  pos <= length -> length < fuel + pos ->
  parseValue finite input fuel pos <> OutOfFuel.
Proof.
  revert pos. induction fuel as [|fuel IH]; intros pos Hpos Hf; [lia|].
  cbn [parseValue].
  pose proof (skipWhitespace_ge input pos). pose proof (skipWhitespace_le input pos).
  set (q := skipWhitespace input pos) in *.
  repeat (split_if; bool_facts; try discriminate).
  - apply (parseObject_finishes _ (S q)); try lia.
    + intros; apply parseValue_within; lia.
    + intros; apply IH; lia.
  - apply (parseArray_finishes _ (S q)); try lia.
    + intros; apply parseValue_within; lia.
    + intros; apply IH; lia.
  - pose proof (parseString_finishes q). destruct (parseString input q) as [[s p]|e|];
      simpl; congruence.
  - unfold parseTrue. split_if; discriminate.
  - unfold parseFalse. split_if; discriminate.
  - unfold parseNull. split_if; discriminate.
  - apply parseNumber_finishes.
Qed.

(** [parse] always returns a value or throws: the bound on the recursion
    depth it starts from is enough for every input. *)
Lemma parse_finishes : parse finite input <> OutOfFuel.
Proof.
  unfold parse. cbv zeta.
  pose proof (skipWhitespace_ge input 0). pose proof (skipWhitespace_le input 0).
  split_if; bool_facts; [discriminate|].
  pose proof (parseValue_finishes (S length) (skipWhitespace input 0)) as F.
  destruct (parseValue finite input (S length) (skipWhitespace input 0)) as [[v p]|e|];
    simpl; try discriminate.
  - split_if; discriminate.
  - exfalso. apply F; auto; lia.
Qed.

End Termination.

(** ** Blank input *)

Section Entry.

Variable finite : jsstring -> bool.
Variable input : jsstring.

Local Abbreviation length := (List.length input).

Lemma skipWhitespace_idem (pos : nat) :
  skipWhitespace input (skipWhitespace input pos) = skipWhitespace input pos.
Proof. apply skipWhitespace_stay, skipWhitespace_stop. Qed.

Lemma parseValue_skip (fuel pos : nat) :
  parseValue finite input fuel (skipWhitespace input pos) = parseValue finite input fuel pos.
Proof.
  destruct fuel; [reflexivity|]. cbn [parseValue]. rewrite skipWhitespace_idem. reflexivity.
Qed.

Lemma skipWhitespace_blank :
  Forall (fun c => isWhitespace (Some c) = true) input -> skipWhitespace input 0 = length.
Proof.
  intros Hall. apply skipWhitespace_unique; [lia| |].
  - intros i Hi. destruct (charAt_lt_Some input i) as [c Hc]; [lia|].
    rewrite Hc. rewrite Forall_forall in Hall. rewrite (Hall c).
    + replace (i <? length) with true by (symmetry; apply Nat.ltb_lt; lia). reflexivity.
    + unfold charAt in Hc. eapply nth_error_In; eauto.
  - rewrite Nat.ltb_irrefl. reflexivity.
Qed.

(** [parse] is [parseValue] from the start of the input followed by the
    check for trailing input: the test for an empty input that [parse]
    makes first is the one [parseValue] makes again. *)
Lemma parse_unfold :
  parse finite input =
  bind (parseValue finite input (S length) 0)
       (fun '(value, pos) =>
          let pos := skipWhitespace input pos in
          if pos <? length then throw (UnexpectedToken (charAt input pos)) pos
          else Ok value).
Proof.
  unfold parse. cbv zeta. rewrite <- (parseValue_skip _ 0).
  destruct (length <=? skipWhitespace input 0) eqn:E; [|reflexivity].
  cbn [parseValue]. rewrite skipWhitespace_idem, E. reflexivity.
Qed.

Lemma cursor_position_bound (e : JSONParseError) :
  parse finite input = Throw e -> position e <= length.
Proof.
  rewrite parse_unfold.
  pose proof (parseValue_within finite input (S length) 0 (Nat.le_0_l _)) as W.
  destruct (parseValue finite input (S length) 0) as [[v p]|e'|];
    cbn [bind within] in *; [|intros H; inversion H; subst; lia | discriminate].
  cbv zeta. split_if; [|discriminate]. unfold throw. intros H. inversion H; subst.
  simpl. bool_facts. lia.
Qed.

Lemma parse_throw (e : JSONParseError) :
  parseValue finite input (S length) 0 = Throw e -> parse finite input = Throw e.
Proof. intros H. rewrite parse_unfold, H. reflexivity. Qed.

End Entry.

(** C8: [parse] of the empty input fails with [UnexpectedEnd] at position 0,
    and [parse] of an input made of whitespace only fails with
    [UnexpectedEnd] at the cursor reached after the whitespace, which is the
    length of the input. *)
Theorem parse_blank_input (finite : jsstring -> bool) (input : jsstring) :
  Forall (fun c => isWhitespace (Some c) = true) input ->
  parse finite input = throw UnexpectedEnd (List.length input)
  /\ parse finite [] = throw UnexpectedEnd 0.
Proof.
  intros Hall. split; [|reflexivity].
  unfold parse. cbv zeta. rewrite (skipWhitespace_blank input Hall).
  rewrite Nat.leb_refl. reflexivity.
Qed.

Lemma parse_blank_input_witness :
  parseJSON (txt "   ") = throw UnexpectedEnd 3 /\ parseJSON [] = throw UnexpectedEnd 0.
Proof.
  apply (parse_blank_input numberIsFinite (txt "   ")).
  repeat constructor.
Defined.

(** ** Numbers: the sign and the integer part *)

Section NumberErrors.

Variable finite : jsstring -> bool.
Variable input : jsstring.

Local Abbreviation length := (List.length input).

(** A value that starts with a minus sign or a digit is a number. *)
Lemma parseValue_number (fuel pos : nat) :
  let q := skipWhitespace input pos in
  charIs (charAt input q) MINUS || isDigit (charAt input q) = true ->
  parseValue finite input (S fuel) pos = parseNumber finite input q.
Proof.
  intros q H. cbn [parseValue]. fold q.
  assert (Hq : q < length).
  { apply orb_true_iff in H. destruct H; eauto using charIs_lt, isDigit_lt. }
  replace (length <=? q) with false by (symmetry; apply Nat.leb_gt; lia).
  rewrite H.
  destruct (charAt input q) as [c|]; [|discriminate].
  unfold charIs, isDigit in *.
  assert (Hc : (c = 45 \/ 48 <= c <= 57)%Z).
  { apply orb_true_iff in H. destruct H as [H|H]; [left; apply Z.eqb_eq; exact H|right].
    unfold ZERO, NINE in H. lia. }
  repeat match goal with
  | |- context [Z.eqb c ?k] =>
      replace (Z.eqb c k) with false by (symmetry; apply Z.eqb_neq; cbv; lia)
  end.
  reflexivity.
Qed.

(** C10: when number parsing begins at a minus sign that is the last
    character of the input, or that is not immediately followed by a decimal
    digit, parsing fails with [InvalidNumberFormat] positioned one past the
    minus sign: in [parseNumber], in [parseValue] that dispatches to it, and
    in [parse] when the number is the top-level value. *)
Theorem minus_needs_digit (fuel pos : nat) :
  let q := skipWhitespace input pos in
  charIs (charAt input q) MINUS = true ->
  isDigit (charAt input (S q)) = false ->
  parseNumber finite input q = throw InvalidNumberFormat (S q)
  /\ parseValue finite input (S fuel) pos = throw InvalidNumberFormat (S q)
  /\ (pos = 0 -> parse finite input = throw InvalidNumberFormat (S q)).
Proof.
  intros q Hminus Hdigit.
  assert (N : parseNumber finite input q = throw InvalidNumberFormat (S q)).
  { unfold parseNumber. rewrite Hminus. cbv zeta. rewrite Hdigit.
    rewrite orb_true_r. reflexivity. }
  assert (V : forall f, parseValue finite input (S f) pos = throw InvalidNumberFormat (S q)).
  { intros f. rewrite parseValue_number; [exact N|]. fold q. rewrite Hminus. reflexivity. }
  repeat split; auto.
  intros ->. apply parse_throw. apply V.
Qed.

(** C7: an integer part that begins with [0] followed by another decimal
    digit is rejected with [LeadingZero], at the position of that digit: in
    [parseNumber], in [parseValue] that dispatches to it, and in [parse]
    when the number is the top-level value. *)
Theorem leading_zero_rejected (fuel pos : nat) :
  let q := skipWhitespace input pos in
  let p := if charIs (charAt input q) MINUS then S q else q in
  charIs (charAt input p) ZERO = true ->
  isDigit (charAt input (S p)) = true ->
  parseNumber finite input q = throw LeadingZero (S p)
  /\ parseValue finite input (S fuel) pos = throw LeadingZero (S p)
  /\ (pos = 0 -> parse finite input = throw LeadingZero (S p)).
Proof.
  intros q p Hzero Hdigit.
  assert (Hp : isDigit (charAt input p) = true).
  { destruct (charAt input p) as [c|]; [|discriminate].
    unfold charIs in Hzero. apply Z.eqb_eq in Hzero. subst c. reflexivity. }
  assert (N : parseNumber finite input q = throw LeadingZero (S p)).
  { unfold parseNumber. subst p. cbv zeta.
    destruct (charIs (charAt input q) MINUS) eqn:Hminus.
    - rewrite Hp. apply isDigit_lt in Hp.
      replace (length <=? S q) with false by (symmetry; apply Nat.leb_gt; lia).
      cbn [orb negb bind]. rewrite Hzero, Hdigit.
      apply isDigit_lt in Hdigit.
      replace (S (S q) <? length) with true by (symmetry; apply Nat.ltb_lt; lia).
      reflexivity.
    - cbn [bind]. rewrite Hzero, Hdigit.
      apply isDigit_lt in Hdigit.
      replace (S q <? length) with true by (symmetry; apply Nat.ltb_lt; lia).
      reflexivity. }
  assert (V : forall f, parseValue finite input (S f) pos = throw LeadingZero (S p)).
  { intros f. rewrite parseValue_number; [exact N|]. fold q. subst p.
    destruct (charIs (charAt input q) MINUS); [reflexivity|]. rewrite Hp. reflexivity. }
  repeat split; auto.
  intros ->. apply parse_throw. apply V.
Qed.

End NumberErrors.

Lemma minus_needs_digit_witness :
  parseJSON (txt "-") = throw InvalidNumberFormat 1
  /\ parseJSON (txt "[-x]") = throw InvalidNumberFormat 2.
Proof.
  split.
  - exact (proj2 (proj2 (minus_needs_digit numberIsFinite (txt "-") 0 0 eq_refl eq_refl)) eq_refl).
  - reflexivity.
Defined.

Lemma leading_zero_rejected_witness :
  parseJSON (txt "01") = throw LeadingZero 1
  /\ parseJSON (txt "-012") = throw LeadingZero 2.
Proof.
  split.
  - exact (proj2 (proj2 (leading_zero_rejected numberIsFinite (txt "01") 0 0 eq_refl eq_refl))
                 eq_refl).
  - exact (proj2 (proj2 (leading_zero_rejected numberIsFinite (txt "-012") 0 0 eq_refl eq_refl))
                 eq_refl).
Defined.

(** ** Strings: raw characters and unicode escapes *)

Section Strings.

Variable input : jsstring.

Local Abbreviation length := (List.length input).

Lemma parseString_loop_plain (fuel : nat) (result : jsstring) (pos : nat) (c : Z) :
  charAt input pos = Some c -> plainChar c = true ->
  parseString_loop input (S fuel) result pos = parseString_loop input fuel (result ++ [c]) (S pos).
Proof.
  intros Hc Hplain. cbn [parseString_loop].
  apply charAt_Some_lt in Hc as Hlt. apply Nat.ltb_lt in Hlt. rewrite Hlt, Hc.
  unfold plainChar in Hplain. bool_facts.
  unfold charIs, charLt, strOf.
  match goal with H : Z.eqb c QUOTE = false |- _ => rewrite H end.
  match goal with H : Z.eqb c BACKSLASH = false |- _ => rewrite H end.
  destruct (Z.ltb c SPACE) eqn:E1, (Z.eqb c TAB) eqn:E2; simpl in *; try reflexivity.
  discriminate.
Qed.

Lemma parseString_loop_control (fuel : nat) (result : jsstring) (pos : nat) (c : Z) :
  charAt input pos = Some c -> (c < SPACE)%Z -> c <> TAB ->
  parseString_loop input (S fuel) result pos = throw (UnescapedControlCharacter c) pos.
Proof.
  intros Hc Hlow Htab. cbn [parseString_loop].
  apply charAt_Some_lt in Hc as Hlt. apply Nat.ltb_lt in Hlt. rewrite Hlt, Hc.
  unfold charIs, charLt. unfold SPACE in Hlow.
  replace (Z.eqb c QUOTE) with false by (symmetry; apply Z.eqb_neq; unfold QUOTE; lia).
  replace (Z.eqb c BACKSLASH) with false by (symmetry; apply Z.eqb_neq; unfold BACKSLASH; lia).
  replace (Z.ltb c SPACE) with true by (symmetry; apply Z.ltb_lt; unfold SPACE; lia).
  replace (Z.eqb c TAB) with false by (symmetry; apply Z.eqb_neq; exact Htab).
  reflexivity.
Qed.

Lemma parseString_loop_quote (fuel : nat) (result : jsstring) (pos : nat) :
  charAt input pos = Some QUOTE ->
  parseString_loop input (S fuel) result pos = Ok (result, S pos).
Proof.
  intros Hc. cbn [parseString_loop].
  apply charAt_Some_lt in Hc as Hlt. apply Nat.ltb_lt in Hlt. rewrite Hlt, Hc.
  reflexivity.
Qed.

(** A run of plain characters is appended as it stands. *)
Lemma parseString_loop_plain_run (body pre rest : jsstring) (fuel : nat) (result : jsstring) :
  input = pre ++ body ++ rest ->
  Forall (fun x => plainChar x = true) body ->
  parseString_loop input (List.length body + fuel) result (List.length pre)
  = parseString_loop input fuel (result ++ body) (List.length pre + List.length body).
Proof.
  revert pre result. induction body as [|c body IH]; intros pre result Hin Hall.
  - simpl. rewrite app_nil_r, Nat.add_0_r. reflexivity.
  - apply Forall_cons_iff in Hall. destruct Hall as [Hc Hall'].
    cbn [List.length Nat.add].
    rewrite (parseString_loop_plain _ _ _ c); auto.
    + specialize (IH (pre ++ [c]) (result ++ [c])).
      rewrite length_app in IH. cbn [List.length] in IH.
      replace (S (List.length pre)) with (List.length pre + 1) by lia.
      rewrite IH; auto.
      * rewrite <- app_assoc. f_equal. lia.
      * rewrite Hin, <- app_assoc. reflexivity.
    + unfold charAt. rewrite Hin, nth_error_app2 by lia. rewrite Nat.sub_diag. reflexivity.
Qed.

End Strings.

(** A string that starts the input: [parseValue] hands it to [parseString],
    which passes over the plain characters that follow the opening quote. *)
Lemma parseValue_string_start (finite : jsstring -> bool) (body rest : jsstring) (fuel : nat) :
  Forall (fun x => plainChar x = true) body ->
  parseValue finite (QUOTE :: body ++ rest) (S fuel) 0
  = bind (parseString_loop (QUOTE :: body ++ rest) (S (S (List.length rest))) body
                           (S (List.length body)))
         (fun '(s, pos) => Ok (JString s, pos)).
Proof.
  intros Hall. set (input := QUOTE :: body ++ rest).
  cbn [parseValue].
  assert (H0 : charAt input 0 = Some QUOTE) by reflexivity.
  rewrite (skipWhitespace_stay input 0) by (rewrite H0; apply andb_false_r).
  rewrite H0. cbn [List.length Nat.leb].
  change (charIs (Some QUOTE) LBRACE) with false.
  change (charIs (Some QUOTE) LBRACKET) with false.
  change (charIs (Some QUOTE) QUOTE) with true. cbv iota.
  unfold parseString.
  pose proof (parseString_loop_plain_run input body [QUOTE] rest (S (S (List.length rest))) []
                eq_refl Hall) as R.
  cbn [List.length Nat.add app] in R.
  replace (S (List.length input - 0)) with (List.length body + S (S (List.length rest))).
  - rewrite R. reflexivity.
  - subst input. cbn [List.length]. rewrite length_app. lia.
Qed.

(** C5: in string parsing a raw character below 0x20 other than tab makes
    the parse fail with [UnescapedControlCharacter] at the position of that
    character, and a raw tab is appended to the result as it stands: at any
    iteration of the loop of [parseString], and for a string that is the
    whole input. *)
Theorem control_characters_in_strings
        (finite : jsstring -> bool) (body rest : jsstring) (c : Z) :
  Forall (fun x => plainChar x = true) body ->
  (c < SPACE)%Z -> c <> TAB ->
  (forall input fuel result pos,
      charAt input pos = Some c ->
      parseString_loop input (S fuel) result pos = throw (UnescapedControlCharacter c) pos)
  /\ (forall input fuel result pos,
      charAt input pos = Some TAB ->
      parseString_loop input (S fuel) result pos
      = parseString_loop input fuel (result ++ [TAB]) (S pos))
  /\ parse finite (QUOTE :: body ++ c :: rest)
     = throw (UnescapedControlCharacter c) (S (List.length body))
  /\ parse finite (QUOTE :: body ++ [TAB; QUOTE]) = Ok (JString (body ++ [TAB])).
Proof.
  intros Hall Hlow Htab. repeat split.
  - intros. apply parseString_loop_control; auto.
  - intros. apply parseString_loop_plain; auto.
  - apply parse_throw. rewrite parseValue_string_start by assumption.
    rewrite (parseString_loop_control _ _ _ _ c); auto.
    unfold charAt. change (QUOTE :: body ++ c :: rest) with ((QUOTE :: body) ++ c :: rest).
    rewrite nth_error_app2 by (simpl; lia). simpl. rewrite Nat.sub_diag. reflexivity.
  - rewrite parse_unfold.
    assert (Hall' : Forall (fun x => plainChar x = true) (body ++ [TAB])).
    { apply Forall_app. split; [assumption | repeat constructor]. }
    replace (QUOTE :: body ++ [TAB; QUOTE]) with (QUOTE :: (body ++ [TAB]) ++ [QUOTE])
      by (rewrite <- app_assoc; reflexivity).
    rewrite parseValue_string_start by assumption.
    set (input := QUOTE :: (body ++ [TAB]) ++ [QUOTE]).
    rewrite parseString_loop_quote.
    + cbn [bind]. cbv zeta.
      assert (L : List.length input = S (S (List.length (body ++ [TAB])))).
      { subst input. cbn [List.length]. rewrite (length_app (body ++ [TAB])). simpl. lia. }
      rewrite (skipWhitespace_stay input) by (rewrite L, Nat.ltb_irrefl; reflexivity).
      rewrite L, Nat.ltb_irrefl. reflexivity.
    + unfold charAt, input.
      change (QUOTE :: (body ++ [TAB]) ++ [QUOTE]) with ((QUOTE :: body ++ [TAB]) ++ [QUOTE]).
      rewrite nth_error_app2 by (simpl; lia). simpl. rewrite Nat.sub_diag. reflexivity.
Qed.

Lemma control_characters_in_strings_witness :
  parseJSON (QUOTE :: [97; 9; 98]%Z ++ NEWLINE :: txt "c'")
  = throw (UnescapedControlCharacter NEWLINE) 4
  /\ parseJSON (QUOTE :: [97; 9; 98]%Z ++ [TAB; QUOTE]) = Ok (JString [97; 9; 98; 9]%Z).
Proof.
  assert (P : Forall (fun x => plainChar x = true) [97; 9; 98]%Z) by (repeat constructor).
  assert (L : (NEWLINE < SPACE)%Z) by reflexivity.
  assert (T : NEWLINE <> TAB) by discriminate.
  pose proof (control_characters_in_strings numberIsFinite [97; 9; 98]%Z (txt "c'") NEWLINE
                P L T) as H.
  exact (proj2 (proj2 H)).
Defined.

Lemma hexDigitValue_range (c : Z) :
  isHexDigit c = true -> (0 <= hexDigitValue c <= 15)%Z.
Proof.
  unfold isHexDigit, hexDigitValue.
  destruct (Z.leb_spec 48 c), (Z.leb_spec c 57), (Z.leb_spec 97 c), (Z.leb_spec c 102),
    (Z.leb_spec 65 c), (Z.leb_spec c 70); simpl; intros Hhex; try discriminate; lia.
Qed.

(** Four hexadecimal digits denote one UTF-16 code unit. *)
Lemma parseInt16_code_unit (hexCode : jsstring) :
  isHex4 hexCode = true -> (0 <= parseInt16 hexCode < 65536)%Z.
Proof.
  unfold isHex4. intros H. apply andb_true_iff in H. destruct H as [L D].
  destruct hexCode as [|a [|b [|c [|d [|]]]]]; try discriminate.
  cbn [forallb] in D. bool_facts.
  repeat match goal with
  | H : isHexDigit _ = true |- _ => apply hexDigitValue_range in H
  end.
  unfold parseInt16. cbn [fold_left]. lia.
Qed.

(** C6: in string parsing, [\u] followed by four characters of
    [[0-9a-fA-F]] is decoded as the one UTF-16 code unit they denote, which
    is appended to the result as it stands (nothing is combined with a
    neighbouring escape); when the four characters do not match, parsing
    fails with [InvalidUnicodeEscape], positioned at the [u]; when fewer than
    four characters are left it fails there as well, with the message
    'Incomplete unicode escape sequence'. *)
Theorem unicode_escape_decoding (input : jsstring) (fuel : nat) (result : jsstring) (pos : nat) :
  charIs (charAt input pos) BACKSLASH = true ->
  charIs (charAt input (S pos)) (chr "u") = true ->
  let hexCode := slice input (pos + 2) (pos + 6) in
  (isHex4 hexCode = true ->
     (0 <= parseInt16 hexCode < 65536)%Z
     /\ parseString_loop input (S fuel) result pos
        = parseString_loop input fuel (result ++ [parseInt16 hexCode]) (pos + 6))
  /\ (pos + 5 < List.length input -> isHex4 hexCode = false ->
      parseString_loop input (S fuel) result pos = throw (InvalidUnicodeEscape hexCode) (S pos))
  /\ (List.length input <= pos + 5 ->
      parseString_loop input (S fuel) result pos = throw IncompleteUnicodeEscape (S pos)).
Proof.
  intros Hback Hu hexCode.
  assert (Step : parseString_loop input (S fuel) result pos =
                 if List.length input <=? S pos + 4 then throw IncompleteUnicodeEscape (S pos)
                 else if negb (isHex4 hexCode)
                      then throw (InvalidUnicodeEscape hexCode) (S pos)
                      else parseString_loop input fuel
                             (result ++ fromCharCode (parseInt16 hexCode)) (S (S pos + 4))).
  { cbn [parseString_loop].
    apply charIs_lt in Hback as L0. apply charIs_lt in Hu as L1.
    replace (pos <? List.length input) with true by (symmetry; apply Nat.ltb_lt; lia).
    replace (List.length input <=? S pos) with false by (symmetry; apply Nat.leb_gt; lia).
    rewrite Hback, Hu.
    replace (slice input (S pos + 1) (S pos + 5)) with hexCode
      by (unfold hexCode; f_equal; lia).
    destruct (charAt input pos) as [c|]; [|discriminate].
    destruct (charAt input (S pos)) as [u|]; [|discriminate].
    unfold charIs in Hback, Hu. apply Z.eqb_eq in Hback, Hu. subst c u.
    reflexivity. }
  rewrite Step. split; [intros H; split | split].
  - apply parseInt16_code_unit; assumption.
  - pose proof (parseInt16_code_unit hexCode H) as B.
    assert (L : List.length hexCode = 4).
    { unfold isHex4 in H. apply andb_true_iff in H. destruct H as [L _].
      apply Nat.eqb_eq in L. exact L. }
    unfold hexCode in L. rewrite slice_length in L.
    replace (List.length input <=? S pos + 4) with false by (symmetry; apply Nat.leb_gt; lia).
    fold hexCode. rewrite H. cbn [negb]. unfold fromCharCode.
    rewrite Z.mod_small by lia. f_equal. lia.
  - intros Hlen Hbad.
    replace (List.length input <=? S pos + 4) with false by (symmetry; apply Nat.leb_gt; lia).
    rewrite Hbad. reflexivity.
  - intros Hlen.
    replace (List.length input <=? S pos + 4) with true by (symmetry; apply Nat.leb_le; lia).
    reflexivity.
Qed.

Lemma unicode_escape_decoding_witness :
  parseString_loop (txt "'\u0041'") 8 [] 1 = parseString_loop (txt "'\u0041'") 7 [65%Z] 7
  /\ parseJSON (txt "'\u0041'") = Ok (JString [65%Z])
  /\ parseJSON (txt "'\uD83D\uDE00'") = Ok (JString [55357%Z; 56832%Z])
  /\ parseJSON (txt "'\u00G1'") = throw (InvalidUnicodeEscape (txt "00G1")) 2.
Proof.
  split; [|repeat split].
  exact (proj2 (proj1 (unicode_escape_decoding (txt "'\u0041'") 7 [] 1 eq_refl eq_refl) eq_refl)).
Defined.

(** ** The cursor invariant *)

(** C9: throughout a call of [parse] the cursor satisfies
    [0 <= position <= length], and no step moves it backwards.  Every
    routine of the parser, and every iteration of its loops, when entered
    with the cursor at [pos] inside the input, returns with the cursor
    between [pos] and the length of the input, or throws an error
    positioned there. *)
Theorem cursor_invariant (finite : jsstring -> bool) (input : jsstring) :
  let length := List.length input in
  (forall pos, pos <= length -> pos <= skipWhitespace input pos <= length)
  /\ (forall pos, pos <= length -> pos <= skipDigits input pos <= length)
  /\ (forall fuel result pos, pos <= length ->
        within input pos (parseString_loop input fuel result pos))
  /\ (forall pos, pos < length -> within input (S pos) (parseString input pos))
  /\ (forall pos, pos <= length -> within input pos (parseNumber finite input pos))
  /\ (forall pos, pos <= length -> within input pos (parseTrue input pos))
  /\ (forall pos, pos <= length -> within input pos (parseFalse input pos))
  /\ (forall pos, pos <= length -> within input pos (parseNull input pos))
  /\ (forall fuel pos, pos <= length -> within input pos (parseValue finite input fuel pos))
  /\ (forall depth fuel obj first pos, pos <= length ->
        within input pos
          (parseObject_loop input (parseValue finite input depth) fuel obj first pos))
  /\ (forall depth pos, pos < length ->
        within input (S pos) (parseObject input (parseValue finite input depth) pos))
  /\ (forall depth fuel arr first pos, pos <= length ->
        within input pos
          (parseArray_loop input (parseValue finite input depth) fuel arr first pos))
  /\ (forall depth pos, pos < length ->
        within input (S pos) (parseArray input (parseValue finite input depth) pos))
  /\ (forall e, parse finite input = Throw e -> position e <= length).
Proof.
  intros length.
  assert (PV : forall depth pos, pos <= length ->
                 within input pos (parseValue finite input depth pos))
    by (intros; apply parseValue_within; assumption).
  repeat match goal with |- _ /\ _ => split end.
  - intros pos H. split; [apply skipWhitespace_ge | apply skipWhitespace_le; exact H].
  - intros pos H. split; [apply skipDigits_ge | apply skipDigits_le; exact H].
  - intros. apply parseString_loop_within; assumption.
  - intros pos H. unfold parseString. apply parseString_loop_within. exact H.
  - intros. apply parseNumber_within; assumption.
  - intros. apply parseTrue_within; assumption.
  - intros. apply parseFalse_within; assumption.
  - intros. apply parseNull_within; assumption.
  - exact PV.
  - intros. apply parseObject_loop_within; auto.
  - intros depth pos H. unfold parseObject. cbv zeta.
    pose proof (skipWhitespace_ge input (S pos)).
    pose proof (skipWhitespace_le input (S pos) H).
    split_if; [bool_facts; simpl; fold length; lia|].
    eapply within_weaken; [|apply parseObject_loop_within]; auto.
  - intros. apply parseArray_loop_within; auto.
  - intros depth pos H. unfold parseArray. cbv zeta.
    pose proof (skipWhitespace_ge input (S pos)).
    pose proof (skipWhitespace_le input (S pos) H).
    split_if; [bool_facts; simpl; fold length; lia|].
    eapply within_weaken; [|apply parseArray_loop_within]; auto.
  - intros e. rewrite parse_unfold.
    pose proof (PV (S length) 0 (Nat.le_0_l _)) as W. subst length.
    destruct (parseValue finite input (S (List.length input)) 0) as [[v p]|e'|];
      cbn [bind within] in *; [|intros H; inversion H; subst; lia | discriminate].
    cbv zeta. split_if; [|discriminate]. unfold throw. intros H. inversion H; subst.
    simpl. bool_facts. lia.
Qed.

(** ** Objects that the input leaves open *)


Lemma atEnd_bind (input : jsstring) (pos : nat) (A B : Type)
      (r : Result (A * nat)) (k : A * nat -> Result (B * nat)) :
  atEnd input r -> within input pos r ->
  (forall a pos', pos <= pos' <= List.length input -> atEnd input (k (a, pos'))) ->
  atEnd input (bind r k).
Proof.
  destruct r as [[a q]|e|]; simpl; intros H W Hk; auto.
Qed.

Ltac at_end_leaf :=
  simpl; try exact I; try discriminate; intros; bool_facts; lia.

Section Exhaustion.

Variable finite : jsstring -> bool.
Variable input : jsstring.

Local Abbreviation length := (List.length input).

Lemma parseString_loop_atEnd (fuel : nat) (result : jsstring) (pos : nat) :
  pos <= length -> atEnd input (parseString_loop input fuel result pos).
Proof.
  revert result pos. induction fuel as [|fuel IH]; intros result pos Hpos; simpl; [exact I|].
  repeat split_if; bool_facts; try (apply IH; lia); at_end_leaf.
Qed.

Lemma parseNumber_atEnd (pos : nat) : atEnd input (parseNumber finite input pos).
Proof.
  unfold parseNumber. repeat (split_if; simpl); try exact I; discriminate.
Qed.

Section ContainersExhaustion.

Variable pv : nat -> Result (JSONValue * nat).
Hypothesis pv_within : forall pos, pos <= length -> within input pos (pv pos).
Hypothesis pv_atEnd : forall pos, pos <= length -> atEnd input (pv pos).

Lemma parseObject_entry_atEnd (again : jsstring -> JSONValue -> nat -> Result (JSONValue * nat))
      (pos : nat) :
  (forall k v p, pos <= p <= length -> atEnd input (again k v p)) ->
  pos <= length -> atEnd input (parseObject_entry input pv again pos).
Proof.
  intros Hagain Hpos. unfold parseObject_entry. cbv zeta.
  pose proof (skipWhitespace_ge input pos). pose proof (skipWhitespace_le input pos).
  split_if; bool_facts; [at_end_leaf|].
  apply (atEnd_bind input (skipWhitespace input pos));
    [unfold parseString; apply parseString_loop_atEnd; lia
    | apply parseString_within; lia |].
  intros key p1 Hp1.
  pose proof (skipWhitespace_ge input p1). pose proof (skipWhitespace_le input p1).
  cbv zeta. split_if; bool_facts; [at_end_leaf|].
  apply (atEnd_bind input (S (skipWhitespace input p1)));
    [apply pv_atEnd; lia | apply pv_within; lia |].
  intros value p3 Hp3. apply Hagain. lia.
Qed.

Lemma parseObject_loop_atEnd (fuel : nat) (obj : JSObject) (first : bool) (pos : nat) :
  pos <= length -> atEnd input (parseObject_loop input pv fuel obj first pos).
Proof.
  revert obj first pos. induction fuel as [|fuel IH]; intros obj first pos Hpos; [exact I|].
  cbn [parseObject_loop]. cbv zeta.
  split_if; bool_facts; [|at_end_leaf].
  destruct first; [apply parseObject_entry_atEnd; auto; intros; apply IH; lia|].
  pose proof (skipWhitespace_ge input pos). pose proof (skipWhitespace_le input pos).
  do 3 (split_if; bool_facts; [at_end_leaf|]).
  apply parseObject_entry_atEnd; try lia.
  intros; apply IH; lia.
Qed.

Lemma parseArray_loop_atEnd (fuel : nat) (arr : list JSONValue) (first : bool) (pos : nat) :
  pos <= length -> atEnd input (parseArray_loop input pv fuel arr first pos).
Proof.
  revert arr first pos. induction fuel as [|fuel IH]; intros arr first pos Hpos; [exact I|].
  assert (E : forall a p, pos <= p <= length ->
            atEnd input (parseArray_element pv (fun arr pos => parseArray_loop input pv fuel arr false pos) a p)).
  { intros a p Hp. unfold parseArray_element.
    apply (atEnd_bind input p); [apply pv_atEnd; lia | apply pv_within; lia |].
    intros value p1 Hp1. apply IH. lia. }
  cbn [parseArray_loop]. cbv zeta.
  split_if; bool_facts; [|at_end_leaf].
  destruct first; [apply E; lia|].
  pose proof (skipWhitespace_ge input pos). pose proof (skipWhitespace_le input pos).
  do 3 (split_if; bool_facts; [at_end_leaf|]).
  apply E. lia.
Qed.

End ContainersExhaustion.

Lemma parseValue_atEnd (fuel pos : nat) :
  pos <= length -> atEnd input (parseValue finite input fuel pos).
Proof.
  revert pos. induction fuel as [|fuel IH]; intros pos Hpos; [exact I|].
  cbn [parseValue].
  pose proof (skipWhitespace_ge input pos). pose proof (skipWhitespace_le input pos).
  set (q := skipWhitespace input pos) in *.
  assert (PW : forall p, p <= length -> within input p (parseValue finite input fuel p))
    by (intros; apply parseValue_within; assumption).
  repeat (split_if; bool_facts; try at_end_leaf).
  - unfold parseObject. cbv zeta.
    pose proof (skipWhitespace_le input (S q)).
    split_if; [exact I|]. apply parseObject_loop_atEnd; auto; lia.
  - unfold parseArray. cbv zeta.
    pose proof (skipWhitespace_le input (S q)).
    split_if; [exact I|]. apply parseArray_loop_atEnd; auto; lia.
  - apply (atEnd_bind input q);
      [unfold parseString; apply parseString_loop_atEnd; lia | apply parseString_within; lia |].
    intros; exact I.
  - unfold parseTrue. split_if; at_end_leaf.
  - unfold parseFalse. split_if; at_end_leaf.
  - unfold parseNull. split_if; at_end_leaf.
  - apply parseNumber_atEnd.
Qed.

Lemma parse_atEnd : atEnd input (parse finite input).
Proof.
  rewrite parse_unfold.
  pose proof (parseValue_atEnd (S length) 0 (Nat.le_0_l _)) as E.
  destruct (parseValue finite input (S length) 0) as [[v p]|e|]; cbn [bind atEnd] in *; auto.
  cbv zeta. split_if; at_end_leaf.
Qed.

End Exhaustion.



(** Where the loop of [parseObject] does find the input exhausted. *)
Example unterminated_object_examples :
  parseJSON (txt "{") = throw UnterminatedObject 1
  /\ parseJSON (txt "{  ") = throw UnterminatedObject 3
  /\ parseJSON (txt "{'a':1") = throw UnterminatedObject 6
  /\ parseJSON (txt "[{'a':{'b':null") = throw UnterminatedObject 15.
Proof. repeat split. Qed.

(** ** Objects: what is stored, and in which order it is enumerated *)

Section ObjectEntries.

Variable input : jsstring.
Variable pv : nat -> Result (JSONValue * nat).

Local Abbreviation length := (List.length input).

Lemma parseObject_entry_bind (R R' : Type)
      (again1 : jsstring -> JSONValue -> nat -> Result (R' * nat))
      (again2 : jsstring -> JSONValue -> nat -> Result (R * nat))
      (k : R * nat -> Result (R' * nat)) (pos : nat) :
  (forall key value p, again1 key value p = bind (again2 key value p) k) ->
  parseObject_entry input pv again1 pos = bind (parseObject_entry input pv again2 pos) k.
Proof.
  intros H. unfold parseObject_entry. cbv zeta.
  split_if; [reflexivity|].
  destruct (parseString input (skipWhitespace input pos)) as [[key p1]|e|]; cbn [bind];
    try reflexivity.
  split_if; [reflexivity|].
  destruct (pv (S (skipWhitespace input p1))) as [[value p3]|e|]; cbn [bind];
    try reflexivity.
  apply H.
Qed.

Lemma storeAll_app (obj : JSObject) (es : list (jsstring * JSONValue))
      (key : jsstring) (value : JSONValue) :
  storeAll obj (es ++ [(key, value)]) = obj_set (storeAll obj es) key value.
Proof. unfold storeAll. rewrite fold_left_app. reflexivity. Qed.

(** The loop of [parseObject] stores, one after the other, the entries that
    [objectEntries_loop] lists. *)
Lemma parseObject_loop_entries (fuel : nat) (obj0 : JSObject)
      (es : list (jsstring * JSONValue)) (first : bool) (pos : nat) :
  parseObject_loop input pv fuel (storeAll obj0 es) first pos
  = bind (objectEntries_loop input pv fuel es first pos)
         (fun '(es', p) => Ok (objectValue (storeAll obj0 es'), p)).
Proof.
  revert es first pos. induction fuel as [|fuel IH]; intros es first pos; [reflexivity|].
  cbn [parseObject_loop objectEntries_loop]. cbv zeta.
  assert (E : forall p,
    parseObject_entry input pv
      (fun key value pos => parseObject_loop input pv fuel
                              (obj_set (storeAll obj0 es) key value) false pos) p
    = bind (parseObject_entry input pv
              (fun key value pos => objectEntries_loop input pv fuel
                                      (es ++ [(key, value)]) false pos) p)
           (fun '(es', p) => Ok (objectValue (storeAll obj0 es'), p))).
  { intros p. apply parseObject_entry_bind. intros key value p'.
    rewrite <- storeAll_app. apply IH. }
  split_if; [|reflexivity].
  destruct first; [apply E|].
  do 3 (split_if; [reflexivity|]). apply E.
Qed.

Lemma parseObject_entries (pos : nat) :
  parseObject input pv pos
  = bind (objectEntries input pv pos)
         (fun '(es, p) => Ok (objectValue (storeAll emptyObject es), p)).
Proof.
  unfold parseObject, objectEntries. cbv zeta.
  split_if; [reflexivity|].
  apply (parseObject_loop_entries _ emptyObject []).
Qed.

End ObjectEntries.

Lemma jsstring_eqb_refl (s : jsstring) : jsstring_eqb s s = true.
Proof. apply jsstring_eqb_eq. reflexivity. Qed.

Lemma jsstring_eqb_neq (s t : jsstring) : jsstring_eqb s t = false <-> s <> t.
Proof.
  unfold jsstring_eqb. destruct (list_eq_dec Z.eq_dec s t); split; congruence.
Qed.

Lemma obj_set_plain (obj : JSObject) (key : jsstring) (value : JSONValue) :
  key <> PROTO -> obj_set obj key value = (fst obj, defineProperty (snd obj) key value).
Proof.
  intros H. unfold obj_set. apply jsstring_eqb_neq in H. rewrite H. reflexivity.
Qed.

Lemma getOwnProperty_define (props : list (jsstring * JSONValue))
      (key : jsstring) (value : JSONValue) (k : jsstring) :
  getOwnProperty (defineProperty props key value) k
  = if jsstring_eqb key k then Some value else getOwnProperty props k.
Proof.
  induction props as [|[k0 v0] props IH]; simpl.
  - reflexivity.
  - destruct (jsstring_eqb k0 key) eqn:E0; simpl.
    + apply jsstring_eqb_eq in E0. subst k0.
      destruct (jsstring_eqb key k); reflexivity.
    + destruct (jsstring_eqb k0 k) eqn:E1.
      * apply jsstring_eqb_eq in E1. subst k0. rewrite jsstring_eqb_neq in E0.
        replace (jsstring_eqb key k) with false
          by (symmetry; apply jsstring_eqb_neq; congruence).
        reflexivity.
      * exact IH.
Qed.

(** Reading back after [obj[key] = value], for a name other than
    [__proto__]. *)
Lemma getOwnProperty_obj_set (obj : JSObject) (key : jsstring) (value : JSONValue)
      (k : jsstring) :
  k <> PROTO ->
  getOwnProperty (snd (obj_set obj key value)) k
  = if jsstring_eqb key k then Some value else getOwnProperty (snd obj) k.
Proof.
  intros Hk. unfold obj_set.
  destruct (jsstring_eqb key PROTO && reachesProtoSetter (objectValue obj)) eqn:E.
  - apply andb_true_iff in E. destruct E as [E _]. apply jsstring_eqb_eq in E. subst key.
    replace (jsstring_eqb PROTO k) with false
      by (symmetry; apply jsstring_eqb_neq; congruence).
    destruct value; reflexivity.
  - simpl. apply getOwnProperty_define.
Qed.

(** Last write wins: after the entries are stored, a name other than
    [__proto__] is bound to the value of its last entry. *)
Lemma getOwnProperty_storeAll (es : list (jsstring * JSONValue)) (obj : JSObject)
      (k : jsstring) :
  k <> PROTO ->
  getOwnProperty (snd (storeAll obj es)) k
  = match lastValue es k with
    | Some v => Some v
    | None => getOwnProperty (snd obj) k
    end.
Proof.
  intros Hk. revert obj. induction es as [|[key value] es IH]; intros obj; simpl.
  - reflexivity.
  - change (storeAll obj ((key, value) :: es)) with (storeAll (obj_set obj key value) es).
    rewrite IH. destruct (lastValue es k); [reflexivity|].
    rewrite getOwnProperty_obj_set by exact Hk.
    destruct (jsstring_eqb key k); reflexivity.
Qed.

Lemma defineProperty_keys (props : list (jsstring * JSONValue))
      (key : jsstring) (value : JSONValue) :
  map fst (defineProperty props key value) = addKey (map fst props) key.
Proof.
  unfold addKey. induction props as [|[k0 v0] props IH]; simpl.
  - reflexivity.
  - destruct (jsstring_eqb k0 key) eqn:E0; simpl; [reflexivity|].
    rewrite IH. destruct (existsb (fun k => jsstring_eqb k key) (map fst props)); reflexivity.
Qed.

(** The own properties are created in the order in which their names first
    appear among the entries. *)
Lemma storeAll_keys (es : list (jsstring * JSONValue)) (obj : JSObject) :
  Forall (fun kv => fst kv <> PROTO) es ->
  map fst (snd (storeAll obj es)) = fold_left addKey (map fst es) (map fst (snd obj)).
Proof.
  revert obj. induction es as [|[key value] es IH]; intros obj Hall; simpl.
  - reflexivity.
  - apply Forall_cons_iff in Hall. destruct Hall as [Hk Hall].
    change (storeAll obj ((key, value) :: es)) with (storeAll (obj_set obj key value) es).
    rewrite IH by assumption. rewrite obj_set_plain by exact Hk. simpl.
    rewrite defineProperty_keys. reflexivity.
Qed.

(** *** The array indices among the keys, sorted *)


Lemma insertIndex_perm (i : Z) (key : jsstring) (l : list (Z * jsstring)) :
  Permutation (insertIndex i key l) ((i, key) :: l).
Proof.
  induction l as [|[j k] l IH]; simpl.
  - apply Permutation_refl.
  - destruct (Z.leb i j); [apply Permutation_refl|].
    eapply perm_trans; [apply perm_skip; exact IH | apply perm_swap].
Qed.

Lemma insertIndex_sorted (i : Z) (key : jsstring) (l : list (Z * jsstring)) :
  Sorted indexLe l -> Sorted indexLe (insertIndex i key l).
Proof.
  induction l as [|[j k] l IH]; intros Hs; simpl.
  - repeat constructor.
  - destruct (Z.leb_spec i j).
    + constructor; [exact Hs | constructor; unfold indexLe; simpl; lia].
    + inversion Hs as [|? ? Hs' Hhd]; subst. constructor; [apply IH; exact Hs'|].
      destruct l as [|[j' k'] l]; simpl.
      * constructor. unfold indexLe; simpl; lia.
      * destruct (Z.leb i j'); constructor; unfold indexLe; simpl; try lia.
        inversion Hhd; subst. assumption.
Qed.

Lemma sortedIndexKeys_sorted (keys : list jsstring) : Sorted indexLe (sortedIndexKeys keys).
Proof.
  induction keys as [|k keys IH]; simpl; [constructor|].
  destruct (arrayIndex k); [apply insertIndex_sorted|]; exact IH.
Qed.

Lemma sortedIndexKeys_perm (keys : list jsstring) :
  Permutation (map snd (sortedIndexKeys keys)) (filter isArrayIndex keys).
Proof.
  induction keys as [|k keys IH]; simpl; [constructor|].
  unfold isArrayIndex at 1. destruct (arrayIndex k) as [i|]; [|exact IH].
  eapply perm_trans; [apply Permutation_map, insertIndex_perm|].
  simpl. apply perm_skip. exact IH.
Qed.

Lemma sortedIndexKeys_index (keys : list jsstring) :
  Forall (fun ik => arrayIndex (snd ik) = Some (fst ik)) (sortedIndexKeys keys).
Proof.
  induction keys as [|k keys IH]; simpl; [constructor|].
  destruct (arrayIndex k) as [i|] eqn:E; [|exact IH].
  eapply Permutation_Forall; [apply Permutation_sym, insertIndex_perm|].
  constructor; [exact E | exact IH].
Qed.

Section ObjectResults.

Variable finite : jsstring -> bool.
Variable input : jsstring.

Local Abbreviation length := (List.length input).

Lemma parseArray_loop_array (pv : nat -> Result (JSONValue * nat)) (fuel : nat)
      (arr : list JSONValue) (first : bool) (pos : nat) (v : JSONValue) (p : nat) :
  parseArray_loop input pv fuel arr first pos = Ok (v, p) -> exists items, v = JArray items.
Proof.
  revert arr first pos. induction fuel as [|fuel IH]; intros arr first pos; [discriminate|].
  cbn [parseArray_loop]. cbv zeta. unfold parseArray_element.
  split_if; [|discriminate].
  destruct first.
  - destruct (pv pos) as [[value p1]|e|]; cbn [bind]; try discriminate. apply IH.
  - split_if; [discriminate|].
    split_if; [intros [= <- <-]; eauto|].
    split_if; [discriminate|].
    destruct (pv (S (skipWhitespace input pos))) as [[value p1]|e|]; cbn [bind];
      try discriminate. apply IH.
Qed.

Lemma parseNumber_number (pos : nat) (v : JSONValue) (p : nat) :
  parseNumber finite input pos = Ok (v, p) -> exists numberStr, v = JNumber numberStr.
Proof.
  unfold parseNumber. repeat (split_if; cbn [bind]); try discriminate;
    intros [= <- <-]; eauto.
Qed.

(** Only [parseObject] returns an object. *)
Lemma parseValue_object (fuel pos : nat) (proto : Prototype)
      (props : list (jsstring * JSONValue)) (p : nat) :
  parseValue finite input (S fuel) pos = Ok (JObject proto props, p) ->
  parseObject input (parseValue finite input fuel) (skipWhitespace input pos)
  = Ok (JObject proto props, p).
Proof.
  cbn [parseValue]. set (q := skipWhitespace input pos).
  split_if; [discriminate|]. split_if; [auto|].
  split_if.
  { unfold parseArray. cbv zeta. split_if; [discriminate|].
    intros H. apply parseArray_loop_array in H. destruct H as [items H]. discriminate. }
  split_if.
  { destruct (parseString input q) as [[s p1]|e|]; cbn [bind]; discriminate. }
  split_if; [unfold parseTrue; split_if; discriminate|].
  split_if; [unfold parseFalse; split_if; discriminate|].
  split_if; [unfold parseNull; split_if; discriminate|].
  split_if; [|discriminate].
  intros H. apply parseNumber_number in H. destruct H as [n H]. discriminate.
Qed.

(** An object returned by [parse] is the store of the entries of the
    top-level object of the input. *)
Lemma parse_object_entries (proto : Prototype) (props : list (jsstring * JSONValue)) :
  parse finite input = Ok (JObject proto props) ->
  exists entries p,
    topLevelEntries finite input = Ok (entries, p)
    /\ (proto, props) = storeAll emptyObject entries.
Proof.
  rewrite parse_unfold.
  destruct (parseValue finite input (S length) 0) as [[v p]|e|] eqn:E; cbn [bind];
    try discriminate.
  cbv zeta. split_if; [discriminate|]. intros [= ->].
  apply parseValue_object in E. rewrite parseObject_entries in E.
  unfold topLevelEntries.
  destruct (objectEntries input (parseValue finite input length) (skipWhitespace input 0))
    as [[es p']|e|]; cbn [bind] in E; try discriminate.
  injection E as E1 E2 E3. exists es, p'. split; [reflexivity|].
  destruct (storeAll emptyObject es) as [pr ps]. simpl in *. congruence.
Qed.

End ObjectResults.

(** C2, as the code has it: when [parse] returns an object none of whose
    entries is named [__proto__], enumerating its keys yields first the keys
    that are array indices, in ascending numeric order, and then the other
    keys in the order in which their entries first appear in the input. *)
Theorem object_key_order (finite : jsstring -> bool) (input : jsstring)
        (proto : Prototype) (props : list (jsstring * JSONValue)) :
  parse finite input = Ok (JObject proto props) ->
  exists entries p,
    topLevelEntries finite input = Ok (entries, p)
    /\ (Forall (fun kv => fst kv <> PROTO) entries ->
        let keys := firstOccurrences (map fst entries) in
        exists indexed,
          ownKeys props = map snd indexed ++ filter (fun k => negb (isArrayIndex k)) keys
          /\ Sorted indexLe indexed
          /\ Forall (fun ik => arrayIndex (snd ik) = Some (fst ik)) indexed
          /\ Permutation (map snd indexed) (filter isArrayIndex keys)).
Proof.
  intros H. destruct (parse_object_entries finite input proto props H) as (es & p & E & S).
  exists es, p. split; [exact E|].
  intros Hall keys.
  assert (K : map fst props = keys).
  { pose proof (storeAll_keys es emptyObject Hall) as K. rewrite <- S in K. exact K. }
  exists (sortedIndexKeys keys). unfold ownKeys. rewrite K.
  repeat split.
  - apply sortedIndexKeys_sorted.
  - apply sortedIndexKeys_index.
  - apply sortedIndexKeys_perm.
Qed.

Lemma object_key_order_witness :
  exists entries p,
    topLevelEntries numberIsFinite (txt "{'b':1, 'a':2, 'b':3, '7':4, '10':5, '2':null}")
    = Ok (entries, p)
    /\ (Forall (fun kv => fst kv <> PROTO) entries ->
        let keys := firstOccurrences (map fst entries) in
        exists indexed,
          ownKeys [(txt "b", JNumber (txt "3")); (txt "a", JNumber (txt "2"));
                   (txt "7", JNumber (txt "4")); (txt "10", JNumber (txt "5"));
                   (txt "2", JNull)]
          = map snd indexed ++ filter (fun k => negb (isArrayIndex k)) keys
          /\ Sorted indexLe indexed
          /\ Forall (fun ik => arrayIndex (snd ik) = Some (fst ik)) indexed
          /\ Permutation (map snd indexed) (filter isArrayIndex keys)).
Proof.
  apply (object_key_order numberIsFinite
           (txt "{'b':1, 'a':2, 'b':3, '7':4, '10':5, '2':null}") ObjectPrototype).
  reflexivity.
Defined.

(** C2, as stated, fails: a key that is an array index is enumerated before
    a key whose entry comes earlier in the text. *)
Lemma object_key_order_counterexample :
  parseJSON (txt "{'b':1,'1':2}")
  = Ok (JObject ObjectPrototype [(txt "b", JNumber (txt "1")); (txt "1", JNumber (txt "2"))])
  /\ topLevelEntries numberIsFinite (txt "{'b':1,'1':2}")
     = Ok ([(txt "b", JNumber (txt "1")); (txt "1", JNumber (txt "2"))], 13)
  /\ ownKeys [(txt "b", JNumber (txt "1")); (txt "1", JNumber (txt "2"))] = [txt "1"; txt "b"]
  /\ [txt "1"; txt "b"] <> [txt "b"; txt "1"].
Proof.
  repeat split. discriminate.
Qed.

(** Last write wins for every name but [__proto__]: in an object returned
    by [parse], such a name is bound to the value of the last entry of the
    text under that name, and is unbound when the text has no such entry. *)
Theorem object_last_write_wins (finite : jsstring -> bool) (input : jsstring)
        (proto : Prototype) (props : list (jsstring * JSONValue)) :
  parse finite input = Ok (JObject proto props) ->
  exists entries p,
    topLevelEntries finite input = Ok (entries, p)
    /\ forall key, key <> PROTO -> getOwnProperty props key = lastValue entries key.
Proof.
  intros H. destruct (parse_object_entries finite input proto props H) as (es & p & E & S).
  exists es, p. split; [exact E|].
  intros key Hk. pose proof (getOwnProperty_storeAll es emptyObject key Hk) as G.
  rewrite <- S in G. simpl in G. rewrite G. destruct (lastValue es key); reflexivity.
Qed.

Example duplicate_key_example :
  parseJSON (txt "{'a':1,'a':2}") = Ok (JObject ObjectPrototype [(txt "a", JNumber (txt "2"))]).
Proof. reflexivity. Qed.

(** C4 on the code: an entry named [__proto__] is not stored.  The
    assignment [obj[key] = value] reaches the [__proto__] accessor of
    [Object.prototype]; the object returned has no own property of that
    name, whatever the entries say, and a value that is an object becomes
    the prototype of the result instead. *)
Theorem proto_entry_not_stored :
  parseJSON (txt "{'__proto__':1,'__proto__':2}") = Ok (JObject ObjectPrototype [])
  /\ topLevelEntries numberIsFinite (txt "{'__proto__':1,'__proto__':2}")
     = Ok ([(PROTO, JNumber (txt "1")); (PROTO, JNumber (txt "2"))], 29)
  /\ lastValue [(PROTO, JNumber (txt "1")); (PROTO, JNumber (txt "2"))] PROTO
     = Some (JNumber (txt "2"))
  /\ getOwnProperty [] PROTO = None
  /\ parseJSON (txt "{'__proto__':1}") = Ok (JObject ObjectPrototype [])
  /\ parseJSON (txt "{'a':1,'__proto__':{'b':2}}")
     = Ok (JObject (ValuePrototype (JObject ObjectPrototype [(txt "b", JNumber (txt "2"))]))
                   [(txt "a", JNumber (txt "1"))]).
Proof. repeat split. Qed.
(** ** Inputs that agree on a prefix *)

Section Agreement.

Variables s s' : jsstring.

Lemma agree_le (n m : nat) : agree s s' n -> m <= n -> agree s s' m.
Proof. intros H Hm i Hi. apply H. lia. Qed.

Lemma agree_soft (n : nat) : agree s s' (S n) -> soft s s' n.
Proof. intros H. split; [eapply agree_le; eauto | left; apply H; lia]. Qed.

Lemma soft_le (n m : nat) : soft s s' n -> m <= n -> soft s s' m.
Proof.
  intros [H Hn] Hm. destruct (Nat.eq_dec m n) as [->|]; [split; assumption|].
  apply agree_soft. eapply agree_le; eauto. lia.
Qed.

Lemma ltb_length_charAt (t : jsstring) (i : nat) :
  (i <? List.length t) = match charAt t i with Some _ => true | None => false end.
Proof.
  destruct (charAt t i) eqn:E.
  - apply Nat.ltb_lt. eapply charAt_Some_lt; eauto.
  - apply Nat.ltb_ge. apply nth_error_None. exact E.
Qed.

Lemma agree_ltb (n i : nat) :
  agree s s' n -> i < n -> (i <? List.length s') = (i <? List.length s).
Proof. intros H Hi. rewrite !ltb_length_charAt, (H i Hi). reflexivity. Qed.

Lemma agree_leb (n i : nat) :
  agree s s' n -> i < n -> (List.length s' <=? i) = (List.length s <=? i).
Proof.
  intros H Hi. pose proof (agree_ltb n i H Hi) as E.
  rewrite !Nat.leb_antisym. rewrite E. reflexivity.
Qed.

Lemma agree_length (n : nat) : agree s s' n -> n <= List.length s -> n <= List.length s'.
Proof.
  intros H Hn. destruct n as [|n]; [lia|].
  assert (E : (n <? List.length s') = true).
  { rewrite (agree_ltb (S n) n H) by lia. apply Nat.ltb_lt. lia. }
  apply Nat.ltb_lt in E. lia.
Qed.

Lemma charAt_slice (t : jsstring) (a b k : nat) :
  nth_error (slice t a b) k = if k <? b - a then charAt t (a + k) else None.
Proof.
  unfold slice, charAt. destruct (k <? b - a) eqn:E.
  - apply Nat.ltb_lt in E. rewrite nth_error_firstn. 
    replace (k <? b - a) with true by (symmetry; apply Nat.ltb_lt; lia).
    rewrite nth_error_skipn. reflexivity.
  - apply Nat.ltb_ge in E. apply nth_error_None.
    rewrite length_firstn. lia.
Qed.

Lemma agree_slice (n a b : nat) : agree s s' n -> b <= n -> slice s' a b = slice s a b.
Proof.
  intros H Hb. apply nth_error_ext. intros k. rewrite !charAt_slice.
  destruct (k <? b - a) eqn:E; [|reflexivity].
  apply Nat.ltb_lt in E. apply H. lia.
Qed.

(** A run-skipping loop stops at the same place on both inputs, when they
    agree on the run and the second input has no character of the class
    where the first one stops. *)
Lemma agree_run (skip skip' : nat -> nat) (class : option Z -> bool) (pos : nat) :
  (forall p, skip p = if (p <? List.length s) && class (charAt s p) then skip (S p) else p) ->
  (forall p, skip' p = if (p <? List.length s') && class (charAt s' p) then skip' (S p) else p) ->
  class None = false ->
  agree s s' (skip pos) ->
  class (charAt s' (skip pos)) = false ->
  skip' pos = skip pos.
Proof.
  intros E E' Hnone H Hstop.
  apply (run_unique s' skip' class E').
  - apply (run_ge s skip class E).
  - intros i Hi. pose proof (run_between s skip class E pos i Hi) as B.
    rewrite (agree_ltb _ i H) by lia. rewrite (H i) by lia. rewrite B.
    destruct (charAt s i) eqn:C; [|congruence].
    apply charAt_Some_lt in C. apply Nat.ltb_lt in C. rewrite C. reflexivity.
  - rewrite Hstop. apply andb_false_r.
Qed.

Lemma agree_skipWhitespace (n pos : nat) :
  agree s s' n -> skipWhitespace s pos < n -> skipWhitespace s' pos = skipWhitespace s pos.
Proof.
  intros H Hq. apply (agree_run _ _ isWhitespace); auto using skipWhitespace_eq.
  - eapply agree_le; eauto. lia.
  - rewrite (H _ Hq). pose proof (skipWhitespace_stop s pos) as S0.
    destruct (isWhitespace (charAt s (skipWhitespace s pos))) eqn:W; [|reflexivity].
    apply isWhitespace_lt in W as L. apply Nat.ltb_lt in L. rewrite L in S0. discriminate.
Qed.

Lemma agree_skipDigits (n pos : nat) :
  agree s s' n -> skipDigits s pos < n -> skipDigits s' pos = skipDigits s pos.
Proof.
  intros H Hq. apply (agree_run _ _ isDigit); auto using skipDigits_eq.
  - eapply agree_le; eauto. lia.
  - rewrite (H _ Hq). pose proof (skipDigits_stop s pos) as S0.
    destruct (isDigit (charAt s (skipDigits s pos))) eqn:W; [|reflexivity].
    apply isDigit_lt in W as L. apply Nat.ltb_lt in L. rewrite L in S0. discriminate.
Qed.

End Agreement.

(** ** Outcomes that carry over to an input with the same prefix *)

(** Arithmetic facts out of the tests that are known, the tests themselves
    being kept for rewriting. *)
Ltac seal H := let T := type of H in change (kept T) in H.

Ltac learn_from H :=
  lazymatch type of H with
  | (?a <? ?b) = true => apply Nat.ltb_lt in H
  | (?a <? ?b) = false => apply Nat.ltb_ge in H
  | (?a <=? ?b) = true => apply Nat.leb_le in H
  | (?a <=? ?b) = false => apply Nat.leb_gt in H
  | (_ && _) = true =>
      let H1 := fresh in let H2 := fresh in
      apply andb_true_iff in H; destruct H as [H1 H2];
      first [learn_from H1 | seal H1]; first [learn_from H2 | seal H2]
  | (_ || _) = false =>
      let H1 := fresh in let H2 := fresh in
      apply orb_false_iff in H; destruct H as [H1 H2];
      first [learn_from H1 | seal H1]; first [learn_from H2 | seal H2]
  | negb _ = true => apply negb_true_iff in H; first [learn_from H | seal H]
  | negb _ = false => apply negb_false_iff in H; first [learn_from H | seal H]
  | charIs (charAt ?t ?i) _ = true => apply charIs_lt in H
  | isDigit (charAt ?t ?i) = true =>
      let H' := fresh in pose proof H as H'; apply isDigit_lt in H'; seal H
  end.

Ltac learn :=
  repeat match goal with
  | H : ?t = ?b |- _ =>
      lazymatch b with true => idtac | false => idtac end;
      lazymatch goal with
      | _ : learned t |- _ => fail
      | _ => idtac
      end;
      let M := fresh "M" in
      assert (M : learned t) by exact I;
      let H' := fresh "F" in
      pose proof H as H'; first [learn_from H' | clear H']
  end.

(** Tests of the run on the second input, read through the agreement. *)
Ltac sync Hag :=
  repeat match goal with
  | |- context [charAt ?t ?i] => rewrite (Hag i) by lia
  | |- context [?i <? List.length ?t] => rewrite (agree_ltb _ t _ i Hag) by lia
  | |- context [List.length ?t <=? ?i] => rewrite (agree_leb _ t _ i Hag) by lia
  | |- context [slice ?t ?a ?b] => rewrite (agree_slice _ t _ a b Hag) by lia
  | |- context [skipWhitespace ?t ?a] => rewrite (agree_skipWhitespace _ t _ a Hag) by lia
  | |- context [skipDigits ?t ?a] => rewrite (agree_skipDigits _ t _ a Hag) by lia
  end.

Ltac known_step :=
  repeat match goal with
  | H : ?t = true |- context [?t] => rewrite H
  | H : ?t = false |- context [?t] => rewrite H
  | H : simpleEscape ?c = _ |- context [simpleEscape ?c] => rewrite H
  end.

(** The run on the second input, followed test by test. *)
Ltac follow Hag :=
  repeat (progress (sync Hag; known_step; cbn [bind throw andb orb negb])).

Section TransferBasics.

Variables s s' : jsstring.

Lemma transfers_refl (hi : nat) (A : Type) (r : Result (A * nat)) : transfers s s' hi r r.
Proof. destruct r as [[a p]|e|]; simpl; auto. Qed.

Lemma transfers_anchored (hi : nat) (A : Type) (m : Message) (p : nat) (r' : Result (A * nat)) :
  anchored m = true -> transfers s s' hi (throw m p) r'.
Proof. simpl. intros H H'. congruence. Qed.

Lemma transfers_vacuous (hi pos : nat) (A : Type) (r r' : Result (A * nat)) :
  within s pos r -> hi < pos -> transfers s s' hi r r'.
Proof. destruct r as [[a p]|e|]; simpl; intros; auto; lia. Qed.

Lemma within_beyond (x : nat) (A : Type) (r : Result (A * nat)) :
  within s (S x) r -> beyond x r.
Proof. destruct r as [[a p]|e|]; simpl; intros; auto; lia. Qed.

Lemma transfers_sync (hi x : nat) (A : Type) (X r' r'' : Result (A * nat)) :
  beyond x X ->
  (agree s s' (S x) -> r' = r'') ->
  transfers s s' hi X r'' -> transfers s s' hi X r'.
Proof.
  destruct X as [[a p]|e|]; simpl; auto.
  - intros B E T So Hhi. rewrite E; [auto|]. destruct So as [Ag _].
    eapply agree_le; eauto.
  - intros B E T An Ag Hhi. destruct B as [B|B]; [|congruence].
    rewrite E; [auto|]. eapply agree_le; eauto. lia.
Qed.

Lemma transfers_bind (hi : nat) (A B : Type) (r1 r1' : Result (A * nat))
      (k k' : A * nat -> Result (B * nat)) :
  transfers s s' hi r1 r1' ->
  (forall a p1, r1 = Ok (a, p1) ->
     within s p1 (k (a, p1)) /\ transfers s s' hi (k (a, p1)) (k' (a, p1))) ->
  transfers s s' hi (bind r1 k) (bind r1' k').
Proof.
  intros T1 Hk. destruct r1 as [[a p1]|e|]; cbn [bind]; [| |exact I].
  - destruct (Hk a p1 eq_refl) as [W T2].
    destruct (k (a, p1)) as [[b p2]|e|] eqn:K; simpl in *; auto.
    + intros So Hhi.
      assert (E : r1' = Ok (a, p1)) by (apply T1; [eapply soft_le; [eassumption | lia] | lia]).
      rewrite E. cbn [bind]. apply T2; assumption.
    + intros An Ag Hhi.
      assert (E : r1' = Ok (a, p1))
        by (apply T1; [eapply soft_le; [apply agree_soft; eassumption | lia] | lia]).
      rewrite E. cbn [bind]. apply T2; assumption.
  - simpl in *. intros An Ag Hhi. rewrite T1; auto.
Qed.

Lemma parseString_loop_transfers (fuel fuel' : nat) (result : jsstring) (pos hi : nat) :
  pos <= List.length s -> hi < fuel' + pos ->
  transfers s s' hi (parseString_loop s fuel result pos) (parseString_loop s' fuel' result pos).
Proof.
  revert fuel' result pos. induction fuel as [|fuel IH]; intros fuel' result pos Hpos Hhi;
    [exact I|].
  destruct fuel' as [|fuel'];
    [eapply transfers_vacuous; [apply parseString_loop_within; eauto|lia]|].
  cbn [parseString_loop].
  destruct (pos <? List.length s) eqn:L.
  2:{ apply (transfers_sync hi pos _ _ _ (throw UnterminatedString pos));
        [left; simpl; lia | intros Hag; follow Hag; reflexivity | apply transfers_refl]. }
  destruct (charIs (charAt s pos) QUOTE) eqn:Q.
  { apply (transfers_sync hi pos _ _ _ (Ok (result, S pos)));
      [simpl; lia | intros Hag; follow Hag; reflexivity | apply transfers_refl]. }
  destruct (charIs (charAt s pos) BACKSLASH) eqn:B.
  - destruct (List.length s <=? S pos) eqn:L1.
    { apply (transfers_sync hi (S pos) _ _ _ (throw UnterminatedEscape (S pos)));
        [left; simpl; lia | intros Hag; follow Hag; reflexivity | apply transfers_refl]. }
    destruct (simpleEscape (charAt s (S pos))) as [c|] eqn:SE.
    { learn.
      apply (transfers_sync hi (S pos) _ _ _
               (parseString_loop s' fuel' (result ++ [c]) (S (S pos))));
        [apply within_beyond, parseString_loop_within; lia
        | intros Hag; follow Hag; reflexivity
        | apply IH; lia]. }
    destruct (charIs (charAt s (S pos)) (chr "u")) eqn:U.
    + destruct (List.length s <=? S pos + 4) eqn:L5; [apply transfers_anchored; reflexivity|].
      destruct (negb (isHex4 (slice s (S pos + 1) (S pos + 5)))) eqn:HX;
        [apply transfers_anchored; reflexivity|].
      learn.
      apply (transfers_sync hi (S pos + 4) _ _ _
               (parseString_loop s' fuel'
                  (result ++ fromCharCode (parseInt16 (slice s (S pos + 1) (S pos + 5))))
                  (S (S pos + 4))));
        [apply within_beyond, parseString_loop_within; lia
        | intros Hag; follow Hag; reflexivity
        | apply IH; lia].
    + apply (transfers_sync hi (S pos) _ _ _
               (throw (InvalidEscapeSequence (charAt s (S pos))) (S pos)));
        [left; simpl; lia | intros Hag; follow Hag; reflexivity | apply transfers_refl].
  - destruct (charLt (charAt s pos) SPACE && negb (charIs (charAt s pos) TAB)) eqn:C.
    { apply (transfers_sync hi pos _ _ _
               (throw (UnescapedControlCharacter
                         (match charAt s pos with Some c => c | None => 0%Z end)) pos));
        [left; simpl; lia | intros Hag; follow Hag; reflexivity | apply transfers_refl]. }
    learn.
    apply (transfers_sync hi pos _ _ _
             (parseString_loop s' fuel' (result ++ strOf (charAt s pos)) (S pos)));
      [apply within_beyond, parseString_loop_within; lia
      | intros Hag; follow Hag; reflexivity
      | apply IH; lia].
Qed.

End TransferBasics.

Section TransferScalars.

Variables g g' : jsstring -> bool.
Variables s s' : jsstring.
Hypothesis g_le : forall numberStr, g numberStr = true -> g' numberStr = true.

Lemma transfers_bounded (hi pos : nat) (A : Type) (r r' : Result (A * nat)) :
  within s pos r ->
  (forall E, E <= List.length s' -> transfers s s' E r r') ->
  transfers s s' hi r r'.
Proof.
  destruct r as [[a p]|e|]; simpl; auto.
  - intros W H So Hhi. apply (H p); auto.
    destruct So as [Ag _]. apply (agree_length s s' p Ag). lia.
  - intros W H An Ag Hhi. apply (H (position e)); auto.
    apply (agree_length s s' (position e)); [eapply agree_le; eauto | lia].
Qed.

Lemma parseString_transfers (hi pos : nat) :
  pos < List.length s ->
  transfers s s' hi (parseString s pos) (parseString s' pos).
Proof.
  intros Hpos. apply (transfers_bounded hi pos); [apply parseString_within; exact Hpos|].
  intros E HE. unfold parseString. apply parseString_loop_transfers; lia.
Qed.

Lemma parseTrue_transfers (hi pos : nat) :
  transfers s s' hi (parseTrue s pos) (parseTrue s' pos).
Proof.
  unfold parseTrue. destruct (jsstring_eqb (slice s pos (pos + 4)) (txt "true")) eqn:E;
    [|apply transfers_anchored; reflexivity].
  apply (transfers_sync s s' hi (pos + 3) _ _ _ (Ok (JBoolean true, pos + 4)));
    [simpl; lia | intros Hag; follow Hag; reflexivity | apply transfers_refl].
Qed.

Lemma parseFalse_transfers (hi pos : nat) :
  transfers s s' hi (parseFalse s pos) (parseFalse s' pos).
Proof.
  unfold parseFalse. destruct (jsstring_eqb (slice s pos (pos + 5)) (txt "false")) eqn:E;
    [|apply transfers_anchored; reflexivity].
  apply (transfers_sync s s' hi (pos + 4) _ _ _ (Ok (JBoolean false, pos + 5)));
    [simpl; lia | intros Hag; follow Hag; reflexivity | apply transfers_refl].
Qed.

Lemma parseNull_transfers (hi pos : nat) :
  transfers s s' hi (parseNull s pos) (parseNull s' pos).
Proof.
  unfold parseNull. destruct (jsstring_eqb (slice s pos (pos + 4)) (txt "null")) eqn:E;
    [|apply transfers_anchored; reflexivity].
  apply (transfers_sync s s' hi (pos + 3) _ _ _ (Ok (JNull, pos + 4)));
    [simpl; lia | intros Hag; follow Hag; reflexivity | apply transfers_refl].
Qed.

Lemma agree_S (n : nat) : agree s s' n -> charAt s' n = charAt s n -> agree s s' (S n).
Proof.
  intros H E i Hi. destruct (Nat.eq_dec i n) as [->|]; [exact E | apply H; lia].
Qed.

Lemma soft_skipDigits (pos : nat) :
  agree s s' (skipDigits s pos) ->
  isDigit (charAt s' (skipDigits s pos)) = false ->
  skipDigits s' pos = skipDigits s pos.
Proof.
  intros H D. apply (agree_run s s' _ _ isDigit); auto using skipDigits_eq.
Qed.

Lemma numberStop_facts (c : option Z) :
  numberStop c = true ->
  isDigit c = false /\ charIs c DOT = false
  /\ charIs c (chr "e") = false /\ charIs c (chr "E") = false.
Proof.
  unfold numberStop. intros H. repeat (apply andb_true_iff in H; destruct H as [H ?]).
  repeat split; apply negb_true_iff; assumption.
Qed.

Lemma skipDigits_gt (pos : nat) :
  isDigit (charAt s pos) = true -> pos < skipDigits s pos.
Proof.
  intros D. rewrite skipDigits_eq, D. apply isDigit_lt in D as L.
  apply Nat.ltb_lt in L. rewrite L. cbn [andb].
  pose proof (skipDigits_ge s (S pos)). lia.
Qed.

Ltac split_run :=
  match goal with
  | |- transfers _ _ _ ?X _ =>
      match X with
      | context [if ?b then _ else _] => destruct b eqn:?; cbn [bind throw]
      end
  end.

Ltac digit_facts :=
  repeat match goal with
  | D : kept (isDigit (charAt s ?a) = true) |- _ =>
      lazymatch goal with
      | _ : a < skipDigits s a |- _ => fail
      | _ => pose proof (skipDigits_gt a D)
      end
  | |- context [skipDigits s ?a] =>
      lazymatch goal with
      | _ : a <= skipDigits s a |- _ => fail
      | _ => pose proof (skipDigits_ge s a)
      end
  | _ : context [skipDigits s ?a] |- _ =>
      lazymatch goal with
      | _ : a <= skipDigits s a |- _ => fail
      | _ => pose proof (skipDigits_ge s a)
      end
  end.

Lemma parseNumber_transfers (hi pos : nat) :
  transfers s s' hi (parseNumber g s pos) (parseNumber g' s' pos).
Proof.
  unfold parseNumber.
  repeat split_run.
  all: try (apply transfers_anchored; reflexivity).
  all: learn; try discriminate.
  all: digit_facts.
  all: try match goal with
       | |- transfers _ _ _ (Throw (mkError ?m ?p)) _ =>
           apply (transfers_sync s s' hi p _ _ _ (throw m p));
             [left; simpl; lia | intros Hag; follow Hag; reflexivity
             | apply transfers_refl]
       end.
  all: try match goal with
       | H : negb (g ?x) = false |- _ =>
           assert (negb (g' x) = false)
             by (apply negb_false_iff, g_le, negb_false_iff, H)
       end.
  all: try match goal with
       | |- transfers _ _ _ (Ok (_, ?E)) _ =>
           cbn [transfers]; intros [Hag [Hsame|Hstop]] Hhi;
           [ pose proof (agree_S E Hag Hsame) as Hag1; follow Hag1; reflexivity
           | destruct (numberStop_facts _ Hstop) as (D & P & E1 & E2);
             repeat (progress (sync Hag; known_step;
                               rewrite ?D, ?P, ?E1, ?E2, ?andb_false_r;
                               try match goal with
                                   | |- context [skipDigits s' ?a] =>
                                       rewrite (soft_skipDigits a) by assumption
                                   end;
                               cbn [bind throw andb orb negb]));
             reflexivity ]
       end.
Qed.

End TransferScalars.

Lemma beyond_bind (s : jsstring) (x : nat) (A B : Type) (r : Result (A * nat))
      (k : A * nat -> Result (B * nat)) :
  beyond x r ->
  (forall a p, r = Ok (a, p) -> within s p (k (a, p))) ->
  beyond x (bind r k).
Proof.
  destruct r as [[a p]|e|]; cbn [bind beyond]; auto.
  intros Hx Hk. specialize (Hk a p eq_refl).
  destruct (k (a, p)) as [[b p']|e|]; simpl in *; auto; lia.
Qed.

Lemma beyond_weaken (x y : nat) (A : Type) (r : Result (A * nat)) :
  x <= y -> beyond y r -> beyond x r.
Proof.
  destruct r as [[a p]|e|]; simpl; auto; [lia|]. intros H [H'|H']; [left; lia|right; exact H'].
Qed.

Section TransferContainers.

Variables s s' : jsstring.
Variables pv pv' : nat -> Result (JSONValue * nat).
Variables lo hi : nat.

Hypothesis pv_within : forall x, x <= List.length s -> within s x (pv x).
Hypothesis pv_beyond : forall x, x <= List.length s -> beyond x (pv x).
Hypothesis pv_transfers :
  forall x, lo <= x -> x <= List.length s -> transfers s s' hi (pv x) (pv' x).

Lemma parseString_within_S (pos : nat) :
  pos < List.length s -> within s (S pos) (parseString s pos).
Proof. intros H. unfold parseString. apply parseString_loop_within. lia. Qed.

Lemma parseString_beyond (pos : nat) : pos < List.length s -> beyond pos (parseString s pos).
Proof.
  intros H. apply (within_beyond s). unfold parseString.
  apply parseString_loop_within. lia.
Qed.

Lemma parseObject_entry_beyond (R : Type)
      (again : jsstring -> JSONValue -> nat -> Result (R * nat)) (pos : nat) :
  (forall k v p, p <= List.length s -> within s p (again k v p)) ->
  pos <= List.length s ->
  beyond pos (parseObject_entry s pv again pos).
Proof.
  intros Hagain Hpos. unfold parseObject_entry. cbv zeta.
  pose proof (skipWhitespace_ge s pos). pose proof (skipWhitespace_le s pos Hpos).
  split_if; [left; simpl; lia|]. learn.
  apply (beyond_weaken pos (skipWhitespace s pos)); [lia|].
  apply (beyond_bind s); [apply parseString_beyond; lia|].
  intros key p1 E. pose proof (parseString_within_S (skipWhitespace s pos)) as W.
  rewrite E in W. simpl in W.
  pose proof (skipWhitespace_ge s p1). pose proof (skipWhitespace_le s p1).
  split_if; [simpl; lia|]. learn.
  eapply within_weaken; [|apply within_bind; [apply pv_within; lia|]]; [lia|].
  intros value p3 Hp3. apply Hagain. lia.
Qed.

Lemma parseObject_entry_transfers
      (again again' : jsstring -> JSONValue -> nat -> Result (JSONValue * nat)) (pos : nat) :
  lo <= S pos -> pos <= List.length s ->
  (forall k v p, pos < p <= List.length s ->
     within s p (again k v p) /\ transfers s s' hi (again k v p) (again' k v p)) ->
  transfers s s' hi (parseObject_entry s pv again pos) (parseObject_entry s' pv' again' pos).
Proof.
  intros Hlo Hpos Hagain. unfold parseObject_entry. cbv zeta.
  pose proof (skipWhitespace_ge s pos). pose proof (skipWhitespace_le s pos Hpos).
  set (q := skipWhitespace s pos) in *.
  destruct ((List.length s <=? q) || negb (charIs (charAt s q) QUOTE)) eqn:K.
  { apply (transfers_sync s s' hi q _ _ _ (throw ExpectedStringKey q));
      [left; simpl; lia | intros Hag; subst q; follow Hag; reflexivity | apply transfers_refl]. }
  learn.
  set (tail := fun (sx : jsstring) (pvx : nat -> Result (JSONValue * nat))
                   (againx : jsstring -> JSONValue -> nat -> Result (JSONValue * nat))
                   (kp : jsstring * nat) =>
     let '(key, pos0) := kp in
     let pos1 := skipWhitespace sx pos0 in
     if (List.length sx <=? pos1) || negb (charIs (charAt sx pos1) COLON)
     then throw ExpectedColon pos1
     else bind (pvx (S pos1)) (fun '(value, pos2) => againx key value pos2)).
  assert (TW : forall key p1, q < p1 <= List.length s -> within s p1 (tail s pv again (key, p1))).
  { intros key p1 Hp1. unfold tail.
    pose proof (skipWhitespace_ge s p1). pose proof (skipWhitespace_le s p1).
    split_if; [simpl; lia|]. learn.
    eapply within_weaken; [|apply within_bind; [apply pv_within; lia|]]; [lia|].
    intros value p3 Hp3. apply Hagain. lia. }
  apply (transfers_sync s s' hi q _ _ _ (bind (parseString s' q) (tail s' pv' again'))).
  - apply (beyond_bind s); [apply parseString_beyond; lia|].
    intros key p1 E. pose proof (parseString_within_S q) as W. rewrite E in W.
    simpl in W. apply (TW key p1). lia.
  - intros Hag. subst q. follow Hag. reflexivity.
  - change (transfers s s' hi (bind (parseString s q) (tail s pv again))
              (bind (parseString s' q) (tail s' pv' again'))).
    apply transfers_bind; [apply parseString_transfers; lia|].
    intros key p1 E. pose proof (parseString_within_S q) as W. rewrite E in W. simpl in W.
    split; [apply TW; lia|]. unfold tail.
    pose proof (skipWhitespace_ge s p1). pose proof (skipWhitespace_le s p1).
    set (q1 := skipWhitespace s p1) in *.
    destruct ((List.length s <=? q1) || negb (charIs (charAt s q1) COLON)) eqn:K1.
    { apply (transfers_sync s s' hi q1 _ _ _ (throw ExpectedColon q1));
        [left; simpl; lia | intros Hag; subst q1; follow Hag; reflexivity
        | apply transfers_refl]. }
    learn.
    apply (transfers_sync s s' hi q1 _ _ _
             (bind (pv' (S q1)) (fun '(value, pos2) => again' key value pos2))).
    + apply (beyond_bind s); [apply (within_beyond s), pv_within; lia|].
      intros value p3 E3. pose proof (pv_within (S q1)) as W3. rewrite E3 in W3.
      simpl in W3. apply Hagain. lia.
    + intros Hag. subst q1. follow Hag. reflexivity.
    + apply transfers_bind; [apply pv_transfers; lia|].
      intros value p3 E3. pose proof (pv_within (S q1)) as W3. rewrite E3 in W3.
      simpl in W3. apply Hagain. lia.
Qed.

Lemma parseObject_loop_transfers (fuel fuel' : nat) (obj : JSObject) (first : bool) (pos : nat) :
  lo <= S pos -> pos <= List.length s -> hi < fuel' + pos ->
  transfers s s' hi (parseObject_loop s pv fuel obj first pos)
            (parseObject_loop s' pv' fuel' obj first pos).
Proof.
  revert fuel' obj first pos.
  induction fuel as [|fuel IH]; intros fuel' obj first pos Hlo Hpos Hhi; [exact I|].
  destruct fuel' as [|fuel'];
    [apply (transfers_vacuous s s' hi pos); [apply parseObject_loop_within; auto|lia]|].
  cbn [parseObject_loop]. cbv zeta.
  assert (A : forall o k v p, pos < p <= List.length s ->
            within s p (parseObject_loop s pv fuel (obj_set o k v) false p)
            /\ transfers s s' hi (parseObject_loop s pv fuel (obj_set o k v) false p)
                 (parseObject_loop s' pv' fuel' (obj_set o k v) false p)).
  { intros o k v p Hp. split; [apply parseObject_loop_within; auto; lia | apply IH; lia]. }
  destruct (pos <? List.length s) eqn:L.
  2:{ apply (transfers_sync s s' hi pos _ _ _ (throw UnterminatedObject pos));
        [left; simpl; lia | intros Hag; follow Hag; reflexivity | apply transfers_refl]. }
  destruct first.
  { apply (transfers_sync s s' hi pos _ _ _
             (parseObject_entry s' pv'
                (fun key value p => parseObject_loop s' pv' fuel' (obj_set obj key value) false p)
                pos)).
    - apply parseObject_entry_beyond; auto.
      intros; apply parseObject_loop_within; auto.
    - intros Hag. follow Hag. reflexivity.
    - apply parseObject_entry_transfers; auto. }
  pose proof (skipWhitespace_ge s pos). pose proof (skipWhitespace_le s pos Hpos).
  set (q := skipWhitespace s pos) in *.
  destruct (List.length s <=? q) eqn:L1.
  { apply (transfers_sync s s' hi q _ _ _ (throw UnexpectedEnd q));
      [left; simpl; lia | intros Hag; subst q; follow Hag; reflexivity | apply transfers_refl]. }
  destruct (charIs (charAt s q) RBRACE) eqn:K1.
  { apply (transfers_sync s s' hi q _ _ _ (Ok (objectValue obj, S q)));
      [simpl; lia | intros Hag; subst q; follow Hag; reflexivity | apply transfers_refl]. }
  destruct (negb (charIs (charAt s q) COMMA)) eqn:K2.
  { apply (transfers_sync s s' hi q _ _ _ (throw (ExpectedCommaOrBrace (charAt s q)) q));
      [left; simpl; lia | intros Hag; subst q; follow Hag; reflexivity | apply transfers_refl]. }
  learn.
  apply (transfers_sync s s' hi q _ _ _
           (parseObject_entry s' pv'
              (fun key value p => parseObject_loop s' pv' fuel' (obj_set obj key value) false p)
              (S q))).
  - apply (within_beyond s).
    apply (parseObject_entry_within s pv pv_within);
      [intros; apply parseObject_loop_within; auto; lia | lia].
  - intros Hag. subst q. follow Hag. reflexivity.
  - apply parseObject_entry_transfers; auto; try lia.
    intros k v p Hp. apply A. lia.
Qed.

Lemma parseObject_loop_beyond (fuel : nat) (obj : JSObject) (pos : nat) :
  pos <= List.length s -> beyond pos (parseObject_loop s pv fuel obj true pos).
Proof.
  intros Hpos. destruct fuel as [|fuel]; [exact I|].
  cbn [parseObject_loop]. cbv zeta. split_if; [|left; simpl; lia].
  apply parseObject_entry_beyond; auto.
  intros; apply parseObject_loop_within; auto.
Qed.

Lemma parseArray_loop_beyond (fuel : nat) (arr : list JSONValue) (pos : nat) :
  pos <= List.length s -> beyond pos (parseArray_loop s pv fuel arr true pos).
Proof.
  intros Hpos. destruct fuel as [|fuel]; [exact I|].
  cbn [parseArray_loop]. cbv zeta. split_if; [|left; simpl; lia].
  unfold parseArray_element. apply (beyond_bind s); [apply pv_beyond; lia|].
  intros value p1 E. pose proof (pv_within pos Hpos) as W. rewrite E in W. simpl in W.
  apply parseArray_loop_within; auto; lia.
Qed.

Lemma parseObject_transfers (pos : nat) :
  hi <= List.length s' -> lo <= S pos -> pos < List.length s ->
  transfers s s' hi (parseObject s pv pos) (parseObject s' pv' pos).
Proof.
  intros Hhi Hlo Hpos. unfold parseObject. cbv zeta.
  pose proof (skipWhitespace_ge s (S pos)). pose proof (skipWhitespace_le s (S pos) Hpos).
  set (q := skipWhitespace s (S pos)) in *.
  destruct ((q <? List.length s) && charIs (charAt s q) RBRACE) eqn:K.
  { apply (transfers_sync s s' hi q _ _ _ (Ok (objectValue emptyObject, S q)));
      [simpl; lia | intros Hag; subst q; follow Hag; reflexivity | apply transfers_refl]. }
  apply (transfers_sync s s' hi q _ _ _
           (parseObject_loop s' pv' (S (S (List.length s' - q))) emptyObject true q)).
  - apply parseObject_loop_beyond. lia.
  - intros Hag. subst q. follow Hag. reflexivity.
  - apply parseObject_loop_transfers; lia.
Qed.

Lemma parseArray_element_transfers
      (again again' : list JSONValue -> nat -> Result (JSONValue * nat))
      (arr : list JSONValue) (pos : nat) :
  lo <= pos -> pos <= List.length s ->
  (forall a p, pos < p <= List.length s ->
     within s p (again a p) /\ transfers s s' hi (again a p) (again' a p)) ->
  transfers s s' hi (parseArray_element pv again arr pos) (parseArray_element pv' again' arr pos).
Proof.
  intros Hlo Hpos Hagain. unfold parseArray_element.
  apply transfers_bind; [apply pv_transfers; lia|].
  intros value p1 E. pose proof (pv_beyond pos Hpos) as B. pose proof (pv_within pos Hpos) as W.
  rewrite E in B, W. simpl in B, W. apply Hagain. lia.
Qed.

Lemma parseArray_loop_transfers (fuel fuel' : nat) (arr : list JSONValue) (first : bool)
      (pos : nat) :
  lo <= pos -> pos <= List.length s -> hi < fuel' + pos ->
  transfers s s' hi (parseArray_loop s pv fuel arr first pos)
            (parseArray_loop s' pv' fuel' arr first pos).
Proof.
  revert fuel' arr first pos.
  induction fuel as [|fuel IH]; intros fuel' arr first pos Hlo Hpos Hhi; [exact I|].
  destruct fuel' as [|fuel'];
    [apply (transfers_vacuous s s' hi pos); [apply parseArray_loop_within; auto|lia]|].
  cbn [parseArray_loop]. cbv zeta.
  assert (A : forall a p, pos < p <= List.length s ->
            within s p (parseArray_loop s pv fuel a false p)
            /\ transfers s s' hi (parseArray_loop s pv fuel a false p)
                 (parseArray_loop s' pv' fuel' a false p)).
  { intros a p Hp. split; [apply parseArray_loop_within; auto; lia | apply IH; lia]. }
  assert (AW : forall a p, p <= List.length s ->
            within s p (parseArray_loop s pv fuel a false p)).
  { intros a p Hp. apply parseArray_loop_within; auto. }
  destruct (pos <? List.length s) eqn:L.
  2:{ apply (transfers_sync s s' hi pos _ _ _ (throw UnterminatedArray pos));
        [left; simpl; lia | intros Hag; follow Hag; reflexivity | apply transfers_refl]. }
  destruct first.
  { apply (transfers_sync s s' hi pos _ _ _
             (parseArray_element pv'
                (fun a p => parseArray_loop s' pv' fuel' a false p) arr pos)).
    - unfold parseArray_element. apply (beyond_bind s); [apply pv_beyond; lia|].
      intros value p1 E. pose proof (pv_within pos Hpos) as W. rewrite E in W. simpl in W.
      apply AW. lia.
    - intros Hag. follow Hag. reflexivity.
    - apply parseArray_element_transfers; auto. }
  pose proof (skipWhitespace_ge s pos). pose proof (skipWhitespace_le s pos Hpos).
  set (q := skipWhitespace s pos) in *.
  destruct (List.length s <=? q) eqn:L1.
  { apply (transfers_sync s s' hi q _ _ _ (throw UnexpectedEnd q));
      [left; simpl; lia | intros Hag; subst q; follow Hag; reflexivity | apply transfers_refl]. }
  destruct (charIs (charAt s q) RBRACKET) eqn:K1.
  { apply (transfers_sync s s' hi q _ _ _ (Ok (JArray arr, S q)));
      [simpl; lia | intros Hag; subst q; follow Hag; reflexivity | apply transfers_refl]. }
  destruct (negb (charIs (charAt s q) COMMA)) eqn:K2.
  { apply (transfers_sync s s' hi q _ _ _ (throw (ExpectedCommaOrBracket (charAt s q)) q));
      [left; simpl; lia | intros Hag; subst q; follow Hag; reflexivity | apply transfers_refl]. }
  learn.
  apply (transfers_sync s s' hi q _ _ _
           (parseArray_element pv'
              (fun a p => parseArray_loop s' pv' fuel' a false p) arr (S q))).
  - apply (within_beyond s).
    apply (parseArray_element_within s pv pv_within); [intros; apply AW; lia | lia].
  - intros Hag. subst q. follow Hag. reflexivity.
  - apply parseArray_element_transfers; auto; try lia.
    intros a p Hp. apply A. lia.
Qed.

Lemma parseArray_transfers (pos : nat) :
  hi <= List.length s' -> lo <= S pos -> pos < List.length s ->
  transfers s s' hi (parseArray s pv pos) (parseArray s' pv' pos).
Proof.
  intros Hhi Hlo Hpos. unfold parseArray. cbv zeta.
  pose proof (skipWhitespace_ge s (S pos)). pose proof (skipWhitespace_le s (S pos) Hpos).
  set (q := skipWhitespace s (S pos)) in *.
  destruct ((q <? List.length s) && charIs (charAt s q) RBRACKET) eqn:K.
  { apply (transfers_sync s s' hi q _ _ _ (Ok (JArray [], S q)));
      [simpl; lia | intros Hag; subst q; follow Hag; reflexivity | apply transfers_refl]. }
  apply (transfers_sync s s' hi q _ _ _
           (parseArray_loop s' pv' (S (S (List.length s' - q))) [] true q)).
  - apply parseArray_loop_beyond. lia.
  - intros Hag. subst q. follow Hag. reflexivity.
  - apply parseArray_loop_transfers; lia.
Qed.

End TransferContainers.

Section ValueBeyond.

Variable g : jsstring -> bool.
Variable s : jsstring.

Lemma parseNumber_beyond (pos : nat) :
  charIs (charAt s pos) MINUS || isDigit (charAt s pos) = true ->
  beyond pos (parseNumber g s pos).
Proof.
  intros Hstart. pose proof (parseNumber_within g s pos) as W.
  assert (Hpos : pos < List.length s).
  { apply orb_true_iff in Hstart. destruct Hstart; eauto using charIs_lt, isDigit_lt. }
  specialize (W (Nat.lt_le_incl _ _ Hpos)).
  destruct (parseNumber g s pos) as [[v p]|e|] eqn:E; simpl in *; [|left; lia|exact I].
  destruct (Nat.eq_dec p pos) as [Ep|]; [exfalso; subst p|lia].
  revert E. unfold parseNumber.
  repeat (split_if; cbn [bind throw]); try discriminate; intros [= _ E]; revert E.
  all: learn.
  all: repeat match goal with
       | D : kept (isDigit (charAt s ?a) = true) |- _ =>
           lazymatch goal with
           | _ : a < skipDigits s a |- _ => fail
           | _ => pose proof (skipDigits_gt s a D)
           end
       | |- context [skipDigits s ?a] =>
           lazymatch goal with
           | _ : a <= skipDigits s a |- _ => fail
           | _ => pose proof (skipDigits_ge s a)
           end
       end.
  all: try lia.
  all: match goal with
       | H : charIs (charAt s ?x) MINUS = false, H' : isDigit (charAt s ?x) = false |- _ =>
           rewrite H, H' in Hstart; discriminate
       end.
Qed.

Lemma parseValue_beyond (fuel pos : nat) :
  pos <= List.length s -> beyond pos (parseValue g s fuel pos).
Proof.
  intros Hpos. destruct fuel as [|fuel]; [exact I|]. cbn [parseValue].
  pose proof (skipWhitespace_ge s pos). pose proof (skipWhitespace_le s pos Hpos).
  set (q := skipWhitespace s pos) in *.
  apply (beyond_weaken pos q); [lia|].
  assert (PW : forall x, x <= List.length s -> within s x (parseValue g s fuel x))
    by (intros; apply parseValue_within; assumption).
  split_if; [left; simpl; lia|]. learn.
  split_if; [apply (within_beyond s); unfold parseObject; cbv zeta|].
  { pose proof (skipWhitespace_ge s (S q)). pose proof (skipWhitespace_le s (S q)).
    split_if; [learn; simpl; lia|].
    eapply within_weaken; [|apply parseObject_loop_within]; auto. }
  split_if; [apply (within_beyond s); unfold parseArray; cbv zeta|].
  { pose proof (skipWhitespace_ge s (S q)). pose proof (skipWhitespace_le s (S q)).
    split_if; [learn; simpl; lia|].
    eapply within_weaken; [|apply parseArray_loop_within]; auto. }
  split_if.
  { apply (beyond_bind s); [apply (within_beyond s); unfold parseString;
                            apply parseString_loop_within; lia|].
    intros a p E. pose proof (parseString_within s q) as W. rewrite E in W.
    simpl in *. lia. }
  split_if; [unfold parseTrue; split_if; [simpl; lia | right; reflexivity]|].
  split_if; [unfold parseFalse; split_if; [simpl; lia | right; reflexivity]|].
  split_if; [unfold parseNull; split_if; [simpl; lia | right; reflexivity]|].
  split_if; [|left; simpl; lia].
  apply parseNumber_beyond. assumption.
Qed.

End ValueBeyond.

Section TransferValue.

Variables g g' : jsstring -> bool.
Variables s s' : jsstring.
Hypothesis g_le : forall numberStr, g numberStr = true -> g' numberStr = true.

Lemma transfers_min (hi pos : nat) (A : Type) (r r' : Result (A * nat)) :
  within s pos r ->
  transfers s s' (Nat.min hi (List.length s')) r r' ->
  transfers s s' hi r r'.
Proof.
  destruct r as [[a p]|e|]; simpl; auto.
  - intros W H So Hhi. apply H; auto.
    destruct So as [Ag _]. pose proof (agree_length s s' p Ag). lia.
  - intros W H An Ag Hhi. apply H; auto.
    assert (position e <= List.length s')
      by (apply (agree_length s s' (position e)); [eapply agree_le; eauto | lia]).
    lia.
Qed.

Lemma parseValue_transfers (fuel fuel' pos hi : nat) :
  pos <= List.length s -> hi < fuel' + pos ->
  transfers s s' hi (parseValue g s fuel pos) (parseValue g' s' fuel' pos).
Proof.
  revert fuel' pos hi. induction fuel as [|fuel IH]; intros fuel' pos hi Hpos Hhi; [exact I|].
  destruct fuel' as [|fuel'];
    [apply (transfers_vacuous s s' hi pos); [apply parseValue_within; auto|lia]|].
  apply (transfers_min hi pos); [apply parseValue_within; auto|].
  assert (Hhi1 : Nat.min hi (List.length s') < S fuel' + pos) by lia.
  assert (Hhi2 : Nat.min hi (List.length s') <= List.length s') by lia.
  revert Hhi1 Hhi2. generalize (Nat.min hi (List.length s')). clear hi Hhi.
  intros hi Hhi Hlen.
  cbn [parseValue].
  pose proof (skipWhitespace_ge s pos). pose proof (skipWhitespace_le s pos Hpos).
  set (q := skipWhitespace s pos) in *.
  assert (PW : forall x, x <= List.length s -> within s x (parseValue g s fuel x))
    by (intros; apply parseValue_within; assumption).
  assert (PB : forall x, x <= List.length s -> beyond x (parseValue g s fuel x))
    by (intros; apply parseValue_beyond; assumption).
  assert (PT : forall x, S q <= x -> x <= List.length s ->
            transfers s s' hi (parseValue g s fuel x) (parseValue g' s' fuel' x))
    by (intros; apply IH; lia).
  destruct (List.length s <=? q) eqn:L.
  { apply (transfers_sync s s' hi q _ _ _ (throw UnexpectedEnd q));
      [left; simpl; lia | intros Hag; subst q; follow Hag; reflexivity | apply transfers_refl]. }
  learn.
  destruct (charIs (charAt s q) LBRACE) eqn:K1.
  { apply (transfers_sync s s' hi q _ _ _ (parseObject s' (parseValue g' s' fuel') q));
      [apply (within_beyond s), parseObject_within_S; auto; lia
      | intros Hag; subst q; follow Hag; reflexivity
      | apply (parseObject_transfers s s' _ _ (S q) hi); auto; lia]. }
  destruct (charIs (charAt s q) LBRACKET) eqn:K2.
  { apply (transfers_sync s s' hi q _ _ _ (parseArray s' (parseValue g' s' fuel') q));
      [apply (within_beyond s), parseArray_within_S; auto; lia
      | intros Hag; subst q; follow Hag; reflexivity
      | apply (parseArray_transfers s s' _ _ (S q) hi); auto; lia]. }
  destruct (charIs (charAt s q) QUOTE) eqn:K3.
  { apply (transfers_sync s s' hi q _ _ _
             (bind (parseString s' q) (fun '(str, p) => Ok (JString str, p)))).
    - apply (beyond_bind s); [apply parseString_beyond; lia|].
      intros a p E. simpl. pose proof (parseString_within s q) as W. rewrite E in W.
      simpl in W. lia.
    - intros Hag. subst q. follow Hag. reflexivity.
    - apply transfers_bind; [apply parseString_transfers; lia|].
      intros a p E. pose proof (parseString_within s q) as W. rewrite E in W. simpl in W.
      split; [simpl; lia | apply transfers_refl]. }
  destruct (charIs (charAt s q) (chr "t")) eqn:K4.
  { apply (transfers_sync s s' hi q _ _ _ (parseTrue s' q));
      [unfold parseTrue; split_if; [simpl; lia | right; reflexivity]
      | intros Hag; subst q; follow Hag; reflexivity
      | apply parseTrue_transfers]. }
  destruct (charIs (charAt s q) (chr "f")) eqn:K5.
  { apply (transfers_sync s s' hi q _ _ _ (parseFalse s' q));
      [unfold parseFalse; split_if; [simpl; lia | right; reflexivity]
      | intros Hag; subst q; follow Hag; reflexivity
      | apply parseFalse_transfers]. }
  destruct (charIs (charAt s q) (chr "n")) eqn:K6.
  { apply (transfers_sync s s' hi q _ _ _ (parseNull s' q));
      [unfold parseNull; split_if; [simpl; lia | right; reflexivity]
      | intros Hag; subst q; follow Hag; reflexivity
      | apply parseNull_transfers]. }
  destruct (charIs (charAt s q) MINUS || isDigit (charAt s q)) eqn:K7.
  { apply (transfers_sync s s' hi q _ _ _ (parseNumber g' s' q));
      [apply parseNumber_beyond; assumption
      | intros Hag; subst q; follow Hag; reflexivity
      | apply parseNumber_transfers; assumption]. }
  apply (transfers_sync s s' hi q _ _ _ (throw (UnexpectedToken (charAt s q)) q));
    [left; simpl; lia | intros Hag; subst q; follow Hag; reflexivity | apply transfers_refl].
Qed.

(** An error of [parse] that is not anchored is the error of [parse] on
    every input with the same characters up to and including the position
    of the error. *)
Lemma parse_transfers (e : JSONParseError) :
  parse g s = Throw e -> anchored (message e) = false ->
  agree s s' (S (position e)) ->
  parse g' s' = Throw e.
Proof.
  rewrite !parse_unfold. intros H An Ag.
  assert (Hlen : position e <= List.length s').
  { apply (agree_length s s' (position e)); [eapply agree_le; eauto|].
    pose proof (cursor_position_bound g s e) as B. rewrite parse_unfold in B. auto. }
  pose proof (parseValue_within g s (S (List.length s)) 0 (Nat.le_0_l _)) as W.
  pose proof (parseValue_transfers (S (List.length s)) (S (List.length s')) 0 (position e)
                (Nat.le_0_l _)) as T.
  destruct (parseValue g s (S (List.length s)) 0) as [[v p]|e1|] eqn:V; cbn [bind] in H;
    [| |discriminate]; cbn [within transfers] in W, T.
  - cbv zeta in H. revert H. split_if; [|discriminate]. intros H. injection H as <-.
    cbn [position message] in *.
    pose proof (skipWhitespace_ge s p).
    rewrite T; [| lia | apply (soft_le s s' (skipWhitespace s p));
                         [apply agree_soft; assumption | lia] | lia].
    cbn [bind]. cbv zeta. follow Ag. reflexivity.
  - injection H as ->. rewrite T; auto. lia.
Qed.

End TransferValue.

(** ** Completing the input that stops at an error *)

Section Completed.

Variable s : jsstring.
Variable p : nat.
Variable c : jsstring.
Hypothesis p_le : p <= List.length s.

Lemma completed_agree : agree s (firstn p s ++ c) p.
Proof.
  intros i Hi. unfold charAt.
  rewrite nth_error_app1 by (rewrite length_firstn; lia).
  rewrite nth_error_firstn. apply Nat.ltb_lt in Hi. rewrite Hi. reflexivity.
Qed.

Lemma completed_charAt (k : nat) : charAt (firstn p s ++ c) (k + p) = nth_error c k.
Proof.
  unfold charAt. rewrite nth_error_app2 by (rewrite length_firstn; lia).
  rewrite length_firstn. f_equal. lia.
Qed.

Lemma completed_length : List.length (firstn p s ++ c) = p + List.length c.
Proof. rewrite length_app, length_firstn. lia. Qed.

End Completed.

Lemma leb_length_charAt (t : jsstring) (i : nat) :
  (List.length t <=? i) = match charAt t i with Some _ => false | None => true end.
Proof.
  rewrite Nat.leb_antisym, ltb_length_charAt. destruct (charAt t i); reflexivity.
Qed.

(** Tests on characters that are known. *)
Ltac decide_tests :=
  repeat match goal with
  | |- context [charIs (Some ?c) ?k] =>
      let b := eval vm_compute in (charIs (Some c) k) in
      lazymatch b with true => idtac | false => idtac end;
      change (charIs (Some c) k) with b
  | |- context [charIs None ?k] => change (charIs None k) with false
  | |- context [isDigit (Some ?c)] =>
      let b := eval vm_compute in (isDigit (Some c)) in
      lazymatch b with true => idtac | false => idtac end;
      change (isDigit (Some c)) with b
  | |- context [isDigit None] => change (isDigit None) with false
  | |- context [isWhitespace (Some ?c)] =>
      let b := eval vm_compute in (isWhitespace (Some c)) in
      lazymatch b with true => idtac | false => idtac end;
      change (isWhitespace (Some c)) with b
  | |- context [isWhitespace None] => change (isWhitespace None) with false
  | |- context [charLt (Some ?c) ?k] =>
      let b := eval vm_compute in (charLt (Some c) k) in
      lazymatch b with true => idtac | false => idtac end;
      change (charLt (Some c) k) with b
  | |- context [simpleEscape (Some ?c)] =>
      let b := eval vm_compute in (simpleEscape (Some c)) in
      lazymatch b with Some _ => idtac | None => idtac end;
      change (simpleEscape (Some c)) with b
  end.


(** The characters of the completion, for the tests that reach them. *)
Ltac tail_facts s p c Hp :=
  pose proof (completed_agree s p c Hp) as Hag;
  pose proof (completed_charAt s p c Hp 0) as C0;
  pose proof (completed_charAt s p c Hp 1) as C1;
  pose proof (completed_charAt s p c Hp 2) as C2;
  pose proof (completed_charAt s p c Hp 3) as C3;
  pose proof (completed_charAt s p c Hp 4) as C4;
  pose proof (completed_charAt s p c Hp 5) as C5;
  cbn [Nat.add nth_error app] in *.

(** A test that reads the completion. *)
Ltac tail_step :=
  repeat match goal with
  | C : charAt ?t ?i = _ |- context [?i <? List.length ?t] =>
      rewrite (ltb_length_charAt t i), C
  | C : charAt ?t ?i = _ |- context [List.length ?t <=? ?i] =>
      rewrite (leb_length_charAt t i), C
  | C : charAt ?t ?i = _ |- context [charAt ?t ?i] => rewrite C
  end;
  decide_tests; rewrite ?andb_false_r, ?orb_true_r;
  cbn [bind throw andb orb negb].

(** The run on the completed input, followed into the completion. *)
Ltac run_tail Hag :=
  repeat (progress (follow Hag; tail_step)).


Lemma Ok_at (A : Type) (a : A) (p p' : nat) :
  p = p' -> exists r, @Ok (A * nat) (a, p) = Ok (r, p').
Proof. intros ->. eauto. Qed.

(** The tests of a run that is known, one after the other. *)
Ltac split_hyp H :=
  match type of H with
  | context [if ?b then _ else _] => destruct b eqn:?
  | context [match simpleEscape ?c with _ => _ end] => destruct (simpleEscape c) eqn:?
  end; cbn [bind throw] in H.

(** *** Strings: a quote closes the literal, after an escape that is made
    whole. *)
Section StringCompletion.

Variable s : jsstring.


Lemma parseString_loop_completes (fuel : nat) (result : jsstring) (pos : nat)
      (m : Message) (p : nat) :
  pos <= List.length s ->
  parseString_loop s fuel result pos = throw m p ->
  anchored m = false ->
  forall (u : jsstring) (fuel' : nat),
    p + List.length (closeString m) < fuel' + pos ->
    exists r,
      parseString_loop (firstn p s ++ closeString m ++ u) fuel' result pos
      = Ok (r, p + List.length (closeString m)).
Proof.
  revert result pos. induction fuel as [|fuel IH]; intros result pos Hpos H An u fuel' Hf;
    [discriminate|].
  pose proof (parseString_loop_within s (S fuel) result pos Hpos) as W.
  rewrite H in W. simpl in W.
  destruct fuel' as [|fuel']; [lia|].
  cbn [parseString_loop] in H.
  repeat split_hyp H; try discriminate; learn.
  all: try (injection H as <- <-; try discriminate An; cbn [closeString List.length] in * ).
  all: try match type of H with
       | parseString_loop s ?f ?r2 ?p2 = _ =>
           let W2 := fresh "W" in
           assert (W2 : within s p2 (parseString_loop s f r2 p2))
             by (apply parseString_loop_within; lia);
           rewrite H in W2; simpl in W2
       end.
  all: match goal with
       | |- exists _, parseString_loop (firstn ?p s ++ ?c) _ _ _ = _ =>
           tail_facts s p c (proj2 W); cbn [parseString_loop]; cbn [Nat.add] in *;
           run_tail Hag
       end.
  all: try (eapply IH; eauto; lia).
  all: try (apply Ok_at; lia).
  all: destruct fuel' as [|fuel']; [lia|]; cbn [parseString_loop]; run_tail Hag.
  all: apply Ok_at; lia.
Qed.

Lemma parseString_completes (pos : nat) (m : Message) (p : nat) :
  pos < List.length s ->
  parseString s pos = throw m p ->
  anchored m = false ->
  forall u : jsstring,
    exists r,
      parseString (firstn p s ++ closeString m ++ u) pos
      = Ok (r, p + List.length (closeString m)).
Proof.
  intros Hpos H An u. unfold parseString in *.
  pose proof (parseString_loop_within s (S (List.length s - pos)) [] (S pos) Hpos) as W.
  rewrite H in W. simpl in W.
  eapply parseString_loop_completes; eauto.
  rewrite completed_length, length_app by lia. lia.
Qed.

End StringCompletion.

(** What is known of the runs of digits that the number has. *)
Ltac digit_runs :=
  repeat match goal with
  | D : kept (isDigit (charAt ?s ?a) = true) |- _ =>
      lazymatch goal with
      | _ : a < skipDigits s a |- _ => fail
      | _ => pose proof (skipDigits_gt s a D)
      end
  | |- context [skipDigits ?s ?a] =>
      lazymatch goal with
      | _ : a <= skipDigits s a |- _ => fail
      | _ => pose proof (skipDigits_ge s a)
      end
  | _ : context [skipDigits ?s ?a] |- _ =>
      lazymatch goal with
      | _ : a <= skipDigits s a |- _ => fail
      | _ => pose proof (skipDigits_ge s a)
      end
  end.

(** A run of digits that starts in the completion. *)
Ltac tail_digits :=
  repeat match goal with
  | C : charAt ?t ?i = _ |- context [skipDigits ?t ?i] => rewrite (skipDigits_eq t i)
  end.

(** *** Numbers: a digit where one is missing; nothing after a leading
    zero. *)
Section NumberCompletion.

Variable g : jsstring -> bool.
Variable s : jsstring.


Lemma parseNumber_completes (pos : nat) (m : Message) (p : nat) :
  charIs (charAt s pos) MINUS || isDigit (charAt s pos) = true ->
  parseNumber g s pos = throw m p ->
  anchored m = false ->
  pos < p
  /\ forall u : jsstring,
       numberStop (nth_error u 0) = true ->
       exists v,
         parseNumber anyNumber (firstn p s ++ closeNumber m ++ u) pos
         = Ok (v, p + List.length (closeNumber m)).
Proof.
  intros Hstart H An.
  assert (Hpos : pos < List.length s).
  { apply orb_true_iff in Hstart. destruct Hstart; eauto using charIs_lt, isDigit_lt. }
  pose proof (parseNumber_within g s pos (Nat.lt_le_incl _ _ Hpos)) as W.
  rewrite H in W. simpl in W.
  unfold parseNumber in H.
  repeat split_hyp H; try discriminate; learn; try discriminate.
  all: injection H as <- <-; try discriminate An; cbn [closeNumber List.length] in *.
  all: digit_runs.
  all: split; [lia|]; intros u Hu.
  all: apply numberStop_facts in Hu; destruct Hu as (U1 & U2 & U3 & U4).
  all: match goal with
       | |- exists _, parseNumber _ (firstn ?p s ++ ?c) _ = _ =>
           tail_facts s p c (proj2 W); unfold parseNumber; cbn [Nat.add] in *
       end.
  all: repeat (progress (tail_digits; tail_step; known_step; sync Hag;
                         cbn [bind throw andb orb negb])).
  all: unfold anyNumber; cbn [negb]; apply Ok_at; lia.
Qed.

End NumberCompletion.

(** ** Texts that close what is open *)

Section Closers.

Variable w : jsstring.

Lemma skipWhitespace_at (x : nat) (c : Z) :
  charAt w x = Some c -> isWhitespace (Some c) = false -> skipWhitespace w x = x.
Proof.
  intros H W. apply skipWhitespace_stay. rewrite H, W. apply andb_false_r.
Qed.

Lemma empty_string_closes (x : nat) :
  charAt w (S x) = Some QUOTE -> parseString w x = Ok ([], S (S x)).
Proof.
  intros H. unfold parseString. cbn [parseString_loop].
  pose proof (charAt_Some_lt w _ _ H) as L. apply Nat.ltb_lt in L. rewrite L, H. reflexivity.
Qed.

Lemma zero_closes (df x : nat) :
  charAt w x = Some ZERO -> numberStop (charAt w (S x)) = true ->
  parseValue anyNumber w (S df) x = Ok (JNumber (slice w x (S x)), S x).
Proof.
  intros H N. apply numberStop_facts in N. destruct N as (N1 & N2 & N3 & N4).
  cbn [parseValue]. rewrite (skipWhitespace_at x ZERO H eq_refl).
  pose proof (charAt_Some_lt w _ _ H) as L.
  rewrite (proj2 (Nat.leb_gt _ _) L). rewrite H. decide_tests. cbn [orb].
  unfold parseNumber.
  repeat (progress (rewrite ?H, ?N1, ?N2, ?N3, ?N4; decide_tests; rewrite ?andb_false_r;
                    cbn [bind andb orb negb])).
  reflexivity.
Qed.

Lemma object_closes (pv' : nat -> Result (JSONValue * nat)) (lf : nat) (obj : JSObject)
      (x : nat) :
  charAt w x = Some RBRACE ->
  parseObject_loop w pv' (S lf) obj false x = Ok (objectValue obj, S x).
Proof.
  intros H. cbn [parseObject_loop]. pose proof (charAt_Some_lt w _ _ H) as L.
  rewrite (proj2 (Nat.ltb_lt _ _) L), (skipWhitespace_at x RBRACE H eq_refl).
  rewrite (proj2 (Nat.leb_gt _ _) L), H. reflexivity.
Qed.

Lemma array_closes (pv' : nat -> Result (JSONValue * nat)) (lf : nat) (arr : list JSONValue)
      (x : nat) :
  charAt w x = Some RBRACKET ->
  parseArray_loop w pv' (S lf) arr false x = Ok (JArray arr, S x).
Proof.
  intros H. cbn [parseArray_loop]. pose proof (charAt_Some_lt w _ _ H) as L.
  rewrite (proj2 (Nat.ltb_lt _ _) L), (skipWhitespace_at x RBRACKET H eq_refl).
  rewrite (proj2 (Nat.leb_gt _ _) L), H. reflexivity.
Qed.

Lemma object_closes_after (pv' : nat -> Result (JSONValue * nat)) (lf : nat) (obj : JSObject)
      (x1 x : nat) :
  skipWhitespace w x1 = x -> charAt w x = Some RBRACE ->
  parseObject_loop w pv' (S lf) obj false x1 = Ok (objectValue obj, S x).
Proof.
  intros E H. cbn [parseObject_loop]. pose proof (charAt_Some_lt w _ _ H) as L.
  pose proof (skipWhitespace_ge w x1) as G. rewrite E in G.
  assert (L1 : x1 < List.length w) by lia.
  rewrite (proj2 (Nat.ltb_lt _ _) L1), E.
  rewrite (proj2 (Nat.leb_gt _ _) L), H. reflexivity.
Qed.

Lemma array_closes_after (pv' : nat -> Result (JSONValue * nat)) (lf : nat)
      (arr : list JSONValue) (x1 x : nat) :
  skipWhitespace w x1 = x -> charAt w x = Some RBRACKET ->
  parseArray_loop w pv' (S lf) arr false x1 = Ok (JArray arr, S x).
Proof.
  intros E H. cbn [parseArray_loop]. pose proof (charAt_Some_lt w _ _ H) as L.
  pose proof (skipWhitespace_ge w x1) as G. rewrite E in G.
  assert (L1 : x1 < List.length w) by lia.
  rewrite (proj2 (Nat.ltb_lt _ _) L1), E.
  rewrite (proj2 (Nat.leb_gt _ _) L), H. reflexivity.
Qed.

(** A whole element and the end of the array: [0]]. *)
Lemma element_closes (df lf : nat) (arr : list JSONValue) (x : nat) :
  charAt w x = Some ZERO -> charAt w (S x) = Some RBRACKET ->
  exists v,
    parseArray_element (parseValue anyNumber w (S df))
      (fun arr pos => parseArray_loop w (parseValue anyNumber w (S df)) (S lf) arr false pos)
      arr x
    = Ok (v, S (S x)).
Proof.
  intros H0 H1. unfold parseArray_element.
  rewrite zero_closes; [|assumption|rewrite H1; reflexivity].
  cbn [bind]. rewrite array_closes by assumption. eauto.
Qed.

(** After a key: [:0}] closes the entry and the object. *)
Lemma colon_closes (df lf : nat) (obj : JSObject) (key : jsstring) (x1 x : nat) :
  skipWhitespace w x1 = x ->
  charAt w x = Some COLON -> charAt w (S x) = Some ZERO ->
  charAt w (S (S x)) = Some RBRACE ->
  exists v,
    (if (List.length w <=? skipWhitespace w x1)
        || negb (charIs (charAt w (skipWhitespace w x1)) COLON)
     then throw ExpectedColon (skipWhitespace w x1)
     else
       ' (value, pos) <- parseValue anyNumber w (S df) (S (skipWhitespace w x1)) ;;
       parseObject_loop w (parseValue anyNumber w (S df)) (S lf) (obj_set obj key value) false pos)
    = Ok (v, S (S (S x))).
Proof.
  intros E H0 H1 H2. rewrite E.
  pose proof (charAt_Some_lt w _ _ H0) as L.
  rewrite (proj2 (Nat.leb_gt _ _) L), H0. decide_tests. cbn [orb negb].
  rewrite zero_closes; [|assumption|rewrite H2; reflexivity].
  cbn [bind]. rewrite object_closes by assumption. eauto.
Qed.

(** A whole entry: [<quote><quote>:0}]. *)
Lemma entry_closes (df lf : nat) (obj : JSObject) (x : nat) :
  charAt w x = Some QUOTE -> charAt w (S x) = Some QUOTE ->
  charAt w (S (S x)) = Some COLON -> charAt w (S (S (S x))) = Some ZERO ->
  charAt w (S (S (S (S x)))) = Some RBRACE ->
  exists v,
    parseObject_entry w (parseValue anyNumber w (S df))
      (fun key value pos =>
         parseObject_loop w (parseValue anyNumber w (S df)) (S lf) (obj_set obj key value)
                          false pos) x
    = Ok (v, S (S (S (S (S x))))).
Proof.
  intros H0 H1 H2 H3 H4. unfold parseObject_entry. cbv zeta.
  rewrite (skipWhitespace_at x QUOTE H0 eq_refl).
  pose proof (charAt_Some_lt w _ _ H0) as L.
  rewrite (proj2 (Nat.leb_gt _ _) L), H0. decide_tests. cbn [orb negb].
  rewrite empty_string_closes by assumption. cbn [bind].
  apply (colon_closes df lf obj [] (S (S x)) (S (S x))); try assumption.
  apply (skipWhitespace_at _ COLON); [assumption|reflexivity].
Qed.

End Closers.

(** What the run on the input has done before the error, the run on the
    completed input does too. *)
Section CompletedRuns.

Variable g : jsstring -> bool.
Variable s : jsstring.
Variable p : nat.
Variable c : jsstring.
Hypothesis p_le : p <= List.length s.

Lemma completed_skipWhitespace (x : nat) :
  skipWhitespace s x = p -> isWhitespace (nth_error c 0) = false ->
  skipWhitespace (firstn p s ++ c) x = p.
Proof.
  intros E W. rewrite <- E at 2.
  apply (agree_run s (firstn p s ++ c) _ _ isWhitespace x);
    auto using skipWhitespace_eq.
  - rewrite E. apply completed_agree; assumption.
  - rewrite E. rewrite <- (completed_charAt s p c p_le 0) in W. exact W.
Qed.

Lemma completed_soft (p1 : nat) :
  p1 <= p -> (p1 = p -> numberStop (nth_error c 0) = true) ->
  soft s (firstn p s ++ c) p1.
Proof.
  intros H1 H2. pose proof (completed_agree s p c p_le) as Hag.
  split; [eapply agree_le; eauto|].
  destruct (Nat.eq_dec p1 p) as [E|E].
  - right. rewrite E, <- (completed_charAt s p c p_le 0) in *. cbn [Nat.add] in *. auto.
  - left. apply Hag. lia.
Qed.

Lemma completed_value_ok (f df x : nat) (v : JSONValue) (p1 : nat) :
  x <= List.length s ->
  parseValue g s f x = Ok (v, p1) ->
  p1 <= p -> (p1 = p -> numberStop (nth_error c 0) = true) ->
  p1 < df + x ->
  parseValue anyNumber (firstn p s ++ c) df x = Ok (v, p1).
Proof.
  intros Hx H H1 H2 Hdf.
  assert (Hg : forall n, g n = true -> anyNumber n = true) by reflexivity.
  pose proof (parseValue_transfers g anyNumber s (firstn p s ++ c) Hg f df x p1 Hx Hdf) as T.
  rewrite H in T. cbn [transfers] in T. apply T; [|lia].
  apply completed_soft; assumption.
Qed.

Lemma completed_string_ok (x : nat) (k : jsstring) (p1 : nat) :
  x < List.length s ->
  parseString s x = Ok (k, p1) ->
  p1 <= p -> (p1 = p -> numberStop (nth_error c 0) = true) ->
  parseString (firstn p s ++ c) x = Ok (k, p1).
Proof.
  intros Hx H H1 H2.
  pose proof (parseString_transfers s (firstn p s ++ c) p1 x Hx) as T.
  rewrite H in T. cbn [transfers] in T. apply T; [|lia].
  apply completed_soft; assumption.
Qed.

Lemma completed_tail_charAt (t : jsstring) (k : nat) :
  charAt (firstn p s ++ t ++ c) (k + (p + List.length t)) = nth_error c k.
Proof.
  replace (k + (p + List.length t)) with ((k + List.length t) + p) by lia.
  rewrite (completed_charAt s p (t ++ c) p_le).
  rewrite nth_error_app2 by lia. f_equal. lia.
Qed.

End CompletedRuns.



Lemma parseObject_entry_skip (w : jsstring) (pv : nat -> Result (JSONValue * nat)) (R : Type)
      (again : jsstring -> JSONValue -> nat -> Result (R * nat)) (pos : nat) :
  parseObject_entry w pv again (skipWhitespace w pos) = parseObject_entry w pv again pos.
Proof. unfold parseObject_entry. rewrite skipWhitespace_idem. reflexivity. Qed.

(** *** Objects: the entry under way is completed and a brace closes the
    object. *)
Section ObjectCompletion.

Variable g : jsstring -> bool.
Variable s : jsstring.
Variable f : nat.
Hypothesis value_completes : valueCompletes g s f.

Lemma parseObject_entry_completes (fuel : nat) (obj : JSObject) (pos : nat)
      (m : Message) (p : nat) :
  (forall obj' pos',
     pos < pos' <= List.length s ->
     parseObject_loop s (parseValue g s f) fuel obj' false pos' = throw m p ->
     exists t,
       (p <= pos' -> nth_error t 0 = Some RBRACE)
       /\ forall u, stops u ->
          forall df lf, p + List.length t < df + pos' -> p + List.length t < lf + pos' ->
            exists v,
              parseObject_loop (firstn p s ++ t ++ u)
                (parseValue anyNumber (firstn p s ++ t ++ u) df) lf obj' false pos'
              = Ok (v, p + List.length t)) ->
  pos <= List.length s ->
  parseObject_entry s (parseValue g s f)
    (fun key value pos => parseObject_loop s (parseValue g s f) fuel (obj_set obj key value)
                                           false pos) pos
  = throw m p ->
  anchored m = false ->
  exists t,
    (p <= pos -> nth_error t 0 = Some QUOTE)
    /\ forall u, stops u ->
       forall df lf, p + List.length t < df + pos -> p + List.length t < S lf + pos ->
         exists v,
           parseObject_entry (firstn p s ++ t ++ u)
             (parseValue anyNumber (firstn p s ++ t ++ u) df)
             (fun key value pos =>
                parseObject_loop (firstn p s ++ t ++ u)
                  (parseValue anyNumber (firstn p s ++ t ++ u) df) lf
                  (obj_set obj key value) false pos) pos
           = Ok (v, p + List.length t).
Proof.
  intros IH Hpos H An.
  unfold parseObject_entry in H. cbv zeta in H.
  pose proof (skipWhitespace_ge s pos) as Gq.
  pose proof (skipWhitespace_le s pos Hpos) as Lq.
  destruct ((List.length s <=? skipWhitespace s pos)
            || negb (charIs (charAt s (skipWhitespace s pos)) QUOTE)) eqn:K.
  - (* no key *)
    injection H as <- Ep.
    assert (Lp : p <= List.length s) by lia.
    exists [QUOTE; QUOTE; COLON; ZERO; RBRACE]. split; [reflexivity|].
    intros u Hu df lf Hdf Hlf. cbn [List.length] in *.
    destruct df as [|df]; [lia|]. destruct lf as [|lf]; [lia|].
    tail_facts s p ([QUOTE; QUOTE; COLON; ZERO; RBRACE] ++ u) Lp.
    rewrite <- parseObject_entry_skip.
    rewrite (completed_skipWhitespace s p (QUOTE :: QUOTE :: COLON :: ZERO :: RBRACE :: u)
               Lp pos Ep eq_refl).
    replace (p + 5) with (S (S (S (S (S p))))) by lia.
    apply entry_closes; assumption.
  - learn.
    pose proof (parseString_within_S s (skipWhitespace s pos) ltac:(assumption)) as Wk.
    destruct (parseString s (skipWhitespace s pos)) as [[key p1]|e|] eqn:Ek;
      cbn [bind within] in H, Wk; [| |discriminate].
    2:{ (* the key is not closed *)
        injection H as ->. cbn [position] in Wk.
        assert (Lp : p <= List.length s) by lia.
        exists (closeString m ++ [COLON; ZERO; RBRACE]). split; [lia|].
        intros u Hu df lf Hdf Hlf. rewrite length_app in *. cbn [List.length] in *.
        rewrite <- app_assoc.
        destruct df as [|df]; [lia|]. destruct lf as [|lf]; [lia|].
        destruct (parseString_completes s (skipWhitespace s pos) m p ltac:(assumption) Ek An
                    ([COLON; ZERO; RBRACE] ++ u)) as [r Er].
        pose proof (completed_agree s p (closeString m ++ [COLON; ZERO; RBRACE] ++ u) Lp) as Hag.
        pose proof (completed_tail_charAt s p ([COLON; ZERO; RBRACE] ++ u) Lp (closeString m) 0)
          as T0.
        pose proof (completed_tail_charAt s p ([COLON; ZERO; RBRACE] ++ u) Lp (closeString m) 1)
          as T1.
        pose proof (completed_tail_charAt s p ([COLON; ZERO; RBRACE] ++ u) Lp (closeString m) 2)
          as T2.
        cbn [Nat.add nth_error app] in T0, T1, T2.
        unfold parseObject_entry. cbv zeta. follow Hag. rewrite Er. cbn [bind].
        replace (p + (List.length (closeString m) + 3))
          with (S (S (S (p + List.length (closeString m))))) by lia.
        apply colon_closes; try assumption.
        apply (skipWhitespace_at _ _ COLON); [assumption|reflexivity]. }
    cbv zeta in H.
    pose proof (skipWhitespace_ge s p1) as Gq1.
    pose proof (skipWhitespace_le s p1 ltac:(lia)) as Lq1.
    destruct ((List.length s <=? skipWhitespace s p1)
              || negb (charIs (charAt s (skipWhitespace s p1)) COLON)) eqn:K2.
    + (* no colon *)
      injection H as <- Ep.
      assert (Lp : p <= List.length s) by lia.
      exists [COLON; ZERO; RBRACE]. split; [lia|].
      intros u Hu df lf Hdf Hlf. cbn [List.length] in *.
      destruct df as [|df]; [lia|]. destruct lf as [|lf]; [lia|].
      tail_facts s p ([COLON; ZERO; RBRACE] ++ u) Lp.
      unfold parseObject_entry. cbv zeta. follow Hag.
      rewrite (completed_string_ok s p (COLON :: ZERO :: RBRACE :: u) Lp (skipWhitespace s pos) key p1
                 ltac:(assumption) Ek ltac:(lia) ltac:(reflexivity)).
      cbn [bind].
      replace (p + 3) with (S (S (S p))) by lia.
      apply colon_closes; try assumption.
      apply (completed_skipWhitespace s p (COLON :: ZERO :: RBRACE :: u) Lp p1 Ep eq_refl).
    + learn.
      pose proof (parseValue_within g s f (S (skipWhitespace s p1)) ltac:(lia)) as Wv.
      destruct (parseValue g s f (S (skipWhitespace s p1))) as [[value p3]|e|] eqn:Ev;
        cbn [bind within] in H, Wv; [| |discriminate].
      * (* the loop goes round *)
        pose proof (parseObject_loop_within s (parseValue g s f) (parseValue_within g s f)
                      fuel (obj_set obj key value) false p3 ltac:(lia)) as Wl.
        rewrite H in Wl. cbn [within throw position] in Wl.
        destruct (IH (obj_set obj key value) p3 ltac:(lia) H) as (t & Hhead & Hrun).
        assert (Lp : p <= List.length s) by lia.
        exists t. split; [lia|].
        intros u Hu df lf Hdf Hlf.
        pose proof (completed_agree s p (t ++ u) Lp) as Hag.
        unfold parseObject_entry. cbv zeta. follow Hag.
        rewrite (completed_string_ok s p (t ++ u) Lp (skipWhitespace s pos) key p1
                   ltac:(assumption) Ek ltac:(lia) ltac:(lia)).
        cbn [bind]. follow Hag.
        rewrite (completed_value_ok g s p (t ++ u) Lp f df (S (skipWhitespace s p1)) value p3 ltac:(lia) Ev ltac:(lia));
          [| | lia].
        2:{ intros E. specialize (Hhead ltac:(lia)).
            destruct t as [|c t]; [discriminate|]. injection Hhead as ->. reflexivity. }
        cbn [bind]. apply Hrun; [assumption|lia|lia].
      * (* the value *)
        injection H as ->. cbn [position] in Wv.
        assert (Lp : p <= List.length s) by lia.
        destruct (value_completes (S (skipWhitespace s p1)) m p ltac:(lia) Ev An)
          as (t & _ & Hrun).
        exists (t ++ [RBRACE]). split; [lia|].
        intros u Hu df lf Hdf Hlf. rewrite length_app in *. cbn [List.length] in *.
        rewrite <- app_assoc.
        destruct lf as [|lf]; [lia|].
        destruct (Hrun ([RBRACE] ++ u) ltac:(reflexivity) df ltac:(lia)) as [v Erun].
        pose proof (completed_agree s p (t ++ [RBRACE] ++ u) Lp) as Hag.
        pose proof (completed_tail_charAt s p ([RBRACE] ++ u) Lp t 0) as T0.
        cbn [Nat.add nth_error app] in T0.
        unfold parseObject_entry. cbv zeta. follow Hag.
        rewrite (completed_string_ok s p (t ++ [RBRACE] ++ u) Lp (skipWhitespace s pos) key p1
                   ltac:(assumption) Ek ltac:(lia) ltac:(lia)).
        cbn [bind]. follow Hag. rewrite Erun. cbn [bind].
        rewrite object_closes by assumption. apply Ok_at. lia.
Qed.

Lemma parseObject_loop_completes (fuel : nat) (obj : JSObject) (first : bool) (pos : nat)
      (m : Message) (p : nat) :
  pos <= List.length s ->
  parseObject_loop s (parseValue g s f) fuel obj first pos = throw m p ->
  anchored m = false ->
  exists t,
    (p <= pos -> nth_error t 0 = Some (if first then QUOTE else RBRACE))
    /\ forall u, stops u ->
       forall df lf, p + List.length t < df + pos -> p + List.length t < lf + pos ->
         exists v,
           parseObject_loop (firstn p s ++ t ++ u)
             (parseValue anyNumber (firstn p s ++ t ++ u) df) lf obj first pos
           = Ok (v, p + List.length t).
Proof.
  revert obj first pos.
  induction fuel as [|fuel IH]; intros obj first pos Hpos H An; [discriminate|].
  assert (IH' : forall obj' pos0 pos',
             pos0 < pos' <= List.length s ->
             parseObject_loop s (parseValue g s f) fuel obj' false pos' = throw m p ->
             exists t,
               (p <= pos' -> nth_error t 0 = Some RBRACE)
               /\ forall u, stops u ->
                  forall df lf, p + List.length t < df + pos' -> p + List.length t < lf + pos' ->
                    exists v,
                      parseObject_loop (firstn p s ++ t ++ u)
                        (parseValue anyNumber (firstn p s ++ t ++ u) df) lf obj' false pos'
                      = Ok (v, p + List.length t)).
  { intros obj' pos0 pos' Hp' H'. apply (IH obj' false pos'); [lia|assumption|assumption]. }
  pose proof (parseObject_loop_within s (parseValue g s f) (parseValue_within g s f)
                (S fuel) obj first pos Hpos) as W.
  rewrite H in W. cbn [within throw position] in W.
  assert (Lp : p <= List.length s) by lia.
  cbn [parseObject_loop] in H. cbv zeta in H.
  destruct (pos <? List.length s) eqn:L.
  2:{ (* the input is exhausted *)
      injection H as <- Ep. subst p. destruct first.
      - exists [QUOTE; QUOTE; COLON; ZERO; RBRACE]. split; [reflexivity|].
        intros u Hu df lf Hdf Hlf. cbn [List.length] in *.
        destruct df as [|df]; [lia|]. destruct lf as [|lf]; [lia|].
        destruct lf as [|lf]; [lia|].
        tail_facts s pos ([QUOTE; QUOTE; COLON; ZERO; RBRACE] ++ u) Lp.
        cbn [parseObject_loop]. cbv zeta. rewrite ltb_length_charAt, C0.
        replace (pos + 5) with (S (S (S (S (S pos))))) by lia.
        apply entry_closes; assumption.
      - exists [RBRACE]. split; [reflexivity|].
        intros u Hu df lf Hdf Hlf. cbn [List.length] in *.
        destruct lf as [|lf]; [lia|].
        tail_facts s pos ([RBRACE] ++ u) Lp.
        rewrite object_closes by assumption. apply Ok_at. lia. }
  learn. destruct first.
  - (* the first entry *)
    destruct (parseObject_entry_completes fuel obj pos m p (fun o => IH' o pos) Hpos H An)
      as (t & Hhead & Hrun).
    exists t. split; [exact Hhead|].
    intros u Hu df lf Hdf Hlf. destruct lf as [|lf]; [lia|].
    cbn [parseObject_loop]. cbv zeta.
    assert (L' : pos < List.length (firstn p s ++ t ++ u)).
    { rewrite completed_length, length_app by assumption.
      destruct (le_lt_dec p pos) as [Hle|Hlt]; [|lia].
      specialize (Hhead Hle). destruct t; [discriminate|]. cbn [List.length]. lia. }
    rewrite (proj2 (Nat.ltb_lt _ _) L').
    apply Hrun; assumption.
  - pose proof (skipWhitespace_ge s pos) as Gq.
    pose proof (skipWhitespace_le s pos Hpos) as Lq.
    assert (closing : skipWhitespace s pos = p ->
              exists t,
                (p <= pos -> nth_error t 0 = Some RBRACE)
                /\ forall u, stops u ->
                   forall df lf, p + List.length t < df + pos -> p + List.length t < lf + pos ->
                     exists v,
                       parseObject_loop (firstn p s ++ t ++ u)
                         (parseValue anyNumber (firstn p s ++ t ++ u) df) lf obj false pos
                       = Ok (v, p + List.length t)).
    { intros Ep. exists [RBRACE]. split; [reflexivity|].
      intros u Hu df lf Hdf Hlf. cbn [List.length] in *.
      destruct lf as [|lf]; [lia|].
      tail_facts s p ([RBRACE] ++ u) Lp.
      rewrite (object_closes_after _ _ lf obj pos p); [apply Ok_at; lia| |assumption].
      apply (completed_skipWhitespace s p (RBRACE :: u) Lp pos Ep eq_refl). }
    destruct (List.length s <=? skipWhitespace s pos) eqn:K1.
    { injection H as <- Ep. apply closing; assumption. }
    destruct (charIs (charAt s (skipWhitespace s pos)) RBRACE) eqn:K2; [discriminate|].
    destruct (negb (charIs (charAt s (skipWhitespace s pos)) COMMA)) eqn:K3.
    { injection H as <- Ep. apply closing; assumption. }
    (* a comma and the next entry *)
    learn.
    pose proof (parseObject_entry_within s (parseValue g s f) (parseValue_within g s f)
                  (fun key value pos =>
                     parseObject_loop s (parseValue g s f) fuel (obj_set obj key value) false pos)
                  (S (skipWhitespace s pos))
                  (fun k v x Hx => parseObject_loop_within s (parseValue g s f)
                                     (parseValue_within g s f) fuel (obj_set obj k v) false x
                                     (proj2 Hx))
                  ltac:(lia)) as We.
    rewrite H in We. cbn [within throw position] in We.
    destruct (parseObject_entry_completes fuel obj (S (skipWhitespace s pos)) m p
                (fun o => IH' o (S (skipWhitespace s pos))) ltac:(lia) H An)
      as (t & Hhead & Hrun).
    exists t. split; [lia|].
    intros u Hu df lf Hdf Hlf. destruct lf as [|lf]; [lia|].
    pose proof (completed_agree s p (t ++ u) Lp) as Hag.
    cbn [parseObject_loop]. cbv zeta. follow Hag.
    apply Hrun; [assumption|lia|lia].
Qed.

Lemma parseObject_completes (pos : nat) (m : Message) (p : nat) :
  pos < List.length s ->
  parseObject s (parseValue g s f) pos = throw m p ->
  anchored m = false ->
  exists t,
    forall u, stops u ->
    forall df, p + List.length t < df + S pos ->
      exists v,
        parseObject (firstn p s ++ t ++ u) (parseValue anyNumber (firstn p s ++ t ++ u) df) pos
        = Ok (v, p + List.length t).
Proof.
  intros Hpos H An. unfold parseObject in H. cbv zeta in H.
  pose proof (skipWhitespace_ge s (S pos)) as Gq.
  pose proof (skipWhitespace_le s (S pos) ltac:(lia)) as Lq.
  destruct ((skipWhitespace s (S pos) <? List.length s)
            && charIs (charAt s (skipWhitespace s (S pos))) RBRACE) eqn:K; [discriminate|].
  pose proof (parseObject_loop_within s (parseValue g s f) (parseValue_within g s f)
                (S (S (List.length s - skipWhitespace s (S pos)))) emptyObject true
                (skipWhitespace s (S pos)) Lq) as W.
  rewrite H in W. cbn [within throw position] in W.
  assert (Lp : p <= List.length s) by lia.
  destruct (parseObject_loop_completes _ _ _ _ m p Lq H An) as (t & Hhead & Hrun).
  exists t. intros u Hu df Hdf.
  pose proof (completed_agree s p (t ++ u) Lp) as Hag.
  unfold parseObject. cbv zeta.
  destruct (le_lt_dec p (skipWhitespace s (S pos))) as [Hle|Hlt].
  - assert (Ep : skipWhitespace s (S pos) = p) by lia.
    specialize (Hhead Hle). destruct t as [|c t]; [discriminate|]. injection Hhead as ->.
    rewrite (completed_skipWhitespace s p ((QUOTE :: t) ++ u) Lp (S pos) Ep eq_refl).
    pose proof (completed_charAt s p ((QUOTE :: t) ++ u) Lp 0) as C0.
    cbn [Nat.add nth_error app] in C0 |- *. rewrite C0. decide_tests. rewrite andb_false_r.
    rewrite Ep in Hrun.
    apply Hrun; [assumption|lia|].
    rewrite completed_length by assumption. cbn [List.length]. rewrite ?length_app.
    cbn [List.length] in *. lia.
  - follow Hag. apply Hrun; [assumption|lia|].
    rewrite completed_length by assumption. cbn [List.length]. rewrite ?length_app.
    cbn [List.length] in *. lia.
Qed.

End ObjectCompletion.

(** *** Arrays: the element under way is completed and a bracket closes
    the array. *)
Section ArrayCompletion.

Variable g : jsstring -> bool.
Variable s : jsstring.
Variable f : nat.
Hypothesis value_completes : valueCompletes g s f.

Lemma parseArray_element_completes (fuel : nat) (arr : list JSONValue) (pos : nat)
      (m : Message) (p : nat) :
  (forall arr' pos',
     pos < pos' <= List.length s ->
     parseArray_loop s (parseValue g s f) fuel arr' false pos' = throw m p ->
     exists t,
       (p <= pos' -> nth_error t 0 = Some RBRACKET)
       /\ forall u, stops u ->
          forall df lf, p + List.length t < df + pos' -> p + List.length t < lf + pos' ->
            exists v,
              parseArray_loop (firstn p s ++ t ++ u)
                (parseValue anyNumber (firstn p s ++ t ++ u) df) lf arr' false pos'
              = Ok (v, p + List.length t)) ->
  pos <= List.length s ->
  parseArray_element (parseValue g s f)
    (fun arr pos => parseArray_loop s (parseValue g s f) fuel arr false pos) arr pos
  = throw m p ->
  anchored m = false ->
  exists t,
    (p <= pos -> nth_error t 0 = Some ZERO)
    /\ forall u, stops u ->
       forall df lf, p + List.length t < df + pos -> p + List.length t < S lf + pos ->
         exists v,
           parseArray_element (parseValue anyNumber (firstn p s ++ t ++ u) df)
             (fun arr pos =>
                parseArray_loop (firstn p s ++ t ++ u)
                  (parseValue anyNumber (firstn p s ++ t ++ u) df) lf arr false pos)
             arr pos
           = Ok (v, p + List.length t).
Proof.
  intros IH Hpos H An. unfold parseArray_element in H.
  pose proof (parseValue_within g s f pos Hpos) as Wv.
  pose proof (parseValue_beyond g s f pos Hpos) as Bv.
  pose proof (skipWhitespace_ge s pos) as Gq.
  destruct (parseValue g s f pos) as [[value p3]|e|] eqn:Ev;
    cbn [bind within beyond] in H, Wv, Bv; [| |discriminate].
  - (* the loop goes round *)
    pose proof (parseArray_loop_within s (parseValue g s f) (parseValue_within g s f)
                  fuel (arr ++ [value]) false p3 ltac:(lia)) as Wl.
    rewrite H in Wl. cbn [within throw position] in Wl.
    destruct (IH (arr ++ [value]) p3 ltac:(lia) H) as (t & Hhead & Hrun).
    assert (Lp : p <= List.length s) by lia.
    exists t. split; [lia|].
    intros u Hu df lf Hdf Hlf.
    unfold parseArray_element.
    rewrite (completed_value_ok g s p (t ++ u) Lp f df pos value p3 ltac:(lia) Ev ltac:(lia));
      [| | lia].
    2:{ intros E. specialize (Hhead ltac:(lia)).
        destruct t as [|c t]; [discriminate|]. injection Hhead as ->. reflexivity. }
    cbn [bind]. apply Hrun; [assumption|lia|lia].
  - (* the value *)
    injection H as ->. cbn [position] in Wv.
    assert (Lp : p <= List.length s) by lia.
    destruct (value_completes pos m p Hpos Ev An) as (t & Hhead & Hrun).
    exists (t ++ [RBRACKET]). split.
    { intros Hle. specialize (Hhead ltac:(lia)).
      destruct t as [|c t]; [discriminate|]. exact Hhead. }
    intros u Hu df lf Hdf Hlf. rewrite length_app in *. cbn [List.length] in *.
    rewrite <- app_assoc.
    destruct lf as [|lf]; [lia|].
    destruct (Hrun ([RBRACKET] ++ u) ltac:(reflexivity) df ltac:(lia)) as [v Erun].
    pose proof (completed_tail_charAt s p ([RBRACKET] ++ u) Lp t 0) as T0.
    cbn [Nat.add nth_error app] in T0.
    unfold parseArray_element. rewrite Erun. cbn [bind].
    rewrite array_closes by assumption. apply Ok_at. lia.
Qed.

Lemma parseArray_loop_completes (fuel : nat) (arr : list JSONValue) (first : bool) (pos : nat)
      (m : Message) (p : nat) :
  pos <= List.length s ->
  parseArray_loop s (parseValue g s f) fuel arr first pos = throw m p ->
  anchored m = false ->
  exists t,
    (p <= pos -> nth_error t 0 = Some (if first then ZERO else RBRACKET))
    /\ forall u, stops u ->
       forall df lf, p + List.length t < df + pos -> p + List.length t < lf + pos ->
         exists v,
           parseArray_loop (firstn p s ++ t ++ u)
             (parseValue anyNumber (firstn p s ++ t ++ u) df) lf arr first pos
           = Ok (v, p + List.length t).
Proof.
  revert arr first pos.
  induction fuel as [|fuel IH]; intros arr first pos Hpos H An; [discriminate|].
  assert (IH' : forall arr' pos0 pos',
             pos0 < pos' <= List.length s ->
             parseArray_loop s (parseValue g s f) fuel arr' false pos' = throw m p ->
             exists t,
               (p <= pos' -> nth_error t 0 = Some RBRACKET)
               /\ forall u, stops u ->
                  forall df lf, p + List.length t < df + pos' -> p + List.length t < lf + pos' ->
                    exists v,
                      parseArray_loop (firstn p s ++ t ++ u)
                        (parseValue anyNumber (firstn p s ++ t ++ u) df) lf arr' false pos'
                      = Ok (v, p + List.length t)).
  { intros arr' pos0 pos' Hp' H'. apply (IH arr' false pos'); [lia|assumption|assumption]. }
  pose proof (parseArray_loop_within s (parseValue g s f) (parseValue_within g s f)
                (S fuel) arr first pos Hpos) as W.
  rewrite H in W. cbn [within throw position] in W.
  assert (Lp : p <= List.length s) by lia.
  cbn [parseArray_loop] in H. cbv zeta in H.
  destruct (pos <? List.length s) eqn:L.
  2:{ (* the input is exhausted *)
      injection H as <- Ep. subst p. destruct first.
      - exists [ZERO; RBRACKET]. split; [reflexivity|].
        intros u Hu df lf Hdf Hlf. cbn [List.length] in *.
        destruct df as [|df]; [lia|]. destruct lf as [|lf]; [lia|].
        destruct lf as [|lf]; [lia|].
        tail_facts s pos ([ZERO; RBRACKET] ++ u) Lp.
        cbn [parseArray_loop]. cbv zeta. rewrite ltb_length_charAt, C0.
        replace (pos + 2) with (S (S pos)) by lia.
        apply element_closes; assumption.
      - exists [RBRACKET]. split; [reflexivity|].
        intros u Hu df lf Hdf Hlf. cbn [List.length] in *.
        destruct lf as [|lf]; [lia|].
        tail_facts s pos ([RBRACKET] ++ u) Lp.
        rewrite array_closes by assumption. apply Ok_at. lia. }
  learn. destruct first.
  - (* the first element *)
    destruct (parseArray_element_completes fuel arr pos m p (fun a => IH' a pos) Hpos H An)
      as (t & Hhead & Hrun).
    exists t. split; [exact Hhead|].
    intros u Hu df lf Hdf Hlf. destruct lf as [|lf]; [lia|].
    cbn [parseArray_loop]. cbv zeta.
    assert (L' : pos < List.length (firstn p s ++ t ++ u)).
    { rewrite completed_length, length_app by assumption.
      destruct (le_lt_dec p pos) as [Hle|Hlt]; [|lia].
      specialize (Hhead Hle). destruct t; [discriminate|]. cbn [List.length]. lia. }
    rewrite (proj2 (Nat.ltb_lt _ _) L').
    apply Hrun; assumption.
  - pose proof (skipWhitespace_ge s pos) as Gq.
    pose proof (skipWhitespace_le s pos Hpos) as Lq.
    assert (closing : skipWhitespace s pos = p ->
              exists t,
                (p <= pos -> nth_error t 0 = Some RBRACKET)
                /\ forall u, stops u ->
                   forall df lf, p + List.length t < df + pos -> p + List.length t < lf + pos ->
                     exists v,
                       parseArray_loop (firstn p s ++ t ++ u)
                         (parseValue anyNumber (firstn p s ++ t ++ u) df) lf arr false pos
                       = Ok (v, p + List.length t)).
    { intros Ep. exists [RBRACKET]. split; [reflexivity|].
      intros u Hu df lf Hdf Hlf. cbn [List.length] in *.
      destruct lf as [|lf]; [lia|].
      tail_facts s p ([RBRACKET] ++ u) Lp.
      rewrite (array_closes_after _ _ lf arr pos p); [apply Ok_at; lia| |assumption].
      apply (completed_skipWhitespace s p (RBRACKET :: u) Lp pos Ep eq_refl). }
    destruct (List.length s <=? skipWhitespace s pos) eqn:K1.
    { injection H as <- Ep. apply closing; assumption. }
    destruct (charIs (charAt s (skipWhitespace s pos)) RBRACKET) eqn:K2; [discriminate|].
    destruct (negb (charIs (charAt s (skipWhitespace s pos)) COMMA)) eqn:K3.
    { injection H as <- Ep. apply closing; assumption. }
    (* a comma and the next element *)
    learn.
    pose proof (parseArray_element_within s (parseValue g s f) (parseValue_within g s f)
                  (fun arr pos => parseArray_loop s (parseValue g s f) fuel arr false pos)
                  arr (S (skipWhitespace s pos))
                  (fun a x Hx => parseArray_loop_within s (parseValue g s f)
                                   (parseValue_within g s f) fuel a false x (proj2 Hx))
                  ltac:(lia)) as We.
    rewrite H in We. cbn [within throw position] in We.
    destruct (parseArray_element_completes fuel arr (S (skipWhitespace s pos)) m p
                (fun a => IH' a (S (skipWhitespace s pos))) ltac:(lia) H An)
      as (t & Hhead & Hrun).
    exists t. split; [lia|].
    intros u Hu df lf Hdf Hlf. destruct lf as [|lf]; [lia|].
    pose proof (completed_agree s p (t ++ u) Lp) as Hag.
    cbn [parseArray_loop]. cbv zeta. follow Hag.
    apply Hrun; [assumption|lia|lia].
Qed.

Lemma parseArray_completes (pos : nat) (m : Message) (p : nat) :
  pos < List.length s ->
  parseArray s (parseValue g s f) pos = throw m p ->
  anchored m = false ->
  exists t,
    forall u, stops u ->
    forall df, p + List.length t < df + S pos ->
      exists v,
        parseArray (firstn p s ++ t ++ u) (parseValue anyNumber (firstn p s ++ t ++ u) df) pos
        = Ok (v, p + List.length t).
Proof.
  intros Hpos H An. unfold parseArray in H. cbv zeta in H.
  pose proof (skipWhitespace_ge s (S pos)) as Gq.
  pose proof (skipWhitespace_le s (S pos) ltac:(lia)) as Lq.
  destruct ((skipWhitespace s (S pos) <? List.length s)
            && charIs (charAt s (skipWhitespace s (S pos))) RBRACKET) eqn:K; [discriminate|].
  pose proof (parseArray_loop_within s (parseValue g s f) (parseValue_within g s f)
                (S (S (List.length s - skipWhitespace s (S pos)))) [] true
                (skipWhitespace s (S pos)) Lq) as W.
  rewrite H in W. cbn [within throw position] in W.
  assert (Lp : p <= List.length s) by lia.
  destruct (parseArray_loop_completes _ _ _ _ m p Lq H An) as (t & Hhead & Hrun).
  exists t. intros u Hu df Hdf.
  pose proof (completed_agree s p (t ++ u) Lp) as Hag.
  unfold parseArray. cbv zeta.
  destruct (le_lt_dec p (skipWhitespace s (S pos))) as [Hle|Hlt].
  - assert (Ep : skipWhitespace s (S pos) = p) by lia.
    specialize (Hhead Hle). destruct t as [|c t]; [discriminate|]. injection Hhead as ->.
    rewrite (completed_skipWhitespace s p ((ZERO :: t) ++ u) Lp (S pos) Ep eq_refl).
    pose proof (completed_charAt s p ((ZERO :: t) ++ u) Lp 0) as C0.
    cbn [Nat.add nth_error app] in C0 |- *. rewrite C0. decide_tests. rewrite andb_false_r.
    rewrite Ep in Hrun.
    apply Hrun; [assumption|lia|].
    rewrite completed_length by assumption. cbn [List.length]. rewrite ?length_app.
    cbn [List.length] in *. lia.
  - follow Hag. apply Hrun; [assumption|lia|].
    rewrite completed_length by assumption. cbn [List.length]. rewrite ?length_app.
    cbn [List.length] in *. lia.
Qed.

End ArrayCompletion.

(** *** Values and whole texts *)
Section ValueCompletion.

Variable g : jsstring -> bool.
Variable s : jsstring.

Lemma parseValue_completes (f : nat) : valueCompletes g s f.
Proof.
  induction f as [|f IH]; intros pos m p Hpos H An; [discriminate|].
  pose proof (parseValue_within g s (S f) pos Hpos) as W.
  rewrite H in W. cbn [within throw position] in W.
  assert (Lp : p <= List.length s) by lia.
  pose proof (skipWhitespace_ge s pos) as Gq.
  pose proof (skipWhitespace_le s pos Hpos) as Lq.
  cbn [parseValue] in H. cbv zeta in H.
  assert (fresh : skipWhitespace s pos = p ->
            exists t,
              (p <= skipWhitespace s pos -> nth_error t 0 = Some ZERO)
              /\ forall u, stops u ->
                 forall df, p + List.length t < df + pos ->
                   exists v,
                     parseValue anyNumber (firstn p s ++ t ++ u) df pos
                     = Ok (v, p + List.length t)).
  { intros Ep. exists [ZERO]. split; [reflexivity|].
    intros u Hu df Hdf. cbn [List.length] in *.
    destruct df as [|df]; [lia|].
    tail_facts s p ([ZERO] ++ u) Lp.
    rewrite <- parseValue_skip.
    rewrite (completed_skipWhitespace s p (ZERO :: u) Lp pos Ep eq_refl).
    rewrite zero_closes; [apply Ok_at; lia|assumption|rewrite C1; exact Hu]. }
  destruct (List.length s <=? skipWhitespace s pos) eqn:K0.
  { injection H as <- Ep. apply fresh; assumption. }
  learn.
  destruct (charIs (charAt s (skipWhitespace s pos)) LBRACE) eqn:K1.
  { (* an object *)
    pose proof (parseObject_within_S s (parseValue g s f) (parseValue_within g s f)
                  (skipWhitespace s pos) ltac:(assumption)) as Wo.
    rewrite H in Wo. cbn [within throw position] in Wo.
    destruct (parseObject_completes g s f IH (skipWhitespace s pos) m p ltac:(assumption) H An)
      as (t & Hrun).
    exists t. split; [lia|].
    intros u Hu df Hdf. destruct df as [|df]; [lia|].
    pose proof (completed_agree s p (t ++ u) Lp) as Hag.
    cbn [parseValue]. cbv zeta. follow Hag. apply Hrun; [assumption|lia]. }
  destruct (charIs (charAt s (skipWhitespace s pos)) LBRACKET) eqn:K2.
  { (* an array *)
    pose proof (parseArray_within_S s (parseValue g s f) (parseValue_within g s f)
                  (skipWhitespace s pos) ltac:(assumption)) as Wo.
    rewrite H in Wo. cbn [within throw position] in Wo.
    destruct (parseArray_completes g s f IH (skipWhitespace s pos) m p ltac:(assumption) H An)
      as (t & Hrun).
    exists t. split; [lia|].
    intros u Hu df Hdf. destruct df as [|df]; [lia|].
    pose proof (completed_agree s p (t ++ u) Lp) as Hag.
    cbn [parseValue]. cbv zeta. follow Hag. apply Hrun; [assumption|lia]. }
  destruct (charIs (charAt s (skipWhitespace s pos)) QUOTE) eqn:K3.
  { (* a string *)
    pose proof (parseString_within_S s (skipWhitespace s pos) ltac:(assumption)) as Wk.
    destruct (parseString s (skipWhitespace s pos)) as [[r p1]|e|] eqn:Ek;
      cbn [bind within] in H, Wk; [discriminate| |discriminate].
    injection H as ->. cbn [position] in Wk.
    exists (closeString m). split; [lia|].
    intros u Hu df Hdf. destruct df as [|df]; [lia|].
    destruct (parseString_completes s (skipWhitespace s pos) m p ltac:(assumption) Ek An u)
      as [r Er].
    pose proof (completed_agree s p (closeString m ++ u) Lp) as Hag.
    cbn [parseValue]. cbv zeta. follow Hag. rewrite Er. cbn [bind]. apply Ok_at. reflexivity. }
  destruct (charIs (charAt s (skipWhitespace s pos)) (chr "t")) eqn:K4.
  { unfold parseTrue in H. revert H. split_if; [discriminate|].
    intros H. injection H as <- _. discriminate An. }
  destruct (charIs (charAt s (skipWhitespace s pos)) (chr "f")) eqn:K5.
  { unfold parseFalse in H. revert H. split_if; [discriminate|].
    intros H. injection H as <- _. discriminate An. }
  destruct (charIs (charAt s (skipWhitespace s pos)) (chr "n")) eqn:K6.
  { unfold parseNull in H. revert H. split_if; [discriminate|].
    intros H. injection H as <- _. discriminate An. }
  destruct (charIs (charAt s (skipWhitespace s pos)) MINUS
            || isDigit (charAt s (skipWhitespace s pos))) eqn:K7.
  { (* a number *)
    destruct (parseNumber_completes g s (skipWhitespace s pos) m p K7 H An) as [Hgt Hrun].
    exists (closeNumber m). split; [lia|].
    intros u Hu df Hdf. destruct df as [|df]; [lia|].
    destruct (Hrun u Hu) as [v Er].
    pose proof (completed_agree s p (closeNumber m ++ u) Lp) as Hag.
    cbn [parseValue]. cbv zeta. follow Hag. rewrite Er. apply Ok_at. reflexivity. }
  injection H as <- Ep. apply fresh; assumption.
Qed.

(** The input cut at an error that is not anchored can be completed to a
    text that [parse] accepts. *)
Lemma parse_completes (e : JSONParseError) :
  parse g s = Throw e -> anchored (message e) = false ->
  exists rest, grammatical (firstn (position e) s ++ rest).
Proof.
  intros H An. destruct e as [m p]. cbn [message position] in *.
  pose proof (cursor_position_bound g s _ H) as Lp. cbn [position] in Lp.
  rewrite parse_unfold in H.
  pose proof (parseValue_within g s (S (List.length s)) 0 (Nat.le_0_l _)) as Wv.
  destruct (parseValue g s (S (List.length s)) 0) as [[v p1]|e|] eqn:Ev;
    cbn [bind within] in H, Wv; [| |discriminate].
  - (* characters after the value *)
    cbv zeta in H. revert H. split_if; [|discriminate]. intros H. injection H as _ Ep.
    pose proof (skipWhitespace_ge s p1) as Gq.
    exists []. exists v. unfold grammatical. rewrite parse_unfold.
    pose proof (completed_length s p [] Lp) as Len. cbn [List.length] in Len.
    assert (Hp1 : p1 <= p) by lia.
    rewrite (completed_value_ok g s p [] Lp (S (List.length s)) _ 0 v p1
               (Nat.le_0_l _) Ev Hp1 ltac:(reflexivity)) by lia.
    cbn [bind]. cbv zeta.
    rewrite (completed_skipWhitespace s p [] Lp p1 Ep eq_refl).
    rewrite (proj2 (Nat.ltb_ge _ _)) by lia. reflexivity.
  - injection H as ->.
    destruct (parseValue_completes (S (List.length s)) 0 m p (Nat.le_0_l _) Ev An)
      as (t & _ & Hrun).
    exists t. unfold grammatical. rewrite parse_unfold.
    pose proof (completed_length s p (t ++ []) Lp) as Len.
    rewrite (length_app t []) in Len. cbn [List.length] in Len.
    assert (Hdf : p + List.length t < S (List.length (firstn p s ++ t ++ [])) + 0) by lia.
    destruct (Hrun [] ltac:(reflexivity) _ Hdf) as [v Er].
    rewrite app_nil_r in *. rewrite Er. cbn [bind]. cbv zeta.
    exists v.
    rewrite skipWhitespace_stay.
    + rewrite (proj2 (Nat.ltb_ge _ _)) by lia. reflexivity.
    + rewrite (proj2 (Nat.ltb_ge _ _)) by lia. reflexivity.
Qed.

End ValueCompletion.



Lemma sited_bind (finite : jsstring -> bool) (s : jsstring) (A B : Type)
      (r : Result A) (k : A -> Result B) :
  sited finite s r -> (forall a, sited finite s (k a)) -> sited finite s (bind r k).
Proof. destruct r as [a|e|]; simpl; auto. Qed.

Lemma charIs_ZERO_isDigit (c : option Z) : charIs c ZERO = true -> isDigit c = true.
Proof.
  destruct c as [c|]; [|discriminate]. unfold charIs, isDigit.
  intros H. apply Z.eqb_eq in H. subst c. reflexivity.
Qed.

(** ** Where the anchored errors are thrown *)
Section Sites.

Variable finite : jsstring -> bool.
Variable s : jsstring.

Lemma parseString_loop_sited (fuel : nat) (result : jsstring) (pos : nat) :
  sited finite s (parseString_loop s fuel result pos).
Proof.
  revert result pos. induction fuel as [|fuel IH]; intros result pos; simpl; [exact I|].
  repeat split_if; try apply IH; simpl; auto; bool_facts.
  - repeat split; eauto.
  - repeat split; eauto.
Qed.

Lemma parseNumber_sited (pos : nat) : sited finite s (parseNumber finite s pos).
Proof.
  unfold parseNumber.
  repeat (split_if; cbn [bind throw]); try exact I.
  all: cbn [sited site message position]; try exact I.
  all: repeat split; eauto; bool_facts; try assumption.
  all: cbv [position message].
  all: repeat match goal with
       | H : charIs _ ZERO = true |- _ => apply charIs_ZERO_isDigit in H
       | H : ?a = true |- context [?a] => rewrite H
       end; auto using orb_true_r.
Qed.

Section ContainersSites.

Variable pv : nat -> Result (JSONValue * nat).
Hypothesis pv_sited : forall pos, sited finite s (pv pos).

Lemma parseObject_entry_sited (again : jsstring -> JSONValue -> nat -> Result (JSONValue * nat))
      (pos : nat) :
  (forall k v p, sited finite s (again k v p)) ->
  sited finite s (parseObject_entry s pv again pos).
Proof.
  intros Hagain. unfold parseObject_entry. cbv zeta.
  split_if; [exact I|].
  apply sited_bind; [apply parseString_loop_sited|]. intros [key p1]. cbv zeta.
  split_if; [exact I|].
  apply sited_bind; [apply pv_sited|]. intros [value p3]. apply Hagain.
Qed.

Lemma parseObject_loop_sited (fuel : nat) (obj : JSObject) (first : bool) (pos : nat) :
  sited finite s (parseObject_loop s pv fuel obj first pos).
Proof.
  revert obj first pos. induction fuel as [|fuel IH]; intros obj first pos; [exact I|].
  cbn [parseObject_loop]. cbv zeta.
  split_if; [|exact I].
  destruct first; [apply parseObject_entry_sited; intros; apply IH|].
  do 3 (split_if; [exact I|]).
  apply parseObject_entry_sited; intros; apply IH.
Qed.

Lemma parseArray_loop_sited (fuel : nat) (arr : list JSONValue) (first : bool) (pos : nat) :
  sited finite s (parseArray_loop s pv fuel arr first pos).
Proof.
  revert arr first pos. induction fuel as [|fuel IH]; intros arr first pos; [exact I|].
  assert (E : forall a p,
            sited finite s
              (parseArray_element pv (fun arr pos => parseArray_loop s pv fuel arr false pos) a p)).
  { intros a p. unfold parseArray_element.
    apply sited_bind; [apply pv_sited|]. intros [value p1]. apply IH. }
  cbn [parseArray_loop]. cbv zeta.
  split_if; [|exact I].
  destruct first; [apply E|].
  do 3 (split_if; [exact I|]).
  apply E.
Qed.

End ContainersSites.

Lemma parseValue_sited (fuel pos : nat) : sited finite s (parseValue finite s fuel pos).
Proof.
  revert pos. induction fuel as [|fuel IH]; intros pos; [exact I|].
  cbn [parseValue]. cbv zeta.
  repeat (split_if; try exact I).
  - unfold parseObject. cbv zeta. split_if; [exact I|]. apply parseObject_loop_sited; auto.
  - unfold parseArray. cbv zeta. split_if; [exact I|]. apply parseArray_loop_sited; auto.
  - apply sited_bind; [apply parseString_loop_sited|]. intros [? ?]; exact I.
  - unfold parseTrue. split_if; [exact I|]. split; assumption.
  - unfold parseFalse. split_if; [exact I|]. split; assumption.
  - unfold parseNull. split_if; [exact I|]. split; assumption.
  - apply parseNumber_sited.
Qed.

Lemma parse_sited : sited finite s (parse finite s).
Proof.
  rewrite parse_unfold.
  apply sited_bind; [apply parseValue_sited|].
  intros [v p]. cbv zeta. split_if; exact I.
Qed.

End Sites.




(** * More of the parser, and the page *)

(** ** More fuel changes nothing *)

Lemma refines_refl (A : Type) (r : Result A) : refines r r.
Proof. intros _. reflexivity. Qed.

Lemma refines_bind (A B : Type) (r r' : Result A) (k k' : A -> Result B) :
  refines r r' -> (forall a, refines (k a) (k' a)) -> refines (bind r k) (bind r' k').
Proof.
  intros Hr Hk H. destruct r as [a|e|]; cbn [bind] in *.
  - rewrite Hr by discriminate. cbn [bind]. apply Hk. exact H.
  - rewrite Hr by discriminate. reflexivity.
  - contradiction.
Qed.

Section FuelContainers.

Variable s : jsstring.
Variables pv pv' : nat -> Result (JSONValue * nat).
Hypothesis pv_refines : forall x, refines (pv x) (pv' x).

Lemma parseObject_entry_refines
      (again again' : jsstring -> JSONValue -> nat -> Result (JSONValue * nat)) (pos : nat) :
  (forall k v p, refines (again k v p) (again' k v p)) ->
  refines (parseObject_entry s pv again pos) (parseObject_entry s pv' again' pos).
Proof.
  intros Hagain. unfold parseObject_entry. cbv zeta.
  split_if; [apply refines_refl|].
  apply refines_bind; [apply refines_refl|]. intros [key p1]. cbv zeta.
  split_if; [apply refines_refl|].
  apply refines_bind; [apply pv_refines|]. intros [value p3]. apply Hagain.
Qed.

Lemma parseObject_loop_refines (fuel : nat) (obj : JSObject) (first : bool) (pos : nat) :
  refines (parseObject_loop s pv fuel obj first pos) (parseObject_loop s pv' fuel obj first pos).
Proof.
  revert obj first pos. induction fuel as [|fuel IH]; intros obj first pos;
    [apply refines_refl|].
  cbn [parseObject_loop]. cbv zeta.
  split_if; [|apply refines_refl].
  destruct first; [apply parseObject_entry_refines; intros; apply IH|].
  do 3 (split_if; [apply refines_refl|]).
  apply parseObject_entry_refines; intros; apply IH.
Qed.

Lemma parseArray_loop_refines (fuel : nat) (arr : list JSONValue) (first : bool) (pos : nat) :
  refines (parseArray_loop s pv fuel arr first pos) (parseArray_loop s pv' fuel arr first pos).
Proof.
  revert arr first pos. induction fuel as [|fuel IH]; intros arr first pos;
    [apply refines_refl|].
  assert (E : forall a p,
            refines
              (parseArray_element pv (fun arr pos => parseArray_loop s pv fuel arr false pos) a p)
              (parseArray_element pv' (fun arr pos => parseArray_loop s pv' fuel arr false pos)
                                  a p)).
  { intros a p. unfold parseArray_element.
    apply refines_bind; [apply pv_refines|]. intros [value p1]. apply IH. }
  cbn [parseArray_loop]. cbv zeta.
  split_if; [|apply refines_refl].
  destruct first; [apply E|].
  do 3 (split_if; [apply refines_refl|]).
  apply E.
Qed.

End FuelContainers.

Lemma parseValue_fuel_S (g : jsstring -> bool) (s : jsstring) (f pos : nat) :
  refines (parseValue g s f pos) (parseValue g s (S f) pos).
Proof.
  revert pos. induction f as [|f IH]; intros pos; [intros H; contradiction|].
  cbn [parseValue]. cbv zeta.
  repeat (split_if; try apply refines_refl).
  - unfold parseObject. cbv zeta. split_if; [apply refines_refl|].
    apply parseObject_loop_refines. exact IH.
  - unfold parseArray. cbv zeta. split_if; [apply refines_refl|].
    apply parseArray_loop_refines. exact IH.
Qed.

Lemma parseValue_fuel (g : jsstring -> bool) (s : jsstring) (f f' pos : nat) :
  f <= f' -> refines (parseValue g s f pos) (parseValue g s f' pos).
Proof.
  intros Hle. induction Hle as [|f' Hle IH]; [apply refines_refl|].
  intros H. rewrite <- (IH H). apply parseValue_fuel_S. rewrite (IH H). exact H.
Qed.

(** With the fuel of [parse] or more, [parseValue] is what it is in
    [parse]. *)
Lemma parseValue_enough (g : jsstring -> bool) (s : jsstring) (f pos : nat) :
  pos <= List.length s -> List.length s < f + pos ->
  parseValue g s f pos = parseValue g s (S (List.length s)) pos.
Proof.
  intros Hpos Hf.
  destruct (le_lt_dec f (S (List.length s))) as [Hle|Hlt].
  - symmetry. apply (parseValue_fuel g s f _ pos Hle).
    apply parseValue_finishes; assumption.
  - apply (parseValue_fuel g s (S (List.length s)) f pos); [lia|].
    apply parseValue_finishes; [assumption|lia].
Qed.

(** ** A text behind other characters *)

Lemma shift_bind (n : nat) (A B : Type) (r r' : Result (A * nat))
      (k k' : A * nat -> Result (B * nat)) :
  r' = behind n r ->
  (forall a p, k' (a, n + p) = behind n (k (a, p))) ->
  bind r' k' = behind n (bind r k).
Proof.
  intros -> Hk. destruct r as [[a p]|e|]; cbn [bind behind throw]; auto.
Qed.

Lemma shiftCursor_bind (n : nat) (B : Type) (r r' : Result nat)
      (k k' : nat -> Result (B * nat)) :
  r' = behindCursor n r ->
  (forall p, k' (n + p) = behind n (k p)) ->
  bind r' k' = behind n (bind r k).
Proof.
  intros -> Hk. destruct r as [p|e|]; cbn [bind behindCursor throw]; auto.
Qed.

Section Shift.

Variable pre : jsstring.
Variable s : jsstring.

Lemma shift_charAt (i : nat) : charAt (pre ++ s) (List.length pre + i) = charAt s i.
Proof.
  unfold charAt. rewrite nth_error_app2 by lia. f_equal. lia.
Qed.

Lemma shift_ltb (i : nat) :
  (List.length pre + i <? List.length (pre ++ s)) = (i <? List.length s).
Proof.
  rewrite length_app.
  destruct (i <? List.length s) eqn:E; [apply Nat.ltb_lt in E|apply Nat.ltb_ge in E].
  - apply Nat.ltb_lt. lia.
  - apply Nat.ltb_ge. lia.
Qed.

Lemma shift_leb (i : nat) :
  (List.length (pre ++ s) <=? List.length pre + i) = (List.length s <=? i).
Proof. rewrite !Nat.leb_antisym, shift_ltb. reflexivity. Qed.

Lemma shift_slice (a b : nat) :
  slice (pre ++ s) (List.length pre + a) (List.length pre + b) = slice s a b.
Proof.
  unfold slice. rewrite skipn_app.
  replace (List.length pre + a - List.length pre) with a by lia.
  rewrite (skipn_all2 pre) by lia. cbn [app].
  f_equal. lia.
Qed.

Lemma shift_sub (a : nat) :
  List.length (pre ++ s) - (List.length pre + a) = List.length s - a.
Proof. rewrite length_app. lia. Qed.

Lemma shift_run (skip skip' : nat -> nat) (class : option Z -> bool) (pos : nat) :
  (forall p, skip p = if (p <? List.length s) && class (charAt s p) then skip (S p) else p) ->
  (forall p, skip' p
             = if (p <? List.length (pre ++ s)) && class (charAt (pre ++ s) p)
               then skip' (S p) else p) ->
  class None = false ->
  skip' (List.length pre + pos) = List.length pre + skip pos.
Proof.
  intros E E' Hnone.
  apply (run_unique (pre ++ s) skip' class E').
  - pose proof (run_ge s skip class E pos). lia.
  - intros i Hi.
    replace i with (List.length pre + (i - List.length pre)) by lia.
    rewrite shift_ltb, shift_charAt.
    assert (B : class (charAt s (i - List.length pre)) = true)
      by (apply (run_between s skip class E pos); lia).
    rewrite B.
    destruct (i - List.length pre <? List.length s) eqn:L; [reflexivity|].
    apply Nat.ltb_ge in L. rewrite charAt_ge_None in B by assumption. congruence.
  - rewrite shift_ltb, shift_charAt. apply (run_stop s skip class E).
Qed.

Lemma shift_skipWhitespace (pos : nat) :
  skipWhitespace (pre ++ s) (List.length pre + pos) = List.length pre + skipWhitespace s pos.
Proof. apply (shift_run _ _ isWhitespace); auto using skipWhitespace_eq. Qed.

Lemma shift_skipDigits (pos : nat) :
  skipDigits (pre ++ s) (List.length pre + pos) = List.length pre + skipDigits s pos.
Proof. apply (shift_run _ _ isDigit); auto using skipDigits_eq. Qed.

End Shift.

(** The cursors of the run behind [pre], written as [length pre + _], and
    what is read there. *)
Ltac shifted :=
  repeat match goal with
  | |- context [S (List.length ?l + ?i)] => rewrite <- (Nat.add_succ_r (List.length l) i)
  | |- context [List.length ?l + ?i + ?k] => rewrite <- (Nat.add_assoc (List.length l) i k)
  | |- context [charAt (?l ++ ?t) (List.length ?l + ?i)] => rewrite (shift_charAt l t i)
  | |- context [List.length ?l + ?i <? List.length (?l ++ ?t)] => rewrite (shift_ltb l t i)
  | |- context [List.length (?l ++ ?t) <=? List.length ?l + ?i] => rewrite (shift_leb l t i)
  | |- context [slice (?l ++ ?t) (List.length ?l + ?a) (List.length ?l + ?b)] =>
      rewrite (shift_slice l t a b)
  | |- context [List.length (?l ++ ?t) - (List.length ?l + ?a)] => rewrite (shift_sub l t a)
  | |- context [skipWhitespace (?l ++ ?t) (List.length ?l + ?a)] =>
      rewrite (shift_skipWhitespace l t a)
  | |- context [skipDigits (?l ++ ?t) (List.length ?l + ?a)] =>
      rewrite (shift_skipDigits l t a)
  end.

Section ShiftScalars.

Variable g : jsstring -> bool.
Variable pre : jsstring.
Variable s : jsstring.

Lemma parseString_loop_shift (fuel : nat) (result : jsstring) (pos : nat) :
  parseString_loop (pre ++ s) fuel result (List.length pre + pos)
  = behind (List.length pre) (parseString_loop s fuel result pos).
Proof.
  revert result pos. induction fuel as [|fuel IH]; intros result pos; [reflexivity|].
  cbn [parseString_loop]. cbv zeta. shifted.
  repeat split_if; try reflexivity; apply IH.
Qed.

Lemma parseString_shift (pos : nat) :
  parseString (pre ++ s) (List.length pre + pos)
  = behind (List.length pre) (parseString s pos).
Proof.
  unfold parseString. shifted. apply parseString_loop_shift.
Qed.

Lemma parseTrue_shift (pos : nat) :
  parseTrue (pre ++ s) (List.length pre + pos) = behind (List.length pre) (parseTrue s pos).
Proof. unfold parseTrue. shifted. split_if; reflexivity. Qed.

Lemma parseFalse_shift (pos : nat) :
  parseFalse (pre ++ s) (List.length pre + pos) = behind (List.length pre) (parseFalse s pos).
Proof. unfold parseFalse. shifted. split_if; reflexivity. Qed.

Lemma parseNull_shift (pos : nat) :
  parseNull (pre ++ s) (List.length pre + pos) = behind (List.length pre) (parseNull s pos).
Proof. unfold parseNull. shifted. split_if; reflexivity. Qed.

Lemma parseNumber_shift (pos : nat) :
  parseNumber g (pre ++ s) (List.length pre + pos)
  = behind (List.length pre) (parseNumber g s pos).
Proof.
  unfold parseNumber.
  apply shiftCursor_bind; [shifted; repeat split_if; reflexivity|]. intros p1.
  apply shiftCursor_bind; [shifted; repeat split_if; reflexivity|]. intros p2.
  apply shiftCursor_bind; [shifted; repeat split_if; reflexivity|]. intros p3.
  apply shiftCursor_bind.
  { shifted. split_if; [|reflexivity].
    match goal with |- context [if ?b then S (S ?x) else S ?x] => destruct b end;
      shifted; split_if; reflexivity. }
  intros p4.
  cbv zeta. shifted. split_if; reflexivity.
Qed.

End ShiftScalars.

Section ShiftContainers.

Variable pre : jsstring.
Variable s : jsstring.
Variables pv pv' : nat -> Result (JSONValue * nat).
Hypothesis pv_shift : forall x, pv' (List.length pre + x) = behind (List.length pre) (pv x).

Lemma parseObject_entry_shift
      (again again' : jsstring -> JSONValue -> nat -> Result (JSONValue * nat)) (pos : nat) :
  (forall k v p, again' k v (List.length pre + p) = behind (List.length pre) (again k v p)) ->
  parseObject_entry (pre ++ s) pv' again' (List.length pre + pos)
  = behind (List.length pre) (parseObject_entry s pv again pos).
Proof.
  intros Hagain. unfold parseObject_entry. cbv zeta. shifted.
  split_if; [reflexivity|].
  apply shift_bind; [apply parseString_shift|]. intros key p1. cbv zeta. shifted.
  split_if; [reflexivity|].
  apply shift_bind; [apply pv_shift|]. intros value p3. apply Hagain.
Qed.

Lemma parseObject_loop_shift (fuel : nat) (obj : JSObject) (first : bool) (pos : nat) :
  parseObject_loop (pre ++ s) pv' fuel obj first (List.length pre + pos)
  = behind (List.length pre) (parseObject_loop s pv fuel obj first pos).
Proof.
  revert obj first pos. induction fuel as [|fuel IH]; intros obj first pos; [reflexivity|].
  cbn [parseObject_loop]. cbv zeta. shifted.
  split_if; [|reflexivity].
  destruct first; [apply parseObject_entry_shift; intros; apply IH|].
  do 3 (split_if; [reflexivity|]).
  apply parseObject_entry_shift; intros; apply IH.
Qed.

Lemma parseObject_shift (pos : nat) :
  parseObject (pre ++ s) pv' (List.length pre + pos)
  = behind (List.length pre) (parseObject s pv pos).
Proof.
  unfold parseObject. cbv zeta. shifted.
  split_if; [reflexivity|]. apply parseObject_loop_shift.
Qed.

Lemma parseArray_loop_shift (fuel : nat) (arr : list JSONValue) (first : bool) (pos : nat) :
  parseArray_loop (pre ++ s) pv' fuel arr first (List.length pre + pos)
  = behind (List.length pre) (parseArray_loop s pv fuel arr first pos).
Proof.
  revert arr first pos. induction fuel as [|fuel IH]; intros arr first pos; [reflexivity|].
  assert (E : forall a p,
            parseArray_element pv'
              (fun arr pos => parseArray_loop (pre ++ s) pv' fuel arr false pos) a
              (List.length pre + p)
            = behind (List.length pre)
                (parseArray_element pv
                   (fun arr pos => parseArray_loop s pv fuel arr false pos) a p)).
  { intros a p. unfold parseArray_element.
    apply shift_bind; [apply pv_shift|]. intros value p1. apply IH. }
  cbn [parseArray_loop]. cbv zeta. shifted.
  split_if; [|reflexivity].
  destruct first; [apply E|].
  do 3 (split_if; [reflexivity|]).
  apply E.
Qed.

Lemma parseArray_shift (pos : nat) :
  parseArray (pre ++ s) pv' (List.length pre + pos)
  = behind (List.length pre) (parseArray s pv pos).
Proof.
  unfold parseArray. cbv zeta. shifted.
  split_if; [reflexivity|]. apply parseArray_loop_shift.
Qed.

End ShiftContainers.

Lemma parseValue_shift (g : jsstring -> bool) (pre s : jsstring) (f pos : nat) :
  parseValue g (pre ++ s) f (List.length pre + pos)
  = behind (List.length pre) (parseValue g s f pos).
Proof.
  revert pos. induction f as [|f IH]; intros pos; [reflexivity|].
  cbn [parseValue]. cbv zeta. shifted.
  repeat (split_if; try reflexivity).
  - apply parseObject_shift. exact IH.
  - apply parseArray_shift. exact IH.
  - apply shift_bind; [apply parseString_shift|]. reflexivity.
  - apply parseTrue_shift.
  - apply parseFalse_shift.
  - apply parseNull_shift.
  - apply parseNumber_shift.
Qed.

(** ** Whitespace around a text, and a text inside another *)

Lemma blank_nth (ws : jsstring) (i : nat) :
  blank ws -> i < List.length ws -> isWhitespace (nth_error ws i) = true.
Proof.
  intros H Hi. destruct (nth_error ws i) as [c|] eqn:E.
  - apply nth_error_In in E. unfold blank in H. rewrite Forall_forall in H. auto.
  - apply nth_error_None in E. lia.
Qed.

Lemma isWhitespace_numberStop (c : option Z) : isWhitespace c = true -> numberStop c = true.
Proof.
  destruct c as [c|]; [|discriminate]. unfold isWhitespace, numberStop, isDigit, charIs.
  intros H. repeat (apply orb_true_iff in H; destruct H as [H|H]);
    apply Z.eqb_eq in H; subst c; reflexivity.
Qed.

Lemma blank_numberStop (ws : jsstring) : blank ws -> numberStop (nth_error ws 0) = true.
Proof.
  intros H. destruct ws as [|c ws]; [reflexivity|].
  apply isWhitespace_numberStop. apply (blank_nth (c :: ws) 0 H). cbn. lia.
Qed.

Section ParseResults.

Variable g : jsstring -> bool.
Variable s : jsstring.

Lemma parse_Ok_inv (v : JSONValue) :
  parse g s = Ok v ->
  exists p,
    parseValue g s (S (List.length s)) 0 = Ok (v, p)
    /\ p <= List.length s /\ skipWhitespace s p = List.length s.
Proof.
  rewrite parse_unfold.
  pose proof (parseValue_within g s (S (List.length s)) 0 (Nat.le_0_l _)) as W.
  destruct (parseValue g s (S (List.length s)) 0) as [[v' p]|e|]; cbn [bind within] in *;
    try discriminate.
  cbv zeta. pose proof (skipWhitespace_le s p (proj2 W)).
  split_if; [discriminate|]. intros [= ->]. exists p. bool_facts.
  repeat split; [lia|lia].
Qed.

Lemma parse_Ok_intro (v : JSONValue) (p : nat) :
  parseValue g s (S (List.length s)) 0 = Ok (v, p) ->
  skipWhitespace s p = List.length s ->
  parse g s = Ok v.
Proof.
  intros H E. rewrite parse_unfold, H. cbn [bind]. cbv zeta. rewrite E, Nat.ltb_irrefl.
  reflexivity.
Qed.

End ParseResults.

Section Around.

Variable g : jsstring -> bool.

Lemma app_agree (s post : jsstring) : agree s (s ++ post) (List.length s).
Proof. intros i Hi. unfold charAt. apply nth_error_app1. exact Hi. Qed.

Lemma app_charAt (s post : jsstring) (k : nat) :
  charAt (s ++ post) (List.length s + k) = nth_error post k.
Proof. unfold charAt. rewrite nth_error_app2 by lia. f_equal. lia. Qed.

Lemma app_soft (s post : jsstring) (p : nat) :
  p <= List.length s -> numberStop (nth_error post 0) = true -> soft s (s ++ post) p.
Proof.
  intros Hp Hstop. split; [apply (agree_le s (s ++ post) (List.length s)); auto using app_agree|].
  destruct (Nat.eq_dec p (List.length s)) as [->|Hne].
  - right. rewrite <- (Nat.add_0_r (List.length s)), app_charAt. exact Hstop.
  - left. apply app_agree. lia.
Qed.

Lemma skipWhitespace_lead (lead s : jsstring) :
  blank lead ->
  skipWhitespace (lead ++ s) 0 = List.length lead + skipWhitespace s 0.
Proof.
  intros Hb. apply skipWhitespace_unique; [lia| |].
  - intros i Hi. destruct (lt_dec i (List.length lead)) as [Hlt|Hge].
    + unfold charAt. rewrite nth_error_app1 by assumption.
      rewrite (blank_nth lead i Hb Hlt), length_app.
      rewrite (proj2 (Nat.ltb_lt _ _)) by lia. reflexivity.
    + replace i with (List.length lead + (i - List.length lead)) by lia.
      rewrite shift_ltb, shift_charAt.
      assert (B : isWhitespace (charAt s (i - List.length lead)) = true)
        by (apply (skipWhitespace_between s 0); lia).
      rewrite B. apply isWhitespace_lt in B. apply Nat.ltb_lt in B. rewrite B. reflexivity.
  - rewrite shift_ltb, shift_charAt. apply skipWhitespace_stop.
Qed.

(** The rest of a text after its value is whitespace; so it is when other
    whitespace follows, and up to the first character that is not
    whitespace where other characters follow. *)
Lemma skipWhitespace_tail (s post : jsstring) (p : nat) :
  p <= List.length s ->
  skipWhitespace s p = List.length s ->
  isWhitespace (nth_error post 0) = false ->
  skipWhitespace (s ++ post) p = List.length s.
Proof.
  intros Hp E Hstop. apply skipWhitespace_unique; [lia| |].
  - intros i Hi. rewrite length_app. unfold charAt. rewrite nth_error_app1 by lia.
    assert (B : isWhitespace (charAt s i) = true)
      by (apply (skipWhitespace_between s p); lia).
    unfold charAt in B. rewrite B. rewrite (proj2 (Nat.ltb_lt _ _)) by lia. reflexivity.
  - rewrite <- (Nat.add_0_r (List.length s)) at 2. rewrite app_charAt, Hstop.
    apply andb_false_r.
Qed.

Lemma skipWhitespace_trail (s trail : jsstring) (p : nat) :
  p <= List.length s ->
  skipWhitespace s p = List.length s ->
  blank trail ->
  skipWhitespace (s ++ trail) p = List.length (s ++ trail).
Proof.
  intros Hp E Hb. apply skipWhitespace_unique; [rewrite length_app; lia| |].
  - intros i Hi. rewrite (proj2 (Nat.ltb_lt _ _)) by lia. cbn [andb].
    destruct (lt_dec i (List.length s)) as [Hlt|Hge].
    + unfold charAt. rewrite nth_error_app1 by lia.
      apply (skipWhitespace_between s p). lia.
    + replace i with (List.length s + (i - List.length s)) by lia.
      rewrite app_charAt. apply blank_nth; [assumption|]. rewrite length_app in Hi. lia.
  - rewrite Nat.ltb_irrefl. reflexivity.
Qed.

(** The value of a text is the value that [parseValue] finds where the
    text stands in a longer one, if what follows cannot continue a
    number. *)
Lemma parseValue_embedded (pre t post : jsstring) (f : nat) (v : JSONValue) (p : nat) :
  parseValue g t (S (List.length t)) 0 = Ok (v, p) ->
  numberStop (nth_error post 0) = true ->
  List.length t < f ->
  parseValue g (pre ++ t ++ post) f (List.length pre) = Ok (v, List.length pre + p).
Proof.
  intros H Hstop Hf.
  pose proof (parseValue_within g t (S (List.length t)) 0 (Nat.le_0_l _)) as W.
  rewrite H in W. cbn [within] in W.
  rewrite <- (Nat.add_0_r (List.length pre)) at 1. rewrite parseValue_shift.
  pose proof (parseValue_transfers g g t (t ++ post) (fun _ E => E)
                (S (List.length t)) f 0 p (Nat.le_0_l _)) as T.
  rewrite H in T. cbn [transfers] in T.
  rewrite T; [reflexivity|lia| |lia].
  apply app_soft; [lia|assumption].
Qed.

(** Whitespace before a text moves the positions of the errors and changes
    nothing else. *)
Lemma parse_lead (lead s : jsstring) :
  blank lead ->
  parse g (lead ++ s)
  = match parse g s with
    | Throw e => throw (message e) (List.length lead + position e)
    | r => r
    end.
Proof.
  intros Hb. rewrite !parse_unfold.
  rewrite <- (parseValue_skip g (lead ++ s) _ 0), (skipWhitespace_lead lead s Hb).
  rewrite parseValue_shift, parseValue_skip.
  rewrite (parseValue_enough g s (S (List.length (lead ++ s))) 0)
    by (rewrite ?length_app; lia).
  destruct (parseValue g s (S (List.length s)) 0) as [[v p]|e|]; cbn [bind behind throw];
    try reflexivity.
  cbv zeta. shifted. split_if; reflexivity.
Qed.

Lemma parse_trail (s trail : jsstring) (v : JSONValue) :
  blank trail -> parse g s = Ok v -> parse g (s ++ trail) = Ok v.
Proof.
  intros Hb H. apply parse_Ok_inv in H. destruct H as (p & H & Hp & E).
  apply (parse_Ok_intro g (s ++ trail) v p); [|apply skipWhitespace_trail; assumption].
  pose proof (parseValue_transfers g g s (s ++ trail) (fun _ E => E)
                (S (List.length s)) (S (List.length (s ++ trail))) 0 p (Nat.le_0_l _)) as T.
  rewrite H in T. cbn [transfers] in T.
  apply T; [rewrite length_app; lia| |lia].
  apply app_soft; [lia|]. apply blank_numberStop. assumption.
Qed.

End Around.

(** ** The value and the character it starts with *)

Lemma parseObject_loop_object (s : jsstring) (pv : nat -> Result (JSONValue * nat))
      (fuel : nat) (obj : JSObject) (first : bool) (pos : nat) (v : JSONValue) (p : nat) :
  parseObject_loop s pv fuel obj first pos = Ok (v, p) -> exists o, v = objectValue o.
Proof.
  revert obj first pos. induction fuel as [|fuel IH]; intros obj first pos; [discriminate|].
  assert (E : forall x,
            parseObject_entry s pv
              (fun key value pos => parseObject_loop s pv fuel (obj_set obj key value) false pos)
              x = Ok (v, p) -> exists o, v = objectValue o).
  { intros x. unfold parseObject_entry. cbv zeta.
    split_if; [discriminate|].
    destruct (parseString s (skipWhitespace s x)) as [[key p1]|e|]; cbn [bind];
      try discriminate.
    split_if; [discriminate|].
    destruct (pv (S (skipWhitespace s p1))) as [[value p3]|e|]; cbn [bind];
      try discriminate.
    apply IH. }
  cbn [parseObject_loop]. cbv zeta.
  split_if; [|discriminate].
  destruct first; [apply E|].
  split_if; [discriminate|].
  split_if; [intros [= <- <-]; eauto|].
  split_if; [discriminate|]. apply E.
Qed.

Lemma parseValue_madeBy (g : jsstring -> bool) (s : jsstring) (f pos : nat)
      (v : JSONValue) (p : nat) :
  parseValue g s (S f) pos = Ok (v, p) ->
  madeBy g s f (skipWhitespace s pos) v p.
Proof.
  cbn [parseValue]. cbv zeta.
  split_if; [discriminate|].
  split_if.
  { intros H. assert (Ho : exists o, v = objectValue o).
    { revert H. unfold parseObject. cbv zeta.
      split_if; [intros [= <- <-]; eauto|]. apply parseObject_loop_object. }
    destruct Ho as [[pr ps] ->]. split; assumption. }
  split_if.
  { intros H. assert (Ha : exists items, v = JArray items).
    { revert H. unfold parseArray. cbv zeta.
      split_if; [intros [= <- <-]; eauto|]. apply parseArray_loop_array. }
    destruct Ha as [items ->]. split; assumption. }
  split_if.
  { destruct (parseString s (skipWhitespace s pos)) as [[k p1]|e|] eqn:E; cbn [bind];
      try discriminate.
    intros [= <- <-]. split; assumption. }
  split_if.
  { unfold parseTrue. split_if; [|discriminate]. intros [= <- <-].
    repeat split; [assumption|]. apply jsstring_eqb_eq. assumption. }
  split_if.
  { unfold parseFalse. split_if; [|discriminate]. intros [= <- <-].
    repeat split; [assumption|]. apply jsstring_eqb_eq. assumption. }
  split_if.
  { unfold parseNull. split_if; [|discriminate]. intros [= <- <-].
    repeat split; [assumption|]. apply jsstring_eqb_eq. assumption. }
  split_if; [|discriminate].
  intros H. destruct (parseNumber_number g s _ _ _ H) as [n ->]. split; assumption.
Qed.

Lemma madeBy_startsValue (g : jsstring -> bool) (s : jsstring) (f q : nat)
      (v : JSONValue) (p : nat) :
  madeBy g s f q v p -> startsValue (charAt s q) = true.
Proof.
  unfold startsValue.
  destruct v as [|[|]| | | |]; cbn [madeBy]; intros H; destruct H as [H _];
    rewrite ?H, ?orb_true_r; try reflexivity.
  apply orb_true_iff in H. destruct H as [H|H]; rewrite H, ?orb_true_r; reflexivity.
Qed.

Lemma startsValue_facts (c : option Z) :
  startsValue c = true ->
  isWhitespace c = false /\ charIs c RBRACKET = false /\ charIs c RBRACE = false
  /\ charIs c COMMA = false /\ charIs c COLON = false.
Proof.
  destruct c as [c|]; [|discriminate].
  unfold startsValue, isWhitespace, isDigit, charIs.
  intros H.
  repeat (apply orb_true_iff in H; destruct H as [H|H]);
    try (apply Z.eqb_eq in H; subst c; repeat split; reflexivity).
  apply andb_true_iff in H. destruct H as [H1 H2].
  apply Z.leb_le in H1, H2. unfold ZERO, NINE in *.
  repeat split; rewrite ?orb_false_iff; repeat split; apply Z.eqb_neq;
    unfold SPACE, TAB, NEWLINE, RETURN, RBRACKET, RBRACE, COMMA, COLON; lia.
Qed.

(** ** String literals, item by item *)

Section StringItems.

Lemma slice_app (pre body post : jsstring) :
  slice (pre ++ body ++ post) (List.length pre) (List.length pre + List.length body) = body.
Proof.
  unfold slice. rewrite skipn_app, skipn_all, Nat.sub_diag. cbn [skipn app].
  replace (List.length pre + List.length body - List.length pre) with (List.length body) by lia.
  rewrite firstn_app, Nat.sub_diag, firstn_all. cbn [firstn]. apply app_nil_r.
Qed.

(** The loop of [parseString] before the items: it appends what they stand
    for, one pass for each, and goes on behind them. *)
Lemma parseString_loop_through (items : list StringItem) :
  forallb itemOk items = true ->
  forall (W pre tail : jsstring) (fuel : nat) (result : jsstring),
    W = pre ++ itemsText items ++ tail ->
    parseString_loop W (List.length items + fuel) result (List.length pre)
    = parseString_loop W fuel (result ++ itemsValue items)
                       (List.length pre + List.length (itemsText items)).
Proof.
  induction items as [|i items IH]; intros Hok W pre tail fuel result EW.
  - cbn [itemsText itemsValue flat_map List.length app Nat.add] in *.
    rewrite app_nil_r, Nat.add_0_r. reflexivity.
  - cbn [forallb] in Hok. apply andb_true_iff in Hok. destruct Hok as [Hi Hok].
    cbn [List.length Nat.add].
    assert (EW1 : W = (pre ++ itemText i) ++ itemsText items ++ tail).
    { rewrite EW. unfold itemsText. cbn [flat_map]. rewrite <- !app_assoc. reflexivity. }
    assert (EW0 : W = pre ++ itemText i ++ (itemsText items ++ tail)).
    { rewrite EW1. rewrite <- !app_assoc. reflexivity. }
    assert (LW : List.length pre + List.length (itemText i) <= List.length W).
    { rewrite EW1. repeat (rewrite ?length_app; cbn [List.length]). lia. }
    assert (C : forall k, charAt W (List.length pre + k)
                          = nth_error (itemText i ++ itemsText items ++ tail) k).
    { intros k. rewrite EW0. apply app_charAt. }
    specialize (IH Hok W (pre ++ itemText i) tail fuel).
    rewrite length_app in IH.
    replace (itemsValue (i :: items)) with (itemValue i ++ itemsValue items) by reflexivity.
    replace (List.length (itemsText (i :: items)))
      with (List.length (itemText i) + List.length (itemsText items))
      by (unfold itemsText; cbn [flat_map]; rewrite length_app; reflexivity).
    rewrite app_assoc.
    destruct i as [c|e|h]; cbn [itemOk itemText itemValue List.length app] in *.
    + pose proof (C 0) as C0. rewrite Nat.add_0_r in C0. cbn [nth_error app] in C0.
      rewrite (parseString_loop_plain W _ result _ c C0 Hi).
      replace (S (List.length pre)) with (List.length pre + 1) by lia.
      rewrite (IH (result ++ [c]) EW1). f_equal. lia.
    + pose proof (C 0) as C0. rewrite Nat.add_0_r in C0.
      pose proof (C 1) as C1. rewrite Nat.add_1_r in C1. cbn [nth_error app] in C0, C1.
      destruct (simpleEscape (Some e)) as [c|] eqn:Es; [|discriminate].
      cbn [parseString_loop]. cbv zeta.
      rewrite (proj2 (Nat.ltb_lt _ _)) by lia. rewrite C0. decide_tests.
      rewrite (proj2 (Nat.leb_gt _ _)) by lia. rewrite C1, Es.
      replace (S (S (List.length pre))) with (List.length pre + 2) by lia.
      rewrite (IH (result ++ [c]) EW1). f_equal. lia.
    + pose proof (C 0) as C0. rewrite Nat.add_0_r in C0.
      pose proof (C 1) as C1. rewrite Nat.add_1_r in C1. cbn [nth_error app] in C0, C1.
      assert (Lh : List.length h = 4).
      { unfold isHex4 in Hi. apply andb_true_iff in Hi. destruct Hi as [Hi _].
        apply Nat.eqb_eq in Hi. exact Hi. }
      assert (Sl : slice W (S (List.length pre) + 1) (S (List.length pre) + 5) = h).
      { assert (EWh : W = (pre ++ [BACKSLASH; chr "u"]) ++ h ++ (itemsText items ++ tail)).
        { rewrite EW0. rewrite <- !app_assoc. reflexivity. }
        rewrite EWh.
        replace (S (List.length pre) + 1) with (List.length (pre ++ [BACKSLASH; chr "u"]))
          by (rewrite length_app; cbn [List.length]; lia).
        replace (S (List.length pre) + 5)
          with (List.length (pre ++ [BACKSLASH; chr "u"]) + List.length h)
          by (rewrite length_app, Lh; cbn [List.length]; lia).
        apply slice_app. }
      assert (LW' : List.length pre + 6 <= List.length W).
      { rewrite EW1. repeat (rewrite ?length_app; cbn [List.length]). lia. }
      cbn [parseString_loop]. cbv zeta.
      rewrite (proj2 (Nat.ltb_lt _ _)) by lia. rewrite C0. decide_tests.
      rewrite (proj2 (Nat.leb_gt _ _)) by lia. rewrite C1. decide_tests.
      rewrite (proj2 (Nat.leb_gt _ _)) by lia. rewrite Sl, Hi. cbn [negb].
      replace (S (S (List.length pre) + 4)) with (List.length pre + S (S (List.length h)))
        by lia.
      rewrite (IH (result ++ fromCharCode (parseInt16 h)) EW1).
      f_equal. lia.
Qed.

(** The loop of [parseString] before the items and the closing quote. *)
Lemma parseString_loop_items (items : list StringItem) :
  forallb itemOk items = true ->
  forall (W pre rest : jsstring) (fuel : nat) (result : jsstring),
    W = pre ++ itemsText items ++ QUOTE :: rest ->
    List.length items < fuel ->
    parseString_loop W fuel result (List.length pre)
    = Ok (result ++ itemsValue items, S (List.length pre + List.length (itemsText items))).
Proof.
  intros Hok W pre rest fuel result EW Hfuel.
  replace fuel with (List.length items + S (fuel - S (List.length items))) by lia.
  rewrite (parseString_loop_through items Hok W pre (QUOTE :: rest) _ result EW).
  apply parseString_loop_quote.
  rewrite EW, app_assoc.
  replace (List.length pre + List.length (itemsText items))
    with (List.length (pre ++ itemsText items) + 0) by (rewrite length_app; lia).
  rewrite app_charAt. reflexivity.
Qed.

End StringItems.

Section StringItemsBack.

Variable s : jsstring.

Lemma slice_one (a : nat) (c : Z) : charAt s a = Some c -> slice s a (S a) = [c].
Proof.
  unfold slice, charAt. replace (S a - a) with 1 by lia.
  revert a. induction s as [|x l IH]; intros [|a] H; cbn in *; try discriminate.
  - injection H as ->. reflexivity.
  - apply IH. exact H.
Qed.

Lemma slice_split (a m b : nat) : a <= m <= b -> slice s a b = slice s a m ++ slice s m b.
Proof.
  intros H. unfold slice.
  replace (b - a) with ((m - a) + (b - m)) by lia.
  replace (skipn m s) with (skipn (m - a) (skipn a s))
    by (rewrite skipn_skipn; f_equal; lia).
  generalize (skipn a s) as l. generalize (m - a) as x. generalize (b - m) as y.
  intros y x. induction x as [|x IH]; intros l; [reflexivity|].
  destruct l as [|c l]; cbn [Nat.add firstn skipn app].
  - rewrite firstn_nil. reflexivity.
  - rewrite IH. reflexivity.
Qed.

Lemma slice_cons (a b : nat) (c : Z) :
  charAt s a = Some c -> a < b -> slice s a b = c :: slice s (S a) b.
Proof.
  intros C H. rewrite (slice_split a (S a) b) by lia. rewrite (slice_one a c C). reflexivity.
Qed.

Lemma parseString_loop_items_inv (fuel : nat) (result : jsstring) (pos : nat)
      (r : jsstring) (p : nat) :
  parseString_loop s fuel result pos = Ok (r, p) ->
  exists items,
    forallb itemOk items = true
    /\ r = result ++ itemsValue items
    /\ p = S (pos + List.length (itemsText items))
    /\ slice s pos p = itemsText items ++ [QUOTE].
Proof.
  revert result pos. induction fuel as [|fuel IH]; intros result pos H; [discriminate|].
  cbn [parseString_loop] in H. cbv zeta in H.
  destruct (pos <? List.length s) eqn:L; [|discriminate].
  apply Nat.ltb_lt in L.
  destruct (charAt_lt_Some s pos L) as [c C]. rewrite C in H.
  destruct (charIs (Some c) QUOTE) eqn:Q.
  { injection H as <- <-. exists []. cbn. rewrite app_nil_r, Nat.add_0_r.
    repeat split. unfold charIs in Q. apply Z.eqb_eq in Q. subst c. apply slice_one. exact C. }
  destruct (charIs (Some c) BACKSLASH) eqn:B.
  - assert (Ec : c = BACKSLASH) by (unfold charIs in B; apply Z.eqb_eq in B; exact B).
    subst c.
    destruct (List.length s <=? S pos) eqn:L1; [discriminate|]. apply Nat.leb_gt in L1.
    destruct (charAt_lt_Some s (S pos) L1) as [e Ce]. rewrite Ce in H.
    destruct (simpleEscape (Some e)) as [c|] eqn:Es.
    + destruct (IH _ _ H) as (items & Hok & Hr & Hp & Hs).
      exists (Escape e :: items). cbn [forallb itemOk]. rewrite Es, Hok.
      unfold itemsText, itemsValue in *. cbn [flat_map itemText itemValue].
      rewrite Es. repeat split.
      * rewrite Hr, <- app_assoc. reflexivity.
      * rewrite Hp. cbn [List.length app]. lia.
      * rewrite (slice_cons pos p BACKSLASH C) by lia.
        rewrite (slice_cons (S pos) p e Ce) by lia. rewrite Hs. reflexivity.
    + destruct (charIs (Some e) (chr "u")) eqn:U; [|discriminate].
      assert (Ee : e = chr "u") by (unfold charIs in U; apply Z.eqb_eq in U; exact U).
      subst e.
      destruct (List.length s <=? S pos + 4) eqn:L4; [discriminate|]. apply Nat.leb_gt in L4.
      destruct (negb (isHex4 (slice s (S pos + 1) (S pos + 5)))) eqn:Hx; [discriminate|].
      apply negb_false_iff in Hx.
      destruct (IH _ _ H) as (items & Hok & Hr & Hp & Hs).
      assert (Lh : List.length (slice s (S pos + 1) (S pos + 5)) = 4).
      { unfold isHex4 in Hx. apply andb_true_iff in Hx. destruct Hx as [Hx _].
        apply Nat.eqb_eq in Hx. exact Hx. }
      exists (Unicode (slice s (S pos + 1) (S pos + 5)) :: items).
      cbn [forallb itemOk]. rewrite Hx, Hok.
      unfold itemsText, itemsValue in *. cbn [flat_map itemText itemValue].
      repeat split.
      * rewrite Hr, <- app_assoc. reflexivity.
      * rewrite Hp. cbn [app List.length]. rewrite !length_app, Lh. lia.
      * rewrite (slice_cons pos p BACKSLASH C) by lia.
        rewrite (slice_cons (S pos) p (chr "u") Ce) by lia.
        rewrite (slice_split (S (S pos)) (S pos + 5) p) by lia.
        replace (S (S pos)) with (S pos + 1) by lia.
        replace (S (S pos + 4)) with (S pos + 5) in Hs by lia.
        rewrite Hs. cbn [app]. rewrite <- app_assoc. reflexivity.
  - destruct (charLt (Some c) SPACE && negb (charIs (Some c) TAB)) eqn:Ctl; [discriminate|].
    destruct (IH _ _ H) as (items & Hok & Hr & Hp & Hs).
    exists (Plain c :: items). cbn [forallb itemOk].
    assert (Pc : plainChar c = true).
    { unfold plainChar. unfold charIs, charLt in *. rewrite Q, B. cbn [negb andb].
      apply andb_false_iff in Ctl. destruct Ctl as [Ctl|Ctl].
      - rewrite Ctl. reflexivity.
      - apply negb_false_iff in Ctl. rewrite Ctl. apply orb_true_r. }
    rewrite Pc, Hok.
    unfold itemsText, itemsValue in *. cbn [flat_map itemText itemValue strOf] in *.
    repeat split.
    + rewrite Hr, <- app_assoc. reflexivity.
    + rewrite Hp. cbn [List.length app]. lia.
    + rewrite (slice_cons pos p c C) by lia. rewrite Hs. reflexivity.
Qed.

Lemma itemsText_length (items : list StringItem) :
  List.length items <= List.length (itemsText items).
Proof.
  induction items as [|i items IH]; [cbn; lia|].
  unfold itemsText in *. cbn [flat_map]. rewrite length_app.
  destruct i; cbn [itemText List.length]; lia.
Qed.

Lemma slice_whole (a b : nat) (x : jsstring) :
  slice s a b = x -> List.length x = b - a -> a < b ->
  s = firstn a s ++ x ++ skipn b s /\ b <= List.length s.
Proof.
  intros H Lx Hab. pose proof (slice_length s a b) as Ls. rewrite H, Lx in Ls.
  assert (Hb : b <= List.length s) by lia.
  split; [|exact Hb]. rewrite <- H. unfold slice.
  rewrite <- (firstn_skipn a s) at 1. f_equal.
  rewrite <- (firstn_skipn (b - a) (skipn a s)) at 1. f_equal.
  rewrite skipn_skipn. f_equal. lia.
Qed.

End StringItemsBack.

Lemma parseString_items (s : jsstring) (pos : nat) (r : jsstring) (p : nat) :
  parseString s pos = Ok (r, p)
  <-> exists items,
        forallb itemOk items = true
        /\ r = itemsValue items
        /\ p = S (S pos + List.length (itemsText items))
        /\ slice s (S pos) p = itemsText items ++ [QUOTE].
Proof.
  split.
  - unfold parseString. intros H. apply parseString_loop_items_inv in H.
    destruct H as (items & Hok & Hr & Hp & Hs). exists items. auto.
  - intros (items & Hok & Hr & Hp & Hs).
    destruct (slice_whole s (S pos) p (itemsText items ++ [QUOTE]) Hs) as [Es Lp].
    { rewrite length_app. cbn [List.length]. lia. }
    { lia. }
    assert (Lpre : List.length (firstn (S pos) s) = S pos) by (rewrite length_firstn; lia).
    unfold parseString. rewrite <- Lpre at 1.
    rewrite (parseString_loop_items items Hok s (firstn (S pos) s) (skipn p s)).
    + rewrite Lpre, Hr, Hp. reflexivity.
    + rewrite Es at 1. rewrite <- app_assoc. reflexivity.
    + pose proof (itemsText_length items). lia.
Qed.

(** ** Number literals, part by part *)

Lemma parseNumber_steps (g : jsstring -> bool) (s : jsstring) (pos : nat) :
  parseNumber g s pos
  = ' p1 <- signStep s pos ;;
    ' p2 <- integerStep s p1 ;;
    ' p3 <- fractionStep s p2 ;;
    ' p4 <- exponentStep s p3 ;;
    if negb (g (slice s pos p4)) then throw (NumberOverflow (slice s pos p4)) pos
    else Ok (JNumber (slice s pos p4), p4).
Proof. reflexivity. Qed.

Section NumberStepsOn.

Lemma digits_nth (ds : jsstring) (i : nat) :
  digits ds = true -> i < List.length ds -> isDigit (nth_error ds i) = true.
Proof.
  intros H Hi. destruct (nth_error ds i) as [c|] eqn:E.
  - apply nth_error_In in E. unfold digits in H. rewrite forallb_forall in H. auto.
  - apply nth_error_None in E. lia.
Qed.

Lemma skipDigits_digits (done ds post : jsstring) :
  digits ds = true -> isDigit (nth_error post 0) = false ->
  skipDigits (done ++ ds ++ post) (List.length done) = List.length done + List.length ds.
Proof.
  intros Hd Hstop.
  rewrite <- (Nat.add_0_r (List.length done)) at 1. rewrite shift_skipDigits. f_equal.
  apply skipDigits_unique; [lia| |].
  - intros i Hi. rewrite length_app. unfold charAt. rewrite nth_error_app1 by lia.
    rewrite (digits_nth ds i Hd) by lia. rewrite (proj2 (Nat.ltb_lt _ _)) by lia. reflexivity.
  - rewrite <- (Nat.add_0_r (List.length ds)) at 2. rewrite app_charAt, Hstop.
    apply andb_false_r.
Qed.

Lemma isDigit_not (c k : Z) : isDigit (Some c) = true -> isDigit (Some k) = false ->
  charIs (Some c) k = false.
Proof.
  intros H1 H2. unfold charIs. apply Z.eqb_neq. intros ->. congruence.
Qed.

Variables done post : jsstring.

Lemma signStep_minus (ds : jsstring) :
  isDigit (nth_error (ds ++ post) 0) = true ->
  signStep (done ++ [MINUS] ++ ds ++ post) (List.length done) = Ok (List.length done + 1).
Proof.
  intros Hd. unfold signStep. cbv zeta.
  assert (C0 : charAt (done ++ [MINUS] ++ ds ++ post) (List.length done) = Some MINUS).
  { rewrite <- (Nat.add_0_r (List.length done)), app_charAt. reflexivity. }
  assert (C1 : charAt (done ++ [MINUS] ++ ds ++ post) (S (List.length done))
               = nth_error (ds ++ post) 0).
  { rewrite <- Nat.add_1_r, app_charAt. reflexivity. }
  rewrite C0. decide_tests. rewrite C1, Hd.
  rewrite leb_length_charAt, C1.
  destruct (nth_error (ds ++ post) 0); [|discriminate].
  cbn [orb negb]. f_equal. lia.
Qed.

Lemma signStep_none (ds : jsstring) :
  isDigit (nth_error (ds ++ post) 0) = true ->
  signStep (done ++ [] ++ ds ++ post) (List.length done) = Ok (List.length done + 0).
Proof.
  intros Hd. unfold signStep. cbv zeta. cbn [app].
  rewrite <- (Nat.add_0_r (List.length done)) at 1. rewrite app_charAt.
  destruct (nth_error (ds ++ post) 0) as [c|]; [|discriminate].
  rewrite (isDigit_not c MINUS Hd eq_refl). rewrite Nat.add_0_r. reflexivity.
Qed.

Lemma integerStep_digits (ds : jsstring) :
  integerOk ds = true -> isDigit (nth_error post 0) = false ->
  integerStep (done ++ ds ++ post) (List.length done)
  = Ok (List.length done + List.length ds).
Proof.
  intros Hok Hstop. unfold integerStep. cbv zeta.
  assert (C : forall k, charAt (done ++ ds ++ post) (List.length done + k)
                        = nth_error (ds ++ post) k) by (intros; apply app_charAt).
  pose proof (C 0) as C0. rewrite Nat.add_0_r in C0.
  pose proof (C 1) as C1. rewrite Nat.add_1_r in C1.
  destruct ds as [|c [|c2 ds]]; cbn [integerOk] in Hok; [discriminate| |].
  - cbn [app nth_error List.length] in *. rewrite C0.
    destruct (charIs (Some c) ZERO) eqn:Z0.
    + rewrite C1, Hstop, andb_false_r. f_equal. lia.
    + rewrite Hok. change (done ++ c :: post) with (done ++ [c] ++ post).
      rewrite (skipDigits_digits done [c] post); [reflexivity| |assumption].
      cbn. rewrite Hok. reflexivity.
  - apply andb_true_iff in Hok. destruct Hok as [Hnz Hd].
    cbn [app nth_error] in C0 |- *. rewrite C0.
    unfold charIs. apply negb_true_iff in Hnz. rewrite Hnz.
    pose proof (digits_nth (c :: c2 :: ds) 0 Hd ltac:(cbn; lia)) as D0.
    cbn [nth_error] in D0. rewrite D0.
    change (done ++ c :: c2 :: ds ++ post) with (done ++ (c :: c2 :: ds) ++ post).
    rewrite (skipDigits_digits done (c :: c2 :: ds) post Hd Hstop). reflexivity.
Qed.

Lemma fractionStep_some (ds : jsstring) :
  fractionOk (Some ds) = true -> isDigit (nth_error post 0) = false ->
  fractionStep (done ++ fractionText (Some ds) ++ post) (List.length done)
  = Ok (List.length done + List.length (fractionText (Some ds))).
Proof.
  intros Hok Hstop. unfold fractionStep. cbv zeta. cbn [fractionText fractionOk] in *.
  apply andb_true_iff in Hok. destruct Hok as [Hne Hd].
  apply negb_true_iff, Nat.eqb_neq in Hne.
  set (W := done ++ (DOT :: ds) ++ post).
  assert (E1 : W = (done ++ [DOT]) ++ ds ++ post).
  { unfold W. rewrite <- app_assoc. reflexivity. }
  assert (C0 : charAt W (List.length done) = Some DOT).
  { unfold W. rewrite <- (Nat.add_0_r (List.length done)), app_charAt. reflexivity. }
  assert (C1 : charAt W (S (List.length done)) = nth_error (ds ++ post) 0).
  { unfold W. rewrite <- Nat.add_1_r, app_charAt. reflexivity. }
  assert (D1 : isDigit (nth_error (ds ++ post) 0) = true).
  { rewrite nth_error_app1 by lia. apply digits_nth; [assumption|lia]. }
  rewrite ltb_length_charAt, leb_length_charAt, C0, C1. decide_tests. cbn [andb].
  rewrite D1. destruct (nth_error (ds ++ post) 0); [|discriminate]. cbn [orb negb].
  rewrite E1.
  replace (S (List.length done)) with (List.length (done ++ [DOT]))
    by (rewrite length_app; cbn [List.length]; lia).
  rewrite (skipDigits_digits (done ++ [DOT]) ds post Hd Hstop).
  rewrite length_app. cbn [List.length]. f_equal. lia.
Qed.

Lemma fractionStep_none :
  charIs (nth_error post 0) DOT = false ->
  fractionStep (done ++ fractionText None ++ post) (List.length done)
  = Ok (List.length done + List.length (fractionText None)).
Proof.
  intros Hd. unfold fractionStep. cbv zeta. cbn [fractionText app List.length].
  assert (C0 : charAt (done ++ post) (List.length done) = nth_error post 0).
  { rewrite <- (Nat.add_0_r (List.length done)). apply app_charAt. }
  rewrite C0, Hd, andb_false_r, Nat.add_0_r. reflexivity.
Qed.

Lemma exponentStep_some (letter : Z) (sign : option Z) (ds : jsstring) :
  exponentOk (Some (letter, sign, ds)) = true -> isDigit (nth_error post 0) = false ->
  exponentStep (done ++ exponentText (Some (letter, sign, ds)) ++ post) (List.length done)
  = Ok (List.length done + List.length (exponentText (Some (letter, sign, ds)))).
Proof.
  intros Hok Hstop. unfold exponentStep. cbv zeta. cbn [exponentText exponentOk] in *.
  apply andb_true_iff in Hok. destruct Hok as [Hok Hd].
  apply andb_true_iff in Hok. destruct Hok as [Hok Hne].
  apply andb_true_iff in Hok. destruct Hok as [Le Sg].
  apply negb_true_iff, Nat.eqb_neq in Hne.
  assert (D0 : isDigit (nth_error (ds ++ post) 0) = true).
  { rewrite nth_error_app1 by lia. apply digits_nth; [assumption|lia]. }
  assert (Le' : charIs (Some letter) (chr "e") || charIs (Some letter) (chr "E") = true)
    by exact Le.
  destruct sign as [c|]; cbn [app].
  - set (W := done ++ letter :: c :: ds ++ post).
    assert (E1 : W = (done ++ [letter; c]) ++ ds ++ post).
    { unfold W. rewrite <- app_assoc. reflexivity. }
    assert (C0 : charAt W (List.length done) = Some letter).
    { unfold W. rewrite <- (Nat.add_0_r (List.length done)), app_charAt. reflexivity. }
    assert (C1 : charAt W (S (List.length done)) = Some c).
    { unfold W. rewrite <- Nat.add_1_r, app_charAt. reflexivity. }
    assert (C2 : charAt W (S (S (List.length done))) = nth_error (ds ++ post) 0).
    { unfold W. replace (S (S (List.length done))) with (List.length done + 2) by lia.
      rewrite app_charAt. reflexivity. }
    assert (Sg' : charIs (Some c) PLUS || charIs (Some c) MINUS = true) by exact Sg.
    rewrite ltb_length_charAt, C0, Le'. cbn [andb].
    rewrite ltb_length_charAt, C1, Sg'. cbn [andb].
    rewrite leb_length_charAt, C2, D0.
    destruct (nth_error (ds ++ post) 0); [|discriminate]. cbn [orb negb].
    rewrite E1.
    replace (S (S (List.length done))) with (List.length (done ++ [letter; c]))
      by (rewrite length_app; cbn [List.length]; lia).
    rewrite (skipDigits_digits (done ++ [letter; c]) ds post) by assumption.
    rewrite length_app. cbn [List.length]. f_equal. lia.
  - set (W := done ++ letter :: ds ++ post).
    assert (E1 : W = (done ++ [letter]) ++ ds ++ post).
    { unfold W. rewrite <- app_assoc. reflexivity. }
    assert (C0 : charAt W (List.length done) = Some letter).
    { unfold W. rewrite <- (Nat.add_0_r (List.length done)), app_charAt. reflexivity. }
    assert (C1 : charAt W (S (List.length done)) = nth_error (ds ++ post) 0).
    { unfold W. rewrite <- Nat.add_1_r, app_charAt. reflexivity. }
    rewrite ltb_length_charAt, C0, Le'. cbn [andb].
    rewrite ltb_length_charAt, C1.
    destruct (nth_error (ds ++ post) 0) as [d|] eqn:Dd; [|discriminate].
    rewrite (isDigit_not d PLUS D0 eq_refl), (isDigit_not d MINUS D0 eq_refl). cbn [orb andb].
    rewrite leb_length_charAt, C1, D0. cbn [orb negb].
    rewrite E1.
    replace (S (List.length done)) with (List.length (done ++ [letter]))
      by (rewrite length_app; cbn [List.length]; lia).
    rewrite (skipDigits_digits (done ++ [letter]) ds post) by assumption.
    rewrite length_app. cbn [List.length]. f_equal. lia.
Qed.

Lemma exponentStep_none :
  charIs (nth_error post 0) (chr "e") = false ->
  charIs (nth_error post 0) (chr "E") = false ->
  exponentStep (done ++ exponentText None ++ post) (List.length done)
  = Ok (List.length done + List.length (exponentText None)).
Proof.
  intros H1 H2. unfold exponentStep. cbv zeta. cbn [exponentText app List.length].
  assert (C0 : charAt (done ++ post) (List.length done) = nth_error post 0).
  { rewrite <- (Nat.add_0_r (List.length done)). apply app_charAt. }
  rewrite C0, H1, H2, andb_false_r, Nat.add_0_r. reflexivity.
Qed.

End NumberStepsOn.

Lemma integerOk_head (ds post : jsstring) :
  integerOk ds = true -> isDigit (nth_error (ds ++ post) 0) = true.
Proof.
  destruct ds as [|c [|c2 ds]]; cbn [integerOk]; intros H; [discriminate|exact H|].
  apply andb_true_iff in H. destruct H as [_ H].
  apply (digits_nth (c :: c2 :: ds) 0 H). cbn. lia.
Qed.

Lemma exponentText_head (ex : option (Z * option Z * jsstring)) (rest : jsstring) :
  exponentOk ex = true -> numberStop (nth_error rest 0) = true ->
  isDigit (nth_error (exponentText ex ++ rest) 0) = false
  /\ charIs (nth_error (exponentText ex ++ rest) 0) DOT = false.
Proof.
  intros Hok Hstop. destruct ex as [[[letter sign] ds]|]; cbn [exponentText app nth_error].
  - cbn [exponentOk] in Hok. repeat (apply andb_true_iff in Hok; destruct Hok as [Hok _]).
    apply orb_true_iff in Hok. destruct Hok as [H|H]; apply Z.eqb_eq in H; subst letter;
      split; reflexivity.
  - apply numberStop_facts in Hstop. destruct Hstop as (H1 & H2 & _). split; assumption.
Qed.

Lemma fractionText_head (fr : option jsstring) (post : jsstring) :
  isDigit (nth_error post 0) = false ->
  isDigit (nth_error (fractionText fr ++ post) 0) = false.
Proof.
  intros H. destruct fr as [ds|]; [reflexivity|exact H].
Qed.

Section NumberStepsBack.

Variable s : jsstring.

Lemma slice_forall (P : option Z -> bool) (a b : nat) :
  (forall i, a <= i < b -> P (charAt s i) = true) ->
  b <= List.length s ->
  forallb (fun c => P (Some c)) (slice s a b) = true /\ List.length (slice s a b) = b - a.
Proof.
  intros H Hb. split; [|rewrite slice_length; lia].
  remember (b - a) as n eqn:En. revert a En H.
  induction n as [|n IH]; intros a En H.
  - unfold slice. rewrite <- En. reflexivity.
  - destruct (charAt_lt_Some s a ltac:(lia)) as [c C].
    rewrite (slice_cons s a b c C) by lia. cbn [forallb].
    rewrite <- C, H by lia. cbn [andb]. apply IH; [lia|]. intros i Hi. apply H. lia.
Qed.

Lemma digits_run (a : nat) :
  a <= List.length s ->
  digits (slice s a (skipDigits s a)) = true
  /\ List.length (slice s a (skipDigits s a)) = skipDigits s a - a.
Proof.
  intros Ha. apply (slice_forall isDigit).
  - intros i Hi. apply (skipDigits_between s a i Hi).
  - apply skipDigits_le. exact Ha.
Qed.

Lemma signStep_inv (pos p1 : nat) :
  signStep s pos = Ok p1 ->
  exists neg, slice s pos p1 = signText neg /\ pos <= p1 <= S pos
              /\ (neg = true -> p1 <= List.length s).
Proof.
  unfold signStep. cbv zeta.
  destruct (charIs (charAt s pos) MINUS) eqn:M.
  - split_if; [discriminate|]. intros [= <-]. bool_facts. exists true.
    destruct (charAt s pos) as [c|] eqn:C; [|discriminate].
    unfold charIs in M. apply Z.eqb_eq in M. subst c.
    rewrite (slice_one s pos MINUS C). repeat split; lia.
  - intros [= <-]. exists false. unfold slice. rewrite Nat.sub_diag.
    repeat split; try lia; discriminate.
Qed.

Lemma integerStep_inv (pos p2 : nat) :
  integerStep s pos = Ok p2 ->
  integerOk (slice s pos p2) = true /\ pos < p2 <= List.length s.
Proof.
  unfold integerStep. cbv zeta.
  destruct (charIs (charAt s pos) ZERO) eqn:Z0.
  - split_if; [discriminate|]. intros [= <-].
    destruct (charAt s pos) as [c|] eqn:C; [|discriminate].
    pose proof (charAt_Some_lt s pos c C).
    unfold charIs in Z0. apply Z.eqb_eq in Z0. subst c.
    rewrite (slice_one s pos ZERO C). split; [reflexivity|lia].
  - destruct (isDigit (charAt s pos)) eqn:D; [|discriminate]. intros [= <-].
    pose proof (isDigit_lt s pos D) as L.
    pose proof (skipDigits_gt s pos D) as G.
    destruct (digits_run pos ltac:(lia)) as [Hd Hl].
    pose proof (skipDigits_le s pos ltac:(lia)) as Le.
    split; [|lia].
    destruct (charAt s pos) as [c|] eqn:C; [|discriminate].
    rewrite (slice_cons s pos _ c C G) in *.
    unfold integerOk. destruct (slice s (S pos) (skipDigits s pos)) as [|c2 l] eqn:Sl.
    + exact D.
    + rewrite Hd. unfold charIs in Z0. rewrite Z0. reflexivity.
Qed.

Lemma fractionStep_inv (pos p3 : nat) :
  pos <= List.length s ->
  fractionStep s pos = Ok p3 ->
  exists fr, slice s pos p3 = fractionText fr /\ fractionOk fr = true
             /\ pos <= p3 <= List.length s.
Proof.
  intros Hpos. unfold fractionStep. cbv zeta.
  destruct ((pos <? List.length s) && charIs (charAt s pos) DOT) eqn:T.
  - split_if; [discriminate|]. intros [= <-]. bool_facts.
    match goal with H : isDigit _ = true |- _ => rename H into D end.
    pose proof (skipDigits_gt s (S pos) D) as G.
    destruct (digits_run (S pos) ltac:(lia)) as [Hd Hl].
    pose proof (skipDigits_le s (S pos) ltac:(lia)) as Le.
    destruct (charAt s pos) as [c|] eqn:C; [|discriminate].
    match goal with H : charIs (Some c) DOT = true |- _ =>
      unfold charIs in H; apply Z.eqb_eq in H; subst c end.
    exists (Some (slice s (S pos) (skipDigits s (S pos)))).
    rewrite (slice_cons s pos _ DOT C) by lia. cbn [fractionText fractionOk].
    repeat split; try lia. rewrite Hd, Hl.
    rewrite (proj2 (Nat.eqb_neq _ 0)) by lia. reflexivity.
  - intros [= <-]. exists None. unfold slice. rewrite Nat.sub_diag. repeat split; lia.
Qed.

Lemma exponentStep_inv (pos p4 : nat) :
  pos <= List.length s ->
  exponentStep s pos = Ok p4 ->
  exists ex, slice s pos p4 = exponentText ex /\ exponentOk ex = true
             /\ pos <= p4 <= List.length s.
Proof.
  intros Hpos. unfold exponentStep. cbv zeta.
  destruct ((pos <? List.length s)
            && (charIs (charAt s pos) (chr "e") || charIs (charAt s pos) (chr "E"))) eqn:T.
  - apply andb_true_iff in T. destruct T as [L Le]. apply Nat.ltb_lt in L.
    destruct (charAt s pos) as [letter|] eqn:C; [|discriminate].
    destruct ((S pos <? List.length s)
              && (charIs (charAt s (S pos)) PLUS || charIs (charAt s (S pos)) MINUS)) eqn:Sg.
    + apply andb_true_iff in Sg. destruct Sg as [L1 Sg]. apply Nat.ltb_lt in L1.
      destruct (charAt s (S pos)) as [c|] eqn:C1; [|discriminate].
      split_if; [discriminate|]. intros [= <-]. bool_facts.
      match goal with H : isDigit _ = true |- _ => rename H into D end.
      pose proof (skipDigits_gt s (S (S pos)) D) as G.
      destruct (digits_run (S (S pos)) ltac:(lia)) as [Hd Hl].
      pose proof (skipDigits_le s (S (S pos)) ltac:(lia)) as Le'.
      exists (Some (letter, Some c, slice s (S (S pos)) (skipDigits s (S (S pos))))).
      rewrite (slice_cons s pos _ letter C) by lia.
      rewrite (slice_cons s (S pos) _ c C1) by lia.
      cbn [exponentText exponentOk app]. repeat split; try lia.
      rewrite Hd, Hl. rewrite (proj2 (Nat.eqb_neq _ 0)) by lia.
      unfold charIs in Le, Sg. rewrite Le, Sg. reflexivity.
    + split_if; [discriminate|]. intros [= <-]. bool_facts.
      match goal with H : isDigit _ = true |- _ => rename H into D end.
      pose proof (skipDigits_gt s (S pos) D) as G.
      destruct (digits_run (S pos) ltac:(lia)) as [Hd Hl].
      pose proof (skipDigits_le s (S pos) ltac:(lia)) as Le'.
      exists (Some (letter, None, slice s (S pos) (skipDigits s (S pos)))).
      rewrite (slice_cons s pos _ letter C) by lia.
      cbn [exponentText exponentOk app]. repeat split; try lia.
      rewrite Hd, Hl. rewrite (proj2 (Nat.eqb_neq _ 0)) by lia.
      unfold charIs in Le. rewrite Le. reflexivity.
  - intros [= <-]. exists None. unfold slice. rewrite Nat.sub_diag. repeat split; lia.
Qed.

(** What [parseNumber] returns is a text made of parts that are well
    formed. *)
Lemma parseNumber_parts_inv (g : jsstring -> bool) (pos : nat) (v : JSONValue) (p : nat) :
  parseNumber g s pos = Ok (v, p) ->
  exists n,
    partsOk n = true /\ slice s pos p = numberText n /\ v = JNumber (numberText n)
    /\ g (numberText n) = true /\ pos < p <= List.length s.
Proof.
  rewrite parseNumber_steps.
  destruct (signStep s pos) as [p1|e|] eqn:S1; cbn [bind]; try discriminate.
  destruct (integerStep s p1) as [p2|e|] eqn:S2; cbn [bind]; try discriminate.
  destruct (fractionStep s p2) as [p3|e|] eqn:S3; cbn [bind]; try discriminate.
  destruct (exponentStep s p3) as [p4|e|] eqn:S4; cbn [bind]; try discriminate.
  destruct (g (slice s pos p4)) eqn:G; cbn [negb]; [|discriminate].
  intros [= <- <-].
  apply signStep_inv in S1. destruct S1 as (neg & T1 & B1 & _).
  apply integerStep_inv in S2. destruct S2 as (I2 & B2).
  apply fractionStep_inv in S3; [|lia]. destruct S3 as (fr & T3 & F3 & B3).
  apply exponentStep_inv in S4; [|lia]. destruct S4 as (ex & T4 & X4 & B4).
  exists (mkNumberParts neg (slice s p1 p2) fr ex).
  assert (Es : slice s pos p4
               = numberText (mkNumberParts neg (slice s p1 p2) fr ex)).
  { unfold numberText. cbn [negative integer fraction exponent].
    rewrite (slice_split s pos p1 p4) by lia. rewrite T1.
    rewrite (slice_split s p1 p2 p4) by lia.
    rewrite (slice_split s p2 p3 p4) by lia. rewrite T3, T4. reflexivity. }
  rewrite <- Es. repeat split; try assumption; try lia.
  unfold partsOk. cbn [integer fraction exponent]. rewrite I2, F3, X4. reflexivity.
Qed.

End NumberStepsBack.

(** ** The character a value ends with *)

Section ValueEnd.

Variable s : jsstring.
Variable pv : nat -> Result (JSONValue * nat).

Lemma parseObject_loop_end (fuel : nat) (obj : JSObject) (first : bool) (pos : nat)
      (v : JSONValue) (p : nat) :
  parseObject_loop s pv fuel obj first pos = Ok (v, p) ->
  exists k, p = S k /\ charIs (charAt s k) RBRACE = true.
Proof.
  revert obj first pos. induction fuel as [|fuel IH]; intros obj first pos; [discriminate|].
  assert (E : forall x,
            parseObject_entry s pv
              (fun key value pos => parseObject_loop s pv fuel (obj_set obj key value) false pos)
              x = Ok (v, p) -> exists k, p = S k /\ charIs (charAt s k) RBRACE = true).
  { intros x. unfold parseObject_entry. cbv zeta.
    split_if; [discriminate|].
    destruct (parseString s (skipWhitespace s x)) as [[key p1]|e|]; cbn [bind];
      try discriminate.
    split_if; [discriminate|].
    destruct (pv (S (skipWhitespace s p1))) as [[value p3]|e|]; cbn [bind];
      try discriminate.
    apply IH. }
  cbn [parseObject_loop]. cbv zeta.
  split_if; [|discriminate].
  destruct first; [apply E|].
  split_if; [discriminate|].
  split_if; [intros [= <- <-]; eauto|].
  split_if; [discriminate|]. apply E.
Qed.

Lemma parseObject_end (pos : nat) (v : JSONValue) (p : nat) :
  parseObject s pv pos = Ok (v, p) ->
  exists k, p = S k /\ charIs (charAt s k) RBRACE = true.
Proof.
  unfold parseObject. cbv zeta. split_if.
  - intros [= <- <-]. bool_facts. eauto.
  - apply parseObject_loop_end.
Qed.

Lemma parseArray_loop_end (fuel : nat) (arr : list JSONValue) (first : bool) (pos : nat)
      (v : JSONValue) (p : nat) :
  parseArray_loop s pv fuel arr first pos = Ok (v, p) ->
  exists k, p = S k /\ charIs (charAt s k) RBRACKET = true.
Proof.
  revert arr first pos. induction fuel as [|fuel IH]; intros arr first pos; [discriminate|].
  assert (E : forall x,
            parseArray_element pv
              (fun arr pos => parseArray_loop s pv fuel arr false pos) arr x = Ok (v, p)
            -> exists k, p = S k /\ charIs (charAt s k) RBRACKET = true).
  { intros x. unfold parseArray_element.
    destruct (pv x) as [[value p3]|e|]; cbn [bind]; try discriminate.
    apply IH. }
  cbn [parseArray_loop]. cbv zeta.
  split_if; [|discriminate].
  destruct first; [apply E|].
  split_if; [discriminate|].
  split_if; [intros [= <- <-]; eauto|].
  split_if; [discriminate|]. apply E.
Qed.

Lemma parseArray_end (pos : nat) (v : JSONValue) (p : nat) :
  parseArray s pv pos = Ok (v, p) ->
  exists k, p = S k /\ charIs (charAt s k) RBRACKET = true.
Proof.
  unfold parseArray. cbv zeta. split_if.
  - intros [= <- <-]. bool_facts. eauto.
  - apply parseArray_loop_end.
Qed.

End ValueEnd.

Lemma slice_last (s : jsstring) (a b : nat) (front : jsstring) (c : Z) :
  slice s a b = front ++ [c] -> a < b -> b <= List.length s ->
  exists k, b = S k /\ charAt s k = Some c.
Proof.
  intros H Hab Hb.
  pose proof (slice_length s a b) as L. rewrite H, length_app in L. cbn [List.length] in L.
  pose proof (charAt_slice s a b (List.length front)) as C.
  rewrite H, nth_error_app2, Nat.sub_diag in C by lia. cbn [nth_error] in C.
  rewrite (proj2 (Nat.ltb_lt _ _)) in C by lia.
  exists (a + List.length front). split; [lia|]. symmetry. exact C.
Qed.

Lemma digits_last (ds : jsstring) :
  digits ds = true -> ds <> [] ->
  forall pre, exists front d, pre ++ ds = front ++ [d] /\ isDigit (Some d) = true.
Proof.
  intros Hd Hn pre. destruct (exists_last Hn) as (front & d & ->).
  unfold digits in Hd. rewrite forallb_app in Hd. cbn [forallb] in Hd.
  apply andb_true_iff in Hd. destruct Hd as [_ Hd]. rewrite andb_true_r in Hd.
  exists (pre ++ front), d. rewrite app_assoc. split; [reflexivity|exact Hd].
Qed.

Lemma numberText_last (n : NumberParts) :
  partsOk n = true ->
  exists front d, numberText n = front ++ [d] /\ isDigit (Some d) = true.
Proof.
  destruct n as [sg int fr ex]. unfold partsOk, numberText. cbn [negative integer fraction exponent].
  intros H. apply andb_true_iff in H. destruct H as [H He].
  apply andb_true_iff in H. destruct H as [Hi Hf].
  assert (Di : digits int = true /\ int <> []).
  { destruct int as [|c [|c' l]]; cbn [integerOk] in Hi; [discriminate| |].
    - split; [|discriminate]. unfold digits. cbn [forallb]. rewrite Hi. reflexivity.
    - apply andb_true_iff in Hi. split; [apply Hi|discriminate]. }
  destruct ex as [[[letter sign] ds]|].
  - cbn [exponentOk] in He. repeat (apply andb_true_iff in He; destruct He as [He ?]).
    assert (ds <> []) by (destruct ds; [discriminate|discriminate]).
    cbn [exponentText].
    destruct (digits_last ds ltac:(assumption) ltac:(assumption)
                (signText sg ++ int ++ fractionText fr
                   ++ letter :: match sign with Some c => [c] | None => [] end))
      as (front & d & E & D).
    exists front, d. split; [|exact D]. rewrite <- E.
    rewrite <- !app_assoc. cbn [app]. reflexivity.
  - cbn [exponentText]. rewrite app_nil_r.
    destruct fr as [ds|].
    + cbn [fractionOk] in Hf. apply andb_true_iff in Hf. destruct Hf as [Hl Hd].
      assert (ds <> []) by (destruct ds; [discriminate|discriminate]).
      cbn [fractionText].
      destruct (digits_last ds Hd ltac:(assumption) (signText sg ++ int ++ [DOT]))
        as (front & d & E & D).
      exists front, d. split; [|exact D]. rewrite <- E.
      rewrite <- !app_assoc. reflexivity.
    + cbn [fractionText]. rewrite app_nil_r.
      destruct Di as [Dd Dn].
      destruct (digits_last int Dd Dn (signText sg)) as (front & d & E & D).
      exists front, d. split; [exact E|exact D].
Qed.

Lemma madeBy_endOf (g : jsstring -> bool) (s : jsstring) (f q : nat)
      (v : JSONValue) (p : nat) :
  madeBy g s f q v p -> exists k, p = S k /\ endOf v (charAt s k) = true.
Proof.
  destruct v as [|b| | | |]; cbn [madeBy endOf].
  - intros (C & S4 & ->). exists (q + 3). split; [lia|].
    pose proof (charAt_slice s q (q + 4) 3) as N. rewrite S4 in N.
    rewrite (proj2 (Nat.ltb_lt _ _)) in N by lia. rewrite <- N. reflexivity.
  - destruct b.
    + intros (C & S4 & ->). exists (q + 3). split; [lia|].
      pose proof (charAt_slice s q (q + 4) 3) as N. rewrite S4 in N.
      rewrite (proj2 (Nat.ltb_lt _ _)) in N by lia. rewrite <- N. reflexivity.
    + intros (C & S4 & ->). exists (q + 4). split; [lia|].
      pose proof (charAt_slice s q (q + 5) 4) as N. rewrite S4 in N.
      rewrite (proj2 (Nat.ltb_lt _ _)) in N by lia. rewrite <- N. reflexivity.
  - intros (C & H). apply parseNumber_parts_inv in H.
    destruct H as (n & Hok & Hs & _ & _ & Hp).
    destruct (numberText_last n Hok) as (front & d & E & D). rewrite E in Hs.
    destruct (slice_last s q p front d Hs) as (k & -> & Ck); [lia|lia|].
    exists k. rewrite Ck. split; [reflexivity|exact D].
  - intros (C & H). apply parseString_items in H.
    destruct H as (items & _ & _ & Hp & Hs).
    pose proof (slice_length s (S q) p) as L. rewrite Hs, length_app in L.
    cbn [List.length] in L.
    destruct (slice_last s (S q) p (itemsText items) QUOTE Hs) as (k & -> & Ck); [lia|lia|].
    exists k. rewrite Ck. split; reflexivity.
  - intros (C & H). apply parseArray_end in H. exact H.
  - intros (C & H). apply parseObject_end in H. exact H.
Qed.

(** The text of a value taken alone ends with the character of its kind. *)
Lemma parseValue_endOf (g : jsstring -> bool) (s : jsstring) (f pos : nat)
      (v : JSONValue) (p : nat) :
  parseValue g s f pos = Ok (v, p) -> exists k, p = S k /\ endOf v (charAt s k) = true.
Proof.
  destruct f as [|f]; [discriminate|].
  intros H. apply parseValue_madeBy in H. apply madeBy_endOf in H. exact H.
Qed.

Lemma endOf_isWhitespace (v : JSONValue) (c : option Z) :
  endOf v c = true -> isWhitespace c = false.
Proof.
  destruct c as [c|]; [|reflexivity].
  unfold isWhitespace, isDigit, charIs.
  destruct v; cbn [endOf]; unfold isDigit, charIs; intros H;
    try (apply Z.eqb_eq in H; subst c; reflexivity).
  apply andb_true_iff in H. destruct H as [H1 H2].
  apply Z.leb_le in H1, H2. unfold ZERO, NINE in *.
  rewrite !orb_false_iff; repeat split; apply Z.eqb_neq;
    unfold SPACE, TAB, NEWLINE, RETURN; lia.
Qed.

Lemma parseValue_solid (g : jsstring -> bool) (s : jsstring) (f pos : nat)
      (v : JSONValue) (p : nat) :
  parseValue g s f pos = Ok (v, p) -> solid s p.
Proof.
  intros H. destruct (parseValue_endOf g s f pos v p H) as (k & -> & E).
  exists k. split; [reflexivity|]. apply (endOf_isWhitespace v). exact E.
Qed.

(** ** Arrays, element by element *)

Section ValueInContext.

Variable g : jsstring -> bool.

(** A text that has a value, where it stands between [pre] and [post]:
    [parseValue] returns the value, and the whitespace behind it leads to
    [post]. *)
Lemma valued_in_context (pre t post : jsstring) (v : JSONValue) (f : nat) :
  valued g t v ->
  numberStop (nth_error post 0) = true ->
  isWhitespace (nth_error post 0) = false ->
  List.length t < f ->
  exists p,
    parseValue g (pre ++ t ++ post) f (List.length pre) = Ok (v, List.length pre + p)
    /\ p <= List.length t
    /\ 0 < p
    /\ skipWhitespace (pre ++ t ++ post) (List.length pre + p)
       = List.length pre + List.length t
    /\ startsValue (charAt (pre ++ t ++ post) (skipWhitespace (pre ++ t ++ post) (List.length pre)))
       = true
    /\ solid (pre ++ t ++ post) (List.length pre + p).
Proof.
  intros H Hstop Hws Hf. apply parse_Ok_inv in H. destruct H as (p & H & Hp & E).
  exists p.
  assert (Hemb : parseValue g (pre ++ t ++ post) f (List.length pre)
                 = Ok (v, List.length pre + p))
    by (apply parseValue_embedded; assumption).
  pose proof (parseValue_solid g _ _ _ _ _ Hemb) as Sol.
  pose proof (parseValue_madeBy g t _ 0 v p H) as M.
  apply madeBy_startsValue in M.
  pose proof (parseValue_beyond g t (S (List.length t)) 0 (Nat.le_0_l _)) as B.
  rewrite H in B. cbn [beyond] in B.
  assert (Q : skipWhitespace t 0 < List.length t).
  { destruct (charAt t (skipWhitespace t 0)) as [c|] eqn:C; [|discriminate].
    apply (charAt_Some_lt t _ c C). }
  repeat split; try assumption.
  - rewrite shift_skipWhitespace. f_equal. apply skipWhitespace_tail; assumption.
  - rewrite <- (Nat.add_0_r (List.length pre)).
    rewrite shift_skipWhitespace, shift_charAt.
    rewrite (agree_skipWhitespace t (t ++ post) (List.length t) 0 (app_agree t post) Q).
    rewrite (app_agree t post _ Q). exact M.
Qed.

End ValueInContext.

Section ArrayElements.

Variable g : jsstring -> bool.

Lemma moreElements_head (ts : list jsstring) (tail : jsstring) :
  numberStop (nth_error tail 0) = true ->
  isWhitespace (nth_error tail 0) = false ->
  numberStop (nth_error (moreElements ts ++ tail) 0) = true
  /\ isWhitespace (nth_error (moreElements ts ++ tail) 0) = false.
Proof.
  intros H1 H2. destruct ts as [|t ts]; [split; assumption|]. split; reflexivity.
Qed.

(** The loop of [parseArray] behind an element, before the texts [ts] of
    further elements: it appends their values, and goes on as it does behind
    the last of them. *)
Lemma parseArray_loop_elements (ts : list jsstring) (vs : list JSONValue) :
  Forall2 (valued g) ts vs ->
  forall (W pre tail : jsstring) (R : list JSONValue -> Result (JSONValue * nat)) (df E : nat),
    W = pre ++ moreElements ts ++ tail ->
    E = List.length pre + List.length (moreElements ts) ->
    numberStop (nth_error tail 0) = true ->
    isWhitespace (nth_error tail 0) = false ->
    List.length W <= df ->
    (forall fuel' arr' pos',
        pos' <= E -> skipWhitespace W pos' = E -> List.length W < fuel' + pos' ->
        solid W pos' ->
        parseArray_loop W (parseValue g W df) fuel' arr' false pos' = R arr') ->
    forall fuel arr pos0,
      pos0 <= List.length pre -> skipWhitespace W pos0 = List.length pre ->
      List.length W < fuel + pos0 ->
      solid W pos0 ->
      parseArray_loop W (parseValue g W df) fuel arr false pos0 = R (arr ++ vs).
Proof.
  induction 1 as [|t v ts vs Htv Hrest IH];
    intros W pre tail R df E EW EE Hstop Hws Hdf Hend fuel arr pos0 Hpos0 Hskip Hfuel Hsol.
  - rewrite app_nil_r.
    apply Hend; [cbn in EE; lia| cbn in EE; rewrite Hskip; lia | assumption | assumption].
  - assert (EW1 : W = (pre ++ [COMMA]) ++ t ++ (moreElements ts ++ tail)).
    { rewrite EW. cbn [moreElements flat_map app]. rewrite <- !app_assoc. reflexivity. }
    assert (EW2 : W = ((pre ++ [COMMA]) ++ t) ++ moreElements ts ++ tail).
    { rewrite EW1. rewrite <- !app_assoc. reflexivity. }
    assert (LW : List.length W
                 = List.length pre + 1 + List.length t + List.length (moreElements ts ++ tail)).
    { rewrite EW1. rewrite !length_app. cbn [List.length]. lia. }
    assert (EE' : E = List.length ((pre ++ [COMMA]) ++ t) + List.length (moreElements ts)).
    { rewrite EE. unfold moreElements. cbn [flat_map app].
      repeat (rewrite ?length_app; cbn [List.length app]). lia. }
    destruct (moreElements_head ts tail Hstop Hws) as [Hs' Hw'].
    destruct (valued_in_context g (pre ++ [COMMA]) t (moreElements ts ++ tail) v df
                Htv Hs' Hw' ltac:(lia)) as (p & Hv & Hp & Hp0 & Hsk & _ & Sol).
    rewrite <- EW1 in Hv, Hsk, Sol.
    assert (Lc : List.length (pre ++ [COMMA]) = S (List.length pre))
      by (rewrite length_app; cbn; lia).
    rewrite Lc in Hv, Hsk, Sol.
    assert (C : charAt W (List.length pre) = Some COMMA).
    { rewrite EW. rewrite <- (Nat.add_0_r (List.length pre)), app_charAt. reflexivity. }
    destruct fuel as [|fuel]; [lia|].
    cbn [parseArray_loop]. cbv zeta. unfold parseArray_element.
    rewrite (proj2 (Nat.ltb_lt pos0 _)) by lia.
    rewrite Hskip, (proj2 (Nat.leb_gt _ _)) by lia.
    rewrite C. decide_tests. cbn [negb].
    rewrite Hv. cbn [bind].
    rewrite (IH W ((pre ++ [COMMA]) ++ t) tail R df E EW2 EE' Hstop Hws Hdf Hend).
    + rewrite <- app_assoc. reflexivity.
    + rewrite length_app, Lc. lia.
    + rewrite length_app, Lc. lia.
    + lia.
    + exact Sol.
Qed.

(** [parseArray] on the text of a first element and further ones. *)
Lemma parseArray_elements (t : jsstring) (v : JSONValue) (ts : list jsstring)
      (vs : list JSONValue) (W tail : jsstring)
      (R : list JSONValue -> Result (JSONValue * nat)) (df E : nat) :
  valued g t v -> Forall2 (valued g) ts vs ->
  W = LBRACKET :: t ++ moreElements ts ++ tail ->
  E = 1 + List.length t + List.length (moreElements ts) ->
  numberStop (nth_error tail 0) = true ->
  isWhitespace (nth_error tail 0) = false ->
  List.length W <= df ->
  (forall fuel' arr' pos',
      pos' <= E -> skipWhitespace W pos' = E -> List.length W < fuel' + pos' ->
      solid W pos' ->
      parseArray_loop W (parseValue g W df) fuel' arr' false pos' = R arr') ->
  parseArray W (parseValue g W df) 0 = R (v :: vs).
Proof.
  intros Htv Hrest EW EE Hstop Hws Hdf Hend.
  assert (EW1 : W = [LBRACKET] ++ t ++ (moreElements ts ++ tail)) by exact EW.
  assert (EW2 : W = ([LBRACKET] ++ t) ++ moreElements ts ++ tail).
  { rewrite EW1. rewrite <- !app_assoc. reflexivity. }
  assert (LW : List.length W = 1 + List.length t + List.length (moreElements ts ++ tail)).
  { rewrite EW1. rewrite !length_app. cbn [List.length]. lia. }
  destruct (moreElements_head ts tail Hstop Hws) as [Hs' Hw'].
  destruct (valued_in_context g [LBRACKET] t (moreElements ts ++ tail) v df
              Htv Hs' Hw' ltac:(lia)) as (p & Hv & Hp & Hp0 & Hsk & Hstart & Sol).
  rewrite <- EW1 in Hv, Hsk, Hstart, Sol. cbn [List.length] in Hv, Hsk, Hstart, Sol.
  apply startsValue_facts in Hstart. destruct Hstart as (Sw & Sb & _).
  pose proof (skipWhitespace_ge W 1) as G1.
  assert (L1 : skipWhitespace W 1 < List.length W).
  { destruct (charAt W (skipWhitespace W 1)) as [c|] eqn:C.
    - apply (charAt_Some_lt W _ c C).
    - pose proof (skipWhitespace_le W 1 ltac:(lia)) as Le.
      pose proof (parseValue_within g W df 1 ltac:(lia)) as Wv.
      rewrite Hv in Wv. cbn [within] in Wv.
      pose proof (parseValue_beyond g W df 1 ltac:(lia)) as Bv.
      rewrite Hv in Bv. cbn [beyond] in Bv.
      destruct df as [|df']; [lia|].
      rewrite <- parseValue_skip in Hv. cbn [parseValue] in Hv.
      rewrite skipWhitespace_idem in Hv.
      destruct (List.length W <=? skipWhitespace W 1) eqn:K; [discriminate|].
      apply Nat.leb_gt in K. exact K. }
  assert (B1 : skipWhitespace W 1 < 1 + p).
  { pose proof (parseValue_beyond g W df (skipWhitespace W 1) ltac:(lia)) as Bv.
    rewrite parseValue_skip, Hv in Bv. exact Bv. }
  unfold parseArray. cbv zeta.
  rewrite Sb, andb_false_r.
  remember (S (List.length W - skipWhitespace W 1)) as fuel1 eqn:Ef.
  cbn [parseArray_loop]. cbv zeta. unfold parseArray_element.
  rewrite (proj2 (Nat.ltb_lt _ _) L1).
  rewrite parseValue_skip, Hv. cbn [bind].
  rewrite (parseArray_loop_elements ts vs Hrest W ([LBRACKET] ++ t) tail R df E EW2
             ltac:(rewrite length_app; cbn [List.length]; lia) Hstop Hws Hdf Hend).
  - reflexivity.
  - rewrite length_app. cbn [List.length]. lia.
  - rewrite length_app. cbn [List.length]. lia.
  - lia.
  - exact Sol.
Qed.

End ArrayElements.

Section ArrayTexts.

Variable g : jsstring -> bool.

Lemma parseValue_array_start (W : jsstring) (f : nat) :
  charAt W 0 = Some LBRACKET ->
  parseValue g W (S f) 0 = parseArray W (parseValue g W f) 0.
Proof.
  intros C. cbn [parseValue]. cbv zeta.
  rewrite (skipWhitespace_at W 0 LBRACKET C eq_refl).
  rewrite (proj2 (Nat.leb_gt _ _) (charAt_Some_lt W 0 _ C)), C.
  reflexivity.
Qed.

Lemma skipWhitespace_end (W : jsstring) : skipWhitespace W (List.length W) = List.length W.
Proof. apply skipWhitespace_stay. rewrite Nat.ltb_irrefl. reflexivity. Qed.

End ArrayTexts.

(** ** Objects, entry by entry *)

Section EntryInContext.

Variable g : jsstring -> bool.

(** A key where it stands between [pre] and [post]. *)
Lemma slice_app_l (s post : jsstring) (a b : nat) :
  b <= List.length s -> slice (s ++ post) a b = slice s a b.
Proof.
  intros Hb. unfold slice. rewrite skipn_app, firstn_app.
  replace (b - a - List.length (skipn a s)) with 0 by (rewrite length_skipn; lia).
  cbn [firstn]. apply app_nil_r.
Qed.

Lemma key_in_context (pre kt post : jsstring) (key : jsstring) :
  valued g kt (JString key) ->
  isWhitespace (nth_error post 0) = false ->
  exists q p,
    skipWhitespace (pre ++ kt ++ post) (List.length pre) = List.length pre + q
    /\ charAt (pre ++ kt ++ post) (List.length pre + q) = Some QUOTE
    /\ parseString (pre ++ kt ++ post) (List.length pre + q) = Ok (key, List.length pre + p)
    /\ q < p /\ p <= List.length kt
    /\ skipWhitespace (pre ++ kt ++ post) (List.length pre + p)
       = List.length pre + List.length kt.
Proof.
  intros H Hws. apply parse_Ok_inv in H. destruct H as (p & H & Hp & E).
  pose proof (parseValue_madeBy g kt _ 0 _ p H) as M. cbn [madeBy] in M.
  destruct M as [Mq Ms].
  assert (Q : skipWhitespace kt 0 < List.length kt) by (apply (charIs_lt kt _ _ Mq)).
  pose proof (parseString_within_S kt _ Q) as Wk. rewrite Ms in Wk. cbn [within] in Wk.
  exists (skipWhitespace kt 0), p. repeat split; try lia.
  - rewrite <- (Nat.add_0_r (List.length pre)) at 1. rewrite shift_skipWhitespace.
    f_equal. apply (agree_skipWhitespace kt (kt ++ post) (List.length kt) 0); auto using app_agree.
  - rewrite shift_charAt, (app_agree kt post _ Q).
    destruct (charAt kt (skipWhitespace kt 0)) as [c|]; [|discriminate].
    unfold charIs in Mq. apply Z.eqb_eq in Mq. congruence.
  - rewrite parseString_shift.
    assert (T : parseString (kt ++ post) (skipWhitespace kt 0) = Ok (key, p)).
    { apply parseString_items in Ms. destruct Ms as (items & Hok & Hr & Hp' & Hsl).
      apply parseString_items. exists items. repeat split; try assumption.
      rewrite slice_app_l by lia. exact Hsl. }
    rewrite T. reflexivity.
  - rewrite shift_skipWhitespace. f_equal. apply skipWhitespace_tail; assumption.
Qed.

(** An entry where it stands between [pre] and [post]: the loop goes on
    with its key and value, behind the value. *)
Lemma entry_in_context (pre post : jsstring) (e : jsstring * jsstring)
      (kv : jsstring * JSONValue) (W : jsstring) (df : nat) (R : Type)
      (again : jsstring -> JSONValue -> nat -> Result (R * nat)) :
  entryValued g e kv ->
  W = pre ++ entryText e ++ post ->
  numberStop (nth_error post 0) = true ->
  isWhitespace (nth_error post 0) = false ->
  List.length W <= df ->
  exists p3,
    parseObject_entry W (parseValue g W df) again (List.length pre)
    = again (fst kv) (snd kv) p3
    /\ List.length pre + List.length (fst e) < p3 <= List.length pre + List.length (entryText e)
    /\ skipWhitespace W p3 = List.length pre + List.length (entryText e)
    /\ solid W p3.
Proof.
  intros [Hk Hv] EW Hstop Hws Hdf. destruct e as [kt t]. destruct kv as [key v].
  cbn [fst snd] in *. unfold entryText in *. cbn [fst snd] in *.
  assert (EW1 : W = pre ++ kt ++ (COLON :: t ++ post)).
  { rewrite EW. rewrite <- !app_assoc. reflexivity. }
  assert (EW2 : W = (pre ++ kt ++ [COLON]) ++ t ++ post).
  { rewrite EW1. rewrite <- !app_assoc. reflexivity. }
  assert (LW : List.length W
               = List.length pre + List.length kt + 1 + List.length t + List.length post).
  { rewrite EW2. repeat (rewrite ?length_app; cbn [List.length]). lia. }
  destruct (key_in_context pre kt (COLON :: t ++ post) key Hk eq_refl)
    as (q & p & Kq & Kc & Ks & Kqp & Kp & Kt).
  rewrite <- EW1 in Kq, Kc, Ks, Kt.
  destruct (valued_in_context g (pre ++ kt ++ [COLON]) t post v df Hv Hstop Hws ltac:(lia))
    as (p' & Vv & Vp & Vp0 & Vs & _ & Sol).
  rewrite <- EW2 in Vv, Vs, Sol.
  assert (Lc : List.length (pre ++ kt ++ [COLON]) = S (List.length pre + List.length kt))
    by (repeat (rewrite ?length_app; cbn [List.length]); lia).
  rewrite Lc in Vv, Vs, Sol.
  assert (C : charAt W (List.length pre + List.length kt) = Some COLON).
  { rewrite EW1. rewrite app_assoc.
    replace (List.length pre + List.length kt) with (List.length (pre ++ kt) + 0)
      by (rewrite length_app; lia).
    rewrite app_charAt. reflexivity. }
  exists (S (List.length pre + List.length kt) + p').
  split; [|split; [|split; [|exact Sol]]].
  - unfold parseObject_entry. cbv zeta.
    rewrite Kq, Kc.
    rewrite (proj2 (Nat.leb_gt _ _)) by lia. decide_tests. cbn [orb negb].
    rewrite Ks. cbn [bind]. rewrite Kt, C.
    rewrite (proj2 (Nat.leb_gt _ _)) by lia. decide_tests. cbn [orb negb].
    rewrite Vv. cbn [bind]. reflexivity.
  - rewrite length_app. cbn [List.length]. lia.
  - rewrite Vs. rewrite length_app. cbn [List.length]. lia.
Qed.

End EntryInContext.

Section ObjectEntriesTexts.

Variable g : jsstring -> bool.

Lemma moreEntries_head (es : list (jsstring * jsstring)) (tail : jsstring) :
  numberStop (nth_error tail 0) = true ->
  isWhitespace (nth_error tail 0) = false ->
  numberStop (nth_error (moreEntries es ++ tail) 0) = true
  /\ isWhitespace (nth_error (moreEntries es ++ tail) 0) = false.
Proof.
  intros H1 H2. destruct es as [|e es]; [split; assumption|]. split; reflexivity.
Qed.

(** The loop of [parseObject] behind an entry, before the texts [es] of
    further entries: it stores them one after the other, and goes on as it
    does behind the last of them. *)
Lemma parseObject_loop_texts (es : list (jsstring * jsstring))
      (kvs : list (jsstring * JSONValue)) :
  Forall2 (entryValued g) es kvs ->
  forall (W pre tail : jsstring) (R : JSObject -> Result (JSONValue * nat)) (df E : nat),
    W = pre ++ moreEntries es ++ tail ->
    E = List.length pre + List.length (moreEntries es) ->
    numberStop (nth_error tail 0) = true ->
    isWhitespace (nth_error tail 0) = false ->
    List.length W <= df ->
    (forall fuel' obj' pos',
        pos' <= E -> skipWhitespace W pos' = E -> List.length W < fuel' + pos' ->
        solid W pos' ->
        parseObject_loop W (parseValue g W df) fuel' obj' false pos' = R obj') ->
    forall fuel obj pos0,
      pos0 <= List.length pre -> skipWhitespace W pos0 = List.length pre ->
      List.length W < fuel + pos0 ->
      solid W pos0 ->
      parseObject_loop W (parseValue g W df) fuel obj false pos0 = R (storeAll obj kvs).
Proof.
  induction 1 as [|e kv es kvs Hekv Hrest IH];
    intros W pre tail R df E EW EE Hstop Hws Hdf Hend fuel obj pos0 Hpos0 Hskip Hfuel Hsol.
  - apply Hend; [cbn in EE; lia| cbn in EE; rewrite Hskip; lia | assumption | assumption].
  - assert (EW1 : W = (pre ++ [COMMA]) ++ entryText e ++ (moreEntries es ++ tail)).
    { rewrite EW. unfold moreEntries. cbn [flat_map app]. rewrite <- !app_assoc. reflexivity. }
    assert (EW2 : W = ((pre ++ [COMMA]) ++ entryText e) ++ moreEntries es ++ tail).
    { rewrite EW1. rewrite <- !app_assoc. reflexivity. }
    assert (LW : List.length W
                 = List.length pre + 1 + List.length (entryText e)
                   + List.length (moreEntries es ++ tail)).
    { rewrite EW1. rewrite !length_app. cbn [List.length]. lia. }
    assert (EE' : E = List.length ((pre ++ [COMMA]) ++ entryText e)
                      + List.length (moreEntries es)).
    { rewrite EE. unfold moreEntries. cbn [flat_map app].
      repeat (rewrite ?length_app; cbn [List.length app]). lia. }
    destruct (moreEntries_head es tail Hstop Hws) as [Hs' Hw'].
    assert (Lc : List.length (pre ++ [COMMA]) = S (List.length pre))
      by (rewrite length_app; cbn; lia).
    assert (C : charAt W (List.length pre) = Some COMMA).
    { rewrite EW. rewrite <- (Nat.add_0_r (List.length pre)), app_charAt. reflexivity. }
    destruct fuel as [|fuel]; [lia|].
    destruct (entry_in_context g (pre ++ [COMMA]) (moreEntries es ++ tail) e kv W df _
                (fun key value pos =>
                   parseObject_loop W (parseValue g W df) fuel (obj_set obj key value) false pos)
                Hekv EW1 Hs' Hw' Hdf) as (p3 & He & Hp3 & Hs3 & Sol3).
    rewrite Lc in He, Hp3, Hs3.
    cbn [parseObject_loop]. cbv zeta.
    rewrite (proj2 (Nat.ltb_lt pos0 _)) by lia.
    rewrite Hskip, (proj2 (Nat.leb_gt _ _)) by lia.
    rewrite C. decide_tests. cbn [negb].
    rewrite He.
    rewrite (IH W ((pre ++ [COMMA]) ++ entryText e) tail R df E EW2 EE' Hstop Hws Hdf Hend).
    + destruct kv as [key v]. reflexivity.
    + rewrite length_app, Lc. lia.
    + rewrite length_app, Lc. lia.
    + lia.
    + exact Sol3.
Qed.

(** [parseObject] on the text of a first entry and further ones. *)
Lemma parseObject_texts (e : jsstring * jsstring) (kv : jsstring * JSONValue)
      (es : list (jsstring * jsstring)) (kvs : list (jsstring * JSONValue))
      (W tail : jsstring) (R : JSObject -> Result (JSONValue * nat)) (df E : nat) :
  entryValued g e kv -> Forall2 (entryValued g) es kvs ->
  W = LBRACE :: entryText e ++ moreEntries es ++ tail ->
  E = 1 + List.length (entryText e) + List.length (moreEntries es) ->
  numberStop (nth_error tail 0) = true ->
  isWhitespace (nth_error tail 0) = false ->
  List.length W <= df ->
  (forall fuel' obj' pos',
      pos' <= E -> skipWhitespace W pos' = E -> List.length W < fuel' + pos' ->
      solid W pos' ->
      parseObject_loop W (parseValue g W df) fuel' obj' false pos' = R obj') ->
  parseObject W (parseValue g W df) 0 = R (storeAll emptyObject (kv :: kvs)).
Proof.
  intros Hekv Hrest EW EE Hstop Hws Hdf Hend.
  assert (EW1 : W = [LBRACE] ++ entryText e ++ (moreEntries es ++ tail)) by exact EW.
  assert (EW2 : W = ([LBRACE] ++ entryText e) ++ moreEntries es ++ tail).
  { rewrite EW1. rewrite <- !app_assoc. reflexivity. }
  assert (LW : List.length W
               = 1 + List.length (entryText e) + List.length (moreEntries es ++ tail)).
  { rewrite EW1. rewrite !length_app. cbn [List.length]. lia. }
  destruct (moreEntries_head es tail Hstop Hws) as [Hs' Hw'].
  remember (S (List.length W - skipWhitespace W 1)) as fuel1 eqn:Ef.
  destruct (entry_in_context g [LBRACE] (moreEntries es ++ tail) e kv W df _
              (fun key value pos =>
                 parseObject_loop W (parseValue g W df) fuel1 (obj_set emptyObject key value)
                                  false pos)
              Hekv EW1 Hs' Hw' Hdf) as (p3 & He & Hp3 & Hs3 & Sol3).
  cbn [List.length] in He, Hp3, Hs3.
  destruct Hekv as [Hk _]. destruct e as [kt t]. cbn [fst snd] in Hk.
  destruct (key_in_context g [LBRACE] kt (COLON :: t ++ moreEntries es ++ tail) (fst kv)
              Hk eq_refl) as (q & p & Kq & Kc & _ & Kqp & Kp & _).
  assert (EW3 : W = [LBRACE] ++ kt ++ COLON :: t ++ moreEntries es ++ tail).
  { rewrite EW1. unfold entryText. cbn [fst snd]. rewrite <- !app_assoc. reflexivity. }
  rewrite <- EW3 in Kq, Kc. cbn [List.length] in Kq, Kc.
  unfold parseObject. cbv zeta.
  rewrite Kq, Kc. decide_tests. rewrite andb_false_r.
  rewrite <- Kq, <- Ef.
  cbn [parseObject_loop]. cbv zeta.
  assert (L1 : skipWhitespace W 1 < List.length W).
  { rewrite Kq. apply (charAt_Some_lt W _ _ Kc). }
  rewrite (proj2 (Nat.ltb_lt _ _) L1).
  rewrite parseObject_entry_skip, He.
  rewrite (parseObject_loop_texts es kvs Hrest W ([LBRACE] ++ entryText (kt, t)) tail R df E EW2
             ltac:(rewrite length_app; cbn [List.length]; lia) Hstop Hws Hdf Hend).
  - destruct kv as [key v]. reflexivity.
  - rewrite length_app. cbn [List.length]. lia.
  - rewrite length_app. cbn [List.length]. lia.
  - assert (skipWhitespace W 1 <= 1 + q) by lia.
    unfold entryText in Hp3. cbn [fst snd] in Hp3. lia.
  - exact Sol3.
Qed.

Lemma parseValue_object_start (W : jsstring) (f : nat) :
  charAt W 0 = Some LBRACE ->
  parseValue g W (S f) 0 = parseObject W (parseValue g W f) 0.
Proof.
  intros C. cbn [parseValue]. cbv zeta.
  rewrite (skipWhitespace_at W 0 LBRACE C eq_refl).
  rewrite (proj2 (Nat.leb_gt _ _) (charAt_Some_lt W 0 _ C)), C.
  reflexivity.
Qed.

End ObjectEntriesTexts.

(** ** A comma before the closing bracket or brace; nothing between them *)

Section TrailingComma.

Variable g : jsstring -> bool.

Lemma tail_charAt (body tail : jsstring) (W : jsstring) (E k : nat) :
  W = body ++ tail -> E = List.length body -> charAt W (E + k) = nth_error tail k.
Proof. intros -> ->. apply app_charAt. Qed.

(** The [default] of the [switch] of [parseValue]. *)
Lemma parseValue_unknown (W : jsstring) (f p : nat) (c : Z) :
  charAt W p = Some c ->
  startsValue (Some c) = false -> isWhitespace (Some c) = false ->
  parseValue g W (S f) p = throw (UnexpectedToken (Some c)) p.
Proof.
  intros C Hs Hw. cbn [parseValue]. cbv zeta.
  rewrite (skipWhitespace_at W p c C Hw).
  rewrite (proj2 (Nat.leb_gt _ _) (charAt_Some_lt W p _ C)), C.
  unfold startsValue in Hs.
  repeat (apply orb_false_iff in Hs; destruct Hs as [Hs ?]).
  repeat match goal with H : _ = false |- _ => rewrite H; clear H end.
  reflexivity.
Qed.

End TrailingComma.

Section EmptyContainers.

Variable g : jsstring -> bool.

Lemma skipWhitespace_blank_run (pre ws post : jsstring) :
  blank ws -> isWhitespace (nth_error post 0) = false ->
  skipWhitespace (pre ++ ws ++ post) (List.length pre) = List.length pre + List.length ws.
Proof.
  intros Hb Hstop.
  rewrite <- (Nat.add_0_r (List.length pre)) at 1. rewrite shift_skipWhitespace. f_equal.
  apply skipWhitespace_unique; [lia| |].
  - intros i Hi. rewrite length_app. unfold charAt. rewrite nth_error_app1 by lia.
    rewrite (blank_nth ws i Hb) by lia. rewrite (proj2 (Nat.ltb_lt _ _)) by lia. reflexivity.
  - rewrite <- (Nat.add_0_r (List.length ws)) at 2. rewrite app_charAt, Hstop.
    apply andb_false_r.
Qed.

Lemma empty_array_value (ws : jsstring) :
  blank ws -> parse g (LBRACKET :: ws ++ [RBRACKET]) = Ok (JArray []).
Proof.
  intros Hb. set (W := LBRACKET :: ws ++ [RBRACKET]).
  assert (LW : List.length W = S (S (List.length ws))).
  { unfold W. cbn [List.length]. rewrite length_app. cbn [List.length]. lia. }
  apply (parse_Ok_intro g W _ (List.length W)); [|apply skipWhitespace_end].
  rewrite parseValue_array_start by reflexivity.
  unfold parseArray. cbv zeta.
  pose proof (skipWhitespace_blank_run [LBRACKET] ws [RBRACKET] Hb eq_refl) as Sk.
  change ([LBRACKET] ++ ws ++ [RBRACKET]) with W in Sk. cbn [List.length] in Sk.
  rewrite Sk.
  assert (C : charAt W (1 + List.length ws) = Some RBRACKET).
  { unfold W. change (LBRACKET :: ws ++ [RBRACKET]) with (([LBRACKET] ++ ws) ++ [RBRACKET]).
    replace (1 + List.length ws) with (List.length ([LBRACKET] ++ ws) + 0)
      by (rewrite length_app; cbn [List.length]; lia).
    rewrite app_charAt. reflexivity. }
  rewrite C, (proj2 (Nat.ltb_lt _ _)) by lia. decide_tests. cbn [andb].
  f_equal. f_equal. lia.
Qed.

Lemma empty_object_value (ws : jsstring) :
  blank ws -> parse g (LBRACE :: ws ++ [RBRACE]) = Ok (objectValue emptyObject).
Proof.
  intros Hb. set (W := LBRACE :: ws ++ [RBRACE]).
  assert (LW : List.length W = S (S (List.length ws))).
  { unfold W. cbn [List.length]. rewrite length_app. cbn [List.length]. lia. }
  apply (parse_Ok_intro g W _ (List.length W)); [|apply skipWhitespace_end].
  rewrite parseValue_object_start by reflexivity.
  unfold parseObject. cbv zeta.
  pose proof (skipWhitespace_blank_run [LBRACE] ws [RBRACE] Hb eq_refl) as Sk.
  change ([LBRACE] ++ ws ++ [RBRACE]) with W in Sk. cbn [List.length] in Sk.
  rewrite Sk.
  assert (C : charAt W (1 + List.length ws) = Some RBRACE).
  { unfold W. change (LBRACE :: ws ++ [RBRACE]) with (([LBRACE] ++ ws) ++ [RBRACE]).
    replace (1 + List.length ws) with (List.length ([LBRACE] ++ ws) + 0)
      by (rewrite length_app; cbn [List.length]; lia).
    rewrite app_charAt. reflexivity. }
  rewrite C, (proj2 (Nat.ltb_lt _ _)) by lia. decide_tests. cbn [andb].
  f_equal. f_equal. lia.
Qed.

End EmptyContainers.

(** ** The text of a value without the whitespace around it *)

Lemma madeBy_startOf (g : jsstring -> bool) (s : jsstring) (f q : nat)
      (v : JSONValue) (p : nat) :
  madeBy g s f q v p -> startOf v (charAt s q) = true.
Proof.
  destruct v as [|[|]| | | |]; cbn [madeBy startOf]; intros H; apply H.
Qed.

Section Trimmed.

Variable g : jsstring -> bool.

Lemma blank_slice (s : jsstring) (a b : nat) :
  (forall i, a <= i < b -> isWhitespace (charAt s i) = true) ->
  b <= List.length s -> blank (slice s a b).
Proof.
  intros H Hb. destruct (slice_forall s isWhitespace a b H Hb) as [Hf _].
  unfold blank. apply Forall_forall. rewrite forallb_forall in Hf. exact Hf.
Qed.

Lemma slice_firstn (s : jsstring) (b : nat) : slice s 0 b = firstn b s.
Proof. unfold slice. rewrite Nat.sub_0_r. reflexivity. Qed.

Lemma slice_skipn (s : jsstring) (a : nat) : slice s a (List.length s) = skipn a s.
Proof. unfold slice. apply firstn_all2. rewrite length_skipn. lia. Qed.

(** A text that has a value is whitespace, the text of the value, and
    whitespace; the text of the value alone has the value, which ends where
    the text ends. *)
Lemma parse_trimmed (input : jsstring) (v : JSONValue) :
  parse g input = Ok v ->
  exists lead body trail,
    input = lead ++ body ++ trail
    /\ blank lead /\ blank trail
    /\ parseValue g body (S (List.length body)) 0 = Ok (v, List.length body)
    /\ skipWhitespace body 0 = 0
    /\ startOf v (nth_error body 0) = true.
Proof.
  intros H. apply parse_Ok_inv in H. destruct H as (p & H & Hp & E).
  pose proof (parseValue_madeBy g input _ 0 v p H) as M. apply madeBy_startOf in M.
  pose proof (skipWhitespace_ge input 0) as Gq.
  pose proof (skipWhitespace_le input 0 (Nat.le_0_l _)) as Lq.
  pose proof (parseValue_beyond g input (S (List.length input)) (skipWhitespace input 0) Lq)
    as B.
  rewrite parseValue_skip, H in B. cbn [beyond] in B.
  set (q := skipWhitespace input 0) in *.
  set (rest := skipn q input).
  assert (Ei : input = firstn q input ++ rest) by (symmetry; apply firstn_skipn).
  assert (Lf : List.length (firstn q input) = q) by (rewrite length_firstn; lia).
  assert (Lr : List.length rest = List.length input - q) by (apply length_skipn).
  assert (Hr : parseValue g rest (S (List.length input)) 0 = Ok (v, p - q)).
  { rewrite <- (parseValue_skip g input) in H. fold q in H.
    pose proof (parseValue_shift g (firstn q input) rest (S (List.length input)) 0) as Sh.
    rewrite <- Ei, Lf, Nat.add_0_r in Sh. rewrite Sh in H.
    destruct (parseValue g rest (S (List.length input)) 0) as [[v' p']|e|];
      cbn [behind throw] in H; try discriminate.
    injection H as -> <-. f_equal. f_equal. lia. }
  assert (Lp : p - q <= List.length rest) by lia.
  exists (firstn q input), (firstn (p - q) rest), (skipn (p - q) rest).
  assert (Lb : List.length (firstn (p - q) rest) = p - q) by (rewrite length_firstn; lia).
  assert (C0 : nth_error (firstn (p - q) rest) 0 = charAt input q).
  { rewrite nth_error_firstn. rewrite (proj2 (Nat.ltb_lt 0 (p - q))) by lia.
    unfold rest, charAt. rewrite nth_error_skipn. f_equal. lia. }
  repeat split.
  - rewrite firstn_skipn. exact Ei.
  - rewrite <- slice_firstn. apply blank_slice; [|lia].
    intros i Hi. apply (skipWhitespace_between input 0). fold q. lia.
  - unfold rest. rewrite skipn_skipn.
    replace (p - q + q) with p by lia. rewrite <- slice_skipn.
    apply blank_slice; [|lia].
    intros i Hi. apply (skipWhitespace_between input p). lia.
  - pose proof (parseValue_transfers g g rest (firstn (p - q) rest ++ []) (fun _ E0 => E0)
                  (S (List.length input)) (S (List.length (firstn (p - q) rest))) 0 (p - q)
                  (Nat.le_0_l _)) as T.
    rewrite Hr in T. cbn [transfers] in T. rewrite app_nil_r in T.
    rewrite Lb. rewrite Lb in T. apply T; [lia| |lia].
    rewrite <- (app_nil_r (firstn (p - q) rest)).
    apply (completed_soft rest (p - q) [] Lp); [lia|reflexivity].
  - apply skipWhitespace_stay. unfold charAt. rewrite C0.
    pose proof (skipWhitespace_stop input 0) as St. fold q in St.
    apply andb_false_iff in St. destruct St as [St|St].
    + apply Nat.ltb_ge in St. lia.
    + rewrite St. apply andb_false_r.
  - rewrite C0. exact M.
Qed.

End Trimmed.

(** ** What follows a value, an element, an entry *)

Section Following.

Variable g : jsstring -> bool.

Lemma charIs_neq (c k : Z) : c <> k -> charIs (Some c) k = false.
Proof. intros H. unfold charIs. apply Z.eqb_neq. exact H. Qed.

(** The elements of an array followed by a character that is neither a
    comma nor the closing bracket. *)
Lemma array_separator (t : jsstring) (v : JSONValue) (ts : list jsstring)
      (vs : list JSONValue) (c : Z) (rest : jsstring) :
  valued g t v -> Forall2 (valued g) ts vs ->
  numberStop (Some c) = true -> isWhitespace (Some c) = false ->
  c <> COMMA -> c <> RBRACKET ->
  parse g (LBRACKET :: t ++ moreElements ts ++ c :: rest)
  = throw (ExpectedCommaOrBracket (Some c)) (List.length (LBRACKET :: t ++ moreElements ts)).
Proof.
  intros Htv Hrest Hs Hw Hc Hb.
  set (W := LBRACKET :: t ++ moreElements ts ++ c :: rest).
  set (E := 1 + List.length t + List.length (moreElements ts)).
  assert (EW : W = ([LBRACKET] ++ t ++ moreElements ts) ++ c :: rest).
  { unfold W. cbn [app]. rewrite <- !app_assoc. reflexivity. }
  assert (EL : E = List.length ([LBRACKET] ++ t ++ moreElements ts)).
  { unfold E. repeat (rewrite ?length_app; cbn [List.length]). lia. }
  assert (LW : List.length W = E + S (List.length rest)).
  { rewrite EW, length_app, <- EL. reflexivity. }
  pose proof (tail_charAt _ _ W E 0 EW EL) as C0.
  rewrite Nat.add_0_r in C0. cbn [nth_error] in C0.
  replace (List.length (LBRACKET :: t ++ moreElements ts)) with E
    by (unfold E; cbn [List.length]; repeat (rewrite ?length_app; cbn [List.length]); lia).
  apply parse_throw.
  rewrite parseValue_array_start by reflexivity.
  apply (parseArray_elements g t v ts vs W (c :: rest)
           (fun _ => throw (ExpectedCommaOrBracket (Some c)) E) (List.length W) E);
    try reflexivity; try assumption; try lia.
  intros fuel' arr' pos' Hpos' Hskip Hfuel _.
  destruct fuel' as [|fuel']; [lia|].
  cbn [parseArray_loop]. cbv zeta.
  rewrite (proj2 (Nat.ltb_lt pos' _)) by lia.
  rewrite Hskip, (proj2 (Nat.leb_gt _ _)) by lia.
  rewrite C0, (charIs_neq c RBRACKET Hb), (charIs_neq c COMMA Hc). reflexivity.
Qed.

(** The elements of an array followed by the end of the input. *)
Lemma array_not_closed (t : jsstring) (v : JSONValue) (ts : list jsstring)
      (vs : list JSONValue) (W : jsstring) :
  valued g t v -> Forall2 (valued g) ts vs ->
  W = LBRACKET :: t ++ moreElements ts ->
  parse g W
  = throw (if isWhitespace (charAt W (List.length W - 1))
           then UnexpectedEnd else UnterminatedArray) (List.length W).
Proof.
  intros Htv Hrest EW0.
  set (E := 1 + List.length t + List.length (moreElements ts)).
  assert (EW : W = LBRACKET :: t ++ moreElements ts ++ []) by (rewrite app_nil_r; exact EW0).
  assert (LW : List.length W = E).
  { rewrite EW0. unfold E. cbn [List.length]. rewrite length_app. lia. }
  apply parse_throw.
  rewrite parseValue_array_start by (rewrite EW0; reflexivity).
  apply (parseArray_elements g t v ts vs W []
           (fun _ => throw (if isWhitespace (charAt W (List.length W - 1))
                            then UnexpectedEnd else UnterminatedArray) (List.length W))
           (List.length W) E);
    try reflexivity; try assumption; try lia.
  intros fuel' arr' pos' Hpos' Hskip Hfuel (k & Ek & Hk).
  destruct fuel' as [|fuel']; [lia|].
  cbn [parseArray_loop]. cbv zeta.
  destruct (pos' <? List.length W) eqn:Lt.
  - apply Nat.ltb_lt in Lt.
    rewrite Hskip, (proj2 (Nat.leb_le _ _)) by lia.
    rewrite (skipWhitespace_between W pos' (List.length W - 1)) by lia.
    rewrite LW. reflexivity.
  - apply Nat.ltb_ge in Lt.
    assert (Ep : pos' = List.length W) by lia.
    replace (List.length W - 1) with k by lia. rewrite Hk, Ep. reflexivity.
Qed.

(** The entries of an object followed by a character that is neither a
    comma nor the closing brace. *)
Lemma object_separator (e : jsstring * jsstring) (kv : jsstring * JSONValue)
      (es : list (jsstring * jsstring)) (kvs : list (jsstring * JSONValue))
      (c : Z) (rest : jsstring) :
  entryValued g e kv -> Forall2 (entryValued g) es kvs ->
  numberStop (Some c) = true -> isWhitespace (Some c) = false ->
  c <> COMMA -> c <> RBRACE ->
  parse g (LBRACE :: entryText e ++ moreEntries es ++ c :: rest)
  = throw (ExpectedCommaOrBrace (Some c))
          (List.length (LBRACE :: entryText e ++ moreEntries es)).
Proof.
  intros Hekv Hrest Hs Hw Hc Hb.
  set (W := LBRACE :: entryText e ++ moreEntries es ++ c :: rest).
  set (E := 1 + List.length (entryText e) + List.length (moreEntries es)).
  assert (EW : W = ([LBRACE] ++ entryText e ++ moreEntries es) ++ c :: rest).
  { unfold W. cbn [app]. rewrite <- !app_assoc. reflexivity. }
  assert (EL : E = List.length ([LBRACE] ++ entryText e ++ moreEntries es)).
  { unfold E. repeat (rewrite ?length_app; cbn [List.length]). lia. }
  assert (LW : List.length W = E + S (List.length rest)).
  { rewrite EW, length_app, <- EL. reflexivity. }
  pose proof (tail_charAt _ _ W E 0 EW EL) as C0.
  rewrite Nat.add_0_r in C0. cbn [nth_error] in C0.
  replace (List.length (LBRACE :: entryText e ++ moreEntries es)) with E
    by (unfold E; cbn [List.length]; repeat (rewrite ?length_app; cbn [List.length]); lia).
  apply parse_throw.
  rewrite parseValue_object_start by reflexivity.
  apply (parseObject_texts g e kv es kvs W (c :: rest)
           (fun _ => throw (ExpectedCommaOrBrace (Some c)) E) (List.length W) E);
    try reflexivity; try assumption; try lia.
  intros fuel' obj' pos' Hpos' Hskip Hfuel _.
  destruct fuel' as [|fuel']; [lia|].
  cbn [parseObject_loop]. cbv zeta.
  rewrite (proj2 (Nat.ltb_lt pos' _)) by lia.
  rewrite Hskip, (proj2 (Nat.leb_gt _ _)) by lia.
  rewrite C0, (charIs_neq c RBRACE Hb), (charIs_neq c COMMA Hc). reflexivity.
Qed.

(** The entries of an object followed by the end of the input. *)
Lemma object_not_closed (e : jsstring * jsstring) (kv : jsstring * JSONValue)
      (es : list (jsstring * jsstring)) (kvs : list (jsstring * JSONValue)) (W : jsstring) :
  entryValued g e kv -> Forall2 (entryValued g) es kvs ->
  W = LBRACE :: entryText e ++ moreEntries es ->
  parse g W
  = throw (if isWhitespace (charAt W (List.length W - 1))
           then UnexpectedEnd else UnterminatedObject) (List.length W).
Proof.
  intros Hekv Hrest EW0.
  set (E := 1 + List.length (entryText e) + List.length (moreEntries es)).
  assert (EW : W = LBRACE :: entryText e ++ moreEntries es ++ [])
    by (rewrite app_nil_r; exact EW0).
  assert (LW : List.length W = E).
  { rewrite EW0. unfold E. cbn [List.length]. rewrite length_app. lia. }
  apply parse_throw.
  rewrite parseValue_object_start by (rewrite EW0; reflexivity).
  apply (parseObject_texts g e kv es kvs W []
           (fun _ => throw (if isWhitespace (charAt W (List.length W - 1))
                            then UnexpectedEnd else UnterminatedObject) (List.length W))
           (List.length W) E);
    try reflexivity; try assumption; try lia.
  intros fuel' obj' pos' Hpos' Hskip Hfuel (k & Ek & Hk).
  destruct fuel' as [|fuel']; [lia|].
  cbn [parseObject_loop]. cbv zeta.
  destruct (pos' <? List.length W) eqn:Lt.
  - apply Nat.ltb_lt in Lt.
    rewrite Hskip, (proj2 (Nat.leb_le _ _)) by lia.
    rewrite (skipWhitespace_between W pos' (List.length W - 1)) by lia.
    rewrite LW. reflexivity.
  - apply Nat.ltb_ge in Lt.
    assert (Ep : pos' = List.length W) by lia.
    replace (List.length W - 1) with k by lia. rewrite Hk, Ep. reflexivity.
Qed.

End Following.

(** ** String literals that do not end well *)

Section StringErrors.

Variable g : jsstring -> bool.

Lemma parseValue_quote_start (W : jsstring) (f : nat) :
  charAt W 0 = Some QUOTE ->
  parseValue g W (S f) 0 = ' (s, pos) <- parseString W 0 ;; Ok (JString s, pos).
Proof.
  intros C. cbn [parseValue]. cbv zeta.
  rewrite (skipWhitespace_at W 0 QUOTE C eq_refl).
  rewrite (proj2 (Nat.leb_gt _ _) (charAt_Some_lt W 0 _ C)), C.
  reflexivity.
Qed.

Lemma parse_string_throw (W : jsstring) (e : JSONParseError) :
  charAt W 0 = Some QUOTE -> parseString W 0 = Throw e -> parse g W = Throw e.
Proof.
  intros C H. apply parse_throw. rewrite (parseValue_quote_start W _ C), H. reflexivity.
Qed.

(** [parseString] behind the opening quote and the items. *)
Lemma parseString_through (items : list StringItem) (tail : jsstring) :
  forallb itemOk items = true ->
  exists fuel,
    parseString (QUOTE :: itemsText items ++ tail) 0
    = parseString_loop (QUOTE :: itemsText items ++ tail) (S fuel) (itemsValue items)
                       (S (List.length (itemsText items))).
Proof.
  intros Hok. pose proof (itemsText_length items) as Li.
  set (W := QUOTE :: itemsText items ++ tail).
  assert (LW : List.length W = S (List.length (itemsText items) + List.length tail)).
  { unfold W. cbn [List.length]. rewrite length_app. reflexivity. }
  exists (List.length W - List.length items).
  unfold parseString.
  replace (S (List.length W - 0))
    with (List.length items + S (List.length W - List.length items)) by lia.
  rewrite (parseString_loop_through items Hok W [QUOTE] tail _ [] eq_refl).
  reflexivity.
Qed.

Lemma string_not_closed (items : list StringItem) (W : jsstring) :
  forallb itemOk items = true ->
  W = QUOTE :: itemsText items ->
  parse g W = throw UnterminatedString (List.length W)
  /\ parse g (W ++ [BACKSLASH]) = throw UnterminatedEscape (S (List.length W)).
Proof.
  intros Hok EW. split.
  - apply parse_string_throw; [rewrite EW; reflexivity|].
    destruct (parseString_through items [] Hok) as [fuel H].
    rewrite app_nil_r, <- EW in H. rewrite H.
    cbn [parseString_loop].
    replace (S (List.length (itemsText items))) with (List.length W)
      by (rewrite EW; reflexivity).
    rewrite Nat.ltb_irrefl. reflexivity.
  - apply parse_string_throw; [rewrite EW; reflexivity|].
    destruct (parseString_through items [BACKSLASH] Hok) as [fuel H].
    assert (E1 : QUOTE :: itemsText items ++ [BACKSLASH] = W ++ [BACKSLASH])
      by (rewrite EW; reflexivity).
    rewrite E1 in H. rewrite H.
    assert (LW : List.length W = S (List.length (itemsText items)))
      by (rewrite EW; reflexivity).
    rewrite <- LW.
    assert (C0 : charAt (W ++ [BACKSLASH]) (List.length W) = Some BACKSLASH).
    { rewrite <- (Nat.add_0_r (List.length W)), app_charAt. reflexivity. }
    cbn [parseString_loop]. cbv zeta.
    rewrite length_app. cbn [List.length].
    rewrite (proj2 (Nat.ltb_lt _ _)) by lia. rewrite C0. decide_tests.
    rewrite (proj2 (Nat.leb_le _ _)) by lia.
    reflexivity.
Qed.

Lemma string_escape_unknown (items : list StringItem) (W : jsstring) (c : Z)
      (rest : jsstring) :
  forallb itemOk items = true ->
  W = QUOTE :: itemsText items ->
  simpleEscape (Some c) = None -> c <> chr "u" ->
  parse g (W ++ BACKSLASH :: c :: rest)
  = throw (InvalidEscapeSequence (Some c)) (S (List.length W)).
Proof.
  intros Hok EW Hs Hu.
  apply parse_string_throw; [rewrite EW; reflexivity|].
  destruct (parseString_through items (BACKSLASH :: c :: rest) Hok) as [fuel H].
  assert (E1 : QUOTE :: itemsText items ++ BACKSLASH :: c :: rest
               = W ++ BACKSLASH :: c :: rest) by (rewrite EW; reflexivity).
  rewrite E1 in H. rewrite H.
  assert (LW : List.length W = S (List.length (itemsText items)))
    by (rewrite EW; reflexivity).
  rewrite <- LW.
  assert (C0 : charAt (W ++ BACKSLASH :: c :: rest) (List.length W) = Some BACKSLASH).
  { rewrite <- (Nat.add_0_r (List.length W)), app_charAt. reflexivity. }
  assert (C1 : charAt (W ++ BACKSLASH :: c :: rest) (S (List.length W)) = Some c).
  { rewrite <- (Nat.add_1_r (List.length W)), app_charAt. reflexivity. }
  cbn [parseString_loop]. cbv zeta.
  rewrite length_app. cbn [List.length].
  rewrite (proj2 (Nat.ltb_lt _ _)) by lia. rewrite C0. decide_tests.
  rewrite (proj2 (Nat.leb_gt _ _)) by lia.
  rewrite C1, Hs.
  replace (charIs (Some c) (chr "u")) with false
    by (symmetry; unfold charIs; apply Z.eqb_neq; exact Hu).
  reflexivity.
Qed.

Lemma string_escape_short (items : list StringItem) (W : jsstring) (rest : jsstring) :
  forallb itemOk items = true ->
  W = QUOTE :: itemsText items ->
  List.length rest < 4 ->
  parse g (W ++ BACKSLASH :: chr "u" :: rest)
  = throw IncompleteUnicodeEscape (S (List.length W)).
Proof.
  intros Hok EW Hr.
  apply parse_string_throw; [rewrite EW; reflexivity|].
  destruct (parseString_through items (BACKSLASH :: chr "u" :: rest) Hok) as [fuel H].
  assert (E1 : QUOTE :: itemsText items ++ BACKSLASH :: chr "u" :: rest
               = W ++ BACKSLASH :: chr "u" :: rest) by (rewrite EW; reflexivity).
  rewrite E1 in H. rewrite H.
  assert (LW : List.length W = S (List.length (itemsText items)))
    by (rewrite EW; reflexivity).
  rewrite <- LW.
  assert (C0 : charAt (W ++ BACKSLASH :: chr "u" :: rest) (List.length W) = Some BACKSLASH).
  { rewrite <- (Nat.add_0_r (List.length W)), app_charAt. reflexivity. }
  assert (C1 : charAt (W ++ BACKSLASH :: chr "u" :: rest) (S (List.length W))
               = Some (chr "u")).
  { rewrite <- (Nat.add_1_r (List.length W)), app_charAt. reflexivity. }
  cbn [parseString_loop]. cbv zeta.
  rewrite length_app. cbn [List.length].
  rewrite (proj2 (Nat.ltb_lt _ _)) by lia. rewrite C0. decide_tests.
  rewrite (proj2 (Nat.leb_gt _ _)) by lia.
  rewrite C1. decide_tests.
  change (simpleEscape (Some (chr "u"))) with (@None Z). cbv iota.
  rewrite (proj2 (Nat.leb_le _ _)) by lia. reflexivity.
Qed.

End StringErrors.

(** ** Numbers whose point or exponent has no digits *)

Section NumberDigitsMissing.

Variable g : jsstring -> bool.

Lemma number_fraction_missing (neg : bool) (int pre rest : jsstring) :
  integerOk int = true ->
  isDigit (nth_error rest 0) = false ->
  parseNumber g (pre ++ signText neg ++ int ++ DOT :: rest) (List.length pre)
  = throw MissingFractionDigits (S (List.length (pre ++ signText neg ++ int))).
Proof.
  intros Hint Hstop.
  set (W := pre ++ signText neg ++ int ++ DOT :: rest).
  assert (E1 : W = pre ++ signText neg ++ int ++ (DOT :: rest)) by reflexivity.
  assert (E2 : W = (pre ++ signText neg) ++ int ++ (DOT :: rest)).
  { rewrite E1. rewrite <- !app_assoc. reflexivity. }
  assert (E3 : W = ((pre ++ signText neg) ++ int) ++ DOT :: rest).
  { rewrite E2. rewrite <- !app_assoc. reflexivity. }
  assert (S1 : signStep W (List.length pre) = Ok (List.length (pre ++ signText neg))).
  { rewrite E1, length_app.
    destruct neg; cbn [signText List.length];
      [apply signStep_minus | apply signStep_none]; apply integerOk_head; assumption. }
  assert (S2 : integerStep W (List.length (pre ++ signText neg))
               = Ok (List.length ((pre ++ signText neg) ++ int))).
  { rewrite E2 at 1. rewrite (length_app (pre ++ signText neg) int).
    apply integerStep_digits; [assumption|reflexivity]. }
  rewrite parseNumber_steps, S1. cbn [bind]. rewrite S2. cbn [bind].
  set (q := List.length ((pre ++ signText neg) ++ int)).
  assert (LW : List.length W = q + S (List.length rest)).
  { rewrite E3, length_app. reflexivity. }
  assert (C0 : charAt W q = Some DOT).
  { rewrite E3. unfold q. rewrite <- (Nat.add_0_r (List.length _)), app_charAt. reflexivity. }
  assert (C1 : charAt W (S q) = nth_error rest 0).
  { rewrite E3. unfold q. rewrite <- (Nat.add_1_r (List.length _)), app_charAt. reflexivity. }
  unfold fractionStep. cbv zeta.
  rewrite (proj2 (Nat.ltb_lt _ _)) by lia. rewrite C0. decide_tests. cbn [andb].
  rewrite C1, Hstop. cbn [negb]. rewrite orb_true_r. cbn [bind].
  unfold q. rewrite <- !app_assoc. reflexivity.
Qed.

Lemma number_exponent_missing (neg : bool) (int : jsstring) (fr : option jsstring)
      (letter : Z) (sign : option Z) (pre rest : jsstring) :
  integerOk int = true -> fractionOk fr = true ->
  letter = chr "e" \/ letter = chr "E" ->
  match sign with
  | Some c => c = PLUS \/ c = MINUS
  | None => charIs (nth_error rest 0) PLUS = false /\ charIs (nth_error rest 0) MINUS = false
  end ->
  isDigit (nth_error rest 0) = false ->
  parseNumber g (pre ++ signText neg ++ int ++ fractionText fr
                   ++ letter :: match sign with Some c => [c] | None => [] end ++ rest)
              (List.length pre)
  = throw MissingExponentDigits
          (List.length (pre ++ signText neg ++ int ++ fractionText fr
                          ++ letter :: match sign with Some c => [c] | None => [] end)).
Proof.
  intros Hint Hfr Hl Hsg Hstop.
  set (st := match sign with Some c => [c] | None => [] end).
  set (W := pre ++ signText neg ++ int ++ fractionText fr ++ letter :: st ++ rest).
  assert (Ld : isDigit (Some letter) = false) by (destruct Hl; subst letter; reflexivity).
  assert (Lp : charIs (Some letter) DOT = false) by (destruct Hl; subst letter; reflexivity).
  assert (E1 : W = pre ++ signText neg ++ int ++ (fractionText fr ++ letter :: st ++ rest))
    by reflexivity.
  assert (E2 : W = (pre ++ signText neg) ++ int ++ (fractionText fr ++ letter :: st ++ rest)).
  { rewrite E1. rewrite <- !app_assoc. reflexivity. }
  assert (E3 : W = ((pre ++ signText neg) ++ int) ++ fractionText fr
                   ++ (letter :: st ++ rest)).
  { rewrite E2. rewrite <- !app_assoc. reflexivity. }
  assert (E4 : W = (((pre ++ signText neg) ++ int) ++ fractionText fr)
                   ++ letter :: st ++ rest).
  { rewrite E3. rewrite <- !app_assoc. reflexivity. }
  assert (F1 : isDigit (nth_error (fractionText fr ++ letter :: st ++ rest) 0) = false).
  { destruct fr; [reflexivity|exact Ld]. }
  assert (S1 : signStep W (List.length pre) = Ok (List.length (pre ++ signText neg))).
  { rewrite E1, length_app.
    destruct neg; cbn [signText List.length];
      [apply signStep_minus | apply signStep_none]; apply integerOk_head; assumption. }
  assert (S2 : integerStep W (List.length (pre ++ signText neg))
               = Ok (List.length ((pre ++ signText neg) ++ int))).
  { rewrite E2 at 1. rewrite (length_app (pre ++ signText neg) int).
    apply integerStep_digits; assumption. }
  assert (S3 : fractionStep W (List.length ((pre ++ signText neg) ++ int))
               = Ok (List.length (((pre ++ signText neg) ++ int) ++ fractionText fr))).
  { rewrite E3 at 1. rewrite (length_app ((pre ++ signText neg) ++ int) (fractionText fr)).
    destruct fr as [ds|]; [apply fractionStep_some | apply fractionStep_none]; assumption. }
  rewrite parseNumber_steps, S1. cbn [bind]. rewrite S2. cbn [bind]. rewrite S3. cbn [bind].
  set (q := List.length (((pre ++ signText neg) ++ int) ++ fractionText fr)).
  assert (LW : List.length W = q + S (List.length st + List.length rest)).
  { unfold q. rewrite E4. repeat (rewrite ?length_app; cbn [List.length]). lia. }
  assert (C : forall k, charAt W (q + k) = nth_error (letter :: st ++ rest) k).
  { intros k. rewrite E4. apply app_charAt. }
  pose proof (C 0) as C0. rewrite Nat.add_0_r in C0. cbn [nth_error] in C0.
  pose proof (C 1) as C1. rewrite Nat.add_1_r in C1.
  pose proof (C 2) as C2. replace (q + 2) with (S (S q)) in C2 by lia.
  assert (Le : charIs (Some letter) (chr "e") || charIs (Some letter) (chr "E") = true)
    by (destruct Hl; subst letter; reflexivity).
  replace (List.length (pre ++ signText neg ++ int ++ fractionText fr ++ letter :: st))
    with (S q + List.length st)
    by (unfold q; repeat (rewrite ?length_app; cbn [List.length]); lia).
  unfold exponentStep. cbv zeta.
  rewrite (proj2 (Nat.ltb_lt q _)) by lia. rewrite C0, Le. cbn [andb].
  destruct sign as [c|]; unfold st in *; cbn [List.length] in LW |- *.
  - assert (Sg : charIs (Some c) PLUS || charIs (Some c) MINUS = true)
      by (destruct Hsg; subst c; reflexivity).
    assert (C1' : charAt W (S q) = Some c) by (rewrite C1; reflexivity).
    assert (C2' : charAt W (S (S q)) = nth_error rest 0) by (rewrite C2; reflexivity).
    assert (Lt : (S q <? List.length W) = true) by (apply Nat.ltb_lt; lia).
    rewrite Lt, C1', Sg. cbn [andb].
    rewrite C2', Hstop. cbn [negb]. rewrite orb_true_r. cbn [bind].
    replace (S q + 1) with (S (S q)) by lia. reflexivity.
  - destruct Hsg as [Hp Hm].
    assert (C1' : charAt W (S q) = nth_error rest 0) by (rewrite C1; reflexivity).
    rewrite C1', Hp, Hm. cbn [orb]. rewrite andb_false_r.
    rewrite C1', Hstop. cbn [negb]. rewrite orb_true_r. cbn [bind].
    replace (S q + 0) with (S q) by lia. reflexivity.
Qed.

End NumberDigitsMissing.

(** ** Where a value, a key or a colon is due *)

Section Due.

Variable g : jsstring -> bool.

(** Behind the opening brace: a character that is neither a quote nor the
    closing brace. *)
Lemma object_key_missing (ws rest : jsstring) (c : Z) :
  blank ws -> c <> QUOTE -> c <> RBRACE -> isWhitespace (Some c) = false ->
  parse g (LBRACE :: ws ++ c :: rest)
  = throw ExpectedStringKey (List.length (LBRACE :: ws)).
Proof.
  intros Hb Hq Hr Hw. set (W := LBRACE :: ws ++ c :: rest).
  assert (LW : List.length W = S (S (List.length ws + List.length rest))).
  { unfold W. cbn [List.length]. rewrite length_app. cbn [List.length]. lia. }
  apply parse_throw.
  rewrite parseValue_object_start by reflexivity.
  unfold parseObject. cbv zeta.
  pose proof (skipWhitespace_blank_run [LBRACE] ws (c :: rest) Hb Hw) as Sk.
  change ([LBRACE] ++ ws ++ c :: rest) with W in Sk. cbn [List.length] in Sk.
  rewrite Sk.
  assert (C : charAt W (1 + List.length ws) = Some c).
  { unfold W. change (LBRACE :: ws ++ c :: rest) with (([LBRACE] ++ ws) ++ c :: rest).
    replace (1 + List.length ws) with (List.length ([LBRACE] ++ ws) + 0)
      by (rewrite length_app; cbn [List.length]; lia).
    rewrite app_charAt. reflexivity. }
  rewrite C. rewrite (charIs_neq c RBRACE Hr), andb_false_r.
  cbn [parseObject_loop]. cbv zeta.
  rewrite (proj2 (Nat.ltb_lt _ _)) by lia.
  unfold parseObject_entry. cbv zeta.
  rewrite (skipWhitespace_at W _ c C Hw), C, (charIs_neq c QUOTE Hq).
  cbn [negb]. rewrite orb_true_r. reflexivity.
Qed.

(** Behind the key of the first entry: the end of the input, or a
    character other than the colon. *)
Lemma object_colon_missing (kt : jsstring) (key : jsstring) (W : jsstring) :
  valued g kt (JString key) ->
  W = LBRACE :: kt ->
  parse g W = throw ExpectedColon (List.length W)
  /\ (forall c rest,
        c <> COLON -> isWhitespace (Some c) = false ->
        parse g (W ++ c :: rest) = throw ExpectedColon (List.length W)).
Proof.
  intros Hk EW0.
  assert (LW0 : List.length W = S (List.length kt)) by (rewrite EW0; reflexivity).
  assert (Go : forall tail,
             isWhitespace (nth_error tail 0) = false ->
             charIs (nth_error tail 0) COLON = false ->
             parse g (W ++ tail) = throw ExpectedColon (S (List.length kt))).
  { intros tail Hw Hc.
    set (W' := W ++ tail).
    assert (EW : W' = [LBRACE] ++ kt ++ tail) by (unfold W'; rewrite EW0; reflexivity).
    assert (LW : List.length W' = S (List.length kt + List.length tail)).
    { rewrite EW. cbn [app List.length]. rewrite length_app. reflexivity. }
    destruct (key_in_context g [LBRACE] kt tail key Hk Hw)
      as (q & p & Kq & Kc & Ks & Kqp & Kp & Kt).
    rewrite <- EW in Kq, Kc, Ks, Kt. cbn [List.length] in Kq, Kc, Ks, Kt.
    assert (Ct : charAt W' (1 + List.length kt) = nth_error tail 0).
    { rewrite EW, app_assoc.
      replace (1 + List.length kt) with (List.length ([LBRACE] ++ kt) + 0)
        by (rewrite length_app; cbn [List.length]; lia).
      apply app_charAt. }
    apply parse_throw.
    rewrite parseValue_object_start by (unfold W'; rewrite EW0; reflexivity).
    unfold parseObject. cbv zeta.
    rewrite Kq, Kc. decide_tests. rewrite andb_false_r.
    cbn [parseObject_loop]. cbv zeta.
    rewrite (proj2 (Nat.ltb_lt _ _) (charAt_Some_lt W' _ _ Kc)).
    unfold parseObject_entry. cbv zeta.
    rewrite (skipWhitespace_at W' _ QUOTE Kc eq_refl), Kc.
    rewrite (proj2 (Nat.leb_gt _ _) (charAt_Some_lt W' _ _ Kc)). decide_tests.
    cbn [negb orb]. rewrite Ks. cbn [bind]. rewrite Kt, Ct, Hc.
    cbn [negb]. rewrite orb_true_r. reflexivity. }
  split.
  - rewrite LW0, <- (app_nil_r W). apply Go; reflexivity.
  - intros c rest Hc Hw. rewrite LW0. apply Go; [exact Hw|].
    apply (charIs_neq c COLON Hc).
Qed.

End Due.

(** ** The page: [main.ts] *)

Section Trim.

Lemma trimStart_lead (lead s : jsstring) :
  forallb isTrimmed lead = true -> trimStart (lead ++ s) = trimStart s.
Proof.
  induction lead as [|c lead IH]; [reflexivity|].
  cbn [forallb app trimStart]. intros H. apply andb_true_iff in H. destruct H as [Hc Hl].
  rewrite Hc. apply IH. exact Hl.
Qed.

Lemma trimStart_stay (c : Z) (s : jsstring) :
  isTrimmed c = false -> trimStart (c :: s) = c :: s.
Proof. intros H. cbn [trimStart]. rewrite H. reflexivity. Qed.

Lemma trimEnd_trail (s trail : jsstring) :
  forallb isTrimmed trail = true -> trimEnd (s ++ trail) = trimEnd s.
Proof.
  intros H. unfold trimEnd. rewrite rev_app_distr, trimStart_lead; [reflexivity|].
  apply forallb_forall. intros x Hx. apply in_rev in Hx.
  rewrite forallb_forall in H. apply H. exact Hx.
Qed.

Lemma trimEnd_stay (front : jsstring) (c : Z) :
  isTrimmed c = false -> trimEnd (front ++ [c]) = front ++ [c].
Proof.
  intros H. unfold trimEnd. rewrite rev_app_distr. cbn [rev app].
  rewrite trimStart_stay by exact H.
  change (c :: rev front) with ([c] ++ rev front).
  rewrite rev_app_distr, rev_involutive. reflexivity.
Qed.

Lemma isWhitespace_isTrimmed (c : Z) : isWhitespace (Some c) = true -> isTrimmed c = true.
Proof.
  unfold isWhitespace, charIs. rewrite !orb_true_iff, !Z.eqb_eq.
  intros [[[-> | ->] | ->] | ->]; reflexivity.
Qed.

Lemma blank_trimmed (ws : jsstring) : blank ws -> forallb isTrimmed ws = true.
Proof.
  intros H. apply forallb_forall. intros x Hx.
  unfold blank in H. rewrite Forall_forall in H.
  apply isWhitespace_isTrimmed. apply H. exact Hx.
Qed.

Lemma printable_isTrimmed (c : Z) : (33 <= c <= 126)%Z -> isTrimmed c = false.
Proof.
  intros H. unfold isTrimmed.
  repeat match goal with
         | |- context [Z.eqb c ?k] =>
             replace (Z.eqb c k) with false by (symmetry; apply Z.eqb_neq; lia)
         end.
  replace (Z.leb c 13) with false by (symmetry; apply Z.leb_gt; lia).
  replace (Z.leb 8192 c) with false by (symmetry; apply Z.leb_gt; lia).
  rewrite andb_false_r. reflexivity.
Qed.

Lemma startOf_isTrimmed (v : JSONValue) (c : Z) :
  startOf v (Some c) = true -> isTrimmed c = false.
Proof.
  intros H. apply printable_isTrimmed.
  destruct v as [|[|]| | | |]; cbn [startOf] in H; unfold charIs, isDigit in H;
    try (apply Z.eqb_eq in H; subst c; vm_compute; split; discriminate).
  apply orb_true_iff in H. destruct H as [H|H].
  - apply Z.eqb_eq in H; subst c; vm_compute; split; discriminate.
  - apply andb_true_iff in H. destruct H as [H1 H2].
    apply Z.leb_le in H1, H2. unfold ZERO, NINE in *. lia.
Qed.

Lemma endOf_isTrimmed (v : JSONValue) (c : Z) :
  endOf v (Some c) = true -> isTrimmed c = false.
Proof.
  intros H. apply printable_isTrimmed.
  destruct v; cbn [endOf] in H; unfold charIs, isDigit in H;
    try (apply Z.eqb_eq in H; subst c; vm_compute; split; discriminate).
  apply andb_true_iff in H. destruct H as [H1 H2].
  apply Z.leb_le in H1, H2. unfold ZERO, NINE in *. lia.
Qed.

Lemma last_split (s : jsstring) (k : nat) (c : Z) :
  List.length s = S k -> nth_error s k = Some c -> s = firstn k s ++ [c].
Proof.
  intros L N. rewrite <- (firstn_skipn k s) at 1. f_equal.
  pose proof (length_skipn k s) as Ls. rewrite L in Ls.
  replace (S k - k) with 1 in Ls by lia.
  rewrite <- (firstn_skipn k s) in N.
  rewrite nth_error_app2 in N by (rewrite length_firstn; lia).
  rewrite length_firstn in N. replace (k - Nat.min k (List.length s)) with 0 in N by lia.
  destruct (skipn k s) as [|x [|y l]]; cbn in Ls, N; try discriminate.
  congruence.
Qed.

(** Trimming a text that has a value leaves the text of the value. *)
Lemma trim_value_text (g : jsstring -> bool) (lead body trail : jsstring) (v : JSONValue) :
  blank lead -> blank trail ->
  parseValue g body (S (List.length body)) 0 = Ok (v, List.length body) ->
  startOf v (nth_error body 0) = true ->
  trim (lead ++ body ++ trail) = body /\ body <> [].
Proof.
  intros Hl Ht Hv Hs.
  destruct (parseValue_endOf g body _ 0 v _ Hv) as (k & Lk & Hk).
  destruct body as [|c body']; [discriminate|]. split; [|discriminate].
  cbn [nth_error] in Hs. apply startOf_isTrimmed in Hs.
  unfold trim. rewrite (trimStart_lead lead _ (blank_trimmed lead Hl)).
  cbn [app]. rewrite (trimStart_stay c _ Hs).
  change (c :: body' ++ trail) with ((c :: body') ++ trail).
  rewrite (trimEnd_trail _ trail (blank_trimmed trail Ht)).
  destruct (charAt (c :: body') k) as [d|] eqn:Cd; [|destruct v; discriminate].
  rewrite (last_split (c :: body') k d Lk Cd).
  apply trimEnd_stay. apply (endOf_isTrimmed v). exact Hk.
Qed.

End Trim.

(** ** What the parser does, text by text *)


(** X2: whitespace around a text is not significant.  If a text has a
    value, the text between whitespace has the same value; if [parse]
    throws on a text, it throws the same error on the text behind
    whitespace, positioned further right by the length of the whitespace. *)
Theorem surrounding_whitespace (finite : jsstring -> bool) (lead text trail : jsstring) :
  blank lead -> blank trail ->
  (forall v, parse finite text = Ok v -> parse finite (lead ++ text ++ trail) = Ok v)
  /\ (forall e, parse finite text = Throw e ->
        parse finite (lead ++ text) = throw (message e) (List.length lead + position e)).
Proof.
  intros Hl Ht. split.
  - intros v H. rewrite (parse_lead finite lead (text ++ trail) Hl).
    rewrite (parse_trail finite text trail v Ht H). reflexivity.
  - intros e H. rewrite (parse_lead finite lead text Hl), H. reflexivity.
Qed.

Lemma surrounding_whitespace_witness :
  parseJSON (txt "  [1] ") = Ok (JArray [JNumber (txt "1")])
  /\ parseJSON (txt "  [1,") = throw UnexpectedEnd 5.
Proof.
  assert (Hl : blank (txt "  ")) by (repeat constructor).
  assert (Ht : blank (txt " ")) by (repeat constructor).
  split.
  - exact (proj1 (surrounding_whitespace numberIsFinite (txt "  ") (txt "[1]") (txt " ") Hl Ht)
             (JArray [JNumber (txt "1")]) eq_refl).
  - exact (proj2 (surrounding_whitespace numberIsFinite (txt "  ") (txt "[1,") (txt " ") Hl Ht)
             (mkError UnexpectedEnd 3) eq_refl).
Defined.

(** X3: a text that has a value is whitespace, the text of the value, and
    whitespace again, and nothing else; the text of the value starts and
    ends with the characters of its kind (a brace, a bracket, a quote, the
    first and last letter of the literal, a minus or a digit and a digit),
    and on it alone [parseValue] returns the same value, at its end. *)
Theorem value_text_trimmed (finite : jsstring -> bool) (input : jsstring) (v : JSONValue) :
  parse finite input = Ok v ->
  exists lead body trail,
    input = lead ++ body ++ trail
    /\ blank lead /\ blank trail
    /\ parseValue finite body (S (List.length body)) 0 = Ok (v, List.length body)
    /\ parse finite body = Ok v
    /\ startOf v (nth_error body 0) = true
    /\ endOf v (nth_error body (List.length body - 1)) = true.
Proof.
  intros H. destruct (parse_trimmed finite input v H)
    as (lead & body & trail & E & Hl & Ht & Hv & Hs & Hk).
  exists lead, body, trail. repeat split; try assumption.
  - apply (parse_Ok_intro finite body v _ Hv). apply skipWhitespace_end.
  - destruct (parseValue_endOf finite body _ 0 v _ Hv) as (k & Lk & Hend).
    rewrite Lk. cbn [Nat.sub]. rewrite Nat.sub_0_r. exact Hend.
Qed.

Lemma value_text_trimmed_witness :
  exists lead body trail,
    txt " {} " = lead ++ body ++ trail
    /\ blank lead /\ blank trail
    /\ parseValue numberIsFinite body (S (List.length body)) 0
       = Ok (objectValue emptyObject, List.length body)
    /\ parse numberIsFinite body = Ok (objectValue emptyObject)
    /\ startOf (objectValue emptyObject) (nth_error body 0) = true
    /\ endOf (objectValue emptyObject) (nth_error body (List.length body - 1)) = true.
Proof.
  exact (value_text_trimmed numberIsFinite (txt " {} ") (objectValue emptyObject) eq_refl).
Defined.

(** X4: the texts whose value is [true], [false] or [null] are the
    literal between whitespace, and no others. *)
Theorem literal_texts (finite : jsstring -> bool) (input : jsstring) :
  (parse finite input = Ok (JBoolean true)
   <-> exists lead trail, blank lead /\ blank trail /\ input = lead ++ txt "true" ++ trail)
  /\ (parse finite input = Ok (JBoolean false)
      <-> exists lead trail, blank lead /\ blank trail /\ input = lead ++ txt "false" ++ trail)
  /\ (parse finite input = Ok JNull
      <-> exists lead trail, blank lead /\ blank trail /\ input = lead ++ txt "null" ++ trail).
Proof.
  assert (back : forall lit v, parse finite lit = Ok v ->
            (exists lead trail, blank lead /\ blank trail /\ input = lead ++ lit ++ trail) ->
            parse finite input = Ok v).
  { intros lit v Hv (lead & trail & Hl & Ht & ->).
    rewrite (parse_lead finite lead _ Hl), (parse_trail finite lit trail v Ht Hv).
    reflexivity. }
  assert (forth : forall lit v n,
            (forall body, madeBy finite body (List.length body) 0 v (List.length body) ->
                          slice body 0 n = lit /\ List.length body = n) ->
            parse finite input = Ok v ->
            exists lead trail, blank lead /\ blank trail /\ input = lead ++ lit ++ trail).
  { intros lit v n Hm H.
    destruct (parse_trimmed finite input v H)
      as (lead & body & trail & E & Hl & Ht & Hv & Hs & _).
    apply parseValue_madeBy in Hv. rewrite Hs in Hv.
    destruct (Hm body Hv) as [Sl Ln].
    exists lead, trail. repeat split; try assumption.
    rewrite E. f_equal. f_equal. rewrite <- Sl, slice_firstn, <- Ln. symmetry.
    apply firstn_all. }
  repeat split.
  - apply forth with (n := 4). intros body (_ & Sl & Ln). split; [exact Sl|lia].
  - apply back. reflexivity.
  - apply forth with (n := 5). intros body (_ & Sl & Ln). split; [exact Sl|lia].
  - apply back. reflexivity.
  - apply forth with (n := 4). intros body (_ & Sl & Ln). split; [exact Sl|lia].
  - apply back. reflexivity.
Qed.

(** X5: an array is parsed element by element.  If each text of a list has
    a value, the bracketed, comma-separated list of the texts has the array
    of the values, in the order of the texts. *)
Theorem array_of_texts (finite : jsstring -> bool) (ts : list jsstring)
        (vs : list JSONValue) :
  Forall2 (valued finite) ts vs ->
  parse finite (arrayText ts) = Ok (JArray vs).
Proof.
  intros H. destruct H as [|t v ts vs Htv Hrest]; [reflexivity|].
  cbn [arrayText].
  set (W := LBRACKET :: t ++ moreElements ts ++ [RBRACKET]).
  apply (parse_Ok_intro finite W _ (List.length W)); [|apply skipWhitespace_end].
  rewrite parseValue_array_start by reflexivity.
  assert (LW : List.length W = S (S (List.length t + List.length (moreElements ts)))).
  { unfold W. cbn [List.length]. rewrite !length_app. cbn [List.length]. lia. }
  apply (parseArray_elements finite t v ts vs W [RBRACKET]
           (fun arr => Ok (JArray arr, List.length W)) (List.length W)
           (1 + List.length t + List.length (moreElements ts)));
    try reflexivity; try assumption; try lia.
  intros fuel' arr' pos' Hpos' Hskip Hfuel _.
  destruct fuel' as [|fuel']; [lia|].
  rewrite (array_closes_after W _ fuel' arr' pos' _ Hskip).
  - f_equal. f_equal. lia.
  - unfold W. change (LBRACKET :: t ++ moreElements ts ++ [RBRACKET])
      with ([LBRACKET] ++ t ++ moreElements ts ++ [RBRACKET]).
    rewrite !app_assoc.
    replace (1 + List.length t + List.length (moreElements ts))
      with (List.length (([LBRACKET] ++ t) ++ moreElements ts) + 0)
      by (rewrite !length_app; cbn [List.length]; lia).
    rewrite app_charAt. reflexivity.
Qed.

Lemma array_of_texts_witness :
  parseJSON (txt "[1, 'a' ,[true]]")
  = Ok (JArray [JNumber (txt "1"); JString (txt "a"); JArray [JBoolean true]]).
Proof.
  apply (array_of_texts numberIsFinite [txt "1"; txt " 'a' "; txt "[true]"]).
  repeat constructor.
Defined.

(** X6: an object is parsed entry by entry.  If the key texts of a list of
    entries have string values and the value texts have values, the braced,
    comma-separated list of the entries [key:value] has the object in which
    the entries have been stored by [obj[key] = value], one after the other
    in the order of the text. *)
Theorem object_of_entries (finite : jsstring -> bool) (es : list (jsstring * jsstring))
        (kvs : list (jsstring * JSONValue)) :
  Forall2 (entryValued finite) es kvs ->
  parse finite (objectText es) = Ok (objectValue (storeAll emptyObject kvs)).
Proof.
  intros H. destruct H as [|e kv es kvs Hekv Hrest]; [reflexivity|].
  cbn [objectText].
  set (W := LBRACE :: entryText e ++ moreEntries es ++ [RBRACE]).
  apply (parse_Ok_intro finite W _ (List.length W)); [|apply skipWhitespace_end].
  rewrite parseValue_object_start by reflexivity.
  assert (LW : List.length W
               = S (S (List.length (entryText e) + List.length (moreEntries es)))).
  { unfold W. cbn [List.length]. rewrite !length_app. cbn [List.length]. lia. }
  apply (parseObject_texts finite e kv es kvs W [RBRACE]
           (fun obj => Ok (objectValue obj, List.length W)) (List.length W)
           (1 + List.length (entryText e) + List.length (moreEntries es)));
    try reflexivity; try assumption; try lia.
  intros fuel' obj' pos' Hpos' Hskip Hfuel _.
  destruct fuel' as [|fuel']; [lia|].
  rewrite (object_closes_after W _ fuel' obj' pos' _ Hskip).
  - f_equal. f_equal. lia.
  - unfold W. change (LBRACE :: entryText e ++ moreEntries es ++ [RBRACE])
      with ([LBRACE] ++ entryText e ++ moreEntries es ++ [RBRACE]).
    rewrite !app_assoc.
    replace (1 + List.length (entryText e) + List.length (moreEntries es))
      with (List.length (([LBRACE] ++ entryText e) ++ moreEntries es) + 0)
      by (rewrite !length_app; cbn [List.length]; lia).
    rewrite app_charAt. reflexivity.
Qed.

Lemma object_of_entries_witness :
  parseJSON (txt "{'a':1, 'b' : [] ,'a':null}")
  = Ok (objectValue (storeAll emptyObject
                       [(txt "a", JNumber (txt "1")); (txt "b", JArray []); (txt "a", JNull)])).
Proof.
  apply (object_of_entries numberIsFinite
           [(txt "'a'", txt "1"); (txt " 'b' ", txt " [] "); (txt "'a'", txt "null")]).
  repeat constructor.
Defined.

(** X7: a comma in an array must be followed by an element.  Behind the
    texts of one or more elements and a comma, the end of the input makes
    [parse] throw "Unexpected end of JSON input", and a character that starts
    no value, such as the closing bracket, makes it throw "Unexpected token"
    at that character. *)
Theorem array_trailing_comma (finite : jsstring -> bool) (t : jsstring) (v : JSONValue)
        (ts : list jsstring) (vs : list JSONValue) (W : jsstring) :
  valued finite t v -> Forall2 (valued finite) ts vs ->
  W = LBRACKET :: t ++ moreElements ts ++ [COMMA] ->
  parse finite W = throw UnexpectedEnd (List.length W)
  /\ (forall c rest,
        startsValue (Some c) = false -> isWhitespace (Some c) = false ->
        parse finite (W ++ c :: rest) = throw (UnexpectedToken (Some c)) (List.length W)).
Proof.
  intros Htv Hrest EW0.
  set (E := 1 + List.length t + List.length (moreElements ts)).
  assert (EL : E = List.length ([LBRACKET] ++ t ++ moreElements ts)).
  { unfold E. repeat (rewrite ?length_app; cbn [List.length]). lia. }
  assert (LW0 : List.length W = S E).
  { rewrite EW0. unfold E. cbn [List.length].
    repeat (rewrite ?length_app; cbn [List.length]). lia. }
  assert (Go : forall tail,
             (forall df, List.length (W ++ tail) <= S df ->
                parseValue finite (W ++ tail) (S df) (S E)
                = throw (match nth_error tail 0 with
                         | Some c => UnexpectedToken (Some c)
                         | None => UnexpectedEnd
                         end) (S E)) ->
             parse finite (W ++ tail)
             = throw (match nth_error tail 0 with
                      | Some c => UnexpectedToken (Some c)
                      | None => UnexpectedEnd
                      end) (S E)).
  { intros tail Hpv.
    set (W' := W ++ tail).
    assert (EW : W' = ([LBRACKET] ++ t ++ moreElements ts) ++ COMMA :: tail).
    { unfold W'. rewrite EW0. cbn [app]. rewrite <- !app_assoc. reflexivity. }
    assert (LW : List.length W' = E + S (List.length tail)).
    { rewrite EW, length_app, <- EL. reflexivity. }
    pose proof (tail_charAt _ _ W' E 0 EW EL) as C0.
    rewrite Nat.add_0_r in C0. cbn [nth_error] in C0.
    apply parse_throw.
    rewrite parseValue_array_start by (unfold W'; rewrite EW0; reflexivity).
    apply (parseArray_elements finite t v ts vs W' (COMMA :: tail)
             (fun _ => throw (match nth_error tail 0 with
                              | Some c => UnexpectedToken (Some c)
                              | None => UnexpectedEnd
                              end) (S E)) (List.length W') E);
      try reflexivity; try assumption; try lia.
    - rewrite EW. cbn [app]. rewrite <- !app_assoc. reflexivity.
    - intros fuel' arr' pos' Hpos' Hskip Hfuel _.
      destruct fuel' as [|fuel']; [lia|].
      cbn [parseArray_loop]. cbv zeta. unfold parseArray_element.
      rewrite (proj2 (Nat.ltb_lt pos' _)) by lia.
      rewrite Hskip, (proj2 (Nat.leb_gt _ _)) by lia.
      rewrite C0. decide_tests. cbn [negb].
      destruct (List.length W') as [|df] eqn:LWd; [lia|].
      change (parseValue finite W' (S df) (S E)) with (parseValue finite (W ++ tail) (S df) (S E)).
      rewrite (Hpv df) by (fold W'; lia). reflexivity. }
  split.
  - specialize (Go []). rewrite app_nil_r in Go. cbn [nth_error] in Go.
    rewrite LW0. apply Go. intros df Hdf.
    cbn [parseValue]. cbv zeta.
    rewrite (skipWhitespace_stay W (S E)) by (rewrite LW0, Nat.ltb_irrefl; reflexivity).
    rewrite LW0, Nat.leb_refl. reflexivity.
  - intros c rest Hs Hw. specialize (Go (c :: rest)). cbn [nth_error] in Go.
    rewrite LW0. apply Go. intros df Hdf.
    apply parseValue_unknown; [|assumption|assumption].
    rewrite <- LW0, <- (Nat.add_0_r (List.length W)), app_charAt. reflexivity.
Qed.

Lemma array_trailing_comma_witness :
  parseJSON (txt "[1,2,") = throw UnexpectedEnd 5
  /\ parseJSON (txt "[1,2,]") = throw (UnexpectedToken (Some RBRACKET)) 5.
Proof.
  assert (V1 : valued numberIsFinite (txt "1") (JNumber (txt "1"))) by reflexivity.
  assert (V2 : Forall2 (valued numberIsFinite) [txt "2"] [JNumber (txt "2")])
    by (repeat constructor).
  split.
  - exact (proj1 (array_trailing_comma numberIsFinite _ _ _ _ (txt "[1,2,") V1 V2 eq_refl)).
  - exact (proj2 (array_trailing_comma numberIsFinite _ _ _ _ (txt "[1,2,") V1 V2 eq_refl)
             RBRACKET [] eq_refl eq_refl).
Defined.

(** X8: a comma in an object must be followed by a key.  Behind the texts
    of one or more entries and a comma, the end of the input and every
    character other than a quote, such as the closing brace, make [parse]
    throw "Expected string key" there. *)
Theorem object_trailing_comma (finite : jsstring -> bool) (e : jsstring * jsstring)
        (kv : jsstring * JSONValue) (es : list (jsstring * jsstring))
        (kvs : list (jsstring * JSONValue)) (W : jsstring) :
  entryValued finite e kv -> Forall2 (entryValued finite) es kvs ->
  W = LBRACE :: entryText e ++ moreEntries es ++ [COMMA] ->
  parse finite W = throw ExpectedStringKey (List.length W)
  /\ (forall c rest,
        c <> QUOTE -> isWhitespace (Some c) = false ->
        parse finite (W ++ c :: rest) = throw ExpectedStringKey (List.length W)).
Proof.
  intros Hekv Hrest EW0.
  set (E := 1 + List.length (entryText e) + List.length (moreEntries es)).
  assert (EL : E = List.length ([LBRACE] ++ entryText e ++ moreEntries es)).
  { unfold E. repeat (rewrite ?length_app; cbn [List.length]). lia. }
  assert (LW0 : List.length W = S E).
  { rewrite EW0. unfold E. cbn [List.length].
    repeat (rewrite ?length_app; cbn [List.length]). lia. }
  assert (Go : forall tail,
             (forall W', W' = W ++ tail ->
                skipWhitespace W' (S E) = S E
                /\ (List.length W' <=? S E) || negb (charIs (charAt W' (S E)) QUOTE) = true) ->
             parse finite (W ++ tail) = throw ExpectedStringKey (S E)).
  { intros tail Hk.
    set (W' := W ++ tail).
    destruct (Hk W' eq_refl) as [Ksk Kq].
    assert (EW : W' = ([LBRACE] ++ entryText e ++ moreEntries es) ++ COMMA :: tail).
    { unfold W'. rewrite EW0. cbn [app]. rewrite <- !app_assoc. reflexivity. }
    assert (LW : List.length W' = E + S (List.length tail)).
    { rewrite EW, length_app, <- EL. reflexivity. }
    pose proof (tail_charAt _ _ W' E 0 EW EL) as C0.
    rewrite Nat.add_0_r in C0. cbn [nth_error] in C0.
    apply parse_throw.
    rewrite parseValue_object_start by (unfold W'; rewrite EW0; reflexivity).
    apply (parseObject_texts finite e kv es kvs W' (COMMA :: tail)
             (fun _ => throw ExpectedStringKey (S E)) (List.length W') E);
      try reflexivity; try assumption; try lia.
    - rewrite EW. cbn [app]. rewrite <- !app_assoc. reflexivity.
    - intros fuel' obj' pos' Hpos' Hskip Hfuel _.
      destruct fuel' as [|fuel']; [lia|].
      cbn [parseObject_loop]. cbv zeta. unfold parseObject_entry. cbv zeta.
      rewrite (proj2 (Nat.ltb_lt pos' _)) by lia.
      rewrite Hskip, (proj2 (Nat.leb_gt _ _)) by lia.
      rewrite C0. decide_tests. cbn [negb].
      rewrite Ksk, Kq. reflexivity. }
  split.
  - specialize (Go []). rewrite app_nil_r in Go. rewrite LW0. apply Go.
    intros W' ->. split.
    + apply skipWhitespace_stay. rewrite LW0, Nat.ltb_irrefl. reflexivity.
    + rewrite LW0, Nat.leb_refl. reflexivity.
  - intros c rest Hq Hw. rewrite LW0. apply (Go (c :: rest)).
    intros W' ->.
    assert (C : charAt (W ++ c :: rest) (S E) = Some c).
    { rewrite <- LW0, <- (Nat.add_0_r (List.length W)), app_charAt. reflexivity. }
    split.
    + apply (skipWhitespace_at _ _ c C Hw).
    + rewrite C. unfold charIs. rewrite (proj2 (Z.eqb_neq c QUOTE) Hq).
      apply orb_true_r.
Qed.

Lemma object_trailing_comma_witness :
  parseJSON (txt "{'a':1,") = throw ExpectedStringKey 7
  /\ parseJSON (txt "{'a':1,}") = throw ExpectedStringKey 7.
Proof.
  assert (V1 : entryValued numberIsFinite (txt "'a'", txt "1") (txt "a", JNumber (txt "1")))
    by (split; reflexivity).
  split.
  - exact (proj1 (object_trailing_comma numberIsFinite _ _ [] [] (txt "{'a':1,") V1
                    (Forall2_nil _) eq_refl)).
  - apply (proj2 (object_trailing_comma numberIsFinite _ _ [] [] (txt "{'a':1,") V1
                    (Forall2_nil _) eq_refl) RBRACE []); [discriminate|reflexivity].
Defined.

(** X9: brackets or braces with nothing but whitespace between them are the
    empty array and the empty object. *)
Theorem empty_containers (finite : jsstring -> bool) (ws : jsstring) :
  blank ws ->
  parse finite (LBRACKET :: ws ++ [RBRACKET]) = Ok (JArray [])
  /\ parse finite (LBRACE :: ws ++ [RBRACE]) = Ok (objectValue emptyObject).
Proof.
  intros H. split; [apply empty_array_value | apply empty_object_value]; exact H.
Qed.

Lemma empty_containers_witness :
  parseJSON (txt "[  ]") = Ok (JArray [])
  /\ parseJSON (txt "{  }") = Ok (objectValue emptyObject).
Proof.
  apply (empty_containers numberIsFinite (txt "  ")). repeat constructor.
Defined.

(** X10: [parseString] returns exactly on a string literal.  Entered at the
    opening quote, it returns a string and a cursor if and only if the input
    has, behind the quote and up to the cursor, a list of items and a quote,
    an item being a character other than the quote, the backslash and the
    control characters below the space (the tab is allowed), a backslash
    before one of the eight characters of the [switch], or [\u] before four
    hexadecimal digits; the string is what the items stand for, in order. *)
Theorem string_literal_items (input : jsstring) (pos : nat) (result : jsstring) (p : nat) :
  parseString input pos = Ok (result, p)
  <-> exists items,
        forallb itemOk items = true
        /\ result = itemsValue items
        /\ p = S (S pos + List.length (itemsText items))
        /\ slice input (S pos) p = itemsText items ++ [QUOTE].
Proof.
  split.
  - unfold parseString. intros H. apply parseString_loop_items_inv in H.
    destruct H as (its & Hok & Hr & Hp & Hs). exists its. auto.
  - intros (its & Hok & Hr & Hp & Hs).
    destruct (slice_whole input (S pos) p (itemsText its ++ [QUOTE]) Hs) as [Es Lp].
    { rewrite length_app. cbn [List.length]. lia. }
    { lia. }
    assert (Lpre : List.length (firstn (S pos) input) = S pos)
      by (rewrite length_firstn; lia).
    unfold parseString. rewrite <- Lpre at 1.
    rewrite (parseString_loop_items its Hok input (firstn (S pos) input) (skipn p input)).
    + rewrite Lpre, Hr, Hp. reflexivity.
    + rewrite Es at 1. rewrite <- app_assoc. reflexivity.
    + pose proof (itemsText_length its). lia.
Qed.

(** X11: [parseNumber] reads the number literals of the grammar.  On a
    text made of an optional minus, an integer part that is one digit or
    digits not starting with [0], an optional point with one or more digits,
    and an optional exponent ([e] or [E], an optional sign, one or more
    digits), followed by the end of the input or by a character that is not
    a digit, a point, [e] or [E], it leaves the cursor behind the text and
    returns the number of that text if that number is finite; if not, it
    throws "Invalid number" with the text, at the start of the number. *)
Theorem number_text_parsed (finite : jsstring -> bool) (n : NumberParts)
        (pre rest : jsstring) :
  partsOk n = true ->
  numberStop (nth_error rest 0) = true ->
  parseNumber finite (pre ++ numberText n ++ rest) (List.length pre)
  = if finite (numberText n)
    then Ok (JNumber (numberText n), List.length pre + List.length (numberText n))
    else throw (NumberOverflow (numberText n)) (List.length pre).
Proof.
  intros Hok Hstop. destruct n as [neg int fr ex]. unfold partsOk, numberText in *.
  cbn [negative integer fraction exponent] in *.
  apply andb_true_iff in Hok. destruct Hok as [Hok Hex].
  apply andb_true_iff in Hok. destruct Hok as [Hint Hfr].
  destruct (exponentText_head ex rest Hex Hstop) as [X1 X2].
  pose proof (fractionText_head fr _ X1) as F1.
  pose proof (numberStop_facts _ Hstop) as (R1 & R2 & R3 & R4).
  set (text := signText neg ++ int ++ fractionText fr ++ exponentText ex) in *.
  set (W := pre ++ text ++ rest).
  assert (E1 : W = pre ++ signText neg ++ int ++ (fractionText fr ++ exponentText ex ++ rest)).
  { unfold W, text. rewrite <- !app_assoc. reflexivity. }
  assert (E2 : W = (pre ++ signText neg) ++ int ++ (fractionText fr ++ exponentText ex ++ rest)).
  { rewrite E1. rewrite <- !app_assoc. reflexivity. }
  assert (E3 : W = ((pre ++ signText neg) ++ int) ++ fractionText fr ++ (exponentText ex ++ rest)).
  { rewrite E2. rewrite <- !app_assoc. reflexivity. }
  assert (E4 : W = (((pre ++ signText neg) ++ int) ++ fractionText fr) ++ exponentText ex ++ rest).
  { rewrite E3. rewrite <- !app_assoc. reflexivity. }
  assert (S1 : signStep W (List.length pre) = Ok (List.length (pre ++ signText neg))).
  { rewrite E1, length_app.
    destruct neg; cbn [signText List.length];
      [apply signStep_minus | apply signStep_none]; apply integerOk_head; assumption. }
  assert (S2 : integerStep W (List.length (pre ++ signText neg))
               = Ok (List.length ((pre ++ signText neg) ++ int))).
  { rewrite E2 at 1. rewrite (length_app (pre ++ signText neg) int).
    apply integerStep_digits; assumption. }
  assert (S3 : fractionStep W (List.length ((pre ++ signText neg) ++ int))
               = Ok (List.length (((pre ++ signText neg) ++ int) ++ fractionText fr))).
  { rewrite E3 at 1. rewrite (length_app ((pre ++ signText neg) ++ int) (fractionText fr)).
    destruct fr as [ds|]; [apply fractionStep_some | apply fractionStep_none]; assumption. }
  assert (S4 : exponentStep W (List.length (((pre ++ signText neg) ++ int) ++ fractionText fr))
               = Ok (List.length ((((pre ++ signText neg) ++ int) ++ fractionText fr)
                                  ++ exponentText ex))).
  { rewrite E4 at 1.
    rewrite (length_app (((pre ++ signText neg) ++ int) ++ fractionText fr) (exponentText ex)).
    destruct ex as [[[letter sign] ds]|];
      [apply exponentStep_some | apply exponentStep_none]; assumption. }
  rewrite parseNumber_steps, S1. cbn [bind]. rewrite S2. cbn [bind]. rewrite S3. cbn [bind].
  rewrite S4. cbn [bind].
  assert (EL : List.length ((((pre ++ signText neg) ++ int) ++ fractionText fr)
                            ++ exponentText ex)
               = List.length pre + List.length text).
  { unfold text. rewrite !length_app. lia. }
  rewrite EL. unfold W. rewrite slice_app. destruct (finite text); reflexivity.
Qed.

Lemma number_text_parsed_witness :
  parseNumber numberIsFinite (txt "[-12.50e+3]") 1 = Ok (JNumber (txt "-12.50e+3"), 10)
  /\ parseNumber numberIsFinite (txt "[1e999]") 1 = throw (NumberOverflow (txt "1e999")) 1.
Proof.
  split.
  - exact (number_text_parsed numberIsFinite
             (mkNumberParts true (txt "12") (Some (txt "50")) (Some (chr "e", Some PLUS, txt "3")))
             (txt "[") (txt "]") eq_refl eq_refl).
  - exact (number_text_parsed numberIsFinite
             (mkNumberParts false (txt "1") None (Some (chr "e", None, txt "999")))
             (txt "[") (txt "]") eq_refl eq_refl).
Defined.

(** X12: [parseNumber] accepts nothing else.  What it returns is the
    number of the text between the cursor on entry and the cursor it leaves,
    and that text is made of parts as in X11 that are well formed, and is
    finite. *)
Theorem number_result_parts (finite : jsstring -> bool) (input : jsstring) (pos : nat)
        (v : JSONValue) (p : nat) :
  parseNumber finite input pos = Ok (v, p) ->
  exists n,
    partsOk n = true /\ slice input pos p = numberText n /\ v = JNumber (numberText n)
    /\ finite (numberText n) = true /\ pos < p <= List.length input.
Proof. apply parseNumber_parts_inv. Qed.

Lemma number_result_parts_witness :
  exists n,
    partsOk n = true /\ slice (txt "0.5,") 0 3 = numberText n
    /\ JNumber (txt "0.5") = JNumber (numberText n)
    /\ numberIsFinite (numberText n) = true /\ 0 < 3 <= List.length (txt "0.5,").
Proof.
  exact (number_result_parts numberIsFinite (txt "0.5,") 0 (JNumber (txt "0.5")) 3 eq_refl).
Defined.

(** X13: an error that reports that the input ran out ("Unexpected end of
    JSON input", "Unterminated object", "Unterminated array", "Unterminated
    string", "Unterminated string escape sequence") is positioned at the
    length of the input. *)
Theorem exhaustion_errors_at_end (finite : jsstring -> bool) (input : jsstring)
        (e : JSONParseError) :
  parse finite input = Throw e ->
  reportsExhaustion (message e) = true ->
  position e = List.length input.
Proof.
  intros H. pose proof (parse_atEnd finite input) as A. rewrite H in A. exact A.
Qed.

Lemma exhaustion_errors_at_end_witness :
  position (mkError UnterminatedString 4) = List.length (txt "['ab").
Proof.
  exact (exhaustion_errors_at_end numberIsFinite (txt "['ab") (mkError UnterminatedString 4)
           eq_refl eq_refl).
Defined.

(** X14: [skipWhitespace] stops at the first character from the cursor on
    that is not a space, a tab, a line feed or a carriage return, or at the
    end of the input; no other character is skipped. *)
Theorem skipWhitespace_spec (input : jsstring) (pos r : nat) :
  (skipWhitespace input pos = r
   <-> pos <= r
       /\ (forall i, pos <= i < r -> isWhitespace (charAt input i) = true)
       /\ isWhitespace (charAt input r) = false)
  /\ (forall c, isWhitespace (Some c) = true
                <-> c = SPACE \/ c = TAB \/ c = NEWLINE \/ c = RETURN).
Proof.
  split.
  - split.
    + intros <-. repeat split.
      * apply skipWhitespace_ge.
      * apply skipWhitespace_between.
      * pose proof (skipWhitespace_stop input pos) as St.
        apply andb_false_iff in St. destruct St as [St|St]; [|exact St].
        apply Nat.ltb_ge in St. rewrite charAt_ge_None by exact St. reflexivity.
    + intros (Hle & Hb & Hs). apply skipWhitespace_unique; [exact Hle| |].
      * intros i Hi. rewrite (Hb i Hi).
        rewrite (proj2 (Nat.ltb_lt _ _) (isWhitespace_lt input i (Hb i Hi))). reflexivity.
      * rewrite Hs. apply andb_false_r.
  - intros c. unfold isWhitespace, charIs. rewrite !orb_true_iff, !Z.eqb_eq. tauto.
Qed.

(** X15: nothing but whitespace may follow the value.  A character behind
    a text that has a value (one that would not continue a number, and is
    not whitespace) makes [parse] throw "Unexpected token" at that
    character. *)
Theorem trailing_content (finite : jsstring -> bool) (t : jsstring) (v : JSONValue)
        (c : Z) (rest : jsstring) :
  valued finite t v ->
  numberStop (Some c) = true -> isWhitespace (Some c) = false ->
  parse finite (t ++ c :: rest) = throw (UnexpectedToken (Some c)) (List.length t).
Proof.
  intros Hv Hs Hw.
  assert (LW : List.length (t ++ c :: rest) = List.length t + S (List.length rest))
    by (rewrite length_app; reflexivity).
  destruct (valued_in_context finite [] t (c :: rest) v (S (List.length (t ++ c :: rest)))
              Hv Hs Hw ltac:(lia)) as (p & Hp & _ & _ & Hsk & _).
  cbn [app List.length Nat.add] in Hp, Hsk.
  rewrite parse_unfold, Hp. cbn [bind]. cbv zeta. rewrite Hsk.
  rewrite (proj2 (Nat.ltb_lt _ _)) by lia.
  rewrite <- (Nat.add_0_r (List.length t)) at 1. rewrite app_charAt. reflexivity.
Qed.

Lemma trailing_content_witness :
  parseJSON (txt "{} []") = throw (UnexpectedToken (Some LBRACKET)) 3.
Proof.
  exact (trailing_content numberIsFinite (txt "{} ") (objectValue emptyObject) LBRACKET
           (txt "]") eq_refl eq_refl eq_refl).
Defined.

(** X16: what may follow the elements of an array is a comma or the
    closing bracket.  Where the input ends behind the elements, [parse]
    throws at the end of the input: "Unterminated array" if the last element
    ends the input, "Unexpected end of JSON input" if whitespace follows it.
    Another character (one that would not continue a number) makes it throw
    "Expected ',' or ']'" at that character. *)
Theorem array_elements_followed (finite : jsstring -> bool) (t : jsstring) (v : JSONValue)
        (ts : list jsstring) (vs : list JSONValue) (W : jsstring) :
  valued finite t v -> Forall2 (valued finite) ts vs ->
  W = LBRACKET :: t ++ moreElements ts ->
  parse finite W
  = throw (if isWhitespace (charAt W (List.length W - 1))
           then UnexpectedEnd else UnterminatedArray) (List.length W)
  /\ (forall c rest,
        numberStop (Some c) = true -> isWhitespace (Some c) = false ->
        c <> COMMA -> c <> RBRACKET ->
        parse finite (W ++ c :: rest)
        = throw (ExpectedCommaOrBracket (Some c)) (List.length W)).
Proof.
  intros Htv Hrest EW. split.
  - apply (array_not_closed finite t v ts vs W Htv Hrest EW).
  - intros c rest Hs Hw Hc Hb. rewrite EW. cbn [app]. rewrite <- app_assoc.
    apply (array_separator finite t v ts vs c rest Htv Hrest Hs Hw Hc Hb).
Qed.

Lemma array_elements_followed_witness :
  parseJSON (txt "[1,2") = throw UnterminatedArray 4
  /\ parseJSON (txt "[1,2 ") = throw UnexpectedEnd 5
  /\ parseJSON (txt "[1,2}") = throw (ExpectedCommaOrBracket (Some RBRACE)) 4.
Proof.
  assert (V1 : valued numberIsFinite (txt "1") (JNumber (txt "1"))) by reflexivity.
  assert (V2 : Forall2 (valued numberIsFinite) [txt "2"] [JNumber (txt "2")])
    by (repeat constructor).
  assert (V3 : Forall2 (valued numberIsFinite) [txt "2 "] [JNumber (txt "2")])
    by (repeat constructor).
  split; [|split].
  - exact (proj1 (array_elements_followed numberIsFinite _ _ _ _ (txt "[1,2") V1 V2 eq_refl)).
  - exact (proj1 (array_elements_followed numberIsFinite _ _ _ _ (txt "[1,2 ") V1 V3 eq_refl)).
  - apply (proj2 (array_elements_followed numberIsFinite _ _ _ _ (txt "[1,2") V1 V2 eq_refl)
             RBRACE []); [reflexivity|reflexivity|discriminate|discriminate].
Defined.

(** X17: what may follow the entries of an object is a comma or the
    closing brace.  Where the input ends behind the entries, [parse] throws
    at the end of the input: "Unterminated object" if the last entry ends the
    input, "Unexpected end of JSON input" if whitespace follows it.  Another
    character (one that would not continue a number) makes it throw
    "Expected ',' or '}'" at that character. *)
Theorem object_entries_followed (finite : jsstring -> bool) (e : jsstring * jsstring)
        (kv : jsstring * JSONValue) (es : list (jsstring * jsstring))
        (kvs : list (jsstring * JSONValue)) (W : jsstring) :
  entryValued finite e kv -> Forall2 (entryValued finite) es kvs ->
  W = LBRACE :: entryText e ++ moreEntries es ->
  parse finite W
  = throw (if isWhitespace (charAt W (List.length W - 1))
           then UnexpectedEnd else UnterminatedObject) (List.length W)
  /\ (forall c rest,
        numberStop (Some c) = true -> isWhitespace (Some c) = false ->
        c <> COMMA -> c <> RBRACE ->
        parse finite (W ++ c :: rest)
        = throw (ExpectedCommaOrBrace (Some c)) (List.length W)).
Proof.
  intros Hekv Hrest EW. split.
  - apply (object_not_closed finite e kv es kvs W Hekv Hrest EW).
  - intros c rest Hs Hw Hc Hb. rewrite EW. cbn [app]. rewrite <- !app_assoc.
    apply (object_separator finite e kv es kvs c rest Hekv Hrest Hs Hw Hc Hb).
Qed.

Lemma object_entries_followed_witness :
  parseJSON (txt "{'a':1") = throw UnterminatedObject 6
  /\ parseJSON (txt "{'a':1 ") = throw UnexpectedEnd 7
  /\ parseJSON (txt "{'a':1 'b':2}") = throw (ExpectedCommaOrBrace (Some QUOTE)) 7.
Proof.
  assert (V1 : entryValued numberIsFinite (txt "'a'", txt "1") (txt "a", JNumber (txt "1")))
    by (split; reflexivity).
  assert (V2 : entryValued numberIsFinite (txt "'a'", txt "1 ") (txt "a", JNumber (txt "1")))
    by (split; reflexivity).
  split; [|split].
  - exact (proj1 (object_entries_followed numberIsFinite _ _ [] [] (txt "{'a':1") V1
                    (Forall2_nil _) eq_refl)).
  - exact (proj1 (object_entries_followed numberIsFinite _ _ [] [] (txt "{'a':1 ") V2
                    (Forall2_nil _) eq_refl)).
  - apply (proj2 (object_entries_followed numberIsFinite _ _ [] [] (txt "{'a':1 ") V2
                    (Forall2_nil _) eq_refl) QUOTE (txt "b':2}"));
      [reflexivity|reflexivity|discriminate|discriminate].
Defined.

(** X18: a string literal that does not end well.  Behind the opening
    quote and items that are well formed, the end of the input makes [parse]
    throw "Unterminated string" there; a backslash that ends the input,
    "Unterminated string escape sequence" behind it; a backslash before a
    character that is none of the eight of the [switch] nor [u], "Invalid
    escape sequence" at that character; and [\u] with fewer than four
    characters left in the input, "Incomplete unicode escape sequence" at the
    [u] (also if a quote is among them). *)
Theorem string_literal_errors (finite : jsstring -> bool) (items : list StringItem)
        (W : jsstring) :
  forallb itemOk items = true ->
  W = QUOTE :: itemsText items ->
  parse finite W = throw UnterminatedString (List.length W)
  /\ parse finite (W ++ [BACKSLASH]) = throw UnterminatedEscape (S (List.length W))
  /\ (forall c rest,
        simpleEscape (Some c) = None -> c <> chr "u" ->
        parse finite (W ++ BACKSLASH :: c :: rest)
        = throw (InvalidEscapeSequence (Some c)) (S (List.length W)))
  /\ (forall rest,
        List.length rest < 4 ->
        parse finite (W ++ BACKSLASH :: chr "u" :: rest)
        = throw IncompleteUnicodeEscape (S (List.length W))).
Proof.
  intros Hok EW.
  destruct (string_not_closed finite items W Hok EW) as [H1 H2].
  repeat split; try assumption.
  - intros c rest Hs Hu. apply (string_escape_unknown finite items W c rest Hok EW Hs Hu).
  - intros rest Hr. apply (string_escape_short finite items W rest Hok EW Hr).
Qed.

Lemma string_literal_errors_witness :
  parseJSON (txt "'a\n") = throw UnterminatedString 4
  /\ parseJSON (txt "'a\n" ++ [BACKSLASH]) = throw UnterminatedEscape 5
  /\ parseJSON (txt "'a\n\x'") = throw (InvalidEscapeSequence (Some (chr "x"))) 5
  /\ parseJSON (txt "'a\n\u12'") = throw IncompleteUnicodeEscape 5.
Proof.
  pose proof (string_literal_errors numberIsFinite [Plain (chr "a"); Escape (chr "n")]
                (txt "'a\n") eq_refl eq_refl) as (H1 & H2 & H3 & H4).
  split; [|split; [|split]].
  - exact H1.
  - exact H2.
  - apply (H3 (chr "x") (txt "'")); [reflexivity|discriminate].
  - apply (H4 (txt "12'")). cbn. lia.
Defined.

(** X19: a point or an exponent without digits.  Behind a sign and an
    integer part that are well formed, a point that no digit follows makes
    [parseNumber] throw "Invalid number: decimal point must be followed by
    digits" behind the point; behind a fraction that is well formed too, an
    [e] or [E] and its sign that no digit follows make it throw "Invalid
    number: exponent must contain digits" behind them. *)
Theorem number_digits_missing (finite : jsstring -> bool) (neg : bool) (int : jsstring)
        (pre rest : jsstring) :
  integerOk int = true ->
  isDigit (nth_error rest 0) = false ->
  parseNumber finite (pre ++ signText neg ++ int ++ DOT :: rest) (List.length pre)
  = throw MissingFractionDigits (S (List.length (pre ++ signText neg ++ int)))
  /\ (forall fr letter sign,
        fractionOk fr = true ->
        letter = chr "e" \/ letter = chr "E" ->
        match sign with
        | Some c => c = PLUS \/ c = MINUS
        | None => charIs (nth_error rest 0) PLUS = false
                  /\ charIs (nth_error rest 0) MINUS = false
        end ->
        parseNumber finite
          (pre ++ signText neg ++ int ++ fractionText fr
             ++ letter :: match sign with Some c => [c] | None => [] end ++ rest)
          (List.length pre)
        = throw MissingExponentDigits
            (List.length (pre ++ signText neg ++ int ++ fractionText fr
                            ++ letter :: match sign with Some c => [c] | None => [] end))).
Proof.
  intros Hint Hstop. split.
  - apply number_fraction_missing; assumption.
  - intros fr letter sign Hfr Hl Hsg. apply number_exponent_missing; assumption.
Qed.

Lemma number_digits_missing_witness :
  parseNumber numberIsFinite (txt "-1.") 0 = throw MissingFractionDigits 3
  /\ parseNumber numberIsFinite (txt "-1.5e+") 0 = throw MissingExponentDigits 6.
Proof.
  pose proof (number_digits_missing numberIsFinite true (txt "1") [] [] eq_refl eq_refl)
    as [H1 H2].
  split.
  - exact H1.
  - apply (H2 (Some (txt "5")) (chr "e") (Some PLUS)); [reflexivity|left; reflexivity|].
    left. reflexivity.
Defined.

(** X20: a text must start with a value.  If the first character behind
    the leading whitespace is none of [{], [[], the quote, [t], [f], [n], the
    minus and the digits, [parse] throws "Unexpected token" at that
    character. *)
Theorem value_start_unknown (finite : jsstring -> bool) (lead rest : jsstring) (c : Z) :
  blank lead -> startsValue (Some c) = false -> isWhitespace (Some c) = false ->
  parse finite (lead ++ c :: rest) = throw (UnexpectedToken (Some c)) (List.length lead).
Proof.
  intros Hl Hs Hw. rewrite (parse_lead finite lead (c :: rest) Hl).
  assert (P : parse finite (c :: rest) = throw (UnexpectedToken (Some c)) 0).
  { apply parse_throw. apply parseValue_unknown; [reflexivity|assumption|assumption]. }
  rewrite P. cbn [throw message position]. rewrite Nat.add_0_r. reflexivity.
Qed.

Lemma value_start_unknown_witness :
  parseJSON (txt " +1") = throw (UnexpectedToken (Some PLUS)) 1.
Proof.
  apply (value_start_unknown numberIsFinite (txt " ") (txt "1") PLUS);
    [repeat constructor|reflexivity|reflexivity].
Defined.

(** X21: the first entry of an object needs its key and its colon.  Behind
    the opening brace and whitespace, a character that is neither a quote nor
    the closing brace makes [parse] throw "Expected string key" at that
    character; behind the opening brace and the text of a key, the end of the
    input and every character other than the colon make it throw "Expected
    ':' after key" there. *)
Theorem object_key_and_colon (finite : jsstring -> bool) (ws kt key W : jsstring) :
  blank ws -> valued finite kt (JString key) -> W = LBRACE :: kt ->
  (forall c rest,
      c <> QUOTE -> c <> RBRACE -> isWhitespace (Some c) = false ->
      parse finite (LBRACE :: ws ++ c :: rest)
      = throw ExpectedStringKey (List.length (LBRACE :: ws)))
  /\ parse finite W = throw ExpectedColon (List.length W)
  /\ (forall c rest,
        c <> COLON -> isWhitespace (Some c) = false ->
        parse finite (W ++ c :: rest) = throw ExpectedColon (List.length W)).
Proof.
  intros Hb Hk EW. split.
  - intros c rest Hq Hr Hw. apply object_key_missing; assumption.
  - apply (object_colon_missing finite kt key W Hk EW).
Qed.

Lemma object_key_and_colon_witness :
  parseJSON (txt "{ a:1}") = throw ExpectedStringKey 2
  /\ parseJSON (txt "{'a' ") = throw ExpectedColon 5
  /\ parseJSON (txt "{'a' 1}") = throw ExpectedColon 5.
Proof.
  assert (Hb : blank (txt " ")) by (repeat constructor).
  pose proof (object_key_and_colon numberIsFinite (txt " ") (txt "'a' ") (txt "a")
                (txt "{'a' ") Hb eq_refl eq_refl) as (H1 & H2 & H3).
  split; [|split].
  - apply (H1 (chr "a") (txt ":1}")); [discriminate|discriminate|reflexivity].
  - exact H2.
  - apply (H3 (chr "1") (txt "}")); [discriminate|reflexivity].
Defined.

(** ** What the page shows *)

(** X22: the page shows the value of its input.  Whenever [parseJSON]
    accepts what the textarea holds, a click on Parse sets the output to
    [JSON.stringify] of that same value: the [trim] of the listener removes
    the whitespace around the text of the value and nothing of it. *)
Theorem page_shows_value (stringify : JSONValue -> jsstring) (page : Page) (v : JSONValue) :
  parseJSON (inputEl_value page) = Ok v ->
  parseBtn_click stringify page = Ok (mkPage (inputEl_value page) (stringify v)).
Proof.
  intros H. destruct (parse_trimmed numberIsFinite _ v H)
    as (lead & body & trail & E & Hl & Ht & Hv & Hs & Hk).
  destruct (trim_value_text numberIsFinite lead body trail v Hl Ht Hv Hk) as [T N].
  assert (B : parseJSON body = Ok v).
  { apply (parse_Ok_intro numberIsFinite body v _ Hv). apply skipWhitespace_end. }
  assert (T' : trim (inputEl_value page) = body) by (rewrite E; exact T).
  unfold parseBtn_click. cbv zeta. rewrite T'.
  destruct body as [|c body']; [contradiction|]. rewrite B. reflexivity.
Qed.

Lemma page_shows_value_witness :
  parseBtn_click (fun _ => plain "[]") (mkPage (txt "  [ ] ") [])
  = Ok (mkPage (txt "  [ ] ") (plain "[]")).
Proof.
  exact (page_shows_value (fun _ => plain "[]") (mkPage (txt "  [ ] ") []) (JArray []) eq_refl).
Defined.

(** X23: the position in an error of the page counts from the first
    character that [trim] leaves.  For an input made of whitespace and a
    trimmed text on which [parseJSON] throws, a click on Parse shows that
    error with its position in the trimmed text, which is the position that
    [parseJSON] reports for the whole input less the length of the
    whitespace. *)
Theorem page_error_position (stringify : JSONValue -> jsstring) (lead text out : jsstring)
        (e : JSONParseError) :
  blank lead -> text <> [] -> trim text = text ->
  parseJSON text = Throw e ->
  parseBtn_click stringify (mkPage (lead ++ text) out)
  = Ok (mkPage (lead ++ text)
               (CROSS :: plain " Error: " ++ messageText (message e)
                  ++ plain " at position " ++ decimal (position e)))
  /\ parseJSON (lead ++ text) = throw (message e) (List.length lead + position e).
Proof.
  intros Hl Hn Ht He. split.
  - unfold parseBtn_click. cbv zeta. cbn [inputEl_value].
    assert (T : trim (lead ++ text) = text).
    { unfold trim. rewrite (trimStart_lead lead text (blank_trimmed lead Hl)). exact Ht. }
    rewrite T. destruct text as [|c text']; [contradiction|]. rewrite He. reflexivity.
  - unfold parseJSON. rewrite (parse_lead numberIsFinite lead text Hl).
    unfold parseJSON in He. rewrite He. reflexivity.
Qed.

Lemma page_error_position_witness :
  parseBtn_click (fun _ => []) (mkPage (txt "  [1,") [])
  = Ok (mkPage (txt "  [1,")
               (CROSS :: plain " Error: Unexpected end of JSON input at position 3"))
  /\ parseJSON (txt "  [1,") = throw UnexpectedEnd 5.
Proof.
  assert (Hl : blank (txt "  ")) by (repeat constructor).
  assert (Hn : txt "[1," <> []) by discriminate.
  exact (page_error_position (fun _ => []) (txt "  ") (txt "[1,") []
           (mkError UnexpectedEnd 3) Hl Hn eq_refl eq_refl).
Defined.

(** X24: an input of which [trim] leaves nothing is not parsed.  A click on
    Parse then asks for input, also right after a click on Clear, where
    [parseJSON] on the same input throws. *)
Theorem page_asks_for_input (stringify : JSONValue -> jsstring) (page : Page) :
  forallb isTrimmed (inputEl_value page) = true ->
  parseBtn_click stringify page
  = Ok (mkPage (inputEl_value page) (plain "Please enter JSON input."))
  /\ parseBtn_click stringify (clearBtn_click page)
     = Ok (mkPage [] (plain "Please enter JSON input."))
  /\ exists e, parseJSON (inputEl_value page) = Throw e.
Proof.
  intros H. split; [|split].
  - unfold parseBtn_click. cbv zeta.
    assert (T : trim (inputEl_value page) = []).
    { unfold trim. rewrite <- (app_nil_r (inputEl_value page)).
      rewrite (trimStart_lead _ [] H). reflexivity. }
    rewrite T. reflexivity.
  - reflexivity.
  - pose proof (parse_finishes numberIsFinite (inputEl_value page)) as F.
    unfold parseJSON.
    destruct (parse numberIsFinite (inputEl_value page)) as [v|e|] eqn:P;
      [|eauto|contradiction].
    exfalso.
    destruct (parse_trimmed numberIsFinite _ v P)
      as (lead & body & trail & E & Hl & Ht & Hv & Hs & Hk).
    destruct body as [|c body']; [destruct v as [|[|]| | | |]; discriminate|].
    cbn [nth_error] in Hk. apply startOf_isTrimmed in Hk.
    rewrite E, forallb_app in H. apply andb_true_iff in H. destruct H as [_ H].
    cbn [app forallb] in H. rewrite Hk in H. discriminate.
Qed.

Lemma page_asks_for_input_witness :
  parseBtn_click (fun _ => []) (mkPage (txt "  ") [])
  = Ok (mkPage (txt "  ") (plain "Please enter JSON input."))
  /\ parseBtn_click (fun _ => []) (clearBtn_click (mkPage (txt "  ") []))
     = Ok (mkPage [] (plain "Please enter JSON input."))
  /\ exists e, parseJSON (txt "  ") = Throw e.
Proof.
  exact (page_asks_for_input (fun _ => []) (mkPage (txt "  ") []) eq_refl).
Defined.
